(** * The IPAM reconciliation controller of kube-controllers

    A shallow embedding of
    [kube-controllers/pkg/controllers/node/ipam.go]: the controller's
    caches, the handlers that ingest syncer updates, the allocation scan,
    the garbage collection of confirmed leaks, the release of unused block
    affinities and the main worker loop, with the properties the
    specification states about them.

    Conventions.
    - A Go [map] is a [gmap]; a Go [string] is a [string]; a Go [int] or
      [time.Duration] is a [Z] (durations in nanoseconds).
    - [*allocation] values are shared between several caches and mutated
      in place; they live in an append-only arena ([heap]) and the caches
      hold their indices ([loc]).
    - Calls that leave the controller (Kubernetes listers and client, the
      Calico client, the IPAM client, parsing helpers of other packages)
      are fields of the record [Env]; the calls made to the IPAM client,
      the retry controller and the metrics refresh are recorded, in order,
      in the [trace] of the controller state.
    - The order in which Go's [range] visits a map is unspecified: [Env]
      carries the choice ([rangeOrder]) and every theorem holds for all
      choices. *)

From Stdlib Require Import ZArith String List Lia Bool.
From stdpp Require Import base option list gmap strings fin_maps pretty.

Local Open Scope string_scope.
Local Open Scope list_scope.
Local Open Scope nat_scope.

(** ** Errors and results *)

(** The error values the controller tells apart ([errors.IsNotFound] of
    the Kubernetes API machinery, [cerrors.ErrorResourceDoesNotExist],
    [*ErrorNotKubernetes]); every other error is [ErrOther]. *)
Inductive Error :=
  | ErrNotFound
  | ErrorResourceDoesNotExist
  | ErrorNotKubernetes
  | ErrOther (msg : string).

#[global] Instance Error_eq_dec : EqDecision Error.
Proof. solve_decision. Defined.

(** A Go pair [(value, err)] in which exactly one side is meaningful. *)
Inductive Res (A : Type) :=
  | Val (a : A)
  | Fail (e : Error).
Arguments Val {A} a.
Arguments Fail {A} e.

Definition IsNotFound (e : Error) : bool := bool_decide (e = ErrNotFound).
Definition IsResourceDoesNotExist (e : Error) : bool :=
  bool_decide (e = ErrorResourceDoesNotExist).
Definition IsNotKubernetes (e : Error) : bool :=
  bool_decide (e = ErrorNotKubernetes).

(** ** Kubernetes and Calico objects, as far as the controller reads them *)

Definition PodFailed : string := "Failed".

Record Pod := {
  Spec_NodeName : string;
  Status_PodIP : string;
  Status_PodIPs : list string;
  Status_Phase : string;
  Status_Reason : string;
}.

Record K8sNode := { Labels : gmap string string }.

Record CalicoNode := { Node_Name : string; Node_OrchRefs : list (string * string) }.

Record WorkloadEndpoint := { IPNetworks : list string }.

Record IPPool := { Pool_Name : string; Pool_CIDR : string }.

Record ClusterInformation := { DatastoreReady : option bool }.

(** [net.IP]: a byte slice of length 4 or 16. *)
Definition IP := list Z.

Definition v4InV6Prefix : list Z := [0; 0; 0; 0; 0; 0; 0; 0; 0; 0; 255; 255]%Z.

(** [net.IP.Equal]: equal slices, or an IPv4 address and its IPv4-in-IPv6
    form. *)
Definition IPEqual (ip x : IP) : bool :=
  if bool_decide (length ip = length x) then bool_decide (ip = x)
  else if bool_decide (length ip = 4 ∧ length x = 16)
  then bool_decide (take 12 x = v4InV6Prefix) && bool_decide (ip = drop 12 x)
  else if bool_decide (length ip = 16 ∧ length x = 4)
  then bool_decide (take 12 ip = v4InV6Prefix) && bool_decide (drop 12 ip = x)
  else false.

(** ** Blocks *)

Record AllocationAttribute := {
  AttrPrimary : option string;
  AttrSecondary : gmap string string;
}.

(** [model.AllocationBlock]: [Allocations] holds, per ordinal, [nil] or an
    index into [Attributes]. *)
Record AllocationBlock := {
  Affinity : option string;
  Allocations : list (option nat);
  Attributes : list AllocationAttribute;
  SequenceNumberForAllocation : gmap nat Z;
}.

(** Modelled from the spec: [GetSequenceNumberForOrdinal] belongs to the
    block model, which is not part of the controller's file; the
    specification gives a block a "sequence number per ordinal". An
    ordinal without a recorded number reads as zero, as a Go map does. *)
Definition GetSequenceNumberForOrdinal (b : AllocationBlock) (ord : nat) : Z :=
  default 0%Z (SequenceNumberForAllocation b !! ord).

(** ** Allocations and their leak state *)

(** Modelled from the spec: the allocation record and its methods live in
    another file of the package. Section 3 gives the leak state as one of
    Valid, Candidate (with the time of the transition) and Confirmed. *)
Inductive LeakState :=
  | Valid
  | Candidate (since : Z)
  | Confirmed.

#[global] Instance LeakState_eq_dec : EqDecision LeakState.
Proof. solve_decision. Defined.

(** The fields are those of the struct literal in [onBlockUpdated], plus
    [knode], which [checkAllocations] assigns, and the leak state. *)
Record allocation := {
  ip : string;
  handle : string;
  attrs : gmap string string;
  sequenceNumber : Z;
  block : string;
  knode : string;
  leak : LeakState;
}.

Definition set_knode (k : string) (a : allocation) : allocation :=
  {| ip := ip a; handle := handle a; attrs := attrs a;
     sequenceNumber := sequenceNumber a; block := block a;
     knode := k; leak := leak a |}.

Definition set_leak (s : LeakState) (a : allocation) : allocation :=
  {| ip := ip a; handle := handle a; attrs := attrs a;
     sequenceNumber := sequenceNumber a; block := block a;
     knode := knode a; leak := s |}.

(** Modelled from the spec: the attribute keys of the [ipam] package are
    not part of the source; section 3 names the secondary attributes
    "namespace, pod name, type" and derives the node from them. *)
Definition AttributeNamespace : string := "namespace".
Definition AttributePod : string := "pod".
Definition AttributeNode : string := "node".
Definition AttributeType : string := "type".
Definition AttributeTypeTunnel : string := "tunnel".

(** Reading a Go [map[string]string]: a missing key reads as [""]. *)
Definition attr (m : gmap string string) (k : string) : string :=
  default "" (m !! k).

Module Alloc.

(** Modelled from the spec: "Unique id = handle + sequence number +
    block + ordinal (any injective combination)"; the record carries the
    address, which stands for the ordinal within its block. *)
Definition id (a : allocation) : string :=
  handle a +:+ "/" +:+ pretty (sequenceNumber a) +:+ "/" +:+ block a
    +:+ "/" +:+ ip a.

(** Modelled from the spec: "Derived: node (from secondary
    attributes)". *)
Definition node (a : allocation) : string := attr (attrs a) AttributeNode.

(** Modelled from the spec: "presence of type=tunnel marks a tunnel
    address; presence of pod + namespace marks a pod IP". *)
Definition isTunnelAddress (a : allocation) : bool :=
  bool_decide (attrs a !! AttributeType = Some AttributeTypeTunnel).

Definition isPodIP (a : allocation) : bool :=
  negb (bool_decide (attr (attrs a) AttributePod = ""))
  && negb (bool_decide (attr (attrs a) AttributeNamespace = "")).

(** Modelled from the spec: "Any -> Valid when a subsequent check finds
    the pod (clears timers)". *)
Definition markValid (a : allocation) : allocation := set_leak Valid a.

(** Modelled from the spec: "markLeak(grace) sets state=Candidate with
    timestamp=now only if not already Candidate; on subsequent calls it
    checks elapsed time and promotes to Confirmed when elapsed >=
    grace". A confirmed leak stays confirmed. *)
Definition markLeak (now grace : Z) (a : allocation) : allocation :=
  match leak a with
  | Valid => set_leak (Candidate now) a
  | Candidate t0 =>
      if bool_decide (grace ≤ now - t0)%Z then set_leak Confirmed a else a
  | Confirmed => a
  end.

Definition markConfirmedLeak (a : allocation) : allocation :=
  set_leak Confirmed a.

Definition isConfirmedLeak (a : allocation) : bool :=
  bool_decide (leak a = Confirmed).

Definition isCandidateLeak (a : allocation) : bool :=
  match leak a with Candidate _ => true | _ => false end.

End Alloc.

(** [ipam.ReleaseOptions]: "address + handle + sequence number for
    optimistic release". *)
Record ReleaseOptions := {
  Address : string;
  Handle : string;
  SequenceNumber : Z;
}.

#[global] Instance ReleaseOptions_eq_dec : EqDecision ReleaseOptions.
Proof. solve_decision. Defined.

Definition ReleaseOptionsOf (a : allocation) : ReleaseOptions :=
  {| Address := ip a; Handle := handle a; SequenceNumber := sequenceNumber a |}.

(** ** The world outside the controller *)

Record Env := {
  (** [time.Now()], in nanoseconds. *)
  now : Z;
  (** the order in which a [range] visits the given keys *)
  rangeOrder : list string → list string;
  (** [c.podLister.Pods(ns).Get(pod)]: the informer cache *)
  podLister_Get : string → string → Res Pod;
  (** [c.clientset.CoreV1().Pods(ns).Get(...)]: the API server *)
  clientset_GetPod : string → string → Res Pod;
  (** [c.nodeLister.Get(knode)] *)
  nodeLister_Get : string → Res K8sNode;
  (** [c.client.Nodes().Get(...)] *)
  client_NodesGet : string → Res CalicoNode;
  (** [getK8sNodeName], defined in another file of the package *)
  getK8sNodeName : CalicoNode → Res string;
  (** [conversion.NewConverter().PodToWorkloadEndpoints(p)]; an element is
      [None] for a nil pair and [Some None] for a pair with a nil value *)
  PodToWorkloadEndpoints : Pod → Res (list (option (option WorkloadEndpoint)));
  (** [net.ParseCIDR], first result; [None] on a parse error *)
  ParseCIDR : string → option IP;
  (** [net.ParseIP]; [None] for Go's nil *)
  ParseIP : string → option IP;
  (** [ordinalToIP(b, ord).String()], a function of the block's CIDR *)
  ordinalToIP : string → nat → string;
  (** [flannelmigration.NodeNetworkCalico] *)
  NodeNetworkCalico : gmap string string;
  (** the reserved marker of Windows-reserved addresses *)
  isWindowsReserved : allocation → bool;
  (** the pool a block falls in, among the known pools *)
  poolContaining : gmap string IPPool → string → option string;
  (** [unknownPoolLabel] *)
  unknownPoolLabel : string;
  (** [c.client.IPAM().ReleaseIPs(ctx, opts...)]: the released options
      and the error *)
  ReleaseIPs : list ReleaseOptions → list ReleaseOptions * option Error;
  (** [c.client.IPAM().ReleaseBlockAffinity(ctx, block, true)] *)
  ReleaseBlockAffinity : AllocationBlock → option Error;
  (** [c.client.IPAM().ReleaseHostAffinities(ctx, cfg, true)] for the
      host [cnode] *)
  ReleaseHostAffinities : string → option Error;
}.

(** ** [allocationIsValid] *)

Section AllocationIsValid.
Variable E : Env.

(** The inner loop over [wep.Spec.IPNetworks]: [Some b] when the
    function returns [b] from inside the loop, [None] when the loop runs
    to its end. *)
Fixpoint scanIPNetworks (aip : string) (nws : list string) : option bool :=
  match nws with
  | [] => None
  | nw :: rest =>
      match ParseCIDR E nw with
      | None => Some true
      | Some ip' =>
          match ParseIP E aip with
          | None => Some true
          | Some allocIP =>
              if IPEqual allocIP ip' then Some true
              else scanIPNetworks aip rest
          end
      end
  end.

(** The outer loop over the converted pairs, and the final
    [return false]. *)
Fixpoint scanEndpoints (aip : string)
    (kvps : list (option (option WorkloadEndpoint))) : bool :=
  match kvps with
  | [] => false
  | None :: rest | Some None :: rest => scanEndpoints aip rest
  | Some (Some wep) :: rest =>
      match scanIPNetworks aip (IPNetworks wep) with
      | Some b => b
      | None => scanEndpoints aip rest
      end
  end.

Definition getPod (preferCache : bool) (ns pod : string) : Res Pod :=
  if preferCache then podLister_Get E ns pod else clientset_GetPod E ns pod.

Definition allocationIsValid (a : allocation) (preferCache : bool) : bool :=
  let ns := attr (attrs a) AttributeNamespace in
  let pod := attr (attrs a) AttributePod in
  if Alloc.isTunnelAddress a then negb (bool_decide (knode a = ""))
  else if bool_decide (ns = "") || bool_decide (pod = "") then true
  else
    match getPod preferCache ns pod with
    | Fail err => if negb (IsNotFound err) then true else false
    | Val p =>
        if negb (bool_decide (Spec_NodeName p = ""))
           && negb (bool_decide (knode a = ""))
           && negb (bool_decide (Spec_NodeName p = knode a))
        then false
        else if bool_decide (Status_PodIP p = "")
                || bool_decide (length (Status_PodIPs p) = 0)
        then true
        else if bool_decide (Status_Phase p = PodFailed)
                && bool_decide (Status_Reason p = "Evicted")
        then false
        else
          match PodToWorkloadEndpoints E p with
          | Fail _ => true
          | Val kvps => scanEndpoints (ip a) kvps
          end
    end.

(** *** The decision list of the specification *)

(** The IP networks of the workload endpoints derived from a pod. *)
Definition networksOf (kvps : list (option (option WorkloadEndpoint)))
    : list string :=
  concat (map (λ kvp, match kvp with
                      | Some (Some wep) => IPNetworks wep
                      | _ => []
                      end) kvps).

(** "the network equals [a.ip]": both parse and the addresses are
    equal. *)
Definition networkEquals (aip nw : string) : bool :=
  match ParseCIDR E nw, ParseIP E aip with
  | Some ip', Some allocIP => IPEqual allocIP ip'
  | _, _ => false
  end.

(** "the network settles the scan for validity": it does not parse, or
    the allocation's address does not parse, or the two are equal. *)
Definition networkKeeps (aip nw : string) : bool :=
  match ParseCIDR E nw, ParseIP E aip with
  | Some ip', Some allocIP => IPEqual allocIP ip'
  | _, _ => true
  end.

(** The clauses in the order the specification lists them; [last] decides
    the pods that pass every earlier clause. *)
Definition validityDecision (last : Pod → string → bool)
    (a : allocation) (preferCache : bool) : bool :=
  let ns := attr (attrs a) AttributeNamespace in
  let pod := attr (attrs a) AttributePod in
  if Alloc.isTunnelAddress a then negb (bool_decide (knode a = ""))
  else if bool_decide (ns = "") || bool_decide (pod = "") then true
  else
    match getPod preferCache ns pod with
    | Fail ErrNotFound => false
    | Fail _ => true
    | Val p =>
        if bool_decide (Spec_NodeName p ≠ "" ∧ knode a ≠ ""
                        ∧ Spec_NodeName p ≠ knode a)
        then false
        else if bool_decide (Status_PodIP p = "" ∨ Status_PodIPs p = [])
        then true
        else if bool_decide (Status_Phase p = PodFailed
                             ∧ Status_Reason p = "Evicted")
        then false
        else last p (ip a)
    end.

(** The last clause as the specification has it: "valid iff any matches
    [a.ip]". *)
Definition lastClause_stated (p : Pod) (aip : string) : bool :=
  match PodToWorkloadEndpoints E p with
  | Fail _ => false
  | Val kvps => existsb (networkEquals aip) (networksOf kvps)
  end.

(** The last clause as the code has it: a failed conversion and a parse
    error also count for validity. *)
Definition lastClause_code (p : Pod) (aip : string) : bool :=
  match PodToWorkloadEndpoints E p with
  | Fail _ => true
  | Val kvps => existsb (networkKeeps aip) (networksOf kvps)
  end.

End AllocationIsValid.

(** ** The controller's components *)

(** An index into the arena of [allocation] objects: a [*allocation]. *)
Abbreviation loc := nat (only parsing).

(** [bapi.SyncStatus]. *)
Inductive SyncStatus :=
  | WaitForDatastore
  | ResyncInProgress
  | InSync.

#[global] Instance SyncStatus_eq_dec : EqDecision SyncStatus.
Proof. solve_decision. Defined.

(** The calls whose order and arguments the properties speak about. *)
Inductive Event :=
  | IPAM_ReleaseIPs (opts : list ReleaseOptions)
  | IPAM_ReleaseBlockAffinity (blockCIDR : string) (b : AllocationBlock)
  | IPAM_ReleaseHostAffinities (cnode : string)
  | Retry_ScheduleRetry
  | Retry_Success
  | UpdateMetrics.

(** Modelled from the spec: the allocation state (section 4.3) is defined
    in another file of the package: "byNode: node -> (allocationId ->
    allocation)" and "dirtyNodes: set<node>". *)
Record AllocationState := {
  byNode : gmap string (gmap string loc);
  dirtyNodes : gset string;
}.

Module allocationState.

(** "allocate(a) adds a under a.node, marks node dirty." *)
Definition allocate (a : allocation) (l : loc) (s : AllocationState)
    : AllocationState :=
  {| byNode := <[Alloc.node a :=
                   <[Alloc.id a := l]> (default ∅ (byNode s !! Alloc.node a))]>
                 (byNode s);
     dirtyNodes := {[Alloc.node a]} ∪ dirtyNodes s |}.

(** "release(a) removes and marks node dirty (including a final iteration
    so last release is still observed)": the node keeps its entry, now
    possibly empty. *)
Definition release (a : allocation) (s : AllocationState) : AllocationState :=
  {| byNode := alter (delete (Alloc.id a)) (Alloc.node a) (byNode s);
     dirtyNodes := {[Alloc.node a]} ∪ dirtyNodes s |}.

(** "markDirtyPodDeleted(pod) marks pod.Spec.NodeName dirty (best-effort;
    unknown pod -> no-op)". *)
Definition markDirtyPodDeleted (pod : option Pod) (s : AllocationState)
    : AllocationState :=
  match pod with
  | None => s
  | Some p => {| byNode := byNode s;
                 dirtyNodes := {[Spec_NodeName p]} ∪ dirtyNodes s |}
  end.

(** "iter(f) visits every (node, allocations) pair." *)
Definition iter (s : AllocationState) : gmap string (gmap string loc) :=
  byNode s.

(** "iterDirty(f) visits only dirty nodes": each with its allocations,
    none when it has no entry. *)
Definition iterDirty (s : AllocationState) : gmap string (gmap string loc) :=
  set_to_map (λ n, (n, default ∅ (byNode s !! n))) (dirtyNodes s).

(** "syncComplete() clears the dirty set." *)
Definition syncComplete (s : AllocationState) : AllocationState :=
  {| byNode := byNode s; dirtyNodes := ∅ |}.

End allocationState.

(** Modelled from the spec: the handle tracker (section 4.2) is defined
    in another file of the package: "handle -> set<allocationId>". *)
Record HandleTracker := {
  allocationsByHandle : gmap string (gmap string loc);
}.

(** The allocation a reference points to is a confirmed leak. *)
Definition confirmedAt (h : list allocation) (l : loc) : bool :=
  match h !! l with
  | Some a => Alloc.isConfirmedLeak a
  | None => false
  end.

Module handleTracker.

(** "setAllocation(a) inserts". *)
Definition setAllocation (a : allocation) (l : loc) (t : HandleTracker)
    : HandleTracker :=
  {| allocationsByHandle :=
       <[handle a := <[Alloc.id a := l]>
                       (default ∅ (allocationsByHandle t !! handle a))]>
         (allocationsByHandle t) |}.

(** "removeAllocation(a) removes and, if the set becomes empty, drops the
    handle entry." *)
Definition removeAllocation (a : allocation) (t : HandleTracker)
    : HandleTracker :=
  match allocationsByHandle t !! handle a with
  | None => t
  | Some m =>
      let m' := delete (Alloc.id a) m in
      {| allocationsByHandle :=
           if bool_decide (m' = ∅) then delete (handle a) (allocationsByHandle t)
           else <[handle a := m']> (allocationsByHandle t) |}
  end.

(** "isConfirmedLeak(handle) returns true iff every allocation sharing
    that handle is in the Confirmed state." *)
Definition isConfirmedLeak (h : list allocation) (hdl : string)
    (t : HandleTracker) : bool :=
  bool_decide (map_Forall (λ _ l, confirmedAt h l = true)
                 (default ∅ (allocationsByHandle t !! hdl))).

End handleTracker.

(** Modelled from the spec: the block release tracker (section 4.4) is
    defined in another file of the package. A block with an entry in
    [emptySince] is in state EmptySince(t); one without is InUse. *)
Record BlockReleaseTracker := {
  gracePeriod : option Z;
  emptySince : gmap string Z;
}.

Module blockReleaseTracker.

(** "markInUse(c) transitions to InUse and clears any timer." *)
Definition markInUse (cidr : string) (t : BlockReleaseTracker)
    : BlockReleaseTracker :=
  {| gracePeriod := gracePeriod t; emptySince := delete cidr (emptySince t) |}.

(** "markEmpty(c) sets EmptySince(now) on first call and returns false;
    returns true on subsequent calls iff now - t >= gracePeriod. A nil
    grace period means markEmpty returns true immediately." *)
Definition markEmpty (now : Z) (cidr : string) (t : BlockReleaseTracker)
    : BlockReleaseTracker * bool :=
  match gracePeriod t with
  | None => (t, true)
  | Some g =>
      match emptySince t !! cidr with
      | None => ({| gracePeriod := gracePeriod t;
                    emptySince := <[cidr := now]> (emptySince t) |}, false)
      | Some t0 => (t, bool_decide (g ≤ now - t0)%Z)
      end
  end.

(** "onBlockDeleted(c) drops the entry." *)
Definition onBlockDeleted (cidr : string) (t : BlockReleaseTracker)
    : BlockReleaseTracker :=
  {| gracePeriod := gracePeriod t; emptySince := delete cidr (emptySince t) |}.

End blockReleaseTracker.

(** Modelled from the spec: the pool manager (section 4.1) is defined in
    another file of the package; the controller's file reads its
    [allPools], [blocksByPool] and [poolsByBlock]. *)
Record PoolManager := {
  allPools : gmap string IPPool;
  blocksByPool : gmap string (gset string);
  poolsByBlock : gmap string string;
}.

Module poolManager.

(** "On pool upsert: insert/update". *)
Definition onPoolUpdated (pool : IPPool) (m : PoolManager) : PoolManager :=
  {| allPools := <[Pool_Name pool := pool]> (allPools m);
     blocksByPool := blocksByPool m;
     poolsByBlock := poolsByBlock m |}.

(** "on pool delete: remove and scrub reverse entries". *)
Definition onPoolDeleted (poolName : string) (m : PoolManager) : PoolManager :=
  {| allPools := delete poolName (allPools m);
     blocksByPool := delete poolName (blocksByPool m);
     poolsByBlock := filter (λ kv, kv.2 ≠ poolName) (poolsByBlock m) |}.

(** "On block delete: drop both directions." *)
Definition onBlockDeleted (cidr : string) (m : PoolManager) : PoolManager :=
  {| allPools := allPools m;
     blocksByPool := (λ s : gset string, s ∖ {[cidr]}) <$> blocksByPool m;
     poolsByBlock := delete cidr (poolsByBlock m) |}.

(** "On block update: determine owning pool by longest-prefix or
    containment match against known pools, update both directions"; a
    block in no known pool goes under the unknown-pool label. *)
Definition onBlockUpdated (E : Env) (cidr : string) (m : PoolManager)
    : PoolManager :=
  let pool := default (unknownPoolLabel E) (poolContaining E (allPools m) cidr) in
  let m' := onBlockDeleted cidr m in
  {| allPools := allPools m';
     blocksByPool :=
       <[pool := {[cidr]} ∪ default ∅ (blocksByPool m' !! pool)]> (blocksByPool m');
     poolsByBlock := <[cidr := pool]> (poolsByBlock m') |}.

End poolManager.

(** Modelled from the spec: the retry controller (section 4.5) belongs to
    the [utils] package. [retryScheduled] holds while the timer of a
    retry is armed; [failures] is the number of delays the rate limiter
    has handed out since the last reset. *)
Record RetryController := {
  retryScheduled : bool;
  failures : nat;
}.

Module retryController.

(** "ScheduleRetry() - computes next delay; if a retry is already
    scheduled, do nothing; else arm a timer that enqueues a synthetic sync
    kick on expiry." *)
Definition ScheduleRetry (r : RetryController) : RetryController :=
  {| retryScheduled := true; failures := S (failures r) |}.

(** "Success() - resets the backoff for the sync key." *)
Definition Success (r : RetryController) : RetryController :=
  {| retryScheduled := retryScheduled r; failures := 0 |}.

(** The number of retries pending. *)
Definition pending (r : RetryController) : nat :=
  if retryScheduled r then 1 else 0.

End retryController.

(** ** The controller *)

Record IPAMController := {
  syncStatus : SyncStatus;
  (** maps Calico nodes to their Kubernetes node name *)
  kubernetesNodesByCalicoName : gmap string string;
  (** the kick channel, of capacity one: [true] when a kick is buffered *)
  syncChan : bool;
  (** raw block storage, keyed by CIDR (the block of the stored pair) *)
  allBlocks : gmap string AllocationBlock;
  allocationState : AllocationState;
  (** block CIDR to allocations keyed by their id *)
  allocationsByBlock : gmap string (gmap string loc);
  handleTracker : HandleTracker;
  (** allocations confirmed to be leaks and awaiting cleanup *)
  confirmedLeaks : gmap string loc;
  nodesByBlock : gmap string string;
  blocksByNode : gmap string (gmap string bool);
  blockReleaseTracker : BlockReleaseTracker;
  emptyBlocks : gmap string string;
  poolManager : PoolManager;
  datastoreReady : bool;
  fullSyncRequired : bool;
  retryController : RetryController;
  (** [c.config.LeakGracePeriod]: [None] for a nil pointer *)
  LeakGracePeriod : option Z;
  (** the [allocation] objects the caches point to *)
  heap : list allocation;
  (** the package-level counter vectors, by pool, then by node label *)
  gcReclamationCounters : gmap string (gmap string Z);
  (** the calls made so far, oldest first *)
  trace : list Event;
}.

(** Field updates. *)
Definition set_syncStatus (v : SyncStatus) (c : IPAMController)
    : IPAMController :=
  {| syncStatus := v;
     kubernetesNodesByCalicoName := kubernetesNodesByCalicoName c;
     syncChan := syncChan c; allBlocks := allBlocks c;
     allocationState := allocationState c;
     allocationsByBlock := allocationsByBlock c;
     handleTracker := handleTracker c; confirmedLeaks := confirmedLeaks c;
     nodesByBlock := nodesByBlock c; blocksByNode := blocksByNode c;
     blockReleaseTracker := blockReleaseTracker c;
     emptyBlocks := emptyBlocks c; poolManager := poolManager c;
     datastoreReady := datastoreReady c;
     fullSyncRequired := fullSyncRequired c;
     retryController := retryController c;
     LeakGracePeriod := LeakGracePeriod c; heap := heap c;
     gcReclamationCounters := gcReclamationCounters c; trace := trace c |}.

Definition set_kubernetesNodesByCalicoName (v : gmap string string) (c : IPAMController)
    : IPAMController :=
  {| syncStatus := syncStatus c; kubernetesNodesByCalicoName := v;
     syncChan := syncChan c; allBlocks := allBlocks c;
     allocationState := allocationState c;
     allocationsByBlock := allocationsByBlock c;
     handleTracker := handleTracker c; confirmedLeaks := confirmedLeaks c;
     nodesByBlock := nodesByBlock c; blocksByNode := blocksByNode c;
     blockReleaseTracker := blockReleaseTracker c;
     emptyBlocks := emptyBlocks c; poolManager := poolManager c;
     datastoreReady := datastoreReady c;
     fullSyncRequired := fullSyncRequired c;
     retryController := retryController c;
     LeakGracePeriod := LeakGracePeriod c; heap := heap c;
     gcReclamationCounters := gcReclamationCounters c; trace := trace c |}.

Definition set_syncChan (v : bool) (c : IPAMController)
    : IPAMController :=
  {| syncStatus := syncStatus c;
     kubernetesNodesByCalicoName := kubernetesNodesByCalicoName c;
     syncChan := v; allBlocks := allBlocks c;
     allocationState := allocationState c;
     allocationsByBlock := allocationsByBlock c;
     handleTracker := handleTracker c; confirmedLeaks := confirmedLeaks c;
     nodesByBlock := nodesByBlock c; blocksByNode := blocksByNode c;
     blockReleaseTracker := blockReleaseTracker c;
     emptyBlocks := emptyBlocks c; poolManager := poolManager c;
     datastoreReady := datastoreReady c;
     fullSyncRequired := fullSyncRequired c;
     retryController := retryController c;
     LeakGracePeriod := LeakGracePeriod c; heap := heap c;
     gcReclamationCounters := gcReclamationCounters c; trace := trace c |}.

Definition set_allBlocks (v : gmap string AllocationBlock) (c : IPAMController)
    : IPAMController :=
  {| syncStatus := syncStatus c;
     kubernetesNodesByCalicoName := kubernetesNodesByCalicoName c;
     syncChan := syncChan c; allBlocks := v;
     allocationState := allocationState c;
     allocationsByBlock := allocationsByBlock c;
     handleTracker := handleTracker c; confirmedLeaks := confirmedLeaks c;
     nodesByBlock := nodesByBlock c; blocksByNode := blocksByNode c;
     blockReleaseTracker := blockReleaseTracker c;
     emptyBlocks := emptyBlocks c; poolManager := poolManager c;
     datastoreReady := datastoreReady c;
     fullSyncRequired := fullSyncRequired c;
     retryController := retryController c;
     LeakGracePeriod := LeakGracePeriod c; heap := heap c;
     gcReclamationCounters := gcReclamationCounters c; trace := trace c |}.

Definition set_allocationState (v : AllocationState) (c : IPAMController)
    : IPAMController :=
  {| syncStatus := syncStatus c;
     kubernetesNodesByCalicoName := kubernetesNodesByCalicoName c;
     syncChan := syncChan c; allBlocks := allBlocks c; allocationState := v;
     allocationsByBlock := allocationsByBlock c;
     handleTracker := handleTracker c; confirmedLeaks := confirmedLeaks c;
     nodesByBlock := nodesByBlock c; blocksByNode := blocksByNode c;
     blockReleaseTracker := blockReleaseTracker c;
     emptyBlocks := emptyBlocks c; poolManager := poolManager c;
     datastoreReady := datastoreReady c;
     fullSyncRequired := fullSyncRequired c;
     retryController := retryController c;
     LeakGracePeriod := LeakGracePeriod c; heap := heap c;
     gcReclamationCounters := gcReclamationCounters c; trace := trace c |}.

Definition set_allocationsByBlock (v : gmap string (gmap string loc)) (c : IPAMController)
    : IPAMController :=
  {| syncStatus := syncStatus c;
     kubernetesNodesByCalicoName := kubernetesNodesByCalicoName c;
     syncChan := syncChan c; allBlocks := allBlocks c;
     allocationState := allocationState c; allocationsByBlock := v;
     handleTracker := handleTracker c; confirmedLeaks := confirmedLeaks c;
     nodesByBlock := nodesByBlock c; blocksByNode := blocksByNode c;
     blockReleaseTracker := blockReleaseTracker c;
     emptyBlocks := emptyBlocks c; poolManager := poolManager c;
     datastoreReady := datastoreReady c;
     fullSyncRequired := fullSyncRequired c;
     retryController := retryController c;
     LeakGracePeriod := LeakGracePeriod c; heap := heap c;
     gcReclamationCounters := gcReclamationCounters c; trace := trace c |}.

Definition set_handleTracker (v : HandleTracker) (c : IPAMController)
    : IPAMController :=
  {| syncStatus := syncStatus c;
     kubernetesNodesByCalicoName := kubernetesNodesByCalicoName c;
     syncChan := syncChan c; allBlocks := allBlocks c;
     allocationState := allocationState c;
     allocationsByBlock := allocationsByBlock c; handleTracker := v;
     confirmedLeaks := confirmedLeaks c; nodesByBlock := nodesByBlock c;
     blocksByNode := blocksByNode c;
     blockReleaseTracker := blockReleaseTracker c;
     emptyBlocks := emptyBlocks c; poolManager := poolManager c;
     datastoreReady := datastoreReady c;
     fullSyncRequired := fullSyncRequired c;
     retryController := retryController c;
     LeakGracePeriod := LeakGracePeriod c; heap := heap c;
     gcReclamationCounters := gcReclamationCounters c; trace := trace c |}.

Definition set_confirmedLeaks (v : gmap string loc) (c : IPAMController)
    : IPAMController :=
  {| syncStatus := syncStatus c;
     kubernetesNodesByCalicoName := kubernetesNodesByCalicoName c;
     syncChan := syncChan c; allBlocks := allBlocks c;
     allocationState := allocationState c;
     allocationsByBlock := allocationsByBlock c;
     handleTracker := handleTracker c; confirmedLeaks := v;
     nodesByBlock := nodesByBlock c; blocksByNode := blocksByNode c;
     blockReleaseTracker := blockReleaseTracker c;
     emptyBlocks := emptyBlocks c; poolManager := poolManager c;
     datastoreReady := datastoreReady c;
     fullSyncRequired := fullSyncRequired c;
     retryController := retryController c;
     LeakGracePeriod := LeakGracePeriod c; heap := heap c;
     gcReclamationCounters := gcReclamationCounters c; trace := trace c |}.

Definition set_nodesByBlock (v : gmap string string) (c : IPAMController)
    : IPAMController :=
  {| syncStatus := syncStatus c;
     kubernetesNodesByCalicoName := kubernetesNodesByCalicoName c;
     syncChan := syncChan c; allBlocks := allBlocks c;
     allocationState := allocationState c;
     allocationsByBlock := allocationsByBlock c;
     handleTracker := handleTracker c; confirmedLeaks := confirmedLeaks c;
     nodesByBlock := v; blocksByNode := blocksByNode c;
     blockReleaseTracker := blockReleaseTracker c;
     emptyBlocks := emptyBlocks c; poolManager := poolManager c;
     datastoreReady := datastoreReady c;
     fullSyncRequired := fullSyncRequired c;
     retryController := retryController c;
     LeakGracePeriod := LeakGracePeriod c; heap := heap c;
     gcReclamationCounters := gcReclamationCounters c; trace := trace c |}.

Definition set_blocksByNode (v : gmap string (gmap string bool)) (c : IPAMController)
    : IPAMController :=
  {| syncStatus := syncStatus c;
     kubernetesNodesByCalicoName := kubernetesNodesByCalicoName c;
     syncChan := syncChan c; allBlocks := allBlocks c;
     allocationState := allocationState c;
     allocationsByBlock := allocationsByBlock c;
     handleTracker := handleTracker c; confirmedLeaks := confirmedLeaks c;
     nodesByBlock := nodesByBlock c; blocksByNode := v;
     blockReleaseTracker := blockReleaseTracker c;
     emptyBlocks := emptyBlocks c; poolManager := poolManager c;
     datastoreReady := datastoreReady c;
     fullSyncRequired := fullSyncRequired c;
     retryController := retryController c;
     LeakGracePeriod := LeakGracePeriod c; heap := heap c;
     gcReclamationCounters := gcReclamationCounters c; trace := trace c |}.

Definition set_blockReleaseTracker (v : BlockReleaseTracker) (c : IPAMController)
    : IPAMController :=
  {| syncStatus := syncStatus c;
     kubernetesNodesByCalicoName := kubernetesNodesByCalicoName c;
     syncChan := syncChan c; allBlocks := allBlocks c;
     allocationState := allocationState c;
     allocationsByBlock := allocationsByBlock c;
     handleTracker := handleTracker c; confirmedLeaks := confirmedLeaks c;
     nodesByBlock := nodesByBlock c; blocksByNode := blocksByNode c;
     blockReleaseTracker := v; emptyBlocks := emptyBlocks c;
     poolManager := poolManager c; datastoreReady := datastoreReady c;
     fullSyncRequired := fullSyncRequired c;
     retryController := retryController c;
     LeakGracePeriod := LeakGracePeriod c; heap := heap c;
     gcReclamationCounters := gcReclamationCounters c; trace := trace c |}.

Definition set_emptyBlocks (v : gmap string string) (c : IPAMController)
    : IPAMController :=
  {| syncStatus := syncStatus c;
     kubernetesNodesByCalicoName := kubernetesNodesByCalicoName c;
     syncChan := syncChan c; allBlocks := allBlocks c;
     allocationState := allocationState c;
     allocationsByBlock := allocationsByBlock c;
     handleTracker := handleTracker c; confirmedLeaks := confirmedLeaks c;
     nodesByBlock := nodesByBlock c; blocksByNode := blocksByNode c;
     blockReleaseTracker := blockReleaseTracker c; emptyBlocks := v;
     poolManager := poolManager c; datastoreReady := datastoreReady c;
     fullSyncRequired := fullSyncRequired c;
     retryController := retryController c;
     LeakGracePeriod := LeakGracePeriod c; heap := heap c;
     gcReclamationCounters := gcReclamationCounters c; trace := trace c |}.

Definition set_poolManager (v : PoolManager) (c : IPAMController)
    : IPAMController :=
  {| syncStatus := syncStatus c;
     kubernetesNodesByCalicoName := kubernetesNodesByCalicoName c;
     syncChan := syncChan c; allBlocks := allBlocks c;
     allocationState := allocationState c;
     allocationsByBlock := allocationsByBlock c;
     handleTracker := handleTracker c; confirmedLeaks := confirmedLeaks c;
     nodesByBlock := nodesByBlock c; blocksByNode := blocksByNode c;
     blockReleaseTracker := blockReleaseTracker c;
     emptyBlocks := emptyBlocks c; poolManager := v;
     datastoreReady := datastoreReady c;
     fullSyncRequired := fullSyncRequired c;
     retryController := retryController c;
     LeakGracePeriod := LeakGracePeriod c; heap := heap c;
     gcReclamationCounters := gcReclamationCounters c; trace := trace c |}.

Definition set_datastoreReady (v : bool) (c : IPAMController)
    : IPAMController :=
  {| syncStatus := syncStatus c;
     kubernetesNodesByCalicoName := kubernetesNodesByCalicoName c;
     syncChan := syncChan c; allBlocks := allBlocks c;
     allocationState := allocationState c;
     allocationsByBlock := allocationsByBlock c;
     handleTracker := handleTracker c; confirmedLeaks := confirmedLeaks c;
     nodesByBlock := nodesByBlock c; blocksByNode := blocksByNode c;
     blockReleaseTracker := blockReleaseTracker c;
     emptyBlocks := emptyBlocks c; poolManager := poolManager c;
     datastoreReady := v; fullSyncRequired := fullSyncRequired c;
     retryController := retryController c;
     LeakGracePeriod := LeakGracePeriod c; heap := heap c;
     gcReclamationCounters := gcReclamationCounters c; trace := trace c |}.

Definition set_fullSyncRequired (v : bool) (c : IPAMController)
    : IPAMController :=
  {| syncStatus := syncStatus c;
     kubernetesNodesByCalicoName := kubernetesNodesByCalicoName c;
     syncChan := syncChan c; allBlocks := allBlocks c;
     allocationState := allocationState c;
     allocationsByBlock := allocationsByBlock c;
     handleTracker := handleTracker c; confirmedLeaks := confirmedLeaks c;
     nodesByBlock := nodesByBlock c; blocksByNode := blocksByNode c;
     blockReleaseTracker := blockReleaseTracker c;
     emptyBlocks := emptyBlocks c; poolManager := poolManager c;
     datastoreReady := datastoreReady c; fullSyncRequired := v;
     retryController := retryController c;
     LeakGracePeriod := LeakGracePeriod c; heap := heap c;
     gcReclamationCounters := gcReclamationCounters c; trace := trace c |}.

Definition set_retryController (v : RetryController) (c : IPAMController)
    : IPAMController :=
  {| syncStatus := syncStatus c;
     kubernetesNodesByCalicoName := kubernetesNodesByCalicoName c;
     syncChan := syncChan c; allBlocks := allBlocks c;
     allocationState := allocationState c;
     allocationsByBlock := allocationsByBlock c;
     handleTracker := handleTracker c; confirmedLeaks := confirmedLeaks c;
     nodesByBlock := nodesByBlock c; blocksByNode := blocksByNode c;
     blockReleaseTracker := blockReleaseTracker c;
     emptyBlocks := emptyBlocks c; poolManager := poolManager c;
     datastoreReady := datastoreReady c;
     fullSyncRequired := fullSyncRequired c; retryController := v;
     LeakGracePeriod := LeakGracePeriod c; heap := heap c;
     gcReclamationCounters := gcReclamationCounters c; trace := trace c |}.

Definition set_LeakGracePeriod (v : option Z) (c : IPAMController)
    : IPAMController :=
  {| syncStatus := syncStatus c;
     kubernetesNodesByCalicoName := kubernetesNodesByCalicoName c;
     syncChan := syncChan c; allBlocks := allBlocks c;
     allocationState := allocationState c;
     allocationsByBlock := allocationsByBlock c;
     handleTracker := handleTracker c; confirmedLeaks := confirmedLeaks c;
     nodesByBlock := nodesByBlock c; blocksByNode := blocksByNode c;
     blockReleaseTracker := blockReleaseTracker c;
     emptyBlocks := emptyBlocks c; poolManager := poolManager c;
     datastoreReady := datastoreReady c;
     fullSyncRequired := fullSyncRequired c;
     retryController := retryController c; LeakGracePeriod := v;
     heap := heap c; gcReclamationCounters := gcReclamationCounters c;
     trace := trace c |}.

Definition set_heap (v : list allocation) (c : IPAMController)
    : IPAMController :=
  {| syncStatus := syncStatus c;
     kubernetesNodesByCalicoName := kubernetesNodesByCalicoName c;
     syncChan := syncChan c; allBlocks := allBlocks c;
     allocationState := allocationState c;
     allocationsByBlock := allocationsByBlock c;
     handleTracker := handleTracker c; confirmedLeaks := confirmedLeaks c;
     nodesByBlock := nodesByBlock c; blocksByNode := blocksByNode c;
     blockReleaseTracker := blockReleaseTracker c;
     emptyBlocks := emptyBlocks c; poolManager := poolManager c;
     datastoreReady := datastoreReady c;
     fullSyncRequired := fullSyncRequired c;
     retryController := retryController c;
     LeakGracePeriod := LeakGracePeriod c; heap := v;
     gcReclamationCounters := gcReclamationCounters c; trace := trace c |}.

Definition set_gcReclamationCounters (v : gmap string (gmap string Z)) (c : IPAMController)
    : IPAMController :=
  {| syncStatus := syncStatus c;
     kubernetesNodesByCalicoName := kubernetesNodesByCalicoName c;
     syncChan := syncChan c; allBlocks := allBlocks c;
     allocationState := allocationState c;
     allocationsByBlock := allocationsByBlock c;
     handleTracker := handleTracker c; confirmedLeaks := confirmedLeaks c;
     nodesByBlock := nodesByBlock c; blocksByNode := blocksByNode c;
     blockReleaseTracker := blockReleaseTracker c;
     emptyBlocks := emptyBlocks c; poolManager := poolManager c;
     datastoreReady := datastoreReady c;
     fullSyncRequired := fullSyncRequired c;
     retryController := retryController c;
     LeakGracePeriod := LeakGracePeriod c; heap := heap c;
     gcReclamationCounters := v; trace := trace c |}.

Definition set_trace (v : list Event) (c : IPAMController)
    : IPAMController :=
  {| syncStatus := syncStatus c;
     kubernetesNodesByCalicoName := kubernetesNodesByCalicoName c;
     syncChan := syncChan c; allBlocks := allBlocks c;
     allocationState := allocationState c;
     allocationsByBlock := allocationsByBlock c;
     handleTracker := handleTracker c; confirmedLeaks := confirmedLeaks c;
     nodesByBlock := nodesByBlock c; blocksByNode := blocksByNode c;
     blockReleaseTracker := blockReleaseTracker c;
     emptyBlocks := emptyBlocks c; poolManager := poolManager c;
     datastoreReady := datastoreReady c;
     fullSyncRequired := fullSyncRequired c;
     retryController := retryController c;
     LeakGracePeriod := LeakGracePeriod c; heap := heap c;
     gcReclamationCounters := gcReclamationCounters c; trace := v |}.

(** [NewIPAMController], with the registration of the unknown pool's
    metric vectors that [init] performs. The zero value of
    [bapi.SyncStatus] is [WaitForDatastore]. *)
Definition NewIPAMController (E : Env) (cfgLeakGracePeriod : option Z)
    : IPAMController :=
  {| syncStatus := WaitForDatastore;
     kubernetesNodesByCalicoName := ∅;
     syncChan := false;
     allBlocks := ∅;
     allocationState := {| byNode := ∅; dirtyNodes := ∅ |};
     allocationsByBlock := ∅;
     handleTracker := {| allocationsByHandle := ∅ |};
     confirmedLeaks := ∅;
     nodesByBlock := ∅;
     blocksByNode := ∅;
     blockReleaseTracker :=
       {| gracePeriod := cfgLeakGracePeriod; emptySince := ∅ |};
     emptyBlocks := ∅;
     poolManager := {| allPools := ∅; blocksByPool := ∅; poolsByBlock := ∅ |};
     datastoreReady := true;
     fullSyncRequired := false;
     retryController := {| retryScheduled := false; failures := 0 |};
     LeakGracePeriod := cfgLeakGracePeriod;
     heap := [];
     gcReclamationCounters := {[unknownPoolLabel E := ∅]};
     trace := [] |}.

(** Recording a call. *)
Definition emit (e : Event) (c : IPAMController) : IPAMController :=
  set_trace (trace c ++ [e]) c.

(** Modelled from the spec: [kick] is defined in another file of the
    package; the kick channel is a "coalescing buffer of capacity 1;
    duplicate kicks coalesce". *)
Definition kick (c : IPAMController) : IPAMController := set_syncChan true c.

(** Updating the object a reference points to. *)
Definition updateAlloc (l : loc) (f : allocation → allocation)
    (c : IPAMController) : IPAMController :=
  set_heap (alter f l (heap c)) c.

(** Go's [for k, v := range m]: the keys of [m] in the order the
    environment picks, each with the value found under it when its turn
    comes (an entry deleted before its turn is not visited). *)
Definition rangeKeys {V} (E : Env) (m : gmap string V) : list string :=
  rangeOrder E (map_to_list m).*1.

(** ** Handling syncer updates *)

(** A [model.KVPair] by the type of its key; the value is [None] for a
    deletion. Keys the controller does not register for are [KVOther]. *)
Inductive KVPair :=
  | KVNode (name : string) (v : option CalicoNode)
  | KVIPPool (name : string) (v : option IPPool)
  | KVClusterInformation (name : string) (v : option ClusterInformation)
  | KVBlock (cidr : string) (v : option AllocationBlock)
  | KVOther.

(** What travels on the [syncerUpdates] channel. *)
Inductive SyncerUpdate :=
  | StatusUpdate (s : SyncStatus)
  | KVUpdate (kvp : KVPair).

(** [onStatusUpdate] and [onUpdate]: what each callback puts on the
    channel. *)
Definition onStatusUpdate (s : SyncStatus) : list SyncerUpdate :=
  [StatusUpdate s].

Definition onUpdate (kvp : KVPair) : list SyncerUpdate :=
  match kvp with
  | KVNode _ _ | KVIPPool _ _ | KVClusterInformation _ _ | KVBlock _ _ =>
      [KVUpdate kvp]
  | KVOther => []
  end.

Definition fullScanNextSync (c : IPAMController) : IPAMController :=
  if fullSyncRequired c then c else set_fullSyncRequired true c.

(** Of the metric vectors that [registerMetricVectorsForPool] creates,
    the reclamation counters are the ones the controller's behaviour
    depends on; the gauges are write-only and left out. *)
Definition registerMetricVectorsForPool (poolName : string)
    (c : IPAMController) : IPAMController :=
  set_gcReclamationCounters (<[poolName := ∅]> (gcReclamationCounters c)) c.

Definition unregisterMetricVectorsForPool (poolName : string)
    (c : IPAMController) : IPAMController :=
  set_gcReclamationCounters (delete poolName (gcReclamationCounters c)) c.

Definition clearReclaimedIPCountForNode (node : string) (c : IPAMController)
    : IPAMController :=
  set_gcReclamationCounters (delete node <$> gcReclamationCounters c) c.

Definition unknownNodeLabel : string := "unknown_node".

Definition incrementReclamationMetric (blockCIDR node : string)
    (c : IPAMController) : IPAMController :=
  let pool := attr (poolsByBlock (poolManager c)) blockCIDR in
  let node := if bool_decide (node = "") then unknownNodeLabel else node in
  match gcReclamationCounters c !! pool with
  | None => c
  | Some vec =>
      set_gcReclamationCounters
        (<[pool := <[node := (default 0 (vec !! node) + 1)%Z]> vec]>
           (gcReclamationCounters c)) c
  end.

Section Handlers.
Variable E : Env.

Definition handleNodeUpdate (name : string) (v : option CalicoNode)
    (c : IPAMController) : IPAMController :=
  match v with
  | Some n =>
      let kn := match getK8sNodeName E n with Val kn => kn | Fail _ => "" end in
      match kubernetesNodesByCalicoName c !! Node_Name n with
      | None =>
          set_kubernetesNodesByCalicoName
            (<[Node_Name n := kn]> (kubernetesNodesByCalicoName c)) c
      | Some current =>
          if bool_decide (current ≠ kn)
          then set_kubernetesNodesByCalicoName
                 (<[Node_Name n := kn]> (kubernetesNodesByCalicoName c)) c
          else c
      end
  | None =>
      match kubernetesNodesByCalicoName c !! name with
      | Some _ =>
          set_kubernetesNodesByCalicoName
            (delete name (kubernetesNodesByCalicoName c)) c
      | None => c
      end
  end.

Definition onPoolUpdated (pool : IPPool) (c : IPAMController)
    : IPAMController :=
  let c := match allPools (poolManager c) !! Pool_Name pool with
           | None => registerMetricVectorsForPool (Pool_Name pool) c
           | Some _ => c
           end in
  set_poolManager (poolManager.onPoolUpdated pool (poolManager c)) c.

Definition onPoolDeleted (poolName : string) (c : IPAMController)
    : IPAMController :=
  let c := unregisterMetricVectorsForPool poolName c in
  set_poolManager (poolManager.onPoolDeleted poolName (poolManager c)) c.

Definition handlePoolUpdate (name : string) (v : option IPPool)
    (c : IPAMController) : IPAMController :=
  match v with
  | Some pool => onPoolUpdated pool c
  | None => onPoolDeleted name c
  end.

Definition handleClusterInformationUpdate (v : option ClusterInformation)
    (c : IPAMController) : IPAMController :=
  match v with
  | Some ci =>
      match DatastoreReady ci with
      | Some ready => set_datastoreReady ready c
      | None => c
      end
  | None => set_datastoreReady false c
  end.

(** The affinity part of [onBlockUpdated]: the new caches and the local
    [n], the node the block is affine to ([""] when there is none). *)
Definition updateAffinity (blockCIDR : string) (b : AllocationBlock)
    (c : IPAMController) : IPAMController * string :=
  match Affinity b with
  | Some aff =>
      if String.prefix "host:" aff then
        let n := String.substring 5 (String.length aff - 5) aff in
        let c := set_nodesByBlock (<[blockCIDR := n]> (nodesByBlock c)) c in
        let c := set_blocksByNode
                   (<[n := <[blockCIDR := true]>
                             (default ∅ (blocksByNode c !! n))]>
                      (blocksByNode c)) c in
        (c, n)
      else (c, "")
  | None =>
      match nodesByBlock c !! blockCIDR with
      | Some n' =>
          let c := set_nodesByBlock (delete blockCIDR (nodesByBlock c)) c in
          (set_blocksByNode (alter (delete blockCIDR) n' (blocksByNode c)) c, "")
      | None => (c, "")
      end
  end.

(** The state of the loop over [b.Allocations]: the controller,
    [numAllocationsInBlock] and [currentAllocations]. *)
Definition ScanState : Type := IPAMController * Z * gset string.

(** One iteration, for the slot [idx] at ordinal [ord]; [None] is the
    run-time panic of an attribute index out of range. *)
Definition scanSlot (blockCIDR : string) (b : AllocationBlock) (ord : nat)
    (idx : option nat) (st : ScanState) : option ScanState :=
  let '(c, num, cur) := st in
  match idx with
  | None => Some st
  | Some i =>
      let num := (num + 1)%Z in
      match Attributes b !! i with
      | None => None
      | Some at' =>
          match AttrPrimary at' with
          | None => Some (c, num, cur)
          | Some hdl =>
              let alloc := {| ip := ordinalToIP E blockCIDR ord;
                              handle := hdl;
                              attrs := AttrSecondary at';
                              sequenceNumber := GetSequenceNumberForOrdinal b ord;
                              block := blockCIDR;
                              knode := "";
                              leak := Valid |} in
              let cur := {[Alloc.id alloc]} ∪ cur in
              match default ∅ (allocationsByBlock c !! blockCIDR)
                      !! Alloc.id alloc with
              | Some _ => Some (c, num, cur)
              | None =>
                  let l := length (heap c) in
                  let c := set_heap (heap c ++ [alloc]) c in
                  let c := set_allocationsByBlock
                             (<[blockCIDR :=
                                  <[Alloc.id alloc := l]>
                                    (default ∅ (allocationsByBlock c !! blockCIDR))]>
                                (allocationsByBlock c)) c in
                  let c := if negb (bool_decide (Alloc.node alloc = ""))
                           then set_allocationState
                                  (allocationState.allocate alloc l
                                     (allocationState c)) c
                           else c in
                  let c := set_handleTracker
                             (handleTracker.setAllocation alloc l
                                (handleTracker c)) c in
                  Some (c, num, cur)
              end
          end
      end
  end.

Fixpoint scanAllocations (blockCIDR : string) (b : AllocationBlock)
    (ord : nat) (slots : list (option nat)) (st : ScanState)
    : option ScanState :=
  match slots with
  | [] => Some st
  | idx :: rest =>
      match scanSlot blockCIDR b ord idx st with
      | None => None
      | Some st' => scanAllocations blockCIDR b (S ord) rest st'
      end
  end.

(** One iteration of the loop that removes the allocations no longer in
    the block. *)
Definition releaseStale (blockCIDR : string) (cur : gset string)
    (c : IPAMController) (id : string) : IPAMController :=
  match default ∅ (allocationsByBlock c !! blockCIDR) !! id with
  | None => c
  | Some l =>
      if bool_decide (id ∈ cur) then c
      else
        match heap c !! l with
        | None => c
        | Some alloc =>
            let c := set_handleTracker
                       (handleTracker.removeAllocation alloc (handleTracker c)) c in
            let c := set_allocationsByBlock
                       (alter (delete id) blockCIDR (allocationsByBlock c)) c in
            let c := if negb (bool_decide (Alloc.node alloc = ""))
                     then set_allocationState
                            (allocationState.release alloc (allocationState c)) c
                     else c in
            set_confirmedLeaks (delete id (confirmedLeaks c)) c
        end
  end.

(** The bookkeeping of empty blocks, between the two loops. *)
Definition noteEmptiness (blockCIDR n : string) (numAllocationsInBlock : Z)
    (c : IPAMController) : IPAMController :=
  let c := set_emptyBlocks (delete blockCIDR (emptyBlocks c)) c in
  if negb (bool_decide (n = "")) && bool_decide (numAllocationsInBlock = 0%Z)
  then set_emptyBlocks (<[blockCIDR := n]> (emptyBlocks c)) c
  else if negb (bool_decide (n = ""))
  then set_blockReleaseTracker
         (blockReleaseTracker.markInUse blockCIDR (blockReleaseTracker c)) c
  else c.

(** The loop over [c.allocationsByBlock[blockCIDR]]. *)
Definition releaseStaleAllocations (blockCIDR : string)
    (currentAllocations : gset string) (c : IPAMController) : IPAMController :=
  foldl (releaseStale blockCIDR currentAllocations) c
    (rangeKeys E (default ∅ (allocationsByBlock c !! blockCIDR))).

Definition onBlockUpdated (blockCIDR : string) (b : AllocationBlock)
    (c : IPAMController) : option IPAMController :=
  let '(c, n) := updateAffinity blockCIDR b c in
  match scanAllocations blockCIDR b 0 (Allocations b) (c, 0%Z, ∅) with
  | None => None
  | Some (c, numAllocationsInBlock, currentAllocations) =>
      let c := noteEmptiness blockCIDR n numAllocationsInBlock c in
      let c := releaseStaleAllocations blockCIDR currentAllocations c in
      let c := set_poolManager
                 (poolManager.onBlockUpdated E blockCIDR (poolManager c)) c in
      Some (set_allBlocks (<[blockCIDR := b]> (allBlocks c)) c)
  end.

(** One iteration of the loop of [onBlockDeleted] over the block's
    allocations. *)
Definition releaseDeleted (blockCIDR : string) (c : IPAMController)
    (id : string) : IPAMController :=
  match default ∅ (allocationsByBlock c !! blockCIDR) !! id with
  | None => c
  | Some l =>
      match heap c !! l with
      | None => c
      | Some alloc =>
          if negb (bool_decide (Alloc.node alloc = ""))
          then set_allocationState
                 (allocationState.release alloc (allocationState c)) c
          else c
      end
  end.

Definition onBlockDeleted (blockCIDR : string) (c : IPAMController)
    : IPAMController :=
  let c := foldl (releaseDeleted blockCIDR) c
             (rangeKeys E (default ∅ (allocationsByBlock c !! blockCIDR))) in
  let c := set_allocationsByBlock (delete blockCIDR (allocationsByBlock c)) c in
  let n := attr (nodesByBlock c) blockCIDR in
  let c := if negb (bool_decide (n = ""))
           then set_blocksByNode (alter (delete blockCIDR) n (blocksByNode c)) c
           else c in
  let c := set_allBlocks (delete blockCIDR (allBlocks c)) c in
  let c := set_nodesByBlock (delete blockCIDR (nodesByBlock c)) c in
  let c := set_emptyBlocks (delete blockCIDR (emptyBlocks c)) c in
  let c := set_blockReleaseTracker
             (blockReleaseTracker.onBlockDeleted blockCIDR (blockReleaseTracker c)) c in
  set_poolManager (poolManager.onBlockDeleted blockCIDR (poolManager c)) c.

Definition handleBlockUpdate (cidr : string) (v : option AllocationBlock)
    (c : IPAMController) : option IPAMController :=
  match v with
  | Some b => onBlockUpdated cidr b c
  | None => Some (onBlockDeleted cidr c)
  end.

(** [handleUpdate]; [None] when handling the update panics. *)
Definition handleUpdate (upd : SyncerUpdate) (c : IPAMController)
    : option IPAMController :=
  match upd with
  | StatusUpdate s =>
      let c := set_syncStatus s c in
      match s with
      | InSync => Some (kick c)
      | _ => Some c
      end
  | KVUpdate (KVNode name v) => Some (handleNodeUpdate name v c)
  | KVUpdate (KVIPPool name v) => Some (handlePoolUpdate name v c)
  | KVUpdate (KVClusterInformation _ v) =>
      Some (handleClusterInformationUpdate v c)
  | KVUpdate (KVBlock cidr v) => handleBlockUpdate cidr v c
  | KVUpdate KVOther => Some c
  end.

End Handlers.

(** ** The reconciliation engine *)

(** How a Go function returning [error] ends: it returns the error
    ([None] for [nil]), or the process dies in it (a [log.Fatalf]). *)
Inductive Exit :=
  | Return (err : option Error)
  | Died.

Definition Outcome : Type := IPAMController * Exit.

Definition maxBatchSize : Z := 10000.

Section Engine.
Variable E : Env.

Definition kubernetesNodeForCalico (c : IPAMController) (cnode : string)
    : Res string :=
  let lookup :=
    match client_NodesGet E cnode with
    | Fail err => if IsResourceDoesNotExist err then Val "" else Fail err
    | Val calicoNode => getK8sNodeName E calicoNode
    end in
  match kubernetesNodesByCalicoName c !! cnode with
  | Some kn => if negb (bool_decide (kn = "")) then Val kn else lookup
  | None => lookup
  end.

Definition nodeExists (knode : string) : bool :=
  match nodeLister_Get E knode with
  | Fail err => if IsNotFound err then false else true
  | Val _ => true
  end.

(** The node carries a migration label whose value is not the one of a
    migrated node. *)
Definition hasMigrationLabel (node : K8sNode) : bool :=
  existsb (λ '(labelName, labelVal),
             match NodeNetworkCalico E !! labelName with
             | Some migrationLabelValue =>
                 negb (bool_decide (labelVal = migrationLabelValue))
             | None => false
             end)
          (map_to_list (Labels node)).

Definition nodeIsBeingMigrated (c : IPAMController) (name : string)
    : Res bool :=
  match kubernetesNodeForCalico c name with
  | Fail err => Fail err
  | Val kname =>
      match nodeLister_Get E kname with
      | Fail err =>
          if IsNotFound err then Val false
          else Fail (ErrOther "failed to check node for migration status")
      | Val node => Val (hasMigrationLabel node)
      end
  end.

(** *** [checkAllocations] *)

(** The state of the loop over a node's allocations: the controller,
    [tunnelAddresses] and [canDelete]. *)
Definition NodeScan : Type := IPAMController * list loc * bool.

(** Keeping [confirmedLeaks] in step with the allocation's state, at the
    end of an iteration. *)
Definition indexLeak (l : loc) (c : IPAMController) : IPAMController :=
  match heap c !! l with
  | None => c
  | Some a =>
      if Alloc.isConfirmedLeak a
      then set_confirmedLeaks (<[Alloc.id a := l]> (confirmedLeaks c)) c
      else match confirmedLeaks c !! Alloc.id a with
           | Some _ => set_confirmedLeaks (delete (Alloc.id a) (confirmedLeaks c)) c
           | None => c
           end
  end.

(** One iteration of [for _, a := range allocations]. *)
Definition checkAllocation (knode : string) (kubernetesNodeExists : bool)
    (allocations : gmap string loc) (st : NodeScan) (id : string) : NodeScan :=
  let '(c, tunnelAddresses, canDelete) := st in
  match allocations !! id with
  | None => st
  | Some l =>
      let c := updateAlloc l (set_knode knode) c in
      match heap c !! l with
      | None => (c, tunnelAddresses, canDelete)
      | Some a =>
          if isWindowsReserved E a then (c, tunnelAddresses, canDelete)
          else if negb (Alloc.isPodIP a) && negb (Alloc.isTunnelAddress a)
          then (c, tunnelAddresses, false)
          else if Alloc.isTunnelAddress a
          then (c, tunnelAddresses ++ [l], canDelete)
          else if allocationIsValid E a true
          then (updateAlloc l Alloc.markValid c, tunnelAddresses, false)
          else
            let c :=
              if negb kubernetesNodeExists
              then updateAlloc l Alloc.markConfirmedLeak c
              else match LeakGracePeriod c with
                   | Some grace => updateAlloc l (Alloc.markLeak (now E) grace) c
                   | None => c
                   end in
            (indexLeak l c, tunnelAddresses, canDelete)
      end
  end.

(** Marking a deferred tunnel address for garbage collection. *)
Definition confirmTunnel (c : IPAMController) (l : loc) : IPAMController :=
  let c := updateAlloc l Alloc.markConfirmedLeak c in
  match heap c !! l with
  | None => c
  | Some a => set_confirmedLeaks (<[Alloc.id a := l]> (confirmedLeaks c)) c
  end.

(** One iteration of [for cnode, allocations := range nodesToCheck]; the
    state is the controller and [nodesToRelease]. *)
Definition checkNode (nodesToCheck : gmap string (gmap string loc))
    (st : IPAMController * list string) (cnode : string)
    : IPAMController * list string :=
  let '(c, nodesToRelease) := st in
  match nodesToCheck !! cnode with
  | None => st
  | Some allocations =>
      match kubernetesNodeForCalico c cnode with
      | Fail err =>
          (* both kinds of error are logged and the node is skipped *)
          if negb (IsNotKubernetes err) then st else st
      | Val knode =>
          let kubernetesNodeExists :=
            negb (bool_decide (knode = "")) && nodeExists knode in
          let '(c, tunnelAddresses, canDelete) :=
            foldl (checkAllocation knode kubernetesNodeExists allocations)
                  (c, [], true) (rangeKeys E allocations) in
          if negb kubernetesNodeExists then
            if negb canDelete then (c, nodesToRelease)
            else (foldl confirmTunnel c tunnelAddresses,
                  nodesToRelease ++ [cnode])
          else (c, nodesToRelease)
      end
  end.

(** The nodes a scan looks at, each with its allocations (none for a node
    that only has affine blocks). *)
Definition nodesToCheckFull (c : IPAMController)
    : gmap string (gmap string loc) :=
  allocationState.iter (allocationState c)
  ∪ list_to_map ((λ node, (node, ∅)) <$> (map_to_list (nodesByBlock c)).*2).

Definition checkAllocations (c : IPAMController)
    : IPAMController * list string * option Error :=
  let '(c, nodesToCheck) :=
    if fullSyncRequired c
    then (set_fullSyncRequired false c, nodesToCheckFull c)
    else (c, allocationState.iterDirty (allocationState c)) in
  let '(c, nodesToRelease) :=
    foldl (checkNode nodesToCheck) (c, []) (rangeKeys E nodesToCheck) in
  (c, nodesToRelease, None).

(** *** [garbageCollectKnownLeaks] *)

(** The state of the loop over [confirmedLeaks]: the controller, [opts]
    and [leaks]. *)
Definition GCState : Type :=
  IPAMController * list ReleaseOptions * gmap string loc.

(** One iteration; the flag tells whether the loop breaks after it. *)
Definition gcVisit (st : GCState) (id : string) : GCState * bool :=
  let '(c, opts, leaks) := st in
  match confirmedLeaks c !! id with
  | None => (st, false)
  | Some l =>
      match heap c !! l with
      | None => (st, false)
      | Some a =>
          if allocationIsValid E a (bool_decide (knode a = "")) then
            let c := set_confirmedLeaks (delete id (confirmedLeaks c)) c in
            ((updateAlloc l Alloc.markValid c, opts, leaks), false)
          else if negb (handleTracker.isConfirmedLeak
                          (heap c) (handle a) (handleTracker c))
          then (st, false)
          else
            let opts := opts ++ [ReleaseOptionsOf a] in
            let leaks := <[Address (ReleaseOptionsOf a) := l]> leaks in
            ((c, opts, leaks), bool_decide (maxBatchSize ≤ Z.of_nat (length opts))%Z)
      end
  end.

Fixpoint gcCollect (ids : list string) (st : GCState) : GCState :=
  match ids with
  | [] => st
  | id :: rest =>
      match gcVisit st id with
      | (st', true) => st'
      | (st', false) => gcCollect rest st'
      end
  end.

(** One iteration of the loop over [releasedOpts]; the flag is raised by
    the [log.Fatalf] for an option that matches no allocation of the
    batch, after which nothing runs. *)
Definition gcReleased (st : IPAMController * gmap string loc * bool)
    (opt : ReleaseOptions) : IPAMController * gmap string loc * bool :=
  let '(c, leaks, dead) := st in
  if dead then st
  else
    match leaks !! Address opt with
    | None => (c, leaks, true)
    | Some l =>
        match heap c !! l with
        | None => (c, leaks, true)
        | Some a =>
            let c := set_allocationState
                       (allocationState.release a (allocationState c)) c in
            let c := incrementReclamationMetric (block a) (Alloc.node a) c in
            let c := set_confirmedLeaks (delete (Alloc.id a) (confirmedLeaks c)) c in
            (c, delete (Address opt) leaks, false)
        end
    end.

Definition garbageCollectKnownLeaks (c : IPAMController) : Outcome :=
  let '(c, opts, leaks) :=
    gcCollect (rangeKeys E (confirmedLeaks c)) (c, [], ∅) in
  if bool_decide (length opts = 0) then (c, Return None)
  else
    let c := emit (IPAM_ReleaseIPs opts) c in
    let '(releasedOpts, err) := ReleaseIPs E opts in
    match foldl gcReleased (c, leaks, false) releasedOpts with
    | (c, _, true) => (c, Died)
    | (c, _, false) =>
        match err with
        | Some e => if negb (IsResourceDoesNotExist e) then (c, Return (Some e))
                    else (c, Return None)
        | None => (c, Return None)
        end
    end.

(** *** [releaseUnusedBlocks] *)

(** One iteration of [for blockCIDR, node := range c.emptyBlocks]. *)
Definition releaseUnusedBlock (c : IPAMController) (blockCIDR : string)
    : IPAMController :=
  match emptyBlocks c !! blockCIDR with
  | None => c
  | Some node =>
      let nodeBlocks := default ∅ (blocksByNode c !! node) in
      if bool_decide (size nodeBlocks ≤ 1)%nat then c
      else
        let inUse := set_blockReleaseTracker
                       (blockReleaseTracker.markInUse blockCIDR
                          (blockReleaseTracker c)) c in
        match nodeIsBeingMigrated c node with
        | Fail _ => inUse
        | Val true => inUse
        | Val false =>
            let '(t, elapsed) :=
              blockReleaseTracker.markEmpty (now E) blockCIDR
                (blockReleaseTracker c) in
            let c := set_blockReleaseTracker t c in
            if negb elapsed then c
            else
              match allBlocks c !! blockCIDR with
              | None => c
              | Some b =>
                  let c := emit (IPAM_ReleaseBlockAffinity blockCIDR b) c in
                  match ReleaseBlockAffinity E b with
                  | Some _ => c
                  | None =>
                      let c := set_emptyBlocks (delete blockCIDR (emptyBlocks c)) c in
                      let c := set_blocksByNode
                                 (alter (delete blockCIDR) node (blocksByNode c)) c in
                      let c := set_nodesByBlock (delete blockCIDR (nodesByBlock c)) c in
                      let c := set_allBlocks (delete blockCIDR (allBlocks c)) c in
                      let c := set_blockReleaseTracker
                                 (blockReleaseTracker.onBlockDeleted blockCIDR
                                    (blockReleaseTracker c)) c in
                      set_poolManager
                        (poolManager.onBlockDeleted blockCIDR (poolManager c)) c
                  end
              end
        end
  end.

Definition releaseUnusedBlocks (c : IPAMController)
    : IPAMController * option Error :=
  (foldl releaseUnusedBlock c (rangeKeys E (emptyBlocks c)), None).

(** *** [releaseNodes] *)

Definition cleanupNode (c : IPAMController) (cnode : string)
    : IPAMController * option Error :=
  let c := emit (IPAM_ReleaseHostAffinities cnode) c in
  match ReleaseHostAffinities E cnode with
  | Some err => (c, Some err)
  | None => (clearReclaimedIPCountForNode cnode c, None)
  end.

Definition releaseNode (st : IPAMController * option Error) (cnode : string)
    : IPAMController * option Error :=
  let '(c, storedErr) := st in
  match cleanupNode c cnode with
  | (c, Some err) => (c, Some err)
  | (c, None) => (c, storedErr)
  end.

Definition releaseNodes (nodes : list string) (c : IPAMController)
    : IPAMController * option Error :=
  if bool_decide (length nodes = 0) then (c, None)
  else foldl releaseNode (c, None) nodes.

(** *** [syncIPAM] *)

Definition syncIPAM (c : IPAMController) : Outcome :=
  if negb (datastoreReady c) then (c, Return None)
  else if negb (bool_decide (syncStatus c = InSync)) then (c, Return None)
  else
    match checkAllocations c with
    | (c, _, Some err) => (c, Return (Some err))
    | (c, nodesToRelease, None) =>
        match garbageCollectKnownLeaks c with
        | (c, Died) => (c, Died)
        | (c, Return (Some err)) => (c, Return (Some err))
        | (c, Return None) =>
            match releaseUnusedBlocks c with
            | (c, Some err) => (c, Return (Some err))
            | (c, None) =>
                match releaseNodes nodesToRelease c with
                | (c, Some err) => (c, Return (Some err))
                | (c, None) =>
                    let c := set_allocationState
                               (allocationState.syncComplete (allocationState c)) c in
                    if bool_decide (0 < size (confirmedLeaks c))%nat
                    then (kick c, Return None)
                    else (c, Return None)
                end
            end
        end
    end.

(** The body of [updateMetrics] only writes gauges; the call is
    recorded. *)
Definition updateMetrics (c : IPAMController) : IPAMController :=
  emit UpdateMetrics c.

(** ** The main loop *)

(** What wakes up [acceptScheduleRequests]. A batch is what
    [utils.ProcessBatch] drains from the channel during the consolidation
    window, the received item first. *)
Inductive Wakeup :=
  | NodeDeletion (more : nat)
  | PodDeletion (pods : list (option Pod))
  | SyncerUpdates (upds : list SyncerUpdate)
  | Tick
  | SyncKick
  | PauseRequest
  | Stop.

(** Modelled from the spec: [utils.ProcessBatch] hands each item of the
    batch to the handler, in order. *)
Definition processUpdates (upds : list SyncerUpdate) (c : IPAMController)
    : option IPAMController :=
  foldl (λ oc upd, match oc with
                   | None => None
                   | Some c => handleUpdate E upd c
                   end) (Some c) upds.

(** One turn of the [for { select { ... } }] of
    [acceptScheduleRequests]; [None] when the process dies in it. *)
Definition acceptScheduleRequest (w : Wakeup) (c : IPAMController)
    : option IPAMController :=
  match w with
  | NodeDeletion _ => Some (kick (fullScanNextSync c))
  | PodDeletion pods =>
      let c := set_allocationState
                 (foldl (λ s p, allocationState.markDirtyPodDeleted p s)
                    (allocationState c) pods) c in
      Some (kick c)
  | SyncerUpdates upds =>
      match processUpdates upds c with
      | None => None
      | Some c => Some (kick c)
      end
  | Tick =>
      let c := fullScanNextSync c in
      match syncIPAM c with
      | (_, Died) => None
      | (c, Return _) => Some c
      end
  | SyncKick =>
      let c := set_syncChan false c in
      match syncIPAM c with
      | (_, Died) => None
      | (c, Return (Some _)) =>
          let c := emit Retry_ScheduleRetry c in
          let c := set_retryController
                     (retryController.ScheduleRetry (retryController c)) c in
          Some (updateMetrics c)
      | (c, Return None) =>
          let c := emit Retry_Success c in
          let c := set_retryController
                     (retryController.Success (retryController c)) c in
          Some (updateMetrics c)
      end
  | PauseRequest => Some c
  | Stop => Some c
  end.

End Engine.

(** The period of the ticker in [acceptScheduleRequests]. Durations are
    in nanoseconds; Go's division of integers truncates. *)
Definition Minute : Z := 60 * 1000000000.

Definition period (leakGracePeriod : option Z) : Z :=
  match leakGracePeriod with
  | Some d => if bool_decide (0 < d)%Z then Z.quot d 2 else (5 * Minute)%Z
  | None => (5 * Minute)%Z
  end.

(** ** Notions used by the statements *)

(** The calls made between two states of one run: what the later trace
    adds to the earlier one. *)
Definition callsDuring (c c' : IPAMController) : list Event :=
  drop (length (trace c)) (trace c').

(** The ticker period, as the specification words it. *)
Definition periodStated (leakGracePeriod : option Z) : Z :=
  match leakGracePeriod with
  | Some d => Z.max (5 * Minute) (Z.quot d 2)
  | None => (5 * Minute)%Z
  end.

(** ** Scenarios *)

(** A cluster with no pods, no Kubernetes nodes and no Calico node
    resources, in which every IPAM call succeeds and releases all it is
    asked to. Maps are visited in the order of their sorted keys. *)
Definition E0 : Env :=
  {| now := 1000;
     rangeOrder := λ keys, keys;
     podLister_Get := λ _ _, Fail ErrNotFound;
     clientset_GetPod := λ _ _, Fail ErrNotFound;
     nodeLister_Get := λ _, Fail ErrNotFound;
     client_NodesGet := λ _, Fail ErrorResourceDoesNotExist;
     getK8sNodeName := λ n,
       match filter (λ ref, ref.1 = "k8s") (Node_OrchRefs n) with
       | (_, name) :: _ =>
           if bool_decide (name = "") then Fail ErrorNotKubernetes else Val name
       | [] => Fail ErrorNotKubernetes
       end;
     PodToWorkloadEndpoints := λ p,
       Val [Some (Some {| IPNetworks := (λ i, i +:+ "/32") <$> Status_PodIPs p |})];
     ParseCIDR := λ s,
       if bool_decide (s = "10.0.0.1/32") then Some [10; 0; 0; 1]%Z
       else if bool_decide (s = "10.0.0.2/32") then Some [10; 0; 0; 2]%Z
       else None;
     ParseIP := λ s,
       if bool_decide (s = "10.0.0.1") then Some [10; 0; 0; 1]%Z
       else if bool_decide (s = "10.0.0.2") then Some [10; 0; 0; 2]%Z
       else None;
     ordinalToIP := λ cidr ord, "10.0.0." +:+ pretty ord;
     NodeNetworkCalico := {["networking.projectcalico.org/name" := "calico"]};
     isWindowsReserved := λ a, bool_decide (handle a = "windows-reserved-ipam-handle");
     poolContaining := λ _ _, None;
     unknownPoolLabel := "no_ippool";
     ReleaseIPs := λ opts, (opts, None);
     ReleaseBlockAffinity := λ _, None;
     ReleaseHostAffinities := λ _, None |}.

(** The attributes of an address handed to pod [ns1/p1] on node [n1]. *)
Definition podAttrs : gmap string string :=
  {[AttributeNamespace := "ns1"; AttributePod := "p1"; AttributeNode := "n1"]}.

Definition podAlloc : allocation :=
  {| ip := "10.0.0.1"; handle := "h1"; attrs := podAttrs;
     sequenceNumber := 0; block := "10.0.0.0/26"; knode := "n1";
     leak := Confirmed |}.

(** Pod [ns1/p1], running on [n1], whose reported address is malformed:
    its last octet is above 255, so that neither [net.ParseIP] nor, with
    a prefix length appended, [net.ParseCIDR] accepts it; nor do the
    parsers of [E0]. *)
Definition podBadIP : Pod :=
  {| Spec_NodeName := "n1"; Status_PodIP := "10.0.0.300";
     Status_PodIPs := ["10.0.0.300"]; Status_Phase := "Running";
     Status_Reason := "" |}.


(** Variants of a cluster. *)
Definition with_podLister_Get (v : string → string → Res Pod) (E : Env) : Env :=
  {| now := now E; rangeOrder := rangeOrder E; podLister_Get := v;
     clientset_GetPod := clientset_GetPod E;
     nodeLister_Get := nodeLister_Get E;
     client_NodesGet := client_NodesGet E;
     getK8sNodeName := getK8sNodeName E;
     PodToWorkloadEndpoints := PodToWorkloadEndpoints E;
     ParseCIDR := ParseCIDR E; ParseIP := ParseIP E;
     ordinalToIP := ordinalToIP E; NodeNetworkCalico := NodeNetworkCalico E;
     isWindowsReserved := isWindowsReserved E;
     poolContaining := poolContaining E;
     unknownPoolLabel := unknownPoolLabel E; ReleaseIPs := ReleaseIPs E;
     ReleaseBlockAffinity := ReleaseBlockAffinity E;
     ReleaseHostAffinities := ReleaseHostAffinities E |}.
Definition with_client_NodesGet (v : string → Res CalicoNode) (E : Env) : Env :=
  {| now := now E; rangeOrder := rangeOrder E;
     podLister_Get := podLister_Get E;
     clientset_GetPod := clientset_GetPod E;
     nodeLister_Get := nodeLister_Get E; client_NodesGet := v;
     getK8sNodeName := getK8sNodeName E;
     PodToWorkloadEndpoints := PodToWorkloadEndpoints E;
     ParseCIDR := ParseCIDR E; ParseIP := ParseIP E;
     ordinalToIP := ordinalToIP E; NodeNetworkCalico := NodeNetworkCalico E;
     isWindowsReserved := isWindowsReserved E;
     poolContaining := poolContaining E;
     unknownPoolLabel := unknownPoolLabel E; ReleaseIPs := ReleaseIPs E;
     ReleaseBlockAffinity := ReleaseBlockAffinity E;
     ReleaseHostAffinities := ReleaseHostAffinities E |}.
Definition with_ReleaseIPs (v : list ReleaseOptions → list ReleaseOptions * option Error) (E : Env) : Env :=
  {| now := now E; rangeOrder := rangeOrder E;
     podLister_Get := podLister_Get E;
     clientset_GetPod := clientset_GetPod E;
     nodeLister_Get := nodeLister_Get E;
     client_NodesGet := client_NodesGet E;
     getK8sNodeName := getK8sNodeName E;
     PodToWorkloadEndpoints := PodToWorkloadEndpoints E;
     ParseCIDR := ParseCIDR E; ParseIP := ParseIP E;
     ordinalToIP := ordinalToIP E; NodeNetworkCalico := NodeNetworkCalico E;
     isWindowsReserved := isWindowsReserved E;
     poolContaining := poolContaining E;
     unknownPoolLabel := unknownPoolLabel E; ReleaseIPs := v;
     ReleaseBlockAffinity := ReleaseBlockAffinity E;
     ReleaseHostAffinities := ReleaseHostAffinities E |}.
Definition with_ReleaseHostAffinities (v : string → option Error) (E : Env) : Env :=
  {| now := now E; rangeOrder := rangeOrder E;
     podLister_Get := podLister_Get E;
     clientset_GetPod := clientset_GetPod E;
     nodeLister_Get := nodeLister_Get E;
     client_NodesGet := client_NodesGet E;
     getK8sNodeName := getK8sNodeName E;
     PodToWorkloadEndpoints := PodToWorkloadEndpoints E;
     ParseCIDR := ParseCIDR E; ParseIP := ParseIP E;
     ordinalToIP := ordinalToIP E; NodeNetworkCalico := NodeNetworkCalico E;
     isWindowsReserved := isWindowsReserved E;
     poolContaining := poolContaining E;
     unknownPoolLabel := unknownPoolLabel E; ReleaseIPs := ReleaseIPs E;
     ReleaseBlockAffinity := ReleaseBlockAffinity E;
     ReleaseHostAffinities := v |}.
Definition with_PodToWorkloadEndpoints
    (v : Pod → Res (list (option (option WorkloadEndpoint)))) (E : Env) : Env :=
  {| now := now E; rangeOrder := rangeOrder E;
     podLister_Get := podLister_Get E;
     clientset_GetPod := clientset_GetPod E;
     nodeLister_Get := nodeLister_Get E;
     client_NodesGet := client_NodesGet E;
     getK8sNodeName := getK8sNodeName E;
     PodToWorkloadEndpoints := v;
     ParseCIDR := ParseCIDR E; ParseIP := ParseIP E;
     ordinalToIP := ordinalToIP E; NodeNetworkCalico := NodeNetworkCalico E;
     isWindowsReserved := isWindowsReserved E;
     poolContaining := poolContaining E;
     unknownPoolLabel := unknownPoolLabel E; ReleaseIPs := ReleaseIPs E;
     ReleaseBlockAffinity := ReleaseBlockAffinity E;
     ReleaseHostAffinities := ReleaseHostAffinities E |}.

(** What the scan leaves alone: it makes no call and does not touch the
    retry controller, the kick channel, the status or the configuration. *)
Definition scanFrame (c c' : IPAMController) : Prop :=
  trace c' = trace c
  ∧ retryController c' = retryController c
  ∧ syncChan c' = syncChan c
  ∧ syncStatus c' = syncStatus c
  ∧ datastoreReady c' = datastoreReady c
  ∧ LeakGracePeriod c' = LeakGracePeriod c.

(** The options a garbage collection gathers from [confirmedLeaks]. *)
Definition gcBatch (E : Env) (c : IPAMController) : list ReleaseOptions :=
  (gcCollect E (rangeKeys E (confirmedLeaks c)) (c, [], ∅)).1.2.



(** The objects of [h'] are those of [h], some of them marked valid
    since. *)
Definition agedHeap (h h' : list allocation) : Prop :=
  Forall2 (λ a a', a' = a ∨ a' = Alloc.markValid a) h h'.

(** What every phase of a sync leaves alone: the retry controller, the
    status, the readiness flag and the configuration. *)
Definition controlFrame (c c' : IPAMController) : Prop :=
  retryController c' = retryController c
  ∧ syncStatus c' = syncStatus c
  ∧ datastoreReady c' = datastoreReady c
  ∧ LeakGracePeriod c' = LeakGracePeriod c.

(** The calls that release affinities. *)
Definition isAffinityRelease (e : Event) : Prop :=
  match e with
  | IPAM_ReleaseBlockAffinity _ _ | IPAM_ReleaseHostAffinities _ => True
  | _ => False
  end.

(** The calls to the IPAM client. *)
Definition isIPAMCall (e : Event) : Prop :=
  match e with
  | IPAM_ReleaseIPs _ | IPAM_ReleaseBlockAffinity _ _
  | IPAM_ReleaseHostAffinities _ => True
  | _ => False
  end.


(** The block with the slot at an ordinal unallocated. *)
Definition clearSlot (ord : nat) (b : AllocationBlock) : AllocationBlock :=
  {| Affinity := Affinity b;
     Allocations := <[ord := None]> (Allocations b);
     Attributes := Attributes b;
     SequenceNumberForAllocation := SequenceNumberForAllocation b |}.

(** The controller without what it keeps per block for the release of
    affinities: the raw blocks, the empty blocks and the release tracker.
    Two controllers with the same image have the same allocation objects,
    [allocationsByBlock], [allocationState], [handleTracker],
    [confirmedLeaks], node and pool indices. *)
Definition forgetBlocks (c : IPAMController) : IPAMController :=
  set_emptyBlocks ∅
    (set_blockReleaseTracker {| gracePeriod := None; emptySince := ∅ |}
       (set_allBlocks ∅ c)).

(** The options the garbage collection of the next sync gathers, after
    its scan. *)
Definition nextBatch (E : Env) (c : IPAMController) : list ReleaseOptions :=
  gcBatch E (checkAllocations E c).1.1.

(** The state of the loop over a block's slots with [d] more allocations
    counted. *)
Definition bumpScan (d : Z) (st : ScanState) : ScanState :=
  (st.1.1, (st.1.2 + d)%Z, st.2).

(** The index of confirmed leaks is well formed: an allocation is indexed
    under its own id. *)
Definition leaksIndexed (c : IPAMController) : Prop :=
  ∀ id l, confirmedLeaks c !! id = Some l →
    ∃ a, heap c !! l = Some a ∧ Alloc.id a = id.


(** The node label of an allocation's reclamation counter. *)
Definition nodeLabel (a : allocation) : string :=
  if bool_decide (Alloc.node a = "") then unknownNodeLabel else Alloc.node a.





(** An allocation absent from the allocation state. *)
Definition gone (c : IPAMController) (node id : string) : Prop :=
  default ∅ (byNode (allocationState c) !! node) !! id = None.







(** The attributes of an address handed to a pod of namespace [ns1] on
    node [n1]. *)
Definition attrsOf (pod : string) : gmap string string :=
  {[AttributeNamespace := "ns1"; AttributePod := pod; AttributeNode := "n1"]}.

Definition cidrA : string := "10.0.0.0/26".
Definition cidrE : string := "10.0.0.64/26".

(** A block affine to [n1] with two pod addresses, at ordinals 1 and
    2. *)
Definition blockA : AllocationBlock :=
  {| Affinity := Some "host:n1";
     Allocations := [None; Some 0; Some 1; None];
     Attributes := [ {| AttrPrimary := Some "h1"; AttrSecondary := attrsOf "p1" |};
                     {| AttrPrimary := Some "h2"; AttrSecondary := attrsOf "p2" |} ];
     SequenceNumberForAllocation := ∅ |}.

(** An empty block affine to [n1]. *)
Definition blockE : AllocationBlock :=
  {| Affinity := Some "host:n1";
     Allocations := [None; None; None; None];
     Attributes := [];
     SequenceNumberForAllocation := ∅ |}.

(** A block affine to [n1] whose only allocation has no handle. *)
Definition blockH : AllocationBlock :=
  {| Affinity := Some "host:n1";
     Allocations := [None; Some 0; None; None];
     Attributes := [ {| AttrPrimary := None; AttrSecondary := ∅ |} ];
     SequenceNumberForAllocation := ∅ |}.

(** The controller after one turn of its loop, a dead process counting
    as no change. *)
Definition turn (E : Env) (w : Wakeup) (c : IPAMController) : IPAMController :=
  default c (acceptScheduleRequest E w c).

(** A controller that has received block [blockA] and then the [InSync]
    status: the pods of the block's two addresses do not exist, nor does
    node [n1]. *)
Definition synced : IPAMController :=
  turn E0 (SyncerUpdates [KVUpdate (KVBlock cidrA (Some blockA)); StatusUpdate InSync])
    (NewIPAMController E0 None).

(** The same after the scan of a sync: both addresses are confirmed
    leaks. *)
Definition scanned : IPAMController := (checkAllocations E0 synced).1.1.

(** A controller that has received [blockA], the empty [blockE] and the
    [InSync] status. *)
Definition twoBlocks : IPAMController :=
  turn E0 (SyncerUpdates [KVUpdate (KVBlock cidrA (Some blockA));
                          KVUpdate (KVBlock cidrE (Some blockE));
                          StatusUpdate InSync])
    (NewIPAMController E0 None).

(** Clusters in which the IPAM client fails: [ReleaseIPs] releases
    nothing and reports a timeout; it releases the first option only and
    reports a timeout; it releases nothing and reports no error;
    [ReleaseHostAffinities] reports a timeout. *)
Definition E_timeout : Env :=
  with_ReleaseIPs (λ _, ([], Some (ErrOther "timeout"))) E0.


Definition E_idle : Env := with_ReleaseIPs (λ _, ([], None)) E0.

Definition E_hostTimeout : Env :=
  with_ReleaseHostAffinities (λ _, Some (ErrOther "timeout")) E0.

(** A cluster whose Calico nodes are not orchestrated by Kubernetes. *)
Definition E_bareMetal : Env :=
  with_client_NodesGet
    (λ name, Val {| Node_Name := name; Node_OrchRefs := [] |}) E0.

(** The controller [synced] after a triggered sync in which [ReleaseIPs]
    timed out, and after the deletion of block [blockA] then reached it:
    the two leaks are still indexed, their block is gone. *)
Definition stale : IPAMController :=
  turn E0 (SyncerUpdates [KVUpdate (KVBlock cidrA None)])
    (turn E_timeout SyncKick synced).

(** The controller [stale] after a block is received again for the CIDR
    of the deleted one: [blockH], whose slot at ordinal 1 has no handle.
    The leak indexed for the earlier allocation of that ordinal is still
    there. *)
Definition staleH : IPAMController :=
  turn E0 (SyncerUpdates [KVUpdate (KVBlock cidrA (Some blockH))]) stale.

(** A block affine to [n1] whose address at ordinal 1 is held under
    another handle than in [blockA]. *)
Definition blockB : AllocationBlock :=
  {| Affinity := Some "host:n1";
     Allocations := [None; Some 0; None; None];
     Attributes := [ {| AttrPrimary := Some "h9"; AttrSecondary := attrsOf "p9" |} ];
     SequenceNumberForAllocation := ∅ |}.

(** The controller [stale] after [blockB] is received for the CIDR of the
    deleted block and a triggered sync in which [ReleaseIPs] releases
    nothing: the address of ordinal 1 is indexed as a confirmed leak
    twice, under the handle it had in [blockA] and under the one it has
    in [blockB]. *)
Definition reused : IPAMController :=
  turn E_idle SyncKick
    (turn E0 (SyncerUpdates [KVUpdate (KVBlock cidrA (Some blockB))]) stale).

(** Block [blockA] once its affinity has moved to node [n2]. *)
Definition blockA2 : AllocationBlock :=
  {| Affinity := Some "host:n2";
     Allocations := Allocations blockA;
     Attributes := Attributes blockA;
     SequenceNumberForAllocation := SequenceNumberForAllocation blockA |}.

(** A controller that has received [blockA] and the empty [blockE], both
    affine to [n1], then [blockA] again with its affinity moved to [n2],
    and the [InSync] status. *)
Definition movedAffinity : IPAMController :=
  turn E0 (SyncerUpdates [KVUpdate (KVBlock cidrA (Some blockA));
                          KVUpdate (KVBlock cidrE (Some blockE));
                          KVUpdate (KVBlock cidrA (Some blockA2));
                          StatusUpdate InSync])
    (NewIPAMController E0 None).


(** Case analysis over the branches of one step of the controller. *)
Ltac step_cases :=
  repeat (simpl in *; subst;
          first [ progress case_match | progress case_bool_decide ]);
  simpl in *; subst; try done.

(** ** Notions used by the further properties *)

(** Go's [range] visits every entry of a map once: the order the
    environment picks is a permutation of the keys. The properties that
    need every entry to be visited assume it. *)
Definition visitsAll (E : Env) : Prop := ∀ keys, rangeOrder E keys ≡ₚ keys.

(** What handling a syncer update leaves alone: no call is made, and the
    retry controller, the full-scan flag and the configuration stay as
    they are. *)
Definition handlerFrame (c c' : IPAMController) : Prop :=
  trace c' = trace c
  ∧ retryController c' = retryController c
  ∧ fullSyncRequired c' = fullSyncRequired c
  ∧ LeakGracePeriod c' = LeakGracePeriod c.

(** The wake-ups that only take note of a change. *)
Definition isNotification (w : Wakeup) : Prop :=
  match w with
  | NodeDeletion _ | PodDeletion _ | SyncerUpdates _ => True
  | _ => False
  end.

(** A Calico node orchestrated by Kubernetes, and one that is not. *)
Definition nodeK1 : CalicoNode :=
  {| Node_Name := "n1"; Node_OrchRefs := [("k8s", "k1")] |}.

Definition nodeBare : CalicoNode :=
  {| Node_Name := "n2"; Node_OrchRefs := [] |}.

(** Two states of one allocation object: the fields set when the object
    is created are the same; [knode] and the leak state may differ. *)
Definition sameAllocation (a a' : allocation) : Prop :=
  ip a' = ip a ∧ handle a' = handle a ∧ attrs a' = attrs a
  ∧ sequenceNumber a' = sequenceNumber a ∧ block a' = block a.

(** What a sync leaves alone: the cache of node names, the allocations
    of each block and the handle tracker; it creates and drops no
    allocation object, and changes the objects in their [knode] and leak
    state only. *)
Definition syncKeeps (c c' : IPAMController) : Prop :=
  kubernetesNodesByCalicoName c' = kubernetesNodesByCalicoName c
  ∧ allocationsByBlock c' = allocationsByBlock c
  ∧ handleTracker c' = handleTracker c
  ∧ Forall2 sameAllocation (heap c) (heap c').

(** What the phases of a sync that deal with leaks and deleted nodes (the
    scan, the garbage collection, the release of nodes) leave alone
    besides: all that is kept per block. *)
Definition blocksKept (c c' : IPAMController) : Prop :=
  allBlocks c' = allBlocks c
  ∧ emptyBlocks c' = emptyBlocks c
  ∧ nodesByBlock c' = nodesByBlock c
  ∧ blocksByNode c' = blocksByNode c
  ∧ blockReleaseTracker c' = blockReleaseTracker c
  ∧ poolManager c' = poolManager c.

(** The calls that release the affinity of one block. *)
Definition isBlockRelease (e : Event) : Prop :=
  match e with
  | IPAM_ReleaseBlockAffinity _ _ => True
  | _ => False
  end.

(** The states a controller can be in: those of a new controller and
    those it gets to by a turn of its loop, each turn in the cluster as it
    then is. *)
Inductive reachable : IPAMController → Prop :=
  | reachable_new E cfgLeakGracePeriod :
      reachable (NewIPAMController E cfgLeakGracePeriod)
  | reachable_turn E w c c' :
      reachable c → acceptScheduleRequest E w c = Some c' → reachable c'.

(** A block none of whose ordinals is allocated. *)
Definition hasNoAllocation (b : AllocationBlock) : Prop :=
  Forall (λ idx, idx = None) (Allocations b).

(** The record of empty blocks is sound: a block recorded as empty under
    a node is cached, has no allocation, is affine to that node, and is
    indexed under it. *)
Definition emptyBlocksSound (c : IPAMController) : Prop :=
  ∀ cidr n, emptyBlocks c !! cidr = Some n →
    n ≠ ""
    ∧ nodesByBlock c !! cidr = Some n
    ∧ is_Some (default ∅ (blocksByNode c !! n) !! cidr)
    ∧ ∃ b, allBlocks c !! cidr = Some b
           ∧ Affinity b = Some ("host:" +:+ n)
           ∧ hasNoAllocation b.

(** The heap [h'] holds every object of [h], in a later state. *)
Definition heapExtends (h h' : list allocation) : Prop :=
  ∀ l a, h !! l = Some a → ∃ a', h' !! l = Some a' ∧ sameAllocation a a'.

(** A key that the later states of an object keep. *)
Definition stableKey (key : allocation → string) : Prop :=
  ∀ a a', sameAllocation a a' → key a' = key a.

(** A two-level index files every allocation under its own id, in the
    entry of its [key] (its block, its node or its handle). *)
Definition filedBy (key : allocation → string) (h : list allocation)
    (m : gmap string (gmap string loc)) : Prop :=
  ∀ k entries id l, m !! k = Some entries → entries !! id = Some l →
    ∃ a, h !! l = Some a ∧ Alloc.id a = id ∧ key a = k.

(** The caches are indexed consistently: each of them files an allocation
    under the id of the object it points to, and [allocationsByBlock],
    the allocation state and the handle tracker file it under the
    object's block, node and handle. *)
Definition cachesIndexed (c : IPAMController) : Prop :=
  filedBy block (heap c) (allocationsByBlock c)
  ∧ filedBy Alloc.node (heap c) (byNode (allocationState c))
  ∧ filedBy handle (heap c) (allocationsByHandle (handleTracker c))
  ∧ ∀ id l, confirmedLeaks c !! id = Some l →
      ∃ a, heap c !! l = Some a ∧ Alloc.id a = id.

(** The allocation [id] is listed under block [cidr]. *)
Definition listed (c : IPAMController) (cidr id : string) : Prop :=
  is_Some (default ∅ (allocationsByBlock c !! cidr) !! id).

(** The allocation object at [l] needs no pod: it is reserved for
    Windows, or it is a confirmed leak queued for garbage collection. *)
Definition queuedOrReserved (E : Env) (c : IPAMController) (l : loc) : Prop :=
  ∃ a, heap c !! l = Some a
       ∧ (isWindowsReserved E a = true
          ∨ leak a = Confirmed ∧ is_Some (confirmedLeaks c !! Alloc.id a)).

(** During the scan of a node that is to be released: the object at [l]
    has been given the node's Kubernetes name and is reserved for Windows,
    or set aside as a tunnel address, or a confirmed leak in the index. *)
Definition settled (E : Env) (kn : string) (st : NodeScan) (l : loc) : Prop :=
  ∃ a, heap st.1.1 !! l = Some a
       ∧ knode a = kn
       ∧ (isWindowsReserved E a = true
          ∨ l ∈ st.1.2
          ∨ leak a = Confirmed ∧ is_Some (confirmedLeaks st.1.1 !! Alloc.id a)).

(** ** The metrics refresh *)

(** The gauge vectors of the package that [updateMetrics] writes: per
    pool, a vector from node label to value; and the three legacy
    gauges, from node label to value. A gauge holds a [float64] set from
    an [int]. *)
Record Gauges := {
  inUseAllocationGauges : gmap string (gmap string Z);
  borrowedAllocationGauges : gmap string (gmap string Z);
  blocksGauges : gmap string (gmap string Z);
  gcCandidateGauges : gmap string (gmap string Z);
  legacyAllocationsGauge : gmap string Z;
  legacyBlocksGauge : gmap string Z;
  legacyBorrowedGauge : gmap string Z;
}.

(** The maps that [updateMetrics] counts in: the two that live across
    pools and the four of the current pool. The local [blocksByNode] is
    [blocksByNodeOfPool] here, the controller having a field of that
    name. *)
Record Tally := {
  legacyBlocksByNode : gmap string Z;
  legacyBorrowedIPsByNode : gmap string Z;
  inUseAllocationsByNode : gmap string Z;
  borrowedAllocationsByNode : gmap string Z;
  gcCandidatesByNode : gmap string Z;
  blocksByNodeOfPool : gmap string Z;
}.

Module Metrics.

(** Go's [m[k]++] on a [map[string]int]. A count is at most the number
    of cached blocks and allocations, far below the range of an [int]. *)
Definition incr (m : gmap string Z) (k : string) : gmap string Z :=
  <[k := (default 0 (m !! k) + 1)%Z]> m.

Definition createZeroedMapForNodeValues (E : Env) (c : IPAMController)
    (poolName : string) : gmap string Z :=
  if negb (bool_decide (poolName = unknownPoolLabel E))
  then foldl (λ valuesByNode cnode, <[cnode := 0%Z]> valuesByNode) ∅
         (rangeKeys E (kubernetesNodesByCalicoName c))
  else ∅.

(** A gauge vector after [Reset()] and a [Set] per entry of the map
    ranged over: the loops of lines 1403-1406 and 687-698. *)
Definition resetAndSet {V} (E : Env) (value : V → Z) (m : gmap string V)
    : gmap string Z :=
  foldl (λ gauge node,
           match m !! node with
           | Some v => <[node := value v]> gauge
           | None => gauge
           end) ∅ (rangeKeys E m).

(** A pool without a vector is skipped. *)
Definition updatePoolGaugeWithNodeValues (E : Env)
    (gaugesByPool : gmap string (gmap string Z)) (pool : string)
    (nodeValues : gmap string Z) : gmap string (gmap string Z) :=
  match gaugesByPool !! pool with
  | None => gaugesByPool
  | Some _ => <[pool := resetAndSet E (λ value, value) nodeValues]> gaugesByPool
  end.

(** The node a block is affine to, for the metrics. *)
Definition affineNodeOf (b : AllocationBlock) : string :=
  match Affinity b with
  | Some aff =>
      if String.prefix "host:" aff
      then String.substring 5 (String.length aff - 5) aff
      else "no_affinity"
  | None => "no_affinity"
  end.

(** One iteration of the loop over the allocations of a block. *)
Definition countAllocation (b : AllocationBlock) (affineNode : string)
    (t : Tally) (a : allocation) : Tally :=
  let allocationNode :=
    if bool_decide (Alloc.node a = "") then unknownNodeLabel else Alloc.node a in
  let inUse := incr (inUseAllocationsByNode t) allocationNode in
  let borrowed :=
    negb (bool_decide (allocationNode = unknownNodeLabel))
    && (bool_decide (Affinity b = None)
        || negb (bool_decide (allocationNode = affineNode))) in
  let candidate := Alloc.isCandidateLeak a || Alloc.isConfirmedLeak a in
  {| legacyBlocksByNode := legacyBlocksByNode t;
     legacyBorrowedIPsByNode :=
       if borrowed then incr (legacyBorrowedIPsByNode t) allocationNode
       else legacyBorrowedIPsByNode t;
     inUseAllocationsByNode := inUse;
     borrowedAllocationsByNode :=
       if borrowed then incr (borrowedAllocationsByNode t) allocationNode
       else borrowedAllocationsByNode t;
     gcCandidatesByNode :=
       if candidate then incr (gcCandidatesByNode t) allocationNode
       else gcCandidatesByNode t;
     blocksByNodeOfPool := blocksByNodeOfPool t |}.

(** One iteration of [for _, allocation := range
    c.allocationsByBlock[blockCIDR]], by the key visited. *)
Definition countEntry (c : IPAMController) (b : AllocationBlock)
    (affineNode blockCIDR : string) (t : Tally) (id : string) : Tally :=
  match default ∅ (allocationsByBlock c !! blockCIDR) !! id with
  | Some l =>
      match heap c !! l with
      | Some a => countAllocation b affineNode t a
      | None => t
      end
  | None => t
  end.

(** [legacyBlocksByNode[affineNode]++] and [blocksByNode[affineNode]++]. *)
Definition noteBlock (affineNode : string) (t : Tally) : Tally :=
  {| legacyBlocksByNode := incr (legacyBlocksByNode t) affineNode;
     legacyBorrowedIPsByNode := legacyBorrowedIPsByNode t;
     inUseAllocationsByNode := inUseAllocationsByNode t;
     borrowedAllocationsByNode := borrowedAllocationsByNode t;
     gcCandidatesByNode := gcCandidatesByNode t;
     blocksByNodeOfPool := incr (blocksByNodeOfPool t) affineNode |}.

(** One iteration of [for blockCIDR := range poolBlocks]; [None] is the
    panic of the type assertion on a block that is not in [allBlocks]. *)
Definition countBlock (E : Env) (c : IPAMController) (t : option Tally)
    (blockCIDR : string) : option Tally :=
  match t with
  | None => None
  | Some t =>
      match allBlocks c !! blockCIDR with
      | None => None
      | Some b =>
          let affineNode := affineNodeOf b in
          Some (foldl (countEntry c b affineNode blockCIDR)
                  (noteBlock affineNode t)
                  (rangeKeys E (default ∅ (allocationsByBlock c !! blockCIDR))))
      end
  end.

(** The maps at the start of an iteration of the loop over the pools. *)
Definition startTally (E : Env) (c : IPAMController) (poolName : string)
    (legacyBlocks legacyBorrowed : gmap string Z) : Tally :=
  {| legacyBlocksByNode := legacyBlocks;
     legacyBorrowedIPsByNode := legacyBorrowed;
     inUseAllocationsByNode := createZeroedMapForNodeValues E c poolName;
     borrowedAllocationsByNode := createZeroedMapForNodeValues E c poolName;
     gcCandidatesByNode := createZeroedMapForNodeValues E c poolName;
     blocksByNodeOfPool := ∅ |}.

(** The counting of one pool, from the legacy counts so far. *)
Definition countPool (E : Env) (c : IPAMController) (poolName : string)
    (poolBlocks : gset string) (legacyBlocks legacyBorrowed : gmap string Z)
    : option Tally :=
  foldl (countBlock E c)
    (Some (startTally E c poolName legacyBlocks legacyBorrowed))
    (rangeOrder E (elements poolBlocks)).

(** The four calls that publish the counts of a pool. *)
Definition updatePoolGauges (E : Env) (g : Gauges) (poolName : string)
    (t : Tally) : Gauges :=
  {| inUseAllocationGauges :=
       updatePoolGaugeWithNodeValues E (inUseAllocationGauges g)
         poolName (inUseAllocationsByNode t);
     borrowedAllocationGauges :=
       updatePoolGaugeWithNodeValues E (borrowedAllocationGauges g)
         poolName (borrowedAllocationsByNode t);
     blocksGauges :=
       updatePoolGaugeWithNodeValues E (blocksGauges g)
         poolName (blocksByNodeOfPool t);
     gcCandidateGauges :=
       updatePoolGaugeWithNodeValues E (gcCandidateGauges g)
         poolName (gcCandidatesByNode t);
     legacyAllocationsGauge := legacyAllocationsGauge g;
     legacyBlocksGauge := legacyBlocksGauge g;
     legacyBorrowedGauge := legacyBorrowedGauge g |}.

(** The state of the loop over the pools: the legacy counts and the
    gauges. *)
Definition PoolLoop : Type := gmap string Z * gmap string Z * Gauges.

(** One iteration of [for poolName, poolBlocks := range
    c.poolManager.blocksByPool]. *)
Definition updatePool (E : Env) (c : IPAMController) (st : option PoolLoop)
    (poolName : string) : option PoolLoop :=
  match st with
  | None => None
  | Some (legacyBlocks, legacyBorrowed, g) =>
      match blocksByPool (poolManager c) !! poolName with
      | None => st
      | Some poolBlocks =>
          match countPool E c poolName poolBlocks legacyBlocks legacyBorrowed with
          | None => None
          | Some t =>
              Some (legacyBlocksByNode t, legacyBorrowedIPsByNode t,
                    updatePoolGauges E g poolName t)
          end
      end
  end.

(** The update of the legacy gauges, lines 686-698. *)
Definition updateLegacyGauges (E : Env) (c : IPAMController)
    (legacyBlocks legacyBorrowed : gmap string Z) (g : Gauges) : Gauges :=
  {| inUseAllocationGauges := inUseAllocationGauges g;
     borrowedAllocationGauges := borrowedAllocationGauges g;
     blocksGauges := blocksGauges g;
     gcCandidateGauges := gcCandidateGauges g;
     legacyAllocationsGauge :=
       resetAndSet E (λ allocations : gmap string loc, Z.of_nat (size allocations))
         (allocationState.iter (allocationState c));
     legacyBlocksGauge := resetAndSet E (λ num, num) legacyBlocks;
     legacyBorrowedGauge := resetAndSet E (λ num, num) legacyBorrowed |}.

(** The body of [updateMetrics], on the gauges; [None] when it
    panics. *)
Definition updateMetrics (E : Env) (c : IPAMController) (g : Gauges)
    : option Gauges :=
  if negb (datastoreReady c) then Some g
  else if negb (bool_decide (syncStatus c = InSync)) then Some g
  else
    match foldl (updatePool E c) (Some (∅, ∅, g))
            (rangeKeys E (blocksByPool (poolManager c))) with
    | None => None
    | Some (legacyBlocks, legacyBorrowed, g) =>
        Some (updateLegacyGauges E c legacyBlocks legacyBorrowed g)
    end.

End Metrics.

(** *** What the gauges are compared with *)

(** The value of a counter under a label, none being zero. *)
Definition countAt (m : gmap string Z) (n : string) : Z := default 0%Z (m !! n).

(** How many elements of a list have a property. *)
Definition numberOf {X} (P : X → Prop) `{∀ x, Decision (P x)} (l : list X) : Z :=
  Z.of_nat (length (filter P l)).

(** The allocation objects listed under a block. *)
Definition blockAllocations (c : IPAMController) (blockCIDR : string)
    : list allocation :=
  omap (λ entry : string * loc, heap c !! entry.2)
    (map_to_list (default ∅ (allocationsByBlock c !! blockCIDR))).

(** The cached blocks among those of a pool. *)
Definition cachedBlocks (c : IPAMController) (poolBlocks : gset string)
    : list (string * AllocationBlock) :=
  omap (λ blockCIDR, (λ b, (blockCIDR, b)) <$> allBlocks c !! blockCIDR)
    (elements poolBlocks).

(** The allocations of the blocks of a pool, each with its block. *)
Definition poolEntries (c : IPAMController) (poolBlocks : gset string)
    : list (AllocationBlock * allocation) :=
  entry ← cachedBlocks c poolBlocks;
  (λ a, (entry.2, a)) <$> blockAllocations c entry.1.

(** The same over all pools. *)
Definition allCachedBlocks (c : IPAMController) : list (string * AllocationBlock) :=
  pool ← map_to_list (blocksByPool (poolManager c)); cachedBlocks c pool.2.

Definition allPoolEntries (c : IPAMController)
    : list (AllocationBlock * allocation) :=
  pool ← map_to_list (blocksByPool (poolManager c)); poolEntries c pool.2.

(** The test of line 665: an allocation is borrowed when it names a node
    and its block has no affinity or is affine to another node. *)
Definition isBorrowed (b : AllocationBlock) (a : allocation) : bool :=
  negb (bool_decide (nodeLabel a = unknownNodeLabel))
  && (bool_decide (Affinity b = None)
      || negb (bool_decide (nodeLabel a = Metrics.affineNodeOf b))).

(** The test of line 673. *)
Definition isGCCandidate (a : allocation) : bool :=
  Alloc.isCandidateLeak a || Alloc.isConfirmedLeak a.

(** The labels that one counter of [updateMetrics] is incremented under
    while a block is counted: the block's affine node if the counter
    counts blocks, and the label of each allocation it counts. *)
Definition blockLabels (E : Env) (c : IPAMController) (blockCounts : bool)
    (allocCounts : AllocationBlock → allocation → bool)
    (blockCIDR : string) (b : AllocationBlock) : list string :=
  (if blockCounts then [Metrics.affineNodeOf b] else [])
  ++ omap (λ id, l ← default ∅ (allocationsByBlock c !! blockCIDR) !! id;
                 a ← heap c !! l;
                 if allocCounts b a then Some (nodeLabel a) else None)
       (rangeKeys E (default ∅ (allocationsByBlock c !! blockCIDR))).

Definition visitedLabels (E : Env) (c : IPAMController) (blockCounts : bool)
    (allocCounts : AllocationBlock → allocation → bool)
    (blockCIDRs : list string) : list string :=
  blockCIDR ← blockCIDRs;
  match allBlocks c !! blockCIDR with
  | Some b => blockLabels E c blockCounts allocCounts blockCIDR b
  | None => []
  end.

(** The labels a counter is incremented under during the loop over the
    given pools. *)
Definition loopLabels (E : Env) (c : IPAMController) (blockCounts : bool)
    (allocCounts : AllocationBlock → allocation → bool)
    (pools : list string) : list string :=
  pool ← pools;
  match blocksByPool (poolManager c) !! pool with
  | Some blocks =>
      visitedLabels E c blockCounts allocCounts (rangeOrder E (elements blocks))
  | None => []
  end.

(** The four vectors of a pool, where they exist. *)
Definition poolVectors (g : Gauges) (pool : string) : list (option (gmap string Z)) :=
  [inUseAllocationGauges g !! pool; borrowedAllocationGauges g !! pool;
   blocksGauges g !! pool; gcCandidateGauges g !! pool].

(** Every block filed under a pool is cached. *)
Definition poolBlocksCached (c : IPAMController) : Prop :=
  ∀ pool blocks blockCIDR,
    blocksByPool (poolManager c) !! pool = Some blocks →
    blockCIDR ∈ blocks → is_Some (allBlocks c !! blockCIDR).

(** The gauges when only the vectors of the unknown pool of [E0] exist,
    as [init] leaves them. *)
Definition gaugesAtStart : Gauges :=
  {| inUseAllocationGauges := {[unknownPoolLabel E0 := ∅]};
     borrowedAllocationGauges := {[unknownPoolLabel E0 := ∅]};
     blocksGauges := {[unknownPoolLabel E0 := ∅]};
     gcCandidateGauges := {[unknownPoolLabel E0 := ∅]};
     legacyAllocationsGauge := ∅;
     legacyBlocksGauge := ∅;
     legacyBorrowedGauge := ∅ |}.

(** The gauges after a refresh in [twoBlocks]. *)
Definition gaugesRefreshed : Gauges :=
  default gaugesAtStart (Metrics.updateMetrics E0 twoBlocks gaugesAtStart).

(** ** The conntrack timeouts *)

Module timeouts.

(** [time.Second] and [time.Hour], in nanoseconds. *)
Definition Second : Z := 1000000000.
Definition Hour : Z := 3600 * Second.

(** An [int64] keeps the low 64 bits, in two's complement. *)
Definition wrap64 (z : Z) : Z := ((z + 2 ^ 63) mod 2 ^ 64 - 2 ^ 63)%Z.

(** The struct [Timeouts]; a [time.Duration] is an [int64] of
    nanoseconds. *)
Record Timeouts := {
  CreationGracePeriod : Z;
  TCPSynSent : Z;
  TCPEstablished : Z;
  TCPFinsSeen : Z;
  TCPResetSeen : Z;
  UDPTimeout : Z;
  GenericTimeout : Z;
  ICMPTimeout : Z;
}.

Definition DefaultTimeouts : Timeouts :=
  {| CreationGracePeriod := 10 * Second;
     TCPSynSent := 20 * Second;
     TCPEstablished := Hour;
     TCPFinsSeen := 30 * Second;
     TCPResetSeen := 40 * Second;
     UDPTimeout := 60 * Second;
     GenericTimeout := 600 * Second;
     ICMPTimeout := 5 * Second |}.

Definition linuxSysctls : gmap string string :=
  {[ "TCPSynSent" := "nf_conntrack_tcp_timeout_syn_sent";
     "TCPEstablished" := "nf_conntrack_tcp_timeout_established";
     "TCPFinsSeen" := "nf_conntrack_tcp_timeout_time_wait";
     "GenericTimeout" := "nf_conntrack_generic_timeout";
     "ICMPTimeout" := "nf_conntrack_icmp_timeout" ]}.

(** The fields of the struct, as [reflect] finds them. *)
Inductive Field :=
  | FieldCreationGracePeriod
  | FieldTCPSynSent
  | FieldTCPEstablished
  | FieldTCPFinsSeen
  | FieldTCPResetSeen
  | FieldUDPTimeout
  | FieldGenericTimeout
  | FieldICMPTimeout.

(** [tt.Field(i).Name] *)
Definition Name (f : Field) : string :=
  match f with
  | FieldCreationGracePeriod => "CreationGracePeriod"
  | FieldTCPSynSent => "TCPSynSent"
  | FieldTCPEstablished => "TCPEstablished"
  | FieldTCPFinsSeen => "TCPFinsSeen"
  | FieldTCPResetSeen => "TCPResetSeen"
  | FieldUDPTimeout => "UDPTimeout"
  | FieldGenericTimeout => "GenericTimeout"
  | FieldICMPTimeout => "ICMPTimeout"
  end.

Definition fields : list Field :=
  [FieldCreationGracePeriod; FieldTCPSynSent; FieldTCPEstablished;
   FieldTCPFinsSeen; FieldTCPResetSeen; FieldUDPTimeout; FieldGenericTimeout;
   FieldICMPTimeout].

(** [v.FieldByName(key)]; [None] for the invalid value. *)
Definition FieldByName (key : string) : option Field :=
  head (filter (λ f, Name f = key) fields).

(** [field.Int()] *)
Definition Int (f : Field) (t : Timeouts) : Z :=
  match f with
  | FieldCreationGracePeriod => CreationGracePeriod t
  | FieldTCPSynSent => TCPSynSent t
  | FieldTCPEstablished => TCPEstablished t
  | FieldTCPFinsSeen => TCPFinsSeen t
  | FieldTCPResetSeen => TCPResetSeen t
  | FieldUDPTimeout => UDPTimeout t
  | FieldGenericTimeout => GenericTimeout t
  | FieldICMPTimeout => ICMPTimeout t
  end.

(** [field.SetInt(d)] *)
Definition SetInt (f : Field) (d : Z) (t : Timeouts) : Timeouts :=
  {| CreationGracePeriod :=
       match f with FieldCreationGracePeriod => d | _ => CreationGracePeriod t end;
     TCPSynSent := match f with FieldTCPSynSent => d | _ => TCPSynSent t end;
     TCPEstablished :=
       match f with FieldTCPEstablished => d | _ => TCPEstablished t end;
     TCPFinsSeen := match f with FieldTCPFinsSeen => d | _ => TCPFinsSeen t end;
     TCPResetSeen := match f with FieldTCPResetSeen => d | _ => TCPResetSeen t end;
     UDPTimeout := match f with FieldUDPTimeout => d | _ => UDPTimeout t end;
     GenericTimeout :=
       match f with FieldGenericTimeout => d | _ => GenericTimeout t end;
     ICMPTimeout := match f with FieldICMPTimeout => d | _ => ICMPTimeout t end |}.

(** What the first [scanner.Scan()] on a file gives. *)
Inductive FirstScan :=
  | Line (text : string)
  | ScanError
  | NoLine.

(** The host the package runs on. *)
Record Host := {
  (** [time.ParseDuration], the duration in nanoseconds; [None] on an
      error *)
  ParseDuration : string → option Z;
  (** [os.Open] and the first [Scan] of a scanner on the file; [None]
      when the file cannot be opened *)
  Open : string → option FirstScan;
  (** [strings.TrimSpace] *)
  TrimSpace : string → string;
  (** [strconv.Atoi]; [None] on an error *)
  Atoi : string → option Z;
}.

(** [None] when an error is returned. *)
Definition readSecondsFromFile (H : Host) (nfTimeout : string) : option Z :=
  let filePath := "/proc/sys/net/netfilter/" +:+ nfTimeout in
  match Open H filePath with
  | None => None
  | Some (Line line) => Atoi H (TrimSpace H line)
  | Some ScanError => None
  | Some NoLine => None
  end.

(** One iteration of [for key, value := range config]. *)
Definition setTimeout (H : Host) (config : gmap string string) (t : Timeouts)
    (key : string) : Timeouts :=
  match config !! key with
  | None => t
  | Some value =>
      match FieldByName key with
      | None => t
      | Some field =>
          match ParseDuration H value with
          | Some d => SetInt field d t
          | None =>
              if bool_decide (value = "Auto") then
                let sysctl := default "" (linuxSysctls !! key) in
                if negb (bool_decide (sysctl = "")) then
                  match readSecondsFromFile H sysctl with
                  | Some seconds => SetInt field (wrap64 (seconds * Second)) t
                  | None => t
                  end
                else t
              else t
          end
      end
  end.

Definition GetTimeouts (E : Env) (H : Host) (config : gmap string string)
    : Timeouts :=
  foldl (setTimeout H config) DefaultTimeouts (rangeKeys E config).

End timeouts.

(** The value [GetTimeouts] gives a field for its entry of the
    configuration, by the three cases of the loop: a duration that
    parses; [Auto] for a field with a sysctl whose file gives a number of
    seconds; anything else, which leaves the default. *)
Definition timeoutFor (H : timeouts.Host) (f : timeouts.Field) (value : string)
    : Z :=
  match timeouts.ParseDuration H value with
  | Some d => d
  | None =>
      match (if bool_decide (value = "Auto")
             then timeouts.linuxSysctls !! timeouts.Name f else None) with
      | Some sysctl =>
          match timeouts.readSecondsFromFile H sysctl with
          | Some seconds => timeouts.wrap64 (seconds * timeouts.Second)
          | None => timeouts.Int f timeouts.DefaultTimeouts
          end
      | None => timeouts.Int f timeouts.DefaultTimeouts
      end
  end.

(** A host on which the established-connection timeout of the kernel is
    432000 seconds, and durations of the form [<n>s] with [n] one of 5 and
    90 parse. *)
Definition hostLinux : timeouts.Host :=
  {| timeouts.ParseDuration := λ s,
       if bool_decide (s = "5s") then Some (5 * timeouts.Second)%Z
       else if bool_decide (s = "90s") then Some (90 * timeouts.Second)%Z
       else None;
     timeouts.Open := λ path,
       if bool_decide
            (path = "/proc/sys/net/netfilter/nf_conntrack_tcp_timeout_established")
       then Some (timeouts.Line "432000")
       else None;
     timeouts.TrimSpace := λ s, s;
     timeouts.Atoi := λ s, if bool_decide (s = "432000") then Some 432000%Z else None |}.

(** A configuration with an [Auto] entry, a duration and a key that is
    no field. *)
Definition configAuto : gmap string string :=
  {[ "TCPEstablished" := "Auto"; "UDPTimeout" := "90s"; "Bogus" := "5s" ]}.


(** * Properties *)

(** ** [allocationIsValid] *)

Section AllocationIsValidProperties.
Variable E : Env.

Lemma scanIPNetworks_spec aip nws :
  scanIPNetworks E aip nws
  = if existsb (networkKeeps E aip) nws then Some true else None.
Proof.
  induction nws as [|nw rest IH]; [done|].
  simpl. unfold networkKeeps at 1.
  destruct (ParseCIDR E nw) as [ip'|]; [|done].
  destruct (ParseIP E aip) as [allocIP|]; [|done].
  destruct (IPEqual allocIP ip'); [done|]. exact IH.
Qed.

Lemma scanEndpoints_spec aip kvps :
  scanEndpoints E aip kvps = existsb (networkKeeps E aip) (networksOf kvps).
Proof.
  induction kvps as [|kvp rest IH]; [done|].
  unfold networksOf in *. simpl.
  destruct kvp as [[wep|]|]; simpl; try exact IH.
  rewrite existsb_app, scanIPNetworks_spec.
  destruct (existsb (networkKeeps E aip) (IPNetworks wep)); [done|].
  exact IH.
Qed.

(** C2, as amended. [allocationIsValid] follows the decision list of the
    specification clause by clause; in the last clause the allocation is
    valid iff the pod cannot be converted to workload endpoints, or some
    IP network of the endpoints does not parse, or the allocation's
    address does not parse (and there is a network), or some network
    equals the allocation's address. *)
Theorem allocationIsValid_decision (a : allocation) (preferCache : bool) :
  allocationIsValid E a preferCache
  = validityDecision E (lastClause_code E) a preferCache.
Proof.
  unfold allocationIsValid, validityDecision, lastClause_code.
  destruct (Alloc.isTunnelAddress a); [done|].
  destruct (bool_decide _ || bool_decide _); [done|].
  destruct (getPod E preferCache _ _) as [p|err]; [|by destruct err].
  assert (Hlast : match PodToWorkloadEndpoints E p with
                  | Val kvps => scanEndpoints E (ip a) kvps
                  | Fail _ => true
                  end
                  = match PodToWorkloadEndpoints E p with
                    | Val kvps => existsb (networkKeeps E (ip a)) (networksOf kvps)
                    | Fail _ => true
                    end).
  { destruct (PodToWorkloadEndpoints E p); [apply scanEndpoints_spec | done]. }
  rewrite Hlast. clear Hlast.
  rewrite !bool_decide_and, !bool_decide_or, !bool_decide_not, andb_assoc.
  by rewrite (bool_decide_ext (Status_PodIPs p = []) (length (Status_PodIPs p) = 0))
    by (symmetry; apply length_zero_iff_nil).
Qed.

(** The last clause of the specification errs on the side the code does
    not: whenever the specification's clause holds, so does the code's. *)
Lemma lastClause_stated_code p aip :
  lastClause_stated E p aip = true → lastClause_code E p aip = true.
Proof.
  unfold lastClause_stated, lastClause_code.
  destruct (PodToWorkloadEndpoints E p) as [kvps|]; [|done].
  rewrite !existsb_exists. intros (nw & Hin & Heq). exists nw. split; [done|].
  unfold networkEquals in Heq. unfold networkKeeps.
  by destruct (ParseCIDR E nw), (ParseIP E aip).
Qed.

End AllocationIsValidProperties.

(** C2, as stated, fails: pod [ns1/p1] exists on the allocation's node
    and reports the malformed address [10.0.0.300]. If the converter
    derives the network [10.0.0.300/32] from it, the network does not
    parse ([net.ParseCIDR] rejects an octet above 255) and the code
    returns true at line 1028; if the converter reports an error for the
    pod instead, the code returns true at line 1014. Either way no IP
    network of the pod's endpoints equals the allocation's address, and
    yet the allocation is valid. *)
Lemma allocationIsValid_not_stated :
  let E1 := with_podLister_Get (λ _ _, Val podBadIP) E0 in
  let E2 := with_PodToWorkloadEndpoints
              (λ _, Fail (ErrOther "failed to parse pod IP")) E1 in
  (PodToWorkloadEndpoints E1 podBadIP
   = Val [Some (Some {| IPNetworks := ["10.0.0.300/32"] |})]
   ∧ ParseCIDR E1 "10.0.0.300/32" = None
   ∧ allocationIsValid E1 podAlloc true = true
   ∧ validityDecision E1 (lastClause_stated E1) podAlloc true = false)
  ∧ (allocationIsValid E2 podAlloc true = true
     ∧ validityDecision E2 (lastClause_stated E2) podAlloc true = false).
Proof. by vm_compute. Qed.

(** ** The period of the ticker *)

(** C6, as amended. For every configured positive grace period [G] the
    ticker period is [G / 2] (which is the maximum of five minutes and
    [G / 2] only from ten minutes on); it is five minutes when no grace
    period is configured. *)
Theorem period_half_grace :
  (∀ G, (0 < G)%Z → period (Some G) = Z.quot G 2)
  ∧ (∀ G, (0 < G)%Z →
       period (Some G) = periodStated (Some G) ↔ (10 * Minute ≤ G)%Z)
  ∧ period None = (5 * Minute)%Z.
Proof.
  split; [|split]; [| |done].
  - intros G HG. unfold period. by rewrite bool_decide_eq_true_2.
  - intros G HG. unfold period, periodStated, Minute.
    rewrite bool_decide_eq_true_2 by done.
    rewrite Z.quot_div_nonneg by lia.
    pose proof (Z.div_mod G 2 ltac:(lia)). pose proof (Z.mod_pos_bound G 2 ltac:(lia)).
    split; lia.
Qed.

Lemma period_half_grace_witness :
  period (Some (2 * Minute)%Z) = Minute.
Proof.
  destruct period_half_grace as [H _].
  rewrite (H (2 * Minute)%Z); [reflexivity | unfold Minute; lia].
Defined.

(** C6, as stated, fails: with a grace period of two minutes the ticker
    fires every minute, not every five. *)
Lemma period_not_max :
  period (Some (2 * Minute)%Z) = Minute
  ∧ periodStated (Some (2 * Minute)%Z) = (5 * Minute)%Z
  ∧ period (Some (2 * Minute)%Z) ≠ periodStated (Some (2 * Minute)%Z).
Proof. by vm_compute. Qed.

(** ** What the phases of a sync leave alone *)

Lemma foldl_invariant {A B} (P : A → Prop) (f : A → B → A) (l : list B) a :
  P a → (∀ a b, P a → P (f a b)) → P (foldl f a l).
Proof.
  intros Ha Hf. revert a Ha.
  induction l as [|b l IH]; intros a Ha; simpl; [done|]. apply IH, Hf, Ha.
Qed.

Lemma callsDuring_app c c' evs :
  trace c' = trace c ++ evs → callsDuring c c' = evs.
Proof. unfold callsDuring. intros ->. by rewrite drop_app_length. Qed.

Section Frames.
Variable E : Env.

Lemma scanFrame_refl c : scanFrame c c.
Proof. by repeat split. Qed.

Lemma scanFrame_trans c1 c2 c3 :
  scanFrame c1 c2 → scanFrame c2 c3 → scanFrame c1 c3.
Proof. unfold scanFrame. intros ? ?. intuition congruence. Qed.

Lemma indexLeak_frame l c : scanFrame c (indexLeak l c).
Proof. unfold indexLeak. step_cases; apply scanFrame_refl. Qed.

Lemma checkAllocation_frame knode ex allocations st id :
  scanFrame st.1.1 (checkAllocation E knode ex allocations st id).1.1.
Proof.
  destruct st as [[c ts] cd]. unfold checkAllocation.
  destruct (allocations !! id) as [l|]; [|apply scanFrame_refl].
  simpl. destruct (alter _ l (heap c) !! l) as [a|]; [|by repeat split].
  repeat (case_match; try by repeat split).
  all: simpl; eapply scanFrame_trans; [|apply indexLeak_frame]; by repeat split.
Qed.

Lemma confirmTunnel_frame c l : scanFrame c (confirmTunnel c l).
Proof. unfold confirmTunnel. step_cases; by repeat split. Qed.

Lemma checkNode_frame nodesToCheck st cnode :
  scanFrame st.1 (checkNode E nodesToCheck st cnode).1.
Proof.
  destruct st as [c ns]. unfold checkNode.
  destruct (nodesToCheck !! cnode) as [allocations|]; [|apply scanFrame_refl].
  destruct (kubernetesNodeForCalico E c cnode) as [knode|err];
    [|destruct (negb _); apply scanFrame_refl].
  set (ex := negb _ && _).
  pose proof (foldl_invariant (λ st : NodeScan, scanFrame c st.1.1)
                (checkAllocation E knode ex allocations)
                (rangeKeys E allocations) (c, [], true)) as Hin.
  destruct (foldl _ _ _) as [[c1 ts] cd]. simpl in *.
  assert (scanFrame c c1) as Hc1.
  { apply Hin; [apply scanFrame_refl|]. intros st id Hst.
    eapply scanFrame_trans; [exact Hst | apply checkAllocation_frame]. }
  destruct (negb ex); [|done]. destruct (negb cd); [done|]. simpl.
  apply (foldl_invariant (λ c', scanFrame c c')); [done|].
  intros c' l Hc'. eapply scanFrame_trans; [exact Hc' | apply confirmTunnel_frame].
Qed.

Lemma checkAllocations_frame c : scanFrame c (checkAllocations E c).1.1.
Proof.
  unfold checkAllocations.
  set (start := if fullSyncRequired c then _ else _).
  assert (scanFrame c start.1) as Hstart.
  { subst start. destruct (fullSyncRequired c); by repeat split. }
  destruct start as [c0 nodesToCheck]. simpl in Hstart.
  pose proof (foldl_invariant (λ st : IPAMController * list string, scanFrame c st.1)
                (checkNode E nodesToCheck) (rangeKeys E nodesToCheck) (c0, [])) as Hin.
  destruct (foldl _ _ _) as [c1 ns]. simpl in *. apply Hin; [done|].
  intros st cnode Hst. eapply scanFrame_trans; [exact Hst | apply checkNode_frame].
Qed.

End Frames.

(** ** Garbage collection of confirmed leaks *)

Section GarbageCollection.
Variable E : Env.


Lemma agedHeap_refl h : agedHeap h h.
Proof. apply Forall2_same_length_lookup. split; [done|]. intros. left. congruence. Qed.

Lemma agedHeap_trans h1 h2 h3 : agedHeap h1 h2 → agedHeap h2 h3 → agedHeap h1 h3.
Proof.
  unfold agedHeap. intros H12 H23.
  eapply Forall2_trans; [|exact H12|exact H23].
  intros a b c [->| ->] [->| ->]; auto.
Qed.

Lemma agedHeap_markValid h l : agedHeap h (alter Alloc.markValid l h).
Proof.
  apply Forall2_same_length_lookup. split; [by rewrite length_alter|].
  intros i a a' Ha Ha'. destruct (decide (i = l)) as [->|Hne].
  - rewrite list_lookup_alter_eq, Ha in Ha'. right. by injection Ha' as <-.
  - rewrite list_lookup_alter_ne, Ha in Ha' by done. left. by injection Ha' as <-.
Qed.




(** What one iteration of the collection changes: it may drop the key it
    visits from [confirmedLeaks] and mark its allocation valid. *)
Lemma gcVisit_frame st id st' b :
  gcVisit E st id = (st', b) →
  confirmedLeaks st'.1.1 ⊆ confirmedLeaks st.1.1
  ∧ agedHeap (heap st.1.1) (heap st'.1.1)
  ∧ handleTracker st'.1.1 = handleTracker st.1.1
  ∧ trace st'.1.1 = trace st.1.1.
Proof.
  destruct st as [[c opts] leaks]. unfold gcVisit. intros H.
  destruct (confirmedLeaks c !! id) as [l|];
    [|injection H as <- <-; split; [done|]; split; [apply agedHeap_refl|done]].
  destruct (heap c !! l) as [a|];
    [|injection H as <- <-; split; [done|]; split; [apply agedHeap_refl|done]].
  destruct (allocationIsValid E a _).
  { injection H as <- <-. simpl. split; [apply delete_subseteq|].
    split; [apply agedHeap_markValid|done]. }
  destruct (negb _); injection H as <- <-; simpl;
    (split; [done|]; split; [apply agedHeap_refl|done]).
Qed.




Lemma gcCollect_frame ids st :
  confirmedLeaks (gcCollect E ids st).1.1 ⊆ confirmedLeaks st.1.1
  ∧ agedHeap (heap st.1.1) (heap (gcCollect E ids st).1.1)
  ∧ handleTracker (gcCollect E ids st).1.1 = handleTracker st.1.1
  ∧ trace (gcCollect E ids st).1.1 = trace st.1.1.
Proof.
  revert st. induction ids as [|id0 rest IH]; intros st; simpl.
  { split; [done|]. split; [apply agedHeap_refl|done]. }
  destruct (gcVisit E st id0) as [st1 b] eqn:Hvisit.
  destruct (gcVisit_frame _ _ _ _ Hvisit) as (H1 & H2 & H3 & H4).
  destruct b; [done|].
  destruct (IH st1) as (I1 & I2 & I3 & I4).
  split; [by etrans|]. split; [by eapply agedHeap_trans|]. split; congruence.
Qed.

(** The batch never grows past [maxBatchSize]. *)
Lemma gcVisit_length st id st' b :
  gcVisit E st id = (st', b) →
  (Z.of_nat (length st.1.2) < maxBatchSize)%Z →
  (Z.of_nat (length st'.1.2) ≤ maxBatchSize)%Z
  ∧ (b = false → (Z.of_nat (length st'.1.2) < maxBatchSize)%Z).
Proof.
  destruct st as [[c opts] leaks]. unfold gcVisit, maxBatchSize. simpl. intros H Hlt.
  destruct (confirmedLeaks c !! id) as [l|]; [|injection H as <- <-; simpl; lia].
  destruct (heap c !! l) as [a|]; [|injection H as <- <-; simpl; lia].
  destruct (allocationIsValid E a _); [injection H as <- <-; simpl; lia|].
  destruct (negb _); [injection H as <- <-; simpl; lia|].
  injection H as <- <-. simpl. rewrite length_app. simpl.
  split; [lia|]. intros Hb. apply bool_decide_eq_false in Hb. lia.
Qed.

Lemma gcCollect_length ids st :
  (Z.of_nat (length st.1.2) < maxBatchSize)%Z →
  (Z.of_nat (length (gcCollect E ids st).1.2) ≤ maxBatchSize)%Z.
Proof.
  revert st. induction ids as [|id0 rest IH]; intros st Hlt; simpl; [lia|].
  destruct (gcVisit E st id0) as [st1 b] eqn:Hvisit.
  destruct (gcVisit_length _ _ _ _ Hvisit Hlt) as [Hle Hnb].
  destruct b; [done|]. apply IH. by apply Hnb.
Qed.

Lemma gcReleased_trace st opt :
  trace (gcReleased st opt).1.1 = trace st.1.1.
Proof.
  destruct st as [[c leaks] dead]. unfold gcReleased, incrementReclamationMetric.
  step_cases.
Qed.

(** The one call a garbage collection makes: [ReleaseIPs] with the batch
    it gathered, when the batch is not empty. *)
Lemma garbageCollectKnownLeaks_trace c :
  trace (garbageCollectKnownLeaks E c).1
  = trace c ++ if bool_decide (gcBatch E c = []) then []
               else [IPAM_ReleaseIPs (gcBatch E c)].
Proof.
  unfold garbageCollectKnownLeaks, gcBatch.
  pose proof (gcCollect_frame (rangeKeys E (confirmedLeaks c)) (c, [], ∅))
    as (_ & _ & _ & Htr).
  destruct (gcCollect _ _ _) as [[c1 opts] leaks]. simpl in *.
  destruct opts as [|o opts]; [simpl; by rewrite app_nil_r|].
  rewrite bool_decide_eq_false_2 by done.
  rewrite (bool_decide_eq_false_2 (_ = [])) by done.
  destruct (ReleaseIPs E (o :: opts)) as [released err].
  pose proof (foldl_invariant
                (λ st : IPAMController * gmap string loc * bool,
                   trace st.1.1 = trace c ++ [IPAM_ReleaseIPs (o :: opts)])
                gcReleased released
                (emit (IPAM_ReleaseIPs (o :: opts)) c1, leaks, false)) as Hin.
  destruct (foldl _ _ _) as [[c2 leaks2] dead]. simpl in Hin.
  assert (trace c2 = trace c ++ [IPAM_ReleaseIPs (o :: opts)]) as Hc2.
  { apply Hin; [by rewrite Htr|]. intros st opt Hst. by rewrite gcReleased_trace. }
  destruct dead; [done|]. destruct err as [e|]; [|done]. by destruct (negb _).
Qed.

Lemma garbageCollectKnownLeaks_calls c :
  callsDuring c (garbageCollectKnownLeaks E c).1
  = if bool_decide (gcBatch E c = []) then [] else [IPAM_ReleaseIPs (gcBatch E c)].
Proof. apply callsDuring_app, garbageCollectKnownLeaks_trace. Qed.


(** A garbage collection passes at most [maxBatchSize] options. *)
Lemma gc_batch_capped (c : IPAMController) (opts : list ReleaseOptions) :
  IPAM_ReleaseIPs opts ∈ callsDuring c (garbageCollectKnownLeaks E c).1 →
  (Z.of_nat (length opts) ≤ 10000)%Z.
Proof.
  rewrite garbageCollectKnownLeaks_calls. intros Hcall.
  case_bool_decide as Hbatch; [by apply elem_of_nil in Hcall|].
  apply list_elem_of_singleton in Hcall. injection Hcall as ->.
  apply (gcCollect_length _ (c, [], ∅)). by vm_compute.
Qed.

End GarbageCollection.

(** ** Release of unused block affinities *)

Section Loops.
Context {B : Type} (step : IPAMController → B → IPAMController).
Hypothesis step_extends : ∀ c x, ∃ evs, trace (step c x) = trace c ++ evs.

Lemma foldl_extends l c : ∃ evs, trace (foldl step c l) = trace c ++ evs.
Proof.
  revert c. induction l as [|x l IH]; intros c; simpl.
  { exists []. by rewrite app_nil_r. }
  destruct (step_extends c x) as [evs1 H1]. destruct (IH (step c x)) as [evs2 H2].
  exists (evs1 ++ evs2). by rewrite H2, H1, app_assoc.
Qed.

(** A call made during a loop is made by one of its iterations. *)
Lemma foldl_callsDuring l c e :
  e ∈ callsDuring c (foldl step c l) →
  ∃ pre x post, l = pre ++ x :: post
    ∧ e ∈ callsDuring (foldl step c pre) (step (foldl step c pre) x).
Proof.
  induction l as [|x l IH] using rev_ind; simpl.
  { unfold callsDuring. rewrite drop_all. by intros ?%elem_of_nil. }
  rewrite foldl_app. simpl.
  destruct (foldl_extends l c) as [evs1 H1].
  destruct (step_extends (foldl step c l) x) as [evs2 H2].
  rewrite (callsDuring_app c _ (evs1 ++ evs2)) by (by rewrite H2, H1, app_assoc).
  intros [He|He]%elem_of_app.
  - destruct IH as (pre & y & post & -> & Hy).
    { by rewrite (callsDuring_app _ _ _ H1). }
    exists pre, y, (post ++ [x]). split; [by rewrite <- app_assoc|done].
  - exists l, x, []. split; [done|]. by rewrite (callsDuring_app _ _ _ H2).
Qed.

End Loops.

Section ReleaseUnusedBlocks.
Variable E : Env.


(** One iteration calls [ReleaseBlockAffinity] at most once, for the key
    it visits, and only past every guard. *)
Lemma releaseUnusedBlock_calls c cidr :
  trace (releaseUnusedBlock E c cidr) = trace c
  ∨ ∃ node b,
      trace (releaseUnusedBlock E c cidr)
        = trace c ++ [IPAM_ReleaseBlockAffinity cidr b]
      ∧ emptyBlocks c !! cidr = Some node
      ∧ (1 < size (default ∅ (blocksByNode c !! node)))%nat
      ∧ nodeIsBeingMigrated E c node = Val false
      ∧ (blockReleaseTracker.markEmpty (now E) cidr (blockReleaseTracker c)).2 = true
      ∧ allBlocks c !! cidr = Some b.
Proof.
  unfold releaseUnusedBlock.
  destruct (emptyBlocks c !! cidr) as [node|] eqn:Hnode; [|by left].
  case_bool_decide as Hsize; [by left|].
  destruct (nodeIsBeingMigrated E c node) as [[|]|] eqn:Hmig; [by left| |by left].
  destruct (blockReleaseTracker.markEmpty _ _ _) as [t elapsed] eqn:Hmark.
  destruct elapsed; simpl; [|by left].
  destruct (allBlocks c !! cidr) as [b|] eqn:Hb; [|by left].
  right. exists node, b. simpl.
  split; [by destruct (ReleaseBlockAffinity E b)|]. repeat split; try done. lia.
Qed.

Lemma releaseUnusedBlock_extends c cidr :
  ∃ evs, trace (releaseUnusedBlock E c cidr) = trace c ++ evs.
Proof.
  destruct (releaseUnusedBlock_calls c cidr) as [H|(node & b & H & _)].
  - exists []. by rewrite app_nil_r.
  - by eexists.
Qed.

(** What one iteration does to the indices the guards read. *)
Lemma releaseUnusedBlock_frame c cidr :
  let c' := releaseUnusedBlock E c cidr in
  emptyBlocks c' ⊆ emptyBlocks c
  ∧ kubernetesNodesByCalicoName c' = kubernetesNodesByCalicoName c
  ∧ (∀ node, size (default ∅ (blocksByNode c' !! node))
             ≤ size (default ∅ (blocksByNode c !! node)))
  ∧ (∀ node, 0 < size (default ∅ (blocksByNode c !! node)) →
             0 < size (default ∅ (blocksByNode c' !! node))).
Proof.
  unfold releaseUnusedBlock.
  destruct (emptyBlocks c !! cidr) as [node|] eqn:Hnode; [|done].
  case_bool_decide as Hsize; [done|].
  destruct (nodeIsBeingMigrated E c node) as [[|]|] eqn:Hmig; [done| |done].
  destruct (blockReleaseTracker.markEmpty _ _ _) as [t elapsed] eqn:Hmark.
  destruct elapsed; simpl; [|done].
  destruct (allBlocks c !! cidr) as [b|] eqn:Hb; [|done].
  destruct (ReleaseBlockAffinity E b); [done|]. simpl.
  split; [apply delete_subseteq|]. split; [done|].
  assert (∀ n, size (default ∅ (alter (delete cidr) node (blocksByNode c) !! n))
               ≤ size (default ∅ (blocksByNode c !! n))
             ∧ (0 < size (default ∅ (blocksByNode c !! n)) →
                0 < size (default ∅ (alter (delete cidr) node (blocksByNode c) !! n))))
    as Hn; [|split; intros n; by apply Hn].
  intros n. destruct (decide (n = node)) as [->|Hne];
    [|by rewrite lookup_alter_ne].
  rewrite lookup_alter_eq.
  destruct (blocksByNode c !! node) as [m|]; simpl in *; [|done].
  rewrite map_size_delete. destruct (m !! cidr); simpl; lia.
Qed.


Lemma releaseUnusedBlocks_frame ids c :
  let c' := foldl (releaseUnusedBlock E) c ids in
  emptyBlocks c' ⊆ emptyBlocks c
  ∧ kubernetesNodesByCalicoName c' = kubernetesNodesByCalicoName c
  ∧ (∀ node, size (default ∅ (blocksByNode c' !! node))
             ≤ size (default ∅ (blocksByNode c !! node)))
  ∧ (∀ node, 0 < size (default ∅ (blocksByNode c !! node)) →
             0 < size (default ∅ (blocksByNode c' !! node))).
Proof.
  simpl. apply (foldl_invariant (λ c',
    emptyBlocks c' ⊆ emptyBlocks c
    ∧ kubernetesNodesByCalicoName c' = kubernetesNodesByCalicoName c
    ∧ (∀ node, size (default ∅ (blocksByNode c' !! node))
               ≤ size (default ∅ (blocksByNode c !! node)))
    ∧ (∀ node, 0 < size (default ∅ (blocksByNode c !! node)) →
               0 < size (default ∅ (blocksByNode c' !! node))))).
  { repeat split; auto. }
  intros c1 cidr (I1 & I2 & I3 & I4).
  destruct (releaseUnusedBlock_frame c1 cidr) as (S1 & S2 & S3 & S4).
  split; [by etrans|]. split; [congruence|].
  split; intros node; [etrans; [apply S3|apply I3] | intros; by apply S4, I4].
Qed.

End ReleaseUnusedBlocks.

(** ** A whole sync *)

Section Sync.
Variable E : Env.

Lemma controlFrame_refl c : controlFrame c c.
Proof. by repeat split. Qed.

Lemma controlFrame_trans c1 c2 c3 :
  controlFrame c1 c2 → controlFrame c2 c3 → controlFrame c1 c3.
Proof. unfold controlFrame. intros ? ?. intuition congruence. Qed.

Lemma scanFrame_control c c' : scanFrame c c' → controlFrame c c'.
Proof. unfold scanFrame, controlFrame. tauto. Qed.

Lemma gcVisit_control st id : controlFrame st.1.1 (gcVisit E st id).1.1.1.
Proof.
  destruct st as [[c opts] leaks]. unfold gcVisit.
  repeat case_match; by repeat split.
Qed.

Lemma gcCollect_control ids st : controlFrame st.1.1 (gcCollect E ids st).1.1.
Proof.
  revert st. induction ids as [|id rest IH]; intros st; simpl;
    [apply controlFrame_refl|].
  pose proof (gcVisit_control st id) as Hv.
  destruct (gcVisit E st id) as [st1 b]. simpl in Hv.
  destruct b; [done|]. eapply controlFrame_trans; [exact Hv|apply IH].
Qed.

Lemma gcReleased_control st opt : controlFrame st.1.1 (gcReleased st opt).1.1.
Proof.
  destruct st as [[c leaks] dead]. unfold gcReleased, incrementReclamationMetric.
  repeat case_match; by repeat split.
Qed.

Lemma garbageCollectKnownLeaks_control c :
  controlFrame c (garbageCollectKnownLeaks E c).1.
Proof.
  unfold garbageCollectKnownLeaks.
  pose proof (gcCollect_control (rangeKeys E (confirmedLeaks c)) (c, [], ∅)) as Hc.
  destruct (gcCollect _ _ _) as [[c1 opts] leaks]. simpl in Hc.
  case_bool_decide; [done|].
  destruct (ReleaseIPs E opts) as [released err].
  pose proof (foldl_invariant
                (λ st : IPAMController * gmap string loc * bool,
                   controlFrame c st.1.1)
                gcReleased released (emit (IPAM_ReleaseIPs opts) c1, leaks, false))
    as Hin.
  destruct (foldl _ _ _) as [[c2 leaks2] dead]. simpl in Hin.
  assert (controlFrame c c2) as Hc2.
  { apply Hin; [done|]. intros st opt Hst.
    eapply controlFrame_trans; [exact Hst|apply gcReleased_control]. }
  destruct dead; [done|]. destruct err as [e|]; [|done]. by destruct (negb _).
Qed.

Lemma releaseUnusedBlock_control c cidr :
  controlFrame c (releaseUnusedBlock E c cidr)
  ∧ syncChan (releaseUnusedBlock E c cidr) = syncChan c
  ∧ confirmedLeaks (releaseUnusedBlock E c cidr) = confirmedLeaks c
  ∧ ∃ evs, trace (releaseUnusedBlock E c cidr) = trace c ++ evs
           ∧ Forall isAffinityRelease evs.
Proof.
  destruct (releaseUnusedBlock_calls E c cidr) as [H|(node & b & H & _)].
  - split; [|split; [|split]].
    4:{ exists []. by rewrite app_nil_r. }
    all: unfold releaseUnusedBlock; repeat case_match; by repeat split.
  - split; [|split; [|split]].
    4:{ eexists. split; [exact H|]. by repeat constructor. }
    all: unfold releaseUnusedBlock; repeat case_match; by repeat split.
Qed.

Lemma releaseUnusedBlocks_control c :
  controlFrame c (releaseUnusedBlocks E c).1
  ∧ syncChan (releaseUnusedBlocks E c).1 = syncChan c
  ∧ confirmedLeaks (releaseUnusedBlocks E c).1 = confirmedLeaks c
  ∧ (releaseUnusedBlocks E c).2 = None
  ∧ ∃ evs, trace (releaseUnusedBlocks E c).1 = trace c ++ evs
           ∧ Forall isAffinityRelease evs.
Proof.
  unfold releaseUnusedBlocks. simpl.
  assert (∀ P Q R S : Prop, P ∧ Q ∧ R ∧ S → P ∧ Q ∧ R ∧ True ∧ S) as Hre by tauto.
  assert (∀ P : Prop, P → (None : option Error) = None ∧ P) as _ by done.
  cut (controlFrame c (foldl (releaseUnusedBlock E) c (rangeKeys E (emptyBlocks c)))
       ∧ syncChan (foldl (releaseUnusedBlock E) c (rangeKeys E (emptyBlocks c)))
         = syncChan c
       ∧ confirmedLeaks (foldl (releaseUnusedBlock E) c (rangeKeys E (emptyBlocks c)))
         = confirmedLeaks c
       ∧ ∃ evs, trace (foldl (releaseUnusedBlock E) c (rangeKeys E (emptyBlocks c)))
                = trace c ++ evs ∧ Forall isAffinityRelease evs); [tauto|].
  apply (foldl_invariant (λ c',
    controlFrame c c' ∧ syncChan c' = syncChan c
    ∧ confirmedLeaks c' = confirmedLeaks c
    ∧ ∃ evs, trace c' = trace c ++ evs ∧ Forall isAffinityRelease evs)).
  { split; [apply controlFrame_refl|]. repeat split.
    exists []. by rewrite app_nil_r. }
  intros c1 cidr (I1 & I2 & I3 & evs & I4 & I5).
  destruct (releaseUnusedBlock_control c1 cidr) as (S1 & S2 & S3 & evs' & S4 & S5).
  split; [by eapply controlFrame_trans|]. split; [congruence|]. split; [congruence|].
  exists (evs ++ evs'). split; [by rewrite S4, I4, app_assoc|by apply Forall_app].
Qed.

Lemma releaseNode_control st cnode :
  controlFrame st.1 (releaseNode E st cnode).1
  ∧ syncChan (releaseNode E st cnode).1 = syncChan st.1
  ∧ confirmedLeaks (releaseNode E st cnode).1 = confirmedLeaks st.1
  ∧ trace (releaseNode E st cnode).1
    = trace st.1 ++ [IPAM_ReleaseHostAffinities cnode].
Proof.
  destruct st as [c stored]. unfold releaseNode, cleanupNode.
  destruct (ReleaseHostAffinities E cnode); by repeat split.
Qed.

Lemma releaseNodes_control nodes c :
  controlFrame c (releaseNodes E nodes c).1
  ∧ syncChan (releaseNodes E nodes c).1 = syncChan c
  ∧ confirmedLeaks (releaseNodes E nodes c).1 = confirmedLeaks c
  ∧ trace (releaseNodes E nodes c).1
    = trace c ++ (IPAM_ReleaseHostAffinities <$> nodes).
Proof.
  unfold releaseNodes. case_bool_decide as Hlen.
  { destruct nodes; [|done]. split; [apply controlFrame_refl|]. repeat split.
    simpl. by rewrite app_nil_r. }
  clear Hlen. generalize (@None Error). revert c.
  induction nodes as [|n nodes IH] using rev_ind; intros c stored; simpl.
  { split; [apply controlFrame_refl|]. repeat split. by rewrite app_nil_r. }
  rewrite foldl_app, fmap_app. simpl.
  destruct (IH c stored) as (I1 & I2 & I3 & I4).
  destruct (releaseNode_control (foldl (releaseNode E) (c, stored) nodes) n)
    as (S1 & S2 & S3 & S4).
  split; [by eapply controlFrame_trans|]. split; [congruence|]. split; [congruence|].
  by rewrite S4, I4, app_assoc.
Qed.

Lemma Forall_isAffinityRelease_hosts nodes :
  Forall isAffinityRelease (IPAM_ReleaseHostAffinities <$> nodes).
Proof. induction nodes; by constructor. Qed.

(** An error returned by [releaseNodes] is one [ReleaseHostAffinities]
    returned for a node of the batch. *)
Lemma releaseNodes_error nodes c err :
  (releaseNodes E nodes c).2 = Some err →
  ∃ cnode, cnode ∈ nodes ∧ ReleaseHostAffinities E cnode = Some err.
Proof.
  unfold releaseNodes. case_bool_decide; [done|].
  intros Herr.
  cut (∀ st : IPAMController * option Error,
         (foldl (releaseNode E) st nodes).2 = Some err →
         st.2 = Some err
         ∨ ∃ cnode, cnode ∈ nodes ∧ ReleaseHostAffinities E cnode = Some err).
  { intros Hcut. by destruct (Hcut _ Herr). }
  clear. induction nodes as [|n nodes IH]; intros st Hst; simpl in Hst; [by left|].
  destruct (IH _ Hst) as [Hn|(cnode & Hin & Hc)].
  - destruct st as [c stored]. unfold releaseNode, cleanupNode in Hn.
    destruct (ReleaseHostAffinities E n) as [e|] eqn:He; simpl in Hn.
    + right. exists n. split; [left|congruence].
    + by left.
  - right. exists cnode. split; [by right|done].
Qed.

Lemma checkAllocations_error c : (checkAllocations E c).2 = None.
Proof.
  unfold checkAllocations.
  destruct (if fullSyncRequired c then _ else _) as [c0 nodesToCheck].
  by destruct (foldl _ _ _).
Qed.

(** An error returned by the garbage collection is the one [ReleaseIPs]
    returned for the batch. *)
Lemma garbageCollectKnownLeaks_error c err :
  (garbageCollectKnownLeaks E c).2 = Return (Some err) →
  gcBatch E c ≠ [] ∧ (ReleaseIPs E (gcBatch E c)).2 = Some err.
Proof.
  unfold garbageCollectKnownLeaks, gcBatch.
  destruct (gcCollect _ _ _) as [[c1 opts] leaks]. simpl.
  case_bool_decide as Hlen; [done|].
  destruct (ReleaseIPs E opts) as [released e].
  destruct (foldl _ _ _) as [[c2 leaks2] dead].
  destruct dead; [done|]. destruct e as [e|]; [|done].
  destruct (negb _); [|done]. intros [= <-]. split; [|done].
  by intros ->.
Qed.

(** The shape of a sync that gets past its gates: the scan, which makes
    no call; the garbage collection; then, when that returns no error,
    calls that release affinities. *)
Lemma syncIPAM_phases c :
  datastoreReady c = true → syncStatus c = InSync →
  ∃ c1 nodesToRelease evs,
    checkAllocations E c = (c1, nodesToRelease, None)
    ∧ trace c1 = trace c
    ∧ trace (syncIPAM E c).1
      = trace c ++ callsDuring c1 (garbageCollectKnownLeaks E c1).1 ++ evs
    ∧ Forall isAffinityRelease evs
    ∧ controlFrame c (syncIPAM E c).1
    ∧ (∀ err, (syncIPAM E c).2 = Return (Some err) →
         (garbageCollectKnownLeaks E c1).2 = Return (Some err)
         ∨ ∃ cnode, ReleaseHostAffinities E cnode = Some err
                    ∧ IPAM_ReleaseHostAffinities cnode ∈ evs).
Proof.
  intros Hready Hsync. unfold syncIPAM. rewrite Hready, Hsync. cbn [negb].
  rewrite bool_decide_eq_true_2 by done. cbn [negb].
  pose proof (checkAllocations_error c) as Hnil.
  pose proof (checkAllocations_frame E c) as Hscan.
  destruct (checkAllocations E c) as [[c1 nodes] err0]. cbn [fst snd] in *. subst err0.
  exists c1, nodes.
  pose proof (garbageCollectKnownLeaks_trace E c1) as Hgc.
  pose proof (garbageCollectKnownLeaks_calls E c1) as Hgcc.
  pose proof (garbageCollectKnownLeaks_control c1) as Hgcf.
  destruct (garbageCollectKnownLeaks E c1) as [c2 x2]. cbn [fst snd] in *.
  assert (trace c1 = trace c) as Htr1 by apply Hscan.
  assert (trace c2 = trace c ++ callsDuring c1 c2) as Htr2.
  { by rewrite Hgcc, Hgc, Htr1. }
  assert (controlFrame c c2) as Hf2.
  { eapply controlFrame_trans; [by apply scanFrame_control|done]. }
  destruct x2 as [[e|]|].
  1, 3: exists []; rewrite app_nil_r; cbn [fst snd];
        repeat split; try done; try apply Hf2;
        try (intros err [= <-]; by left).
  pose proof (releaseUnusedBlocks_control c2) as (U1 & U2 & U3 & U4 & evs3 & U5 & U6).
  destruct (releaseUnusedBlocks E c2) as [c3 e3]. cbn [fst snd] in *. subst e3.
  pose proof (releaseNodes_control nodes c3) as (N1 & N2 & N3 & N4).
  pose proof (releaseNodes_error nodes c3) as Nerr.
  destruct (releaseNodes E nodes c3) as [c4 e4]. cbn [fst snd] in *.
  exists (evs3 ++ (IPAM_ReleaseHostAffinities <$> nodes)).
  assert (trace c4 = trace c ++ callsDuring c1 c2
                       ++ evs3 ++ (IPAM_ReleaseHostAffinities <$> nodes)) as Htr4.
  { by rewrite N4, U5, Htr2, <- !app_assoc. }
  assert (controlFrame c c4) as Hf4.
  { eapply controlFrame_trans; [|exact N1]. by eapply controlFrame_trans. }
  assert (Forall isAffinityRelease (evs3 ++ (IPAM_ReleaseHostAffinities <$> nodes)))
    as Hall.
  { apply Forall_app. split; [done|apply Forall_isAffinityRelease_hosts]. }
  destruct e4 as [e|].
  - cbn [fst snd]. split; [done|]. split; [done|]. split; [done|].
    split; [done|]. split; [done|]. intros err [= <-]. right.
    destruct (Nerr e eq_refl) as (cnode & Hin & Hrel).
    exists cnode. split; [done|]. apply elem_of_app. right.
    by apply list_elem_of_fmap_2.
  - destruct (bool_decide (0 < size _)); cbn [fst snd];
      repeat split; try done; apply Hf4.
Qed.

(** After a sync that got past its gates and returned no error, a kick
    is buffered whenever confirmed leaks remain. *)
Lemma syncIPAM_kick c :
  datastoreReady c = true → syncStatus c = InSync →
  (syncIPAM E c).2 = Return None →
  0 < size (confirmedLeaks (syncIPAM E c).1) →
  syncChan (syncIPAM E c).1 = true.
Proof.
  intros Hready Hsync. unfold syncIPAM. rewrite Hready, Hsync. cbn [negb].
  rewrite bool_decide_eq_true_2 by done. cbn [negb].
  destruct (checkAllocations E c) as [[c1 nodes] [e0|]]; [done|].
  destruct (garbageCollectKnownLeaks E c1) as [c2 [[e|]|]]; [done| |done].
  destruct (releaseUnusedBlocks E c2) as [c3 [e3|]]; [done|].
  destruct (releaseNodes E nodes c3) as [c4 [e4|]]; [done|].
  destruct (bool_decide (0 < size _)) eqn:Hsize; cbn [fst snd]; [done|].
  intros _ Hpos. apply bool_decide_eq_false in Hsize. by destruct Hsize.
Qed.

Lemma gcVisit_syncChan st id : syncChan (gcVisit E st id).1.1.1 = syncChan st.1.1.
Proof.
  destruct st as [[c opts] leaks]. unfold gcVisit. by repeat case_match.
Qed.

Lemma gcCollect_syncChan ids st : syncChan (gcCollect E ids st).1.1 = syncChan st.1.1.
Proof.
  revert st. induction ids as [|id rest IH]; intros st; simpl; [done|].
  pose proof (gcVisit_syncChan st id) as Hv.
  destruct (gcVisit E st id) as [st1 b]. simpl in Hv.
  destruct b; [done|]. by rewrite IH.
Qed.

Lemma gcReleased_syncChan st opt : syncChan (gcReleased st opt).1.1 = syncChan st.1.1.
Proof.
  destruct st as [[c leaks] dead]. unfold gcReleased, incrementReclamationMetric.
  by repeat case_match.
Qed.

(** The garbage collection does not kick. *)
Lemma garbageCollectKnownLeaks_syncChan c :
  syncChan (garbageCollectKnownLeaks E c).1 = syncChan c.
Proof.
  unfold garbageCollectKnownLeaks.
  pose proof (gcCollect_syncChan (rangeKeys E (confirmedLeaks c)) (c, [], ∅)) as Hc.
  destruct (gcCollect _ _ _) as [[c1 opts] leaks]. simpl in Hc.
  case_bool_decide; [done|].
  destruct (ReleaseIPs E opts) as [released err].
  pose proof (foldl_invariant
                (λ st : IPAMController * gmap string loc * bool,
                   syncChan st.1.1 = syncChan c)
                gcReleased released (emit (IPAM_ReleaseIPs opts) c1, leaks, false))
    as Hin.
  destruct (foldl _ _ _) as [[c2 leaks2] dead]. simpl in Hin.
  assert (syncChan c2 = syncChan c) as Hc2.
  { apply Hin; [done|]. intros st opt Hst. by rewrite gcReleased_syncChan. }
  destruct dead; [done|]. destruct err as [e|]; [|done]. by destruct (negb _).
Qed.

(** A sync kicks in one place only: when it got past its gates, returned
    no error and confirmed leaks remain. In every other case the sync
    channel is as it was. *)
Lemma syncIPAM_kick_only c :
  syncChan (syncIPAM E c).1 = true →
  syncChan c = true
  ∨ (datastoreReady c = true ∧ syncStatus c = InSync
     ∧ (syncIPAM E c).2 = Return None
     ∧ 0 < size (confirmedLeaks (syncIPAM E c).1)).
Proof.
  unfold syncIPAM.
  destruct (datastoreReady c) eqn:Hready; cbn [negb]; [|by left].
  case_bool_decide as Hsync; cbn [negb]; [|by left].
  pose proof (checkAllocations_frame E c) as (_ & _ & S1 & _).
  destruct (checkAllocations E c) as [[c1 nodes] [e0|]]; cbn [fst snd] in *.
  { intros H. left. congruence. }
  pose proof (garbageCollectKnownLeaks_syncChan c1) as S2.
  destruct (garbageCollectKnownLeaks E c1) as [c2 [[e|]|]]; cbn [fst snd] in *;
    [intros H; left; congruence| |intros H; left; congruence].
  pose proof (releaseUnusedBlocks_control c2) as (_ & S3 & _).
  destruct (releaseUnusedBlocks E c2) as [c3 [e3|]]; cbn [fst snd] in *.
  { intros H. left. congruence. }
  pose proof (releaseNodes_control nodes c3) as (_ & S4 & _).
  destruct (releaseNodes E nodes c3) as [c4 [e4|]]; cbn [fst snd] in *.
  { intros H. left. congruence. }
  case_bool_decide as Hsize; cbn [fst snd].
  - intros _. right. by repeat split.
  - intros H. left. simpl in H. congruence.
Qed.

End Sync.

(** ** The claims about a sync *)

Section SyncClaims.
Variable E : Env.

Lemma callsDuring_same c c' : trace c' = trace c → callsDuring c c' = [].
Proof. intros H. apply callsDuring_app. by rewrite app_nil_r. Qed.

Lemma isAffinityRelease_isIPAMCall e : isAffinityRelease e → isIPAMCall e.
Proof. by destruct e. Qed.

(** A sync only calls the IPAM client, and leaves the retry controller
    alone. *)
Lemma syncIPAM_frame c :
  controlFrame c (syncIPAM E c).1
  ∧ ∃ evs, trace (syncIPAM E c).1 = trace c ++ evs ∧ Forall isIPAMCall evs.
Proof.
  destruct (datastoreReady c) eqn:Hready.
  2:{ unfold syncIPAM. rewrite Hready. cbn [negb fst].
      split; [apply controlFrame_refl|]. exists []. by rewrite app_nil_r. }
  destruct (decide (syncStatus c = InSync)) as [Hsync|Hsync].
  2:{ unfold syncIPAM. rewrite Hready. cbn [negb].
      rewrite bool_decide_eq_false_2 by done. cbn [negb fst].
      split; [apply controlFrame_refl|]. exists []. by rewrite app_nil_r. }
  destruct (syncIPAM_phases E c Hready Hsync)
    as (c1 & nodes & evs & _ & _ & Htr & Hevs & Hf & _).
  split; [done|]. eexists. split; [exact Htr|].
  apply Forall_app. split.
  - rewrite garbageCollectKnownLeaks_calls. by case_bool_decide; repeat constructor.
  - eapply Forall_impl; [exact Hevs|]. apply isAffinityRelease_isIPAMCall.
Qed.

(** C5, as amended. Every [ReleaseIPs] call of a garbage collection,
    hence of a sync, passes at most 10,000 options. A sync that got past
    its gates (datastore ready, in sync) and returned no error has kicked
    the sync channel whenever confirmed leaks remain indexed; and that is
    the only kick of a sync: a sync that is stopped by a gate, returns an
    error or dies leaves the channel as it was, whatever leaks remain. *)
Theorem batch_cap_and_self_kick (c : IPAMController) :
  (∀ opts, IPAM_ReleaseIPs opts ∈ callsDuring c (garbageCollectKnownLeaks E c).1 →
     (Z.of_nat (length opts) ≤ 10000)%Z)
  ∧ (∀ opts, IPAM_ReleaseIPs opts ∈ callsDuring c (syncIPAM E c).1 →
       (Z.of_nat (length opts) ≤ 10000)%Z)
  ∧ (datastoreReady c = true → syncStatus c = InSync →
     (syncIPAM E c).2 = Return None →
     0 < size (confirmedLeaks (syncIPAM E c).1) →
     syncChan (syncIPAM E c).1 = true)
  ∧ (syncChan (syncIPAM E c).1 = true →
     syncChan c = true
     ∨ (datastoreReady c = true ∧ syncStatus c = InSync
        ∧ (syncIPAM E c).2 = Return None
        ∧ 0 < size (confirmedLeaks (syncIPAM E c).1))).
Proof.
  split; [apply gc_batch_capped|].
  split; [|split; [apply syncIPAM_kick|apply syncIPAM_kick_only]].
  intros opts Hcall.
  destruct (datastoreReady c) eqn:Hready.
  2:{ unfold syncIPAM in Hcall. rewrite Hready in Hcall. cbn [negb fst] in Hcall.
      rewrite callsDuring_same in Hcall by done. by apply elem_of_nil in Hcall. }
  destruct (decide (syncStatus c = InSync)) as [Hsync|Hsync].
  2:{ unfold syncIPAM in Hcall. rewrite Hready in Hcall. cbn [negb] in Hcall.
      rewrite bool_decide_eq_false_2 in Hcall by done. cbn [negb fst] in Hcall.
      rewrite callsDuring_same in Hcall by done. by apply elem_of_nil in Hcall. }
  destruct (syncIPAM_phases E c Hready Hsync)
    as (c1 & nodes & evs & _ & _ & Htr & Hevs & _).
  rewrite (callsDuring_app _ _ _ Htr) in Hcall.
  apply elem_of_app in Hcall as [Hcall|Hcall].
  - by apply (gc_batch_capped E c1).
  - by apply (proj1 (Forall_forall _ _) Hevs) in Hcall.
Qed.

(** C10. [checkAllocations] always returns a nil error: a node whose
    Kubernetes name cannot be resolved, whatever the error, is skipped
    (the iteration changes nothing and releases nothing); so an error
    returned by [syncIPAM] never comes from the scan: it is the error of
    a [ReleaseIPs] or [ReleaseHostAffinities] call the sync made. *)
Theorem checkAllocations_returns_nil (c : IPAMController) :
  (checkAllocations E c).2 = None
  ∧ (∀ nodesToCheck st cnode err,
       kubernetesNodeForCalico E st.1 cnode = Fail err →
       checkNode E nodesToCheck st cnode = st)
  ∧ (∀ err, (syncIPAM E c).2 = Return (Some err) →
       (∃ opts, IPAM_ReleaseIPs opts ∈ callsDuring c (syncIPAM E c).1
                ∧ (ReleaseIPs E opts).2 = Some err)
       ∨ (∃ cnode, IPAM_ReleaseHostAffinities cnode ∈ callsDuring c (syncIPAM E c).1
                   ∧ ReleaseHostAffinities E cnode = Some err)).
Proof.
  split; [apply checkAllocations_error|]. split.
  - intros nodesToCheck [c0 ns] cnode err Hfail. simpl in Hfail.
    unfold checkNode. rewrite Hfail.
    destruct (nodesToCheck !! cnode); [|done]. by destruct (negb _).
  - intros err Herr.
    destruct (datastoreReady c) eqn:Hready.
    2:{ unfold syncIPAM in Herr. by rewrite Hready in Herr. }
    destruct (decide (syncStatus c = InSync)) as [Hsync|Hsync].
    2:{ unfold syncIPAM in Herr. rewrite Hready in Herr. cbn [negb] in Herr.
        by rewrite bool_decide_eq_false_2 in Herr. }
    destruct (syncIPAM_phases E c Hready Hsync)
      as (c1 & nodes & evs & _ & _ & Htr & _ & _ & Hsrc).
    rewrite (callsDuring_app _ _ _ Htr).
    destruct (Hsrc err Herr) as [Hgc|(cnode & Hrel & Hin)].
    + left. apply garbageCollectKnownLeaks_error in Hgc as [Hne Hrel].
      exists (gcBatch E c1). split; [|done].
      apply elem_of_app. left. rewrite garbageCollectKnownLeaks_calls.
      rewrite bool_decide_eq_false_2 by done. by left.
    + right. exists cnode. split; [|done]. apply elem_of_app. by right.
Qed.

(** C7, as amended. On the triggered path (a kick received from the
    sync channel) a sync that returns an error is followed by
    [ScheduleRetry], after which one retry is pending, and a sync that
    returns nil is followed by [Success], which clears the backoff; the
    sync itself makes neither call. On the periodic-ticker path the
    error is only logged: neither [ScheduleRetry] nor [Success] is
    called and the retry controller is left as it was. *)
Theorem retry_follows_triggered_sync (c c' : IPAMController) :
  (acceptScheduleRequest E SyncKick c = Some c' →
   ∃ c1 r,
     syncIPAM E (set_syncChan false c) = (c1, Return r)
     ∧ Forall isIPAMCall (callsDuring c c1)
     ∧ callsDuring c1 c'
       = [match r with Some _ => Retry_ScheduleRetry | None => Retry_Success end;
          UpdateMetrics]
     ∧ match r with
       | Some _ => retryController.pending (retryController c') = 1
       | None => failures (retryController c') = 0
       end)
  ∧ (acceptScheduleRequest E Tick c = Some c' →
     retryController c' = retryController c
     ∧ Forall isIPAMCall (callsDuring c c')).
Proof.
  split.
  - unfold acceptScheduleRequest.
    pose proof (syncIPAM_frame (set_syncChan false c)) as (_ & evs & Htr & Hevs).
    destruct (syncIPAM E (set_syncChan false c)) as [c1 [r|]]; [|done].
    simpl in Htr. intros Hc'. exists c1, r. split; [done|].
    split; [by rewrite (callsDuring_app c c1 evs)|].
    destruct r as [e|]; injection Hc' as <-; split; try done;
      apply callsDuring_app; simpl; by rewrite <- app_assoc.
  - unfold acceptScheduleRequest.
    pose proof (syncIPAM_frame (fullScanNextSync c)) as (Hf & evs & Htr & Hevs).
    assert (trace (fullScanNextSync c) = trace c
            ∧ retryController (fullScanNextSync c) = retryController c) as [Ht Hr].
    { unfold fullScanNextSync. by destruct (fullSyncRequired c). }
    destruct (syncIPAM E (fullScanNextSync c)) as [c1 [r|]]; [|done].
    intros [= <-]. simpl in *. split; [destruct Hf; congruence|].
    rewrite (callsDuring_app c c1 evs); [done|congruence].
Qed.

End SyncClaims.

(** ** The status gate *)

Lemma foldl_commute {A B} (g : A → A) (f : A → B → A) (l : list B) (a : A) :
  (∀ a b, f (g a) b = g (f a b)) → foldl f (g a) l = g (foldl f a l).
Proof.
  intros Hfg. revert a. induction l as [|b l IH]; intros a; simpl; [done|].
  by rewrite Hfg, IH.
Qed.

Section StatusGate.
Variable E : Env.
Variable s : SyncStatus.














End StatusGate.

(** ** Allocations without a handle *)

Section HandlelessSlots.
Variable E : Env.

Lemma scanSlot_clearSlot cidr b j ord idx st :
  scanSlot E cidr (clearSlot j b) ord idx st = scanSlot E cidr b ord idx st.
Proof. done. Qed.

Lemma scanAllocations_clearSlot cidr b j ord slots st :
  scanAllocations E cidr (clearSlot j b) ord slots st
  = scanAllocations E cidr b ord slots st.
Proof.
  revert ord st. induction slots as [|idx rest IH]; intros ord st; [done|].
  cbn [scanAllocations]. rewrite scanSlot_clearSlot.
  destruct (scanSlot E cidr b ord idx st); [apply IH|done].
Qed.

Lemma scanSlot_bump d cidr b ord idx st :
  scanSlot E cidr b ord idx (bumpScan d st)
  = bumpScan d <$> scanSlot E cidr b ord idx st.
Proof.
  destruct st as [[c num] cur]. unfold scanSlot, bumpScan. cbn [fst snd].
  destruct idx as [i|]; [|done].
  replace (num + d + 1)%Z with (num + 1 + d)%Z by lia.
  by repeat case_match.
Qed.

Lemma scanAllocations_bump d cidr b ord slots st :
  scanAllocations E cidr b ord slots (bumpScan d st)
  = bumpScan d <$> scanAllocations E cidr b ord slots st.
Proof.
  revert ord st. induction slots as [|idx rest IH]; intros ord st;
    cbn [scanAllocations]; [done|].
  rewrite scanSlot_bump. destruct (scanSlot E cidr b ord idx st); simpl; [|done].
  apply IH.
Qed.

Lemma scanSlot_count cidr b ord idx st st' :
  scanSlot E cidr b ord idx st = Some st' → (st.1.2 ≤ st'.1.2)%Z.
Proof.
  destruct st as [[c num] cur]. unfold scanSlot.
  intros H. repeat case_match; simplify_eq; simpl; lia.
Qed.

Lemma scanAllocations_count cidr b ord slots st st' :
  scanAllocations E cidr b ord slots st = Some st' → (st.1.2 ≤ st'.1.2)%Z.
Proof.
  revert ord st. induction slots as [|idx rest IH]; intros ord st;
    cbn [scanAllocations]; [by intros [= ->]|].
  destruct (scanSlot E cidr b ord idx st) as [st1|] eqn:H1; [|done].
  intros H2. apply scanSlot_count in H1. apply IH in H2. lia.
Qed.

(** A slot allocated without a handle only counts: the scan of the block
    is that of the block with the slot unallocated, with one more
    allocation counted. *)
Lemma scanAllocations_handleless cidr b ord slots j idx at' st :
  slots !! j = Some (Some idx) → Attributes b !! idx = Some at' →
  AttrPrimary at' = None →
  scanAllocations E cidr b ord slots st
  = bumpScan 1 <$> scanAllocations E cidr b ord (<[j := None]> slots) st.
Proof.
  intros Hj Hat Hprim. revert ord j st Hj.
  induction slots as [|x rest IH]; intros ord j st Hj; [done|].
  destruct j as [|j]; simpl in Hj.
  - injection Hj as ->. cbn [scanAllocations list_insert insert].
    assert (scanSlot E cidr b ord (Some idx) st = Some (bumpScan 1 st)) as ->.
    { destruct st as [[c num] cur]. unfold scanSlot. by rewrite Hat, Hprim. }
    assert (scanSlot E cidr b ord None st = Some st) as ->.
    { by destruct st as [[c num] cur]. }
    apply scanAllocations_bump.
  - cbn [scanAllocations list_insert insert].
    destruct (scanSlot E cidr b ord x st); [by apply IH|done].
Qed.

(** *** What does not depend on the bookkeeping of blocks *)

Lemma releaseStale_forget cidr cur c id :
  releaseStale cidr cur (forgetBlocks c) id
  = forgetBlocks (releaseStale cidr cur c id).
Proof. unfold releaseStale, forgetBlocks. simpl. by repeat case_match. Qed.

Lemma releaseStaleAllocations_forget cidr cur c :
  releaseStaleAllocations E cidr cur (forgetBlocks c)
  = forgetBlocks (releaseStaleAllocations E cidr cur c).
Proof.
  unfold releaseStaleAllocations. cbn [allocationsByBlock forgetBlocks
    set_emptyBlocks set_blockReleaseTracker set_allBlocks].
  apply foldl_commute, releaseStale_forget.
Qed.

Lemma releaseStale_emptyBlocks cidr cur c id :
  emptyBlocks (releaseStale cidr cur c id) = emptyBlocks c.
Proof. unfold releaseStale. by repeat case_match. Qed.

Lemma noteEmptiness_forget cidr n num c :
  forgetBlocks (noteEmptiness cidr n num c) = forgetBlocks c.
Proof. unfold noteEmptiness, forgetBlocks. by repeat case_match. Qed.

Lemma gcVisit_forget st id :
  gcVisit E (forgetBlocks st.1.1, st.1.2, st.2) id
  = ((forgetBlocks (gcVisit E st id).1.1.1, (gcVisit E st id).1.1.2,
      (gcVisit E st id).1.2), (gcVisit E st id).2).
Proof.
  destruct st as [[c opts] leaks]. unfold gcVisit, forgetBlocks. simpl.
  by repeat case_match.
Qed.

Lemma gcCollect_forget ids st :
  gcCollect E ids (forgetBlocks st.1.1, st.1.2, st.2)
  = (forgetBlocks (gcCollect E ids st).1.1, (gcCollect E ids st).1.2,
     (gcCollect E ids st).2).
Proof.
  revert st. induction ids as [|id rest IH]; intros st; cbn [gcCollect].
  { by destruct st as [[c opts] leaks]. }
  rewrite gcVisit_forget. destruct (gcVisit E st id) as [st1 b]. cbn [fst snd].
  destruct b; [by destruct st1 as [[c1 opts1] leaks1]|]. apply IH.
Qed.

Lemma gcBatch_forget c : gcBatch E (forgetBlocks c) = gcBatch E c.
Proof.
  unfold gcBatch.
  change (confirmedLeaks (forgetBlocks c)) with (confirmedLeaks c).
  pose proof (gcCollect_forget (rangeKeys E (confirmedLeaks c)) (c, [], ∅)) as H.
  cbn [fst snd] in H. by rewrite H.
Qed.

Lemma indexLeak_forget l c :
  indexLeak l (forgetBlocks c) = forgetBlocks (indexLeak l c).
Proof. unfold indexLeak, forgetBlocks. simpl. by repeat case_match. Qed.

Lemma checkAllocation_forget knode ex allocations st id :
  checkAllocation E knode ex allocations (forgetBlocks st.1.1, st.1.2, st.2) id
  = (forgetBlocks (checkAllocation E knode ex allocations st id).1.1,
     (checkAllocation E knode ex allocations st id).1.2,
     (checkAllocation E knode ex allocations st id).2).
Proof.
  destruct st as [[c ts] cd]. unfold checkAllocation. cbn [fst snd].
  destruct (allocations !! id) as [l|]; [|done].
  change (heap (updateAlloc l (set_knode knode) (forgetBlocks c)))
    with (heap (updateAlloc l (set_knode knode) c)).
  destruct (heap (updateAlloc l (set_knode knode) c) !! l) as [a|]; [|done].
  change (LeakGracePeriod (updateAlloc l (set_knode knode) (forgetBlocks c)))
    with (LeakGracePeriod c).
  change (LeakGracePeriod (updateAlloc l (set_knode knode) c))
    with (LeakGracePeriod c).
  repeat (case_match; try done).
  all: cbn [fst snd]; f_equal; f_equal; by rewrite <- indexLeak_forget.
Qed.

Lemma confirmTunnel_forget c l :
  confirmTunnel (forgetBlocks c) l = forgetBlocks (confirmTunnel c l).
Proof. unfold confirmTunnel, forgetBlocks. simpl. by repeat case_match. Qed.

Lemma checkNode_forget nodesToCheck st cnode :
  checkNode E nodesToCheck (forgetBlocks st.1, st.2) cnode
  = (forgetBlocks (checkNode E nodesToCheck st cnode).1,
     (checkNode E nodesToCheck st cnode).2).
Proof.
  destruct st as [c ns]. unfold checkNode. cbn [fst snd].
  destruct (nodesToCheck !! cnode) as [allocations|]; [|done].
  change (kubernetesNodeForCalico E (forgetBlocks c) cnode)
    with (kubernetesNodeForCalico E c cnode).
  destruct (kubernetesNodeForCalico E c cnode) as [knode|err];
    [|by destruct (negb _)].
  set (ex := negb _ && _).
  pose proof (foldl_commute
    (λ st : NodeScan, (forgetBlocks st.1.1, st.1.2, st.2))
    (checkAllocation E knode ex allocations) (rangeKeys E allocations)
    (c, [], true)) as Hc.
  cbn [fst snd] in Hc. rewrite Hc by (intros st' id'; apply checkAllocation_forget).
  destruct (foldl (checkAllocation E knode ex allocations) (c, [], true) _)
    as [[c1 ts] cd]. cbn [fst snd].
  destruct (negb ex); [|done]. destruct (negb cd); [done|]. cbn [fst snd].
  f_equal. apply foldl_commute, confirmTunnel_forget.
Qed.

Lemma checkAllocations_forget c :
  checkAllocations E (forgetBlocks c)
  = (forgetBlocks (checkAllocations E c).1.1, (checkAllocations E c).1.2,
     (checkAllocations E c).2).
Proof.
  unfold checkAllocations.
  change (fullSyncRequired (forgetBlocks c)) with (fullSyncRequired c).
  change (nodesToCheckFull (forgetBlocks c)) with (nodesToCheckFull c).
  change (allocationState (forgetBlocks c)) with (allocationState c).
  destruct (fullSyncRequired c).
  - change (set_fullSyncRequired false (forgetBlocks c))
      with (forgetBlocks (set_fullSyncRequired false c)).
    pose proof (foldl_commute
      (λ st : IPAMController * list string, (forgetBlocks st.1, st.2))
      (checkNode E (nodesToCheckFull c)) (rangeKeys E (nodesToCheckFull c))
      (set_fullSyncRequired false c, [])) as Hc.
    cbn [fst snd] in Hc. rewrite Hc by (intros st' id'; apply checkNode_forget).
    clear Hc. by destruct (foldl (checkNode E (nodesToCheckFull c)) _ _).
  - set (ntc := allocationState.iterDirty _).
    pose proof (foldl_commute
      (λ st : IPAMController * list string, (forgetBlocks st.1, st.2))
      (checkNode E ntc) (rangeKeys E ntc) (c, [])) as Hc.
    cbn [fst snd] in Hc. rewrite Hc by (intros st' id'; apply checkNode_forget).
    clear Hc. by destruct (foldl (checkNode E ntc) _ _).
Qed.

Lemma nextBatch_forget c : nextBatch E (forgetBlocks c) = nextBatch E c.
Proof.
  unfold nextBatch. rewrite checkAllocations_forget. cbn [fst].
  apply gcBatch_forget.
Qed.

(** C9, as amended. In a block update, a slot allocated without a
    primary handle produces no allocation entry: the allocation objects,
    [allocationsByBlock], [allocationState], [handleTracker] and
    [confirmedLeaks] (every cache but the raw block, the empty blocks and
    the release tracker) are what they are when the slot is unallocated,
    and so are the options that the garbage collection passes to
    [ReleaseIPs], at once or after the next scan: the slot adds nothing
    to them, and its address is passed only if it is without the slot.
    The slot still counts as an allocation of its block: the block is not
    put among the empty blocks. *)
Theorem handleless_slot_not_tracked (cidr : string) (b : AllocationBlock)
    (ord idx : nat) (at' : AllocationAttribute) (c : IPAMController) :
  Allocations b !! ord = Some (Some idx) →
  Attributes b !! idx = Some at' →
  AttrPrimary at' = None →
  match onBlockUpdated E cidr b c, onBlockUpdated E cidr (clearSlot ord b) c with
  | Some c1, Some c2 =>
      forgetBlocks c1 = forgetBlocks c2
      ∧ gcBatch E c1 = gcBatch E c2
      ∧ nextBatch E c1 = nextBatch E c2
      ∧ emptyBlocks c1 !! cidr = None
  | None, None => True
  | _, _ => False
  end.
Proof.
  intros Hslot Hat Hprim. unfold onBlockUpdated.
  change (updateAffinity cidr (clearSlot ord b) c) with (updateAffinity cidr b c).
  destruct (updateAffinity cidr b c) as [c0 n].
  rewrite scanAllocations_clearSlot.
  rewrite (scanAllocations_handleless cidr b 0 (Allocations b) ord idx at')
    by done.
  change (Allocations (clearSlot ord b)) with (<[ord := None]> (Allocations b)).
  destruct (scanAllocations E cidr b 0 (<[ord:=None]> (Allocations b)) (c0, 0%Z, ∅))
    as [[[c2 num] cur]|] eqn:Hscan; [|done].
  cbn [fmap option_fmap option_map bumpScan fst snd].
  apply scanAllocations_count in Hscan. simpl in Hscan.
  cbv zeta.
  set (X1 := releaseStaleAllocations E cidr cur (noteEmptiness cidr n (num + 1) c2)).
  set (X2 := releaseStaleAllocations E cidr cur (noteEmptiness cidr n num c2)).
  assert (forgetBlocks X1 = forgetBlocks X2) as HX.
  { subst X1 X2.
    by rewrite <- !releaseStaleAllocations_forget, !noteEmptiness_forget. }
  match goal with
  | |- forgetBlocks ?x1 = forgetBlocks ?x2 ∧ _ => set (c1 := x1); set (c3 := x2)
  end.
  assert (forgetBlocks c1 = forgetBlocks c3) as Hsame.
  { transitivity (set_poolManager
                    (poolManager.onBlockUpdated E cidr (poolManager (forgetBlocks X1)))
                    (forgetBlocks X1)); [done|]. by rewrite HX. }
  split; [exact Hsame|]. split; [|split].
  - by rewrite <- gcBatch_forget, Hsame, gcBatch_forget.
  - by rewrite <- nextBatch_forget, Hsame, nextBatch_forget.
  - subst c1 X1. cbn [emptyBlocks set_allBlocks set_poolManager].
    unfold releaseStaleAllocations.
    rewrite (foldl_invariant
               (λ c', emptyBlocks c' = emptyBlocks (noteEmptiness cidr n (num + 1) c2))
               (releaseStale cidr cur)); [|done|].
    2:{ intros c' id Hc'. by rewrite releaseStale_emptyBlocks. }
    unfold noteEmptiness.
    rewrite (bool_decide_eq_false_2 (num + 1 = 0)%Z) by lia.
    rewrite andb_false_r. destruct (negb _); apply lookup_delete_eq.
Qed.

End HandlelessSlots.

(** ** Partial release *)

Section PartialRelease.
Variable E : Env.

Lemma allocationIsValid_markValid a b :
  allocationIsValid E (Alloc.markValid a) b = allocationIsValid E a b.
Proof. done. Qed.










End PartialRelease.

Section ReleasedOptions.
Variable E : Env.

Local Arguments incrementReclamationMetric : simpl never.







Lemma gcReleased_dead c lk opt : gcReleased (c, lk, true) opt = (c, lk, true).
Proof. done. Qed.







End ReleasedOptions.

Section PartialReleaseClaim.
Variable E : Env.




End PartialReleaseClaim.

(** * The scenarios *)

Example synced_status : syncStatus synced = InSync ∧ length (heap synced) = 2.
Proof. by vm_compute. Qed.

Example scanned_leaks :
  (map_to_list (confirmedLeaks scanned)).*2 = [0; 1]
  ∧ gcBatch E0 scanned
    = [ {| Address := "10.0.0.1"; Handle := "h1"; SequenceNumber := 0 |};
        {| Address := "10.0.0.2"; Handle := "h2"; SequenceNumber := 0 |} ].
Proof. by vm_compute. Qed.




(** C5 at work: [ReleaseIPs] releases nothing and reports no error; the
    sync ends without error, the two leaks stay indexed and a kick is
    buffered. *)
Lemma batch_cap_and_self_kick_witness :
  let c := set_syncChan false synced in
  syncChan c = false
  ∧ (syncIPAM E_idle c).2 = Return None
  ∧ size (confirmedLeaks (syncIPAM E_idle c).1) = 2
  ∧ syncChan (syncIPAM E_idle c).1 = true.
Proof.
  intros c.
  assert ((syncIPAM E_idle c).2 = Return None) as Hret.
  { vm_compute. reflexivity. }
  assert (size (confirmedLeaks (syncIPAM E_idle c).1) = 2) as Hsize.
  { vm_compute. reflexivity. }
  split; [reflexivity|]. split; [exact Hret|]. split; [exact Hsize|].
  apply (proj1 (proj2 (proj2 (batch_cap_and_self_kick E_idle c)))).
  - vm_compute. reflexivity.
  - vm_compute. reflexivity.
  - exact Hret.
  - rewrite Hsize. lia.
Defined.

(** C5, as stated, fails: in [synced], ready and in sync, the scan
    confirms two leaks and [ReleaseIPs] times out. The sync returns the
    error with both leaks still indexed, and no kick is buffered: the
    sync has returned before the test of [confirmedLeaks]. *)
Lemma failed_sync_does_not_kick :
  let c := set_syncChan false synced in
  datastoreReady c = true
  ∧ syncStatus c = InSync
  ∧ (syncIPAM E_timeout c).2 = Return (Some (ErrOther "timeout"))
  ∧ size (confirmedLeaks (syncIPAM E_timeout c).1) = 2
  ∧ syncChan (syncIPAM E_timeout c).1 = false.
Proof. vm_compute. repeat split; reflexivity. Qed.

(** C7 at work: a triggered sync in which [ReleaseHostAffinities] times
    out is followed by [ScheduleRetry]. *)
Lemma retry_follows_triggered_sync_witness :
  let c' := turn E_hostTimeout SyncKick synced in
  acceptScheduleRequest E_hostTimeout SyncKick synced = Some c'
  ∧ ∃ c1 r,
      syncIPAM E_hostTimeout (set_syncChan false synced) = (c1, Return r)
      ∧ callsDuring c1 c'
        = [match r with Some _ => Retry_ScheduleRetry | None => Retry_Success end;
           UpdateMetrics]
      ∧ match r with
        | Some _ => retryController.pending (retryController c') = 1
        | None => failures (retryController c') = 0
        end.
Proof.
  intros c'.
  assert (acceptScheduleRequest E_hostTimeout SyncKick synced = Some c') as Hturn.
  { vm_compute. reflexivity. }
  split; [exact Hturn|].
  destruct (proj1 (retry_follows_triggered_sync E_hostTimeout synced c') Hturn)
    as (c1 & r & H1 & _ & H3 & H4).
  exists c1, r. exact (conj H1 (conj H3 H4)).
Defined.

(** C7, as stated, fails on the periodic-ticker path: the sync returns
    the error of [ReleaseHostAffinities] and [ScheduleRetry] is not
    called, no retry is pending; and when the sync returns nil, [Success]
    is not called. *)
Lemma periodic_sync_not_retried :
  (syncIPAM E_hostTimeout (fullScanNextSync synced)).2
    = Return (Some (ErrOther "timeout"))
  ∧ trace <$> acceptScheduleRequest E_hostTimeout Tick synced
    = Some [ IPAM_ReleaseIPs
               [ {| Address := "10.0.0.1"; Handle := "h1"; SequenceNumber := 0 |};
                 {| Address := "10.0.0.2"; Handle := "h2"; SequenceNumber := 0 |} ];
             IPAM_ReleaseHostAffinities "n1" ]
  ∧ retryController <$> acceptScheduleRequest E_hostTimeout Tick synced
    = Some {| retryScheduled := false; failures := 0 |}
  ∧ (syncIPAM E0 (fullScanNextSync synced)).2 = Return None
  ∧ trace <$> acceptScheduleRequest E0 Tick synced
    = Some [ IPAM_ReleaseIPs
               [ {| Address := "10.0.0.1"; Handle := "h1"; SequenceNumber := 0 |};
                 {| Address := "10.0.0.2"; Handle := "h2"; SequenceNumber := 0 |} ];
             IPAM_ReleaseHostAffinities "n1" ].
Proof. vm_compute. repeat split; reflexivity. Qed.



(** C9 at work: block [blockH], whose only allocation has no handle. *)
Lemma handleless_slot_not_tracked_witness :
  let c := NewIPAMController E0 None in
  ∃ c1 c2,
    onBlockUpdated E0 cidrA blockH c = Some c1
    ∧ onBlockUpdated E0 cidrA (clearSlot 1 blockH) c = Some c2
    ∧ forgetBlocks c1 = forgetBlocks c2
    ∧ gcBatch E0 c1 = gcBatch E0 c2
    ∧ nextBatch E0 c1 = nextBatch E0 c2
    ∧ emptyBlocks c1 !! cidrA = None.
Proof.
  intros c.
  pose proof (handleless_slot_not_tracked E0 cidrA blockH 1 0
                {| AttrPrimary := None; AttrSecondary := ∅ |} c
                eq_refl eq_refl eq_refl) as H.
  destruct (onBlockUpdated E0 cidrA blockH c) as [c1|] eqn:H1;
    [|vm_compute in H1; discriminate].
  destruct (onBlockUpdated E0 cidrA (clearSlot 1 blockH) c) as [c2|] eqn:H2;
    [|vm_compute in H2; discriminate].
  exists c1, c2. split; [reflexivity|]. split; [reflexivity|]. exact H.
Defined.

(** C9, as stated, fails, in two ways. The allocation without a handle
    has an effect on the controller's state: with it the block is not
    recorded as empty and no affinity release is attempted for it;
    without it the block is recorded as empty. And its address can be
    passed to [ReleaseIPs]: in [staleH] the slot at ordinal 1 of the
    block received last has no handle and no allocation object is made
    for it, but the leak indexed for the address under the handle it had
    before the block was deleted is still there, and the garbage
    collection passes the address to [ReleaseIPs]. *)
Lemma handleless_slot_counts :
  let c := NewIPAMController E0 None in
  (((λ c', map_to_list (emptyBlocks c')) <$> onBlockUpdated E0 cidrA blockH c)
     = Some []
   ∧ ((λ c', map_to_list (emptyBlocks c'))
        <$> onBlockUpdated E0 cidrA (clearSlot 1 blockH) c)
     = Some [(cidrA, "n1")]
   ∧ ((λ c', length (heap c')) <$> onBlockUpdated E0 cidrA blockH c) = Some 0)
  ∧ (allBlocks staleH !! cidrA = Some blockH
     ∧ length (heap staleH) = length (heap stale)
     ∧ ordinalToIP E0 cidrA 1 = "10.0.0.1"
     ∧ Address <$> gcBatch E0 staleH = ["10.0.0.1"; "10.0.0.2"]
     ∧ callsDuring staleH (garbageCollectKnownLeaks E0 staleH).1
       = [IPAM_ReleaseIPs (gcBatch E0 staleH)]).
Proof. vm_compute. repeat split; reflexivity. Qed.

(** C10 at work: in a cluster whose Calico nodes are not orchestrated by
    Kubernetes, the scan skips node [n1]. *)
Lemma checkAllocations_returns_nil_witness :
  let nodesToCheck := allocationState.iterDirty (allocationState synced) in
  kubernetesNodeForCalico E_bareMetal synced "n1" = Fail ErrorNotKubernetes
  ∧ is_Some (nodesToCheck !! "n1")
  ∧ checkNode E_bareMetal nodesToCheck (synced, []) "n1" = (synced, [])
  ∧ (checkAllocations E_bareMetal synced).2 = None.
Proof.
  intros nodesToCheck.
  assert (kubernetesNodeForCalico E_bareMetal synced "n1" = Fail ErrorNotKubernetes)
    as Hfail.
  { vm_compute. reflexivity. }
  destruct (checkAllocations_returns_nil E_bareMetal synced) as (H1 & H2 & _).
  split; [exact Hfail|].
  split; [apply (bool_decide_unpack _); vm_compute; exact I|].
  split; [|exact H1].
  exact (H2 nodesToCheck (synced, []) "n1" ErrorNotKubernetes Hfail).
Defined.
(** * Further properties of the controller *)

(** ** The cache of Kubernetes node names *)

Section NodeCache.
Variable E : Env.

Lemma kubernetesNodeForCalico_cached c cnode kn :
  kubernetesNodesByCalicoName c !! cnode = Some kn → kn ≠ "" →
  kubernetesNodeForCalico E c cnode = Val kn.
Proof.
  intros Hc Hne. unfold kubernetesNodeForCalico. rewrite Hc.
  by rewrite bool_decide_eq_false_2.
Qed.

Lemma kubernetesNodeForCalico_uncached c c0 cnode :
  default "" (kubernetesNodesByCalicoName c !! cnode) = "" →
  kubernetesNodeForCalico E c cnode
  = kubernetesNodeForCalico E (set_kubernetesNodesByCalicoName ∅ c0) cnode.
Proof.
  intros Hc. unfold kubernetesNodeForCalico. simpl. rewrite lookup_empty.
  destruct (kubernetesNodesByCalicoName c !! cnode) as [kn|]; [|done].
  simpl in Hc. subst kn. done.
Qed.

Lemma kubernetesNodeForCalico_same c c' cnode :
  kubernetesNodesByCalicoName c' !! cnode = kubernetesNodesByCalicoName c !! cnode →
  kubernetesNodeForCalico E c' cnode = kubernetesNodeForCalico E c cnode.
Proof. intros Hc. unfold kubernetesNodeForCalico. by rewrite Hc. Qed.

Lemma handleNodeUpdate_lookup name v c :
  kubernetesNodesByCalicoName (handleNodeUpdate E name v c)
    !! match v with Some n => Node_Name n | None => name end
  = match v with
    | Some n => Some (match getK8sNodeName E n with Val kn => kn | Fail _ => "" end)
    | None => None
    end.
Proof.
  unfold handleNodeUpdate. destruct v as [n|].
  - destruct (kubernetesNodesByCalicoName c !! Node_Name n) as [cur|] eqn:Hc;
      [case_bool_decide as Hd|]; simpl.
    + by rewrite lookup_insert_eq.
    + by subst cur.
    + by rewrite lookup_insert_eq.
  - destruct (kubernetesNodesByCalicoName c !! name) eqn:Hc; simpl; [|done].
    by rewrite lookup_delete_eq.
Qed.

Lemma handleNodeUpdate_lookup_ne name v c other :
  other ≠ match v with Some n => Node_Name n | None => name end →
  kubernetesNodesByCalicoName (handleNodeUpdate E name v c) !! other
  = kubernetesNodesByCalicoName c !! other.
Proof.
  intros Hne. unfold handleNodeUpdate. destruct v as [n|].
  - destruct (kubernetesNodesByCalicoName c !! Node_Name n) as [cur|];
      [case_bool_decide|]; simpl; try done; by rewrite lookup_insert_ne.
  - destruct (kubernetesNodesByCalicoName c !! name); simpl; [|done].
    by rewrite lookup_delete_ne.
Qed.

(** X1. A node update caches the node under its name: a lookup of a node
    with a non-empty Kubernetes name is then answered from the cache,
    whatever the Calico API would say; a node that is not a Kubernetes
    node is cached as [""], and it and a deleted node are looked up in the
    API as with an empty cache. The lookups of other nodes are not
    affected. *)
Theorem node_update_then_lookup (name : string) (n : CalicoNode)
    (c : IPAMController) :
  let uncached :=
    kubernetesNodeForCalico E (set_kubernetesNodesByCalicoName ∅ c) in
  (∀ kn, getK8sNodeName E n = Val kn → kn ≠ "" →
     kubernetesNodeForCalico E (handleNodeUpdate E name (Some n) c) (Node_Name n)
     = Val kn)
  ∧ (∀ err, getK8sNodeName E n = Fail err →
       kubernetesNodesByCalicoName (handleNodeUpdate E name (Some n) c)
         !! Node_Name n = Some ""
       ∧ kubernetesNodeForCalico E (handleNodeUpdate E name (Some n) c)
           (Node_Name n) = uncached (Node_Name n))
  ∧ kubernetesNodesByCalicoName (handleNodeUpdate E name None c) !! name = None
  ∧ kubernetesNodeForCalico E (handleNodeUpdate E name None c) name
    = uncached name
  ∧ (∀ v other,
       other ≠ match v with Some n' => Node_Name n' | None => name end →
       kubernetesNodeForCalico E (handleNodeUpdate E name v c) other
       = kubernetesNodeForCalico E c other).
Proof.
  intros uncached. subst uncached.
  pose proof (handleNodeUpdate_lookup name (Some n) c) as Hup.
  pose proof (handleNodeUpdate_lookup name None c) as Hdel.
  cbv beta iota in Hup, Hdel.
  split; [|split; [|split; [|split]]].
  - intros kn Hkn Hne. rewrite Hkn in Hup.
    by apply kubernetesNodeForCalico_cached.
  - intros err Herr. rewrite Herr in Hup. split; [done|].
    apply kubernetesNodeForCalico_uncached. by rewrite Hup.
  - done.
  - apply kubernetesNodeForCalico_uncached. by rewrite Hdel.
  - intros v other Hne. apply kubernetesNodeForCalico_same.
    by apply handleNodeUpdate_lookup_ne.
Qed.

End NodeCache.

(** ** Wake-ups that make no call *)

Section Notifications.
Variable E : Env.

Lemma handlerFrame_refl c : handlerFrame c c.
Proof. by repeat split. Qed.

Lemma handlerFrame_trans c1 c2 c3 :
  handlerFrame c1 c2 → handlerFrame c2 c3 → handlerFrame c1 c3.
Proof. unfold handlerFrame. intuition congruence. Qed.

Lemma scanSlot_handlerFrame cidr b ord idx st st' :
  scanSlot E cidr b ord idx st = Some st' → handlerFrame st.1.1 st'.1.1.
Proof.
  destruct st as [[c num] cur]. unfold scanSlot. intros H.
  repeat case_match; simplify_eq; by repeat split.
Qed.

Lemma scanAllocations_handlerFrame cidr b ord slots st st' :
  scanAllocations E cidr b ord slots st = Some st' → handlerFrame st.1.1 st'.1.1.
Proof.
  revert ord st. induction slots as [|idx slots IH]; intros ord st H; simpl in H.
  { simplify_eq. apply handlerFrame_refl. }
  destruct (scanSlot E cidr b ord idx st) as [st1|] eqn:H1; [|done].
  eapply handlerFrame_trans; [by eapply scanSlot_handlerFrame|by eapply IH].
Qed.

Lemma releaseStale_handlerFrame cidr cur c id :
  handlerFrame c (releaseStale cidr cur c id).
Proof. unfold releaseStale. repeat case_match; by repeat split. Qed.

Lemma releaseDeleted_handlerFrame cidr c id :
  handlerFrame c (releaseDeleted cidr c id).
Proof. unfold releaseDeleted. repeat case_match; by repeat split. Qed.

Lemma onBlockUpdated_handlerFrame cidr b c c' :
  onBlockUpdated E cidr b c = Some c' → handlerFrame c c'.
Proof.
  unfold onBlockUpdated. intros H.
  destruct (updateAffinity cidr b c) as [c0 n] eqn:Ha.
  assert (handlerFrame c c0) as H0.
  { unfold updateAffinity in Ha. repeat case_match; simplify_eq; by repeat split. }
  destruct (scanAllocations E cidr b 0 (Allocations b) (c0, 0%Z, ∅))
    as [[[c1 num] cur]|] eqn:Hs; [|done].
  apply scanAllocations_handlerFrame in Hs. simpl in Hs. simplify_eq.
  eapply handlerFrame_trans; [exact H0|].
  eapply handlerFrame_trans; [exact Hs|].
  set (c2 := noteEmptiness cidr n num c1).
  assert (handlerFrame c1 c2) as H2.
  { subst c2. unfold noteEmptiness. repeat case_match; by repeat split. }
  eapply handlerFrame_trans; [exact H2|].
  assert (handlerFrame c2 (releaseStaleAllocations E cidr cur c2)) as H3.
  { unfold releaseStaleAllocations.
    apply (foldl_invariant (λ c', handlerFrame c2 c')); [apply handlerFrame_refl|].
    intros c' id Hc'. eapply handlerFrame_trans; [exact Hc'|].
    apply releaseStale_handlerFrame. }
  destruct H3 as (?&?&?&?). by repeat split.
Qed.

Lemma onBlockDeleted_handlerFrame cidr c : handlerFrame c (onBlockDeleted E cidr c).
Proof.
  unfold onBlockDeleted.
  set (c1 := foldl _ _ _).
  assert (handlerFrame c c1) as H1.
  { subst c1. apply (foldl_invariant (λ c', handlerFrame c c'));
      [apply handlerFrame_refl|].
    intros c' id Hc'. eapply handlerFrame_trans; [exact Hc'|].
    apply releaseDeleted_handlerFrame. }
  destruct H1 as (?&?&?&?). case_match; by repeat split.
Qed.

Lemma handleUpdate_handlerFrame upd c c' :
  handleUpdate E upd c = Some c' → handlerFrame c c'.
Proof.
  destruct upd as [s|[name v|name v|name v|cidr v|]]; simpl; intros H.
  - destruct s; simplify_eq; by repeat split.
  - simplify_eq. unfold handleNodeUpdate. repeat case_match; by repeat split.
  - simplify_eq. destruct v; simpl; unfold onPoolUpdated, onPoolDeleted;
      repeat case_match; by repeat split.
  - simplify_eq. unfold handleClusterInformationUpdate.
    repeat case_match; by repeat split.
  - destruct v; simpl in H; [by eapply onBlockUpdated_handlerFrame|].
    simplify_eq. apply onBlockDeleted_handlerFrame.
  - simplify_eq. apply handlerFrame_refl.
Qed.

Lemma processUpdates_handlerFrame upds c c' :
  processUpdates E upds c = Some c' → handlerFrame c c'.
Proof.
  unfold processUpdates. revert c.
  induction upds as [|upd upds IH]; intros c H; simpl in H.
  { simplify_eq. apply handlerFrame_refl. }
  destruct (handleUpdate E upd c) as [c1|] eqn:H1.
  - eapply handlerFrame_trans; [by eapply handleUpdate_handlerFrame|by apply IH].
  - exfalso. clear -H. induction upds; simpl in H; [done|auto].
Qed.

(** X2. A node deletion, a pod deletion and a batch of syncer updates
    only take note of the change and kick the sync channel: handling them
    makes no call to the IPAM client (addresses and affinities are
    released by syncs only) and leaves the retry controller alone; of the
    three, only a node deletion asks for a full scan. *)
Theorem notifications_only_kick (w : Wakeup) (c c' : IPAMController) :
  isNotification w →
  acceptScheduleRequest E w c = Some c' →
  callsDuring c c' = []
  ∧ syncChan c' = true
  ∧ retryController c' = retryController c
  ∧ fullSyncRequired c'
    = match w with NodeDeletion _ => true | _ => fullSyncRequired c end.
Proof.
  intros Hw H. destruct w as [more|pods|upds| | | |]; try done; simpl in H.
  - simplify_eq. unfold fullScanNextSync, callsDuring.
    destruct (fullSyncRequired c) eqn:Hf; simpl; by rewrite drop_all.
  - simplify_eq. unfold callsDuring. simpl. by rewrite drop_all.
  - destruct (processUpdates E upds c) as [c1|] eqn:H1; [|done]. simplify_eq.
    apply processUpdates_handlerFrame in H1. destruct H1 as (Ht&Hr&Hf&_).
    unfold callsDuring. simpl. rewrite Ht. by rewrite drop_all.
Qed.

End Notifications.

(** ** The datastore lock *)

Section DatastoreLock.
Variable E : Env.

(** X3. A cluster-information update sets the readiness flag to the value
    it carries, leaves it alone when it carries none, and its deletion
    locks the datastore. While the datastore is locked a sync does
    nothing: the triggered path makes no IPAM call and still reports a
    success to the retry controller, which clears the backoff; the
    periodic tick only queues the full scan. *)
Theorem datastore_lock (v : option ClusterInformation) (c : IPAMController) :
  datastoreReady (handleClusterInformationUpdate v c)
  = match v with
    | Some ci => default (datastoreReady c) (DatastoreReady ci)
    | None => false
    end
  ∧ (datastoreReady c = false →
     syncIPAM E c = (c, Return None)
     ∧ acceptScheduleRequest E Tick c = Some (fullScanNextSync c)
     ∧ ∃ c', acceptScheduleRequest E SyncKick c = Some c'
             ∧ callsDuring c c' = [Retry_Success; UpdateMetrics]
             ∧ failures (retryController c') = 0
             ∧ syncChan c' = false).
Proof.
  split.
  { unfold handleClusterInformationUpdate.
    destruct v as [[[ready|]]|]; done. }
  intros Hlock.
  assert (∀ c0, datastoreReady c0 = false → syncIPAM E c0 = (c0, Return None))
    as Hskip.
  { intros c0 H0. unfold syncIPAM. by rewrite H0. }
  split; [by apply Hskip|]. split.
  { simpl. rewrite Hskip; [done|].
    unfold fullScanNextSync. by destruct (fullSyncRequired c). }
  simpl. rewrite Hskip; [|done]. eexists. split; [done|].
  unfold callsDuring, updateMetrics, emit. simpl.
  rewrite <- app_assoc. by rewrite drop_app_length.
Qed.

End DatastoreLock.

(** ** The release of deleted nodes *)

Section ReleaseNodes.
Variable E : Env.

Lemma releaseNode_error st cnode :
  (releaseNode E st cnode).2
  = match ReleaseHostAffinities E cnode with
    | Some err => Some err
    | None => st.2
    end.
Proof.
  destruct st as [c stored]. unfold releaseNode, cleanupNode.
  by destruct (ReleaseHostAffinities E cnode).
Qed.

Lemma releaseNode_counters st cnode :
  gcReclamationCounters (releaseNode E st cnode).1
  = match ReleaseHostAffinities E cnode with
    | Some _ => gcReclamationCounters st.1
    | None => delete cnode <$> gcReclamationCounters st.1
    end.
Proof.
  destruct st as [c stored]. unfold releaseNode, cleanupNode.
  by destruct (ReleaseHostAffinities E cnode).
Qed.

Lemma foldl_releaseNode_error nodes st :
  (foldl (releaseNode E) st nodes).2
  = from_option Some st.2 (last (omap (ReleaseHostAffinities E) nodes)).
Proof.
  revert st. induction nodes as [|n nodes IH] using rev_ind; intros st; [done|].
  rewrite foldl_app. simpl. rewrite releaseNode_error, omap_app. simpl.
  destruct (ReleaseHostAffinities E n) as [err|]; simpl.
  - by rewrite last_snoc.
  - by rewrite app_nil_r, IH.
Qed.

Lemma foldl_releaseNode_counters nodes st pool :
  gcReclamationCounters (foldl (releaseNode E) st nodes).1 !! pool
  = (λ vec, filter (λ kv, kv.1 ∉ filter (λ n, ReleaseHostAffinities E n = None) nodes)
                   vec)
      <$> gcReclamationCounters st.1 !! pool.
Proof.
  revert st. induction nodes as [|n nodes IH] using rev_ind; intros st.
  { simpl. destruct (gcReclamationCounters st.1 !! pool) as [vec|]; [|done].
    simpl. f_equal. symmetry. apply map_filter_id. intros i x _. simpl.
    rewrite filter_nil. apply not_elem_of_nil. }
  rewrite foldl_app. simpl. rewrite releaseNode_counters, filter_app.
  destruct (ReleaseHostAffinities E n) as [err|] eqn:Hn.
  - rewrite IH. rewrite filter_cons_False by (by rewrite Hn).
    rewrite filter_nil. by rewrite app_nil_r.
  - rewrite lookup_fmap, IH. rewrite filter_cons_True by done. rewrite filter_nil.
    destruct (gcReclamationCounters st.1 !! pool) as [vec|]; [|done].
    simpl. f_equal. apply map_eq. intros label.
    destruct (decide (label = n)) as [->|Hne].
    + rewrite lookup_delete_eq. symmetry. apply map_lookup_filter_None. right.
      intros x _. simpl. intros Hnot. apply Hnot, elem_of_app. right.
      by apply list_elem_of_singleton.
    + rewrite lookup_delete_ne by done.
      destruct (vec !! label) as [x|] eqn:Hx.
      * destruct (decide (label ∈ filter (λ n0, ReleaseHostAffinities E n0 = None) nodes))
          as [Hin|Hnin].
        -- rewrite (proj2 (map_lookup_filter_None _ _ _)).
           ++ symmetry. apply map_lookup_filter_None. right. intros y _. simpl.
              intros Hnot. apply Hnot, elem_of_app. by left.
           ++ right. intros y _. simpl. tauto.
        -- rewrite (proj2 (map_lookup_filter_Some _ _ _ x)) by done.
           symmetry. apply map_lookup_filter_Some. split; [done|]. simpl.
           rewrite elem_of_app, list_elem_of_singleton. tauto.
      * rewrite (proj2 (map_lookup_filter_None _ _ _)) by (by left).
        symmetry. apply map_lookup_filter_None. by left.
Qed.

(** X4. [releaseNodes] asks for the release of the affinities of every
    node of the list, in order, whether or not an earlier release failed;
    it returns the error of the last release that failed, nil when none
    did; and it clears the reclamation counters of exactly the nodes
    whose release succeeded. *)
Theorem releaseNodes_tries_every_node (nodes : list string) (c : IPAMController) :
  callsDuring c (releaseNodes E nodes c).1 = IPAM_ReleaseHostAffinities <$> nodes
  ∧ (releaseNodes E nodes c).2 = last (omap (ReleaseHostAffinities E) nodes)
  ∧ ∀ pool label,
      gcReclamationCounters (releaseNodes E nodes c).1 !! pool ≫= (.!! label)
      = if bool_decide (label ∈ nodes ∧ ReleaseHostAffinities E label = None)
        then None
        else gcReclamationCounters c !! pool ≫= (.!! label).
Proof.
  split; [|split].
  - apply callsDuring_app. apply releaseNodes_control.
  - unfold releaseNodes. case_bool_decide as Hlen.
    + by destruct nodes.
    + rewrite foldl_releaseNode_error. simpl.
      by destruct (last (omap (ReleaseHostAffinities E) nodes)).
  - intros pool label. unfold releaseNodes. case_bool_decide as Hlen.
    + destruct nodes; [|done]. rewrite bool_decide_eq_false_2; [done|].
      intros [Hin _]. by apply elem_of_nil in Hin.
    + rewrite foldl_releaseNode_counters. simpl.
      destruct (gcReclamationCounters c !! pool) as [vec|]; simpl;
        [|by case_bool_decide].
      case_bool_decide as Hl.
      * apply map_lookup_filter_None. right. intros x _. simpl. intros Hnot.
        apply Hnot. apply list_elem_of_filter. tauto.
      * destruct (vec !! label) as [x|] eqn:Hx.
        -- apply map_lookup_filter_Some. split; [done|]. simpl.
           rewrite list_elem_of_filter. tauto.
        -- apply map_lookup_filter_None. by left.
Qed.

End ReleaseNodes.

(** ** What a sync leaves alone *)

Section SyncKeeps.
Variable E : Env.

Lemma sameAllocation_refl a : sameAllocation a a.
Proof. by repeat split. Qed.

Lemma sameAllocation_trans a1 a2 a3 :
  sameAllocation a1 a2 → sameAllocation a2 a3 → sameAllocation a1 a3.
Proof. unfold sameAllocation. intuition congruence. Qed.

Lemma sameHeap_refl (h : list allocation) : Forall2 sameAllocation h h.
Proof. apply Forall2_same_length_lookup. split; [done|].
  intros i a a' ? ?. simplify_eq. apply sameAllocation_refl. Qed.

Lemma sameHeap_trans (h1 h2 h3 : list allocation) :
  Forall2 sameAllocation h1 h2 → Forall2 sameAllocation h2 h3 →
  Forall2 sameAllocation h1 h3.
Proof.
  intros H12 H23. eapply Forall2_trans; [|exact H12|exact H23].
  intros a1 a2 a3. apply sameAllocation_trans.
Qed.

Lemma sameHeap_alter (f : allocation → allocation) l (h : list allocation) :
  (∀ a, sameAllocation a (f a)) → Forall2 sameAllocation h (alter f l h).
Proof.
  intros Hf. apply Forall2_same_length_lookup. split; [by rewrite length_alter|].
  intros i a a' Ha Ha'. destruct (decide (i = l)) as [->|Hne].
  - rewrite list_lookup_alter_eq, Ha in Ha'. simpl in Ha'. simplify_eq. apply Hf.
  - rewrite list_lookup_alter_ne, Ha in Ha' by done. simplify_eq.
    apply sameAllocation_refl.
Qed.

Lemma sameAllocation_markLeak t g a : sameAllocation a (Alloc.markLeak t g a).
Proof. unfold Alloc.markLeak. repeat case_match; by repeat split. Qed.

Lemma syncKeeps_refl c : syncKeeps c c.
Proof. repeat split. apply sameHeap_refl. Qed.

Lemma syncKeeps_trans c1 c2 c3 : syncKeeps c1 c2 → syncKeeps c2 c3 → syncKeeps c1 c3.
Proof.
  intros (A1&A2&A3&A4) (B1&B2&B3&B4).
  split; [congruence|]. split; [congruence|]. split; [congruence|].
  by eapply sameHeap_trans.
Qed.

Lemma blocksKept_refl c : blocksKept c c.
Proof. by repeat split. Qed.

Lemma blocksKept_trans c1 c2 c3 : blocksKept c1 c2 → blocksKept c2 c3 → blocksKept c1 c3.
Proof. unfold blocksKept. intuition congruence. Qed.

Lemma updateAlloc_keeps l f c :
  (∀ a, sameAllocation a (f a)) →
  syncKeeps c (updateAlloc l f c) ∧ blocksKept c (updateAlloc l f c).
Proof. intros Hf. repeat split. simpl. by apply sameHeap_alter. Qed.

Lemma indexLeak_keeps l c :
  syncKeeps c (indexLeak l c) ∧ blocksKept c (indexLeak l c).
Proof.
  unfold indexLeak. repeat case_match; repeat split; apply sameHeap_refl.
Qed.


Lemma keeps_trans c1 c2 c3 :
  syncKeeps c1 c2 ∧ blocksKept c1 c2 → syncKeeps c2 c3 ∧ blocksKept c2 c3 →
  syncKeeps c1 c3 ∧ blocksKept c1 c3.
Proof.
  intros [A B] [A' B']. split; [by eapply syncKeeps_trans|by eapply blocksKept_trans].
Qed.

Lemma keeps_refl c : syncKeeps c c ∧ blocksKept c c.
Proof. split; [apply syncKeeps_refl|apply blocksKept_refl]. Qed.

Lemma checkAllocation_keeps knode ex allocations st id :
  syncKeeps st.1.1 (checkAllocation E knode ex allocations st id).1.1
  ∧ blocksKept st.1.1 (checkAllocation E knode ex allocations st id).1.1.
Proof.
  destruct st as [[c ts] cd]. unfold checkAllocation.
  destruct (allocations !! id) as [l|]; [|apply keeps_refl].
  pose proof (updateAlloc_keeps l (set_knode knode) c) as H1.
  specialize (H1 (λ a, ltac:(by repeat split))).
  set (c1 := updateAlloc l (set_knode knode) c) in *.
  destruct (heap c1 !! l) as [a|]; [|done].
  destruct (isWindowsReserved E a); [done|].
  destruct (negb (Alloc.isPodIP a) && negb (Alloc.isTunnelAddress a)); [done|].
  destruct (Alloc.isTunnelAddress a); [done|].
  destruct (allocationIsValid E a true); cbn [fst].
  { eapply keeps_trans; [exact H1|]. apply updateAlloc_keeps. by repeat split. }
  eapply keeps_trans; [exact H1|].
  eapply keeps_trans; [|apply indexLeak_keeps].
  destruct (negb ex).
  - apply updateAlloc_keeps. by repeat split.
  - destruct (LeakGracePeriod c1); [|apply keeps_refl].
    apply updateAlloc_keeps. apply sameAllocation_markLeak.
Qed.

Lemma confirmTunnel_keeps c l :
  syncKeeps c (confirmTunnel c l) ∧ blocksKept c (confirmTunnel c l).
Proof.
  unfold confirmTunnel.
  pose proof (updateAlloc_keeps l Alloc.markConfirmedLeak c) as H1.
  specialize (H1 (λ a, ltac:(by repeat split))).
  destruct (heap _ !! l); [|done].
  destruct H1 as [(?&?&?&?) (?&?&?&?&?&?)]. by repeat split.
Qed.

Lemma checkNode_keeps nodesToCheck st cnode :
  syncKeeps st.1 (checkNode E nodesToCheck st cnode).1
  ∧ blocksKept st.1 (checkNode E nodesToCheck st cnode).1.
Proof.
  destruct st as [c ns]. unfold checkNode.
  destruct (nodesToCheck !! cnode) as [allocations|]; [|apply keeps_refl].
  destruct (kubernetesNodeForCalico E c cnode) as [knode|err];
    [|destruct (negb _); apply keeps_refl].
  set (ex := negb _ && _).
  pose proof (foldl_invariant
                (λ st : NodeScan, syncKeeps c st.1.1 ∧ blocksKept c st.1.1)
                (checkAllocation E knode ex allocations)
                (rangeKeys E allocations) (c, [], true)) as Hin.
  destruct (foldl _ _ _) as [[c1 ts] cd]. cbn [fst snd] in *.
  assert (syncKeeps c c1 ∧ blocksKept c c1) as Hc1.
  { apply Hin; [apply keeps_refl|]. intros st id Hst.
    eapply keeps_trans; [exact Hst | apply checkAllocation_keeps]. }
  destruct (negb ex); [|done]. destruct (negb cd); [done|]. cbn [fst].
  apply (foldl_invariant (λ c', syncKeeps c c' ∧ blocksKept c c')); [done|].
  intros c' l Hc'. eapply keeps_trans; [exact Hc' | apply confirmTunnel_keeps].
Qed.

Lemma checkAllocations_keeps c :
  syncKeeps c (checkAllocations E c).1.1 ∧ blocksKept c (checkAllocations E c).1.1.
Proof.
  unfold checkAllocations.
  set (start := if fullSyncRequired c then _ else _).
  assert (syncKeeps c start.1 ∧ blocksKept c start.1) as Hstart.
  { subst start. destruct (fullSyncRequired c); [|apply keeps_refl].
    repeat split. apply sameHeap_refl. }
  destruct start as [c0 nodesToCheck]. cbn [fst] in Hstart.
  pose proof (foldl_invariant
                (λ st : IPAMController * list string,
                   syncKeeps c st.1 ∧ blocksKept c st.1)
                (checkNode E nodesToCheck) (rangeKeys E nodesToCheck) (c0, [])) as Hin.
  destruct (foldl _ _ _) as [c1 ns]. cbn [fst snd] in *. apply Hin; [done|].
  intros st cnode Hst. eapply keeps_trans; [exact Hst | apply checkNode_keeps].
Qed.

Lemma gcVisit_keeps st id :
  syncKeeps st.1.1 (gcVisit E st id).1.1.1
  ∧ blocksKept st.1.1 (gcVisit E st id).1.1.1.
Proof.
  destruct st as [[c opts] leaks]. unfold gcVisit.
  destruct (confirmedLeaks c !! id) as [l|]; [|apply keeps_refl].
  destruct (heap c !! l) as [a|]; [|apply keeps_refl].
  destruct (allocationIsValid E a _); cbn [fst].
  - pose proof (updateAlloc_keeps l Alloc.markValid
                  (set_confirmedLeaks (delete id (confirmedLeaks c)) c)) as H1.
    specialize (H1 (λ a, ltac:(by repeat split))).
    destruct H1 as [(?&?&?&?) (?&?&?&?&?&?)]. by repeat split.
  - destruct (negb _); apply keeps_refl.
Qed.

Lemma gcCollect_keeps ids st :
  syncKeeps st.1.1 (gcCollect E ids st).1.1
  ∧ blocksKept st.1.1 (gcCollect E ids st).1.1.
Proof.
  revert st. induction ids as [|id ids IH]; intros st; simpl; [apply keeps_refl|].
  pose proof (gcVisit_keeps st id) as Hv.
  destruct (gcVisit E st id) as [st1 []]; [done|].
  eapply keeps_trans; [exact Hv|apply IH].
Qed.

Lemma incrementReclamationMetric_keeps blk node c :
  syncKeeps c (incrementReclamationMetric blk node c)
  ∧ blocksKept c (incrementReclamationMetric blk node c).
Proof.
  unfold incrementReclamationMetric. destruct (_ !! _); [|apply keeps_refl].
  repeat split. apply sameHeap_refl.
Qed.

Lemma gcReleased_keeps st opt :
  syncKeeps st.1.1 (gcReleased st opt).1.1 ∧ blocksKept st.1.1 (gcReleased st opt).1.1.
Proof.
  destruct st as [[c leaks] dead]. unfold gcReleased.
  destruct dead; [apply keeps_refl|].
  destruct (leaks !! Address opt) as [l|]; [|apply keeps_refl].
  destruct (heap c !! l) as [a|]; [|apply keeps_refl]. cbn [fst].
  pose proof (incrementReclamationMetric_keeps (block a) (Alloc.node a)
                (set_allocationState
                   (allocationState.release a (allocationState c)) c)) as H1.
  destruct H1 as [(?&?&?&?) (?&?&?&?&?&?)]. by repeat split.
Qed.

Lemma garbageCollectKnownLeaks_keeps c :
  syncKeeps c (garbageCollectKnownLeaks E c).1
  ∧ blocksKept c (garbageCollectKnownLeaks E c).1.
Proof.
  unfold garbageCollectKnownLeaks.
  pose proof (gcCollect_keeps (rangeKeys E (confirmedLeaks c)) (c, [], ∅)) as H1.
  destruct (gcCollect _ _ _) as [[c1 opts] leaks]. cbn [fst] in H1.
  case_bool_decide; [done|].
  destruct (ReleaseIPs E opts) as [released err].
  pose proof (foldl_invariant
                (λ st : IPAMController * gmap string loc * bool,
                   syncKeeps c st.1.1 ∧ blocksKept c st.1.1)
                gcReleased released
                (emit (IPAM_ReleaseIPs opts) c1, leaks, false)) as Hin.
  destruct (foldl _ _ _) as [[c2 leaks2] dead]. cbn [fst] in Hin.
  assert (syncKeeps c c2 ∧ blocksKept c c2) as H2.
  { apply Hin.
    - destruct H1 as [(?&?&?&?) (?&?&?&?&?&?)]. by repeat split.
    - intros st opt Hst. eapply keeps_trans; [exact Hst|apply gcReleased_keeps]. }
  destruct dead; [done|]. destruct err as [e|]; [|done]. by destruct (negb _).
Qed.

Lemma releaseNodes_keeps nodes c :
  syncKeeps c (releaseNodes E nodes c).1 ∧ blocksKept c (releaseNodes E nodes c).1.
Proof.
  unfold releaseNodes. case_bool_decide; [apply keeps_refl|].
  apply (foldl_invariant
           (λ st : IPAMController * option Error,
              syncKeeps c st.1 ∧ blocksKept c st.1)); [apply keeps_refl|].
  intros [c1 stored] cnode Hst. eapply keeps_trans; [exact Hst|].
  unfold releaseNode, cleanupNode. cbn [fst].
  destruct (ReleaseHostAffinities E cnode); repeat split; apply sameHeap_refl.
Qed.

Lemma releaseUnusedBlock_keeps c cidr :
  syncKeeps c (releaseUnusedBlock E c cidr)
  ∧ heap (releaseUnusedBlock E c cidr) = heap c
  ∧ allocationState (releaseUnusedBlock E c cidr) = allocationState c
  ∧ fullSyncRequired (releaseUnusedBlock E c cidr) = fullSyncRequired c.
Proof.
  unfold releaseUnusedBlock.
  repeat case_match; repeat split; apply sameHeap_refl.
Qed.

Lemma releaseUnusedBlocks_keeps c :
  syncKeeps c (releaseUnusedBlocks E c).1
  ∧ heap (releaseUnusedBlocks E c).1 = heap c
  ∧ allocationState (releaseUnusedBlocks E c).1 = allocationState c
  ∧ fullSyncRequired (releaseUnusedBlocks E c).1 = fullSyncRequired c.
Proof.
  unfold releaseUnusedBlocks. cbn [fst].
  apply (foldl_invariant
           (λ c', syncKeeps c c' ∧ heap c' = heap c
                  ∧ allocationState c' = allocationState c
                  ∧ fullSyncRequired c' = fullSyncRequired c)).
  { split; [apply syncKeeps_refl|done]. }
  intros c1 cidr (A1&A2&A3&A4).
  destruct (releaseUnusedBlock_keeps c1 cidr) as (B1&B2&B3&B4).
  split; [by eapply syncKeeps_trans|]. split; [congruence|]. split; congruence.
Qed.


Lemma garbageCollectKnownLeaks_flag c :
  fullSyncRequired (garbageCollectKnownLeaks E c).1 = fullSyncRequired c.
Proof.
  unfold garbageCollectKnownLeaks.
  pose proof (foldl_invariant
                (λ st : GCState, fullSyncRequired st.1.1 = fullSyncRequired c)
                (λ st id, (gcVisit E st id).1)) as Hv.
  assert (∀ ids st, fullSyncRequired st.1.1 = fullSyncRequired c →
            fullSyncRequired (gcCollect E ids st).1.1 = fullSyncRequired c) as Hc.
  { induction ids as [|id ids IH]; intros st Hst; simpl; [done|].
    assert (fullSyncRequired (gcVisit E st id).1.1.1 = fullSyncRequired c) as H1.
    { rewrite <- Hst. destruct st as [[c0 opts] leaks]. unfold gcVisit.
      repeat case_match; done. }
    destruct (gcVisit E st id) as [st1 []]; [done|]. by apply IH. }
  specialize (Hc (rangeKeys E (confirmedLeaks c)) (c, [], ∅) eq_refl).
  destruct (gcCollect _ _ _) as [[c1 opts] leaks]. cbn [fst] in Hc.
  case_bool_decide; [done|].
  destruct (ReleaseIPs E opts) as [released err].
  pose proof (foldl_invariant
                (λ st : IPAMController * gmap string loc * bool,
                   fullSyncRequired st.1.1 = fullSyncRequired c)
                gcReleased released
                (emit (IPAM_ReleaseIPs opts) c1, leaks, false)) as Hin.
  destruct (foldl _ _ _) as [[c2 leaks2] dead]. cbn [fst] in Hin.
  assert (fullSyncRequired c2 = fullSyncRequired c) as H2.
  { apply Hin; [done|]. intros [[c0 lk] dd] opt Hst. rewrite <- Hst.
    unfold gcReleased, incrementReclamationMetric. repeat case_match; done. }
  destruct dead; [done|]. destruct err as [e|]; [|done]. by destruct (negb _).
Qed.

Lemma releaseNodes_flag nodes c :
  fullSyncRequired (releaseNodes E nodes c).1 = fullSyncRequired c.
Proof.
  unfold releaseNodes. case_bool_decide; [done|].
  apply (foldl_invariant
           (λ st : IPAMController * option Error,
              fullSyncRequired st.1 = fullSyncRequired c)); [done|].
  intros [c1 stored] cnode Hst. rewrite <- Hst.
  unfold releaseNode, cleanupNode. by destruct (ReleaseHostAffinities E cnode).
Qed.

Lemma checkAllocations_flag c : fullSyncRequired (checkAllocations E c).1.1 = false.
Proof.
  unfold checkAllocations.
  set (start := if fullSyncRequired c then _ else _).
  assert (fullSyncRequired start.1 = false) as Hstart.
  { subst start. by destruct (fullSyncRequired c) eqn:Hf. }
  destruct start as [c0 nodesToCheck]. cbn [fst] in Hstart.
  pose proof (foldl_invariant
                (λ st : IPAMController * list string, fullSyncRequired st.1 = false)
                (checkNode E nodesToCheck) (rangeKeys E nodesToCheck) (c0, [])) as Hin.
  destruct (foldl _ _ _) as [c1 ns]. cbn [fst snd] in *. apply Hin; [done|].
  intros [c2 ns2] cnode Hst. cbn [fst] in *. rewrite <- Hst.
  unfold checkNode. destruct (nodesToCheck !! cnode) as [allocations|]; [|done].
  destruct (kubernetesNodeForCalico E c2 cnode) as [knode|err];
    [|by destruct (negb _)].
  set (ex := negb _ && _).
  pose proof (foldl_invariant
                (λ st : NodeScan, fullSyncRequired st.1.1 = fullSyncRequired c2)
                (checkAllocation E knode ex allocations)
                (rangeKeys E allocations) (c2, [], true)) as Hin2.
  destruct (foldl _ _ _) as [[c3 ts] cd]. cbn [fst snd] in *.
  assert (fullSyncRequired c3 = fullSyncRequired c2) as H3.
  { apply Hin2; [done|]. intros [[c4 ts4] cd4] id H4. rewrite <- H4.
    unfold checkAllocation, indexLeak. cbn [fst]. repeat case_match; done. }
  destruct (negb ex); [|done]. destruct (negb cd); [done|]. cbn [fst].
  apply (foldl_invariant (λ c', fullSyncRequired c' = fullSyncRequired c2)); [done|].
  intros c' l Hc'. rewrite <- Hc'. unfold confirmTunnel. by repeat case_match.
Qed.

(** X5. A sync leaves the cache of node names, the allocations listed
    per block and the handle tracker as they are, whatever it releases and
    however it ends: it creates and drops no allocation object and changes
    the objects in their [knode] and leak state only. An address released
    by the garbage collection stays listed under its block and its handle
    until the syncer reports the block again. *)
Theorem sync_keeps_allocation_caches (c : IPAMController) :
  syncKeeps c (syncIPAM E c).1.
Proof.
  unfold syncIPAM. destruct (negb (datastoreReady c)); [apply syncKeeps_refl|].
  destruct (negb _); [apply syncKeeps_refl|].
  pose proof (checkAllocations_error E c) as Hnil.
  pose proof (checkAllocations_keeps c) as [H1 _].
  destruct (checkAllocations E c) as [[c1 nodes] err0]. cbn [fst snd] in *. subst err0.
  pose proof (garbageCollectKnownLeaks_keeps c1) as [H2 _].
  destruct (garbageCollectKnownLeaks E c1) as [c2 [[e|]|]]; cbn [fst] in *;
    try by eapply syncKeeps_trans.
  pose proof (releaseUnusedBlocks_keeps c2) as [H3 _].
  destruct (releaseUnusedBlocks E c2) as [c3 [e3|]]; cbn [fst] in *.
  { eapply syncKeeps_trans; [|exact H3]. by eapply syncKeeps_trans. }
  pose proof (releaseNodes_keeps nodes c3) as [H4 _].
  destruct (releaseNodes E nodes c3) as [c4 [e4|]]; cbn [fst] in *.
  { eapply syncKeeps_trans; [|exact H4]. eapply syncKeeps_trans; [|exact H3].
    by eapply syncKeeps_trans. }
  assert (syncKeeps c c4) as Hc4.
  { eapply syncKeeps_trans; [|exact H4]. eapply syncKeeps_trans; [|exact H3].
    by eapply syncKeeps_trans. }
  destruct Hc4 as (?&?&?&?). case_bool_decide; by repeat split.
Qed.

(** X6. A sync that gets past its gates uses up the request for a full
    scan: the flag is cleared by the scan, before anything is released, so
    it is clear afterwards however the sync ends; a sync that fails in the
    garbage collection or in the release of a node is retried as a scan of
    the dirty nodes only. *)
Theorem full_scan_request_used_up (c : IPAMController) :
  datastoreReady c = true → syncStatus c = InSync →
  fullSyncRequired (syncIPAM E c).1 = false.
Proof.
  intros Hready Hsync. unfold syncIPAM. rewrite Hready, Hsync. cbn [negb].
  rewrite bool_decide_eq_true_2 by done. cbn [negb].
  pose proof (checkAllocations_error E c) as Hnil.
  pose proof (checkAllocations_flag c) as H1.
  destruct (checkAllocations E c) as [[c1 nodes] err0]. cbn [fst snd] in *. subst err0.
  pose proof (garbageCollectKnownLeaks_flag c1) as H2.
  destruct (garbageCollectKnownLeaks E c1) as [c2 [[e|]|]]; cbn [fst] in *;
    try congruence.
  pose proof (releaseUnusedBlocks_keeps c2) as (_&_&_&H3).
  destruct (releaseUnusedBlocks E c2) as [c3 [e3|]]; cbn [fst] in *; [congruence|].
  pose proof (releaseNodes_flag nodes c3) as H4.
  destruct (releaseNodes E nodes c3) as [c4 [e4|]]; cbn [fst] in *; [congruence|].
  case_bool_decide; simpl; congruence.
Qed.

Lemma checkNode_released nodesToCheck st cnode x :
  x ∈ (checkNode E nodesToCheck st cnode).2 →
  x ∈ st.2
  ∨ x = cnode
    ∧ is_Some (nodesToCheck !! cnode)
    ∧ ∃ knode, kubernetesNodeForCalico E st.1 cnode = Val knode
               ∧ (knode = "" ∨ nodeExists E knode = false).
Proof.
  destruct st as [c ns]. unfold checkNode.
  destruct (nodesToCheck !! cnode) as [allocations|] eqn:Hn; [|by left].
  destruct (kubernetesNodeForCalico E c cnode) as [knode|err] eqn:Hk;
    [|destruct (negb _); by left].
  destruct (foldl _ _ _) as [[c1 ts] cd].
  destruct (negb (negb (bool_decide (knode = "")) && nodeExists E knode)) eqn:Hex;
    [|by left].
  destruct (negb cd); [by left|]. cbn [snd]. intros [Hx|Hx]%elem_of_app; [by left|].
  apply list_elem_of_singleton in Hx. right. split; [done|]. split; [done|].
  exists knode. split; [done|].
  apply negb_true_iff, andb_false_iff in Hex as [Hex|Hex]; [left|by right].
  apply negb_false_iff in Hex. by apply bool_decide_eq_true_1 in Hex.
Qed.

Lemma checkAllocations_released c cnode :
  cnode ∈ (checkAllocations E c).1.2 →
  ∃ knode, kubernetesNodeForCalico E c cnode = Val knode
           ∧ (knode = "" ∨ nodeExists E knode = false).
Proof.
  unfold checkAllocations.
  set (start := if fullSyncRequired c then _ else _).
  assert (kubernetesNodesByCalicoName start.1 = kubernetesNodesByCalicoName c)
    as Hstart.
  { subst start. by destruct (fullSyncRequired c). }
  destruct start as [c0 nodesToCheck]. cbn [fst] in Hstart.
  pose proof (foldl_invariant
    (λ st : IPAMController * list string,
       kubernetesNodesByCalicoName st.1 = kubernetesNodesByCalicoName c
       ∧ ∀ x, x ∈ st.2 →
           ∃ knode, kubernetesNodeForCalico E c x = Val knode
                    ∧ (knode = "" ∨ nodeExists E knode = false))
    (checkNode E nodesToCheck) (rangeKeys E nodesToCheck) (c0, [])) as Hin.
  destruct (foldl _ _ _) as [c1 ns]. cbn [fst snd] in *. intros Hc.
  destruct Hin as [_ Hin]; [| |by apply Hin].
  { split; [done|]. intros x Hx. by apply elem_of_nil in Hx. }
  intros st n [Hk Hst]. split.
  { destruct (checkNode_keeps nodesToCheck st n) as [(Hk'&_) _]. congruence. }
  intros x Hx. apply checkNode_released in Hx as [Hx|(-> & _ & knode & Hkn & Hgone)];
    [by apply Hst|].
  exists knode. split; [|done]. rewrite <- Hkn.
  unfold kubernetesNodeForCalico. by rewrite Hk.
Qed.

Lemma releaseUnusedBlocks_events c :
  ∃ evs, trace (releaseUnusedBlocks E c).1 = trace c ++ evs
         ∧ Forall isBlockRelease evs.
Proof.
  unfold releaseUnusedBlocks. cbn [fst].
  apply (foldl_invariant
           (λ c', ∃ evs, trace c' = trace c ++ evs ∧ Forall isBlockRelease evs)).
  { exists []. by rewrite app_nil_r. }
  intros c1 cidr (evs & Ht & Hall).
  destruct (releaseUnusedBlock_calls E c1 cidr) as [Hs|(node & b & Hs & _)].
  - exists evs. by rewrite Hs.
  - exists (evs ++ [IPAM_ReleaseBlockAffinity cidr b]).
    split; [by rewrite Hs, Ht, app_assoc|].
    apply Forall_app. split; [done|]. by apply Forall_singleton.
Qed.

(** X7. A sync asks for the release of a node's affinities only when the
    node has no Kubernetes node left: the Kubernetes name found for it (in
    the cache or through the Calico API) is empty or names a node that
    the node lister reports as not found. A node whose name cannot be
    resolved, or whose Kubernetes node cannot be queried, is not
    released. *)
Theorem released_nodes_are_gone (c : IPAMController) (cnode : string) :
  IPAM_ReleaseHostAffinities cnode ∈ callsDuring c (syncIPAM E c).1 →
  ∃ knode, kubernetesNodeForCalico E c cnode = Val knode
           ∧ (knode = ""
              ∨ ∃ err, nodeLister_Get E knode = Fail err ∧ IsNotFound err = true).
Proof.
  intros Hin.
  assert (cnode ∈ (checkAllocations E c).1.2) as Hrel.
  { revert Hin. unfold syncIPAM.
    destruct (negb (datastoreReady c));
      [rewrite callsDuring_same by done; by intros ?%elem_of_nil|].
    destruct (negb _);
      [rewrite callsDuring_same by done; by intros ?%elem_of_nil|].
    pose proof (checkAllocations_error E c) as Hnil.
    pose proof (checkAllocations_frame E c) as (Ht1&_).
    destruct (checkAllocations E c) as [[c1 nodes] err0]. cbn [fst snd] in *.
    subst err0.
    pose proof (garbageCollectKnownLeaks_trace E c1) as Hgc.
    set (gcevs := if bool_decide (gcBatch E c1 = []) then []
                  else [IPAM_ReleaseIPs (gcBatch E c1)]) in Hgc.
    assert (IPAM_ReleaseHostAffinities cnode ∉ gcevs) as Hnot.
    { subst gcevs. case_bool_decide; [apply not_elem_of_nil|].
      by intros ?%list_elem_of_singleton. }
    destruct (garbageCollectKnownLeaks E c1) as [c2 [[e|]|]]; cbn [fst] in *.
    1, 3: rewrite (callsDuring_app c c2 gcevs) by congruence; done.
    pose proof (releaseUnusedBlocks_events c2) as (evs3 & H3 & Hall3).
    destruct (releaseUnusedBlocks E c2) as [c3 e3]. cbn [fst] in *.
    pose proof (releaseNodes_control E nodes c3) as (_&_&_&H4).
    assert (IPAM_ReleaseHostAffinities cnode ∉ evs3) as Hnot3.
    { intros Hx. rewrite Forall_forall in Hall3. by apply Hall3 in Hx. }
    destruct e3 as [e3|].
    { cbn [fst]. rewrite (callsDuring_app c c3 (gcevs ++ evs3))
        by (rewrite H3, Hgc, Ht1; by rewrite app_assoc).
      rewrite elem_of_app. tauto. }
    destruct (releaseNodes E nodes c3) as [c4 e4]. cbn [fst] in *.
    assert (trace c4
            = trace c ++ (gcevs ++ evs3 ++ (IPAM_ReleaseHostAffinities <$> nodes)))
      as Ht4.
    { rewrite H4, H3, Hgc, Ht1. by rewrite <- !app_assoc. }
    assert (IPAM_ReleaseHostAffinities cnode
              ∈ gcevs ++ evs3 ++ (IPAM_ReleaseHostAffinities <$> nodes) →
            cnode ∈ nodes) as Hfin.
    { rewrite !elem_of_app. intros [?|[?|Hx]]; [done|done|].
      apply list_elem_of_fmap in Hx as (y & [= ->] & Hy). done. }
    destruct e4 as [e4|]; cbn [fst].
    - by rewrite (callsDuring_app c c4 _ Ht4).
    - case_bool_decide; cbn [fst].
      + rewrite (callsDuring_app c _ (gcevs ++ evs3 ++ (IPAM_ReleaseHostAffinities <$> nodes)));
          [done|]. simpl. exact Ht4.
      + rewrite (callsDuring_app c _ (gcevs ++ evs3 ++ (IPAM_ReleaseHostAffinities <$> nodes)));
          [done|]. simpl. exact Ht4. }
  apply checkAllocations_released in Hrel as (knode & Hk & Hgone).
  exists knode. split; [done|]. destruct Hgone as [?|Hex]; [by left|right].
  unfold nodeExists in Hex. destruct (nodeLister_Get E knode) as [|err]; [done|].
  exists err. split; [done|]. by destruct (IsNotFound err).
Qed.

End SyncKeeps.

(** ** The record of empty blocks *)

Section EmptyBlocks.

Lemma substring_all s : String.substring 0 (String.length s) s = s.
Proof. induction s as [|b s IH]; simpl; [done|]. by rewrite IH. Qed.

Lemma prefix_append p s :
  String.prefix p s = true →
  s = p +:+ String.substring (String.length p) (String.length s - String.length p) s.
Proof.
  revert s. induction p as [|a p IH]; intros s H.
  - simpl String.length. rewrite Nat.sub_0_r, substring_all. done.
  - destruct s as [|b s]; simpl in H; [done|].
    destruct (Ascii.ascii_dec a b) as [->|]; [|done].
    specialize (IH s H). simpl String.length. simpl substring.
    change (String b s = String b (p +:+ String.substring (String.length p)
                                     (String.length s - String.length p) s)).
    f_equal. exact IH.
Qed.

Lemma updateAffinity_spec cidr b c :
  let c' := (updateAffinity cidr b c).1 in
  let n := (updateAffinity cidr b c).2 in
  emptyBlocks c' = emptyBlocks c ∧ allBlocks c' = allBlocks c
  ∧ (∀ cidr', cidr' ≠ cidr → nodesByBlock c' !! cidr' = nodesByBlock c !! cidr')
  ∧ (∀ cidr' n', cidr' ≠ cidr →
       is_Some (default ∅ (blocksByNode c !! n') !! cidr') →
       is_Some (default ∅ (blocksByNode c' !! n') !! cidr'))
  ∧ (n ≠ "" →
       Affinity b = Some ("host:" +:+ n)
       ∧ nodesByBlock c' !! cidr = Some n
       ∧ is_Some (default ∅ (blocksByNode c' !! n) !! cidr)).
Proof.
  unfold updateAffinity. destruct (Affinity b) as [aff|] eqn:Haff.
  - destruct (String.prefix "host:" aff) eqn:Hp; cbn [fst snd]; [|done].
    split; [done|]. split; [done|]. split.
    { intros cidr' Hne. simpl. by rewrite lookup_insert_ne. }
    split.
    { intros cidr' n' Hne. simpl.
      destruct (decide (n' = String.substring 5 (String.length aff - 5) aff))
        as [->|Hn].
      - rewrite lookup_insert_eq. simpl. by rewrite lookup_insert_ne.
      - by rewrite lookup_insert_ne. }
    intros _. split.
    { f_equal. by apply (prefix_append "host:"). }
    simpl. rewrite !lookup_insert_eq. simpl. by rewrite lookup_insert_eq.
  - destruct (nodesByBlock c !! cidr) as [n'|] eqn:Hn; cbn [fst snd]; [|done].
    split; [done|]. split; [done|]. split.
    { intros cidr' Hne. simpl. by rewrite lookup_delete_ne. }
    split; [|done]. intros cidr' n0 Hne. simpl.
    destruct (decide (n0 = n')) as [->|Hn0].
    + rewrite lookup_alter_eq. destruct (blocksByNode c !! n') as [bs|]; simpl; [|done].
      by rewrite lookup_delete_ne.
    + by rewrite lookup_alter_ne.
Qed.


Lemma scanSlot_blocksKept E cidr b ord idx st st' :
  scanSlot E cidr b ord idx st = Some st' → blocksKept st.1.1 st'.1.1.
Proof.
  destruct st as [[c num] cur]. unfold scanSlot. intros H.
  repeat case_match; simplify_eq; by repeat split.
Qed.

Lemma scanAllocations_blocksKept E cidr b ord slots st st' :
  scanAllocations E cidr b ord slots st = Some st' → blocksKept st.1.1 st'.1.1.
Proof.
  revert ord st. induction slots as [|idx slots IH]; intros ord st H; simpl in H.
  { simplify_eq. apply blocksKept_refl. }
  destruct (scanSlot E cidr b ord idx st) as [st1|] eqn:H1; [|done].
  eapply blocksKept_trans; [by eapply scanSlot_blocksKept|by eapply IH].
Qed.

Lemma scanAllocations_none E cidr b ord slots st st' :
  scanAllocations E cidr b ord slots st = Some st' →
  st'.1.2 = st.1.2 → Forall (λ idx, idx = None) slots.
Proof.
  revert ord st. induction slots as [|idx slots IH]; intros ord st H Hnum; [done|].
  simpl in H. destruct (scanSlot E cidr b ord idx st) as [st1|] eqn:H1; [|done].
  pose proof (scanAllocations_count E _ _ _ _ _ _ H) as Hle.
  pose proof (scanSlot_count E _ _ _ _ _ _ H1) as Hle1.
  destruct idx as [i|].
  - exfalso. destruct st as [[c num] cur]. unfold scanSlot in H1.
    repeat case_match; simplify_eq; simpl in *; lia.
  - constructor; [done|]. eapply IH; [done|]. lia.
Qed.

Lemma releaseStale_blocksKept cidr cur c id :
  blocksKept c (releaseStale cidr cur c id).
Proof. unfold releaseStale. repeat case_match; by repeat split. Qed.

Lemma releaseStaleAllocations_blocksKept E cidr cur c :
  blocksKept c (releaseStaleAllocations E cidr cur c).
Proof.
  unfold releaseStaleAllocations.
  apply (foldl_invariant (λ c', blocksKept c c')); [apply blocksKept_refl|].
  intros c' id Hc'. eapply blocksKept_trans; [exact Hc'|].
  apply releaseStale_blocksKept.
Qed.

Lemma onBlockUpdated_sound E cidr b c c' :
  emptyBlocksSound c → onBlockUpdated E cidr b c = Some c' → emptyBlocksSound c'.
Proof.
  intros Hinv. unfold onBlockUpdated.
  pose proof (updateAffinity_spec cidr b c) as Ha. cbv zeta in Ha.
  destruct (updateAffinity cidr b c) as [c0 n]. cbn [fst snd] in Ha.
  destruct Ha as (A1 & A2 & A3 & A4 & A5).
  destruct (scanAllocations E cidr b 0 (Allocations b) (c0, 0%Z, ∅))
    as [[[c1 num] cur]|] eqn:Hs; [|done].
  pose proof (scanAllocations_blocksKept _ _ _ _ _ _ _ Hs) as (S1&S2&S3&S4&_).
  pose proof (scanAllocations_none _ _ _ _ _ _ _ Hs) as Hnone.
  cbn [fst snd] in *.
  set (c2 := noteEmptiness cidr n num c1).
  pose proof (releaseStaleAllocations_blocksKept E cidr cur c2) as (R1&R2&R3&R4&_).
  set (c3 := releaseStaleAllocations E cidr cur c2) in *.
  intros [= <-]. intros cidr' n' Hin. simpl in Hin |- *.
  rewrite R2 in Hin. rewrite R3, R4.
  assert (nodesByBlock c2 = nodesByBlock c0 ∧ blocksByNode c2 = blocksByNode c0
          ∧ allBlocks c2 = allBlocks c
          ∧ emptyBlocks c2
            = if negb (bool_decide (n = "")) && bool_decide (num = 0%Z)
              then <[cidr := n]> (delete cidr (emptyBlocks c))
              else delete cidr (emptyBlocks c)) as (N1 & N2 & N4 & N3).
  { subst c2. unfold noteEmptiness. rewrite <- A1, <- A2, <- S1, <- S2, <- S3, <- S4.
    repeat case_match; by repeat split. }
  rewrite N1, N2. rewrite N3 in Hin.
  destruct (decide (cidr' = cidr)) as [->|Hne].
  - destruct (negb (bool_decide (n = "")) && bool_decide (num = 0%Z)) eqn:Hcase;
      [|by rewrite lookup_delete_eq in Hin].
    rewrite lookup_insert_eq in Hin. simplify_eq.
    apply andb_true_iff in Hcase as [Hn Hnum].
    apply negb_true_iff, bool_decide_eq_false_1 in Hn.
    apply bool_decide_eq_true_1 in Hnum.
    destruct (A5 Hn) as (B1 & B2 & B3).
    split; [done|]. split; [done|]. split; [done|].
    exists b. rewrite lookup_insert_eq. split; [done|]. split; [done|].
    by apply Hnone.
  - assert (emptyBlocks c !! cidr' = Some n') as Hold.
    { destruct (negb _ && _); [rewrite lookup_insert_ne in Hin by done|];
        by rewrite lookup_delete_ne in Hin. }
    destruct (Hinv _ _ Hold) as (I1 & I2 & I3 & b' & I4 & I5 & I6).
    split; [done|]. split; [by rewrite A3|]. split; [by apply A4|].
    exists b'. rewrite lookup_insert_ne by done. by rewrite R1, N4.
Qed.


Lemma sound_kept c c' :
  emptyBlocks c' = emptyBlocks c → nodesByBlock c' = nodesByBlock c →
  blocksByNode c' = blocksByNode c → allBlocks c' = allBlocks c →
  emptyBlocksSound c → emptyBlocksSound c'.
Proof. intros H1 H2 H3 H4 Hinv cidr n. rewrite H1, H2, H3, H4. apply Hinv. Qed.

Lemma sound_blocksKept c c' :
  blocksKept c c' → emptyBlocksSound c → emptyBlocksSound c'.
Proof. intros (H1&H2&H3&H4&_). by apply sound_kept. Qed.

Lemma sound_forget cidr c c' :
  emptyBlocksSound c →
  emptyBlocks c' = delete cidr (emptyBlocks c) →
  (∀ x, x ≠ cidr → nodesByBlock c' !! x = nodesByBlock c !! x) →
  (∀ x n, x ≠ cidr → is_Some (default ∅ (blocksByNode c !! n) !! x) →
     is_Some (default ∅ (blocksByNode c' !! n) !! x)) →
  (∀ x, x ≠ cidr → allBlocks c' !! x = allBlocks c !! x) →
  emptyBlocksSound c'.
Proof.
  intros Hinv He Hn Hb Ha x n Hx. rewrite He in Hx.
  apply lookup_delete_Some in Hx as [Hne Hx].
  destruct (Hinv _ _ Hx) as (I1 & I2 & I3 & b & I4 & I5 & I6).
  split; [done|]. split; [by rewrite Hn|]. split; [by apply Hb|].
  exists b. by rewrite Ha.
Qed.

Lemma alter_delete_keeps (bbn : gmap string (gmap string bool)) cidr node x n :
  x ≠ cidr → is_Some (default ∅ (bbn !! n) !! x) →
  is_Some (default ∅ (alter (delete cidr) node bbn !! n) !! x).
Proof.
  intros Hne Hx. destruct (decide (n = node)) as [->|Hn].
  - rewrite lookup_alter_eq. destruct (bbn !! node) as [bs|]; simpl in *; [|done].
    by rewrite lookup_delete_ne.
  - by rewrite lookup_alter_ne.
Qed.

Lemma releaseDeleted_blocksKept cidr c id : blocksKept c (releaseDeleted cidr c id).
Proof. unfold releaseDeleted. repeat case_match; by repeat split. Qed.

Lemma onBlockDeleted_sound E cidr c :
  emptyBlocksSound c → emptyBlocksSound (onBlockDeleted E cidr c).
Proof.
  intros Hinv. unfold onBlockDeleted.
  set (c1 := foldl _ _ _).
  assert (blocksKept c c1) as (K1&K2&K3&K4&_).
  { subst c1. apply (foldl_invariant (λ c', blocksKept c c'));
      [apply blocksKept_refl|].
    intros c' id Hc'. eapply blocksKept_trans; [exact Hc'|].
    apply releaseDeleted_blocksKept. }
  apply (sound_forget cidr c1); [by eapply sound_kept| | | |].
  - by case_match.
  - intros x Hne. case_match; simpl; by rewrite lookup_delete_ne.
  - intros x n Hne Hx. case_match; simpl; [|done]. by apply alter_delete_keeps.
  - intros x Hne. case_match; simpl; by rewrite lookup_delete_ne.
Qed.

Lemma releaseUnusedBlock_sound E c cidr :
  emptyBlocksSound c → emptyBlocksSound (releaseUnusedBlock E c cidr).
Proof.
  intros Hinv. unfold releaseUnusedBlock.
  destruct (emptyBlocks c !! cidr) as [node|]; [|done].
  case_bool_decide; [done|].
  destruct (nodeIsBeingMigrated E c node) as [[|]|];
    [by eapply sound_kept| |by eapply sound_kept].
  destruct (blockReleaseTracker.markEmpty _ _ _) as [t elapsed].
  destruct (negb elapsed); [by eapply sound_kept|].
  destruct (allBlocks _ !! cidr) as [b|] eqn:Hb; [|by eapply sound_kept].
  destruct (ReleaseBlockAffinity E b); [by eapply sound_kept|].
  apply (sound_forget cidr c); [done|done| | |].
  - intros x Hne. simpl. by rewrite lookup_delete_ne.
  - intros x n Hne Hx. simpl. by apply alter_delete_keeps.
  - intros x Hne. simpl. by rewrite lookup_delete_ne.
Qed.

Lemma handleUpdate_sound E upd c c' :
  emptyBlocksSound c → handleUpdate E upd c = Some c' → emptyBlocksSound c'.
Proof.
  intros Hinv.
  destruct upd as [s|[name v|name v|name v|cidr v|]]; simpl; intros H.
  - destruct s; simplify_eq; by eapply sound_kept.
  - simplify_eq. unfold handleNodeUpdate. repeat case_match; by eapply sound_kept.
  - simplify_eq. destruct v; simpl; unfold onPoolUpdated, onPoolDeleted;
      repeat case_match; by eapply sound_kept.
  - simplify_eq. unfold handleClusterInformationUpdate.
    repeat case_match; by eapply sound_kept.
  - destruct v; simpl in H; [by eapply onBlockUpdated_sound|].
    simplify_eq. by apply onBlockDeleted_sound.
  - by simplify_eq.
Qed.

Lemma processUpdates_sound E upds c c' :
  emptyBlocksSound c → processUpdates E upds c = Some c' → emptyBlocksSound c'.
Proof.
  unfold processUpdates. revert c.
  induction upds as [|upd upds IH]; intros c Hinv H; simpl in H.
  { by simplify_eq. }
  destruct (handleUpdate E upd c) as [c1|] eqn:H1.
  - eapply IH; [|exact H]. by eapply handleUpdate_sound.
  - exfalso. clear -H. induction upds; simpl in H; [done|auto].
Qed.

Lemma releaseUnusedBlocks_sound E c :
  emptyBlocksSound c → emptyBlocksSound (releaseUnusedBlocks E c).1.
Proof.
  intros Hinv. unfold releaseUnusedBlocks. cbn [fst].
  apply (foldl_invariant emptyBlocksSound); [done|].
  intros c' cidr Hc'. by apply releaseUnusedBlock_sound.
Qed.

Lemma syncIPAM_sound E c :
  emptyBlocksSound c → emptyBlocksSound (syncIPAM E c).1.
Proof.
  intros Hinv. unfold syncIPAM. destruct (negb (datastoreReady c)); [done|].
  destruct (negb _); [done|].
  pose proof (checkAllocations_error E c) as Hnil.
  pose proof (checkAllocations_keeps E c) as [_ H1].
  destruct (checkAllocations E c) as [[c1 nodes] err0]. cbn [fst snd] in *. subst err0.
  apply sound_blocksKept in H1; [|done].
  pose proof (garbageCollectKnownLeaks_keeps E c1) as [_ H2].
  destruct (garbageCollectKnownLeaks E c1) as [c2 x2]. cbn [fst] in *.
  apply sound_blocksKept in H2; [|done].
  destruct x2 as [[e|]|]; [done| |done].
  pose proof (releaseUnusedBlocks_sound E c2 H2) as H3.
  destruct (releaseUnusedBlocks E c2) as [c3 [e3|]]; cbn [fst] in *; [done|].
  pose proof (releaseNodes_keeps E nodes c3) as [_ H4].
  destruct (releaseNodes E nodes c3) as [c4 [e4|]]; cbn [fst] in *.
  { by apply (sound_blocksKept c3). }
  apply (sound_blocksKept c3) in H4; [|done].
  case_bool_decide; cbn [fst]; by eapply sound_kept.
Qed.

Lemma acceptScheduleRequest_sound E w c c' :
  emptyBlocksSound c → acceptScheduleRequest E w c = Some c' → emptyBlocksSound c'.
Proof.
  intros Hinv. destruct w as [more|pods|upds| | | |]; simpl; intros H.
  - simplify_eq. unfold fullScanNextSync. case_match; by eapply sound_kept.
  - simplify_eq. by eapply sound_kept.
  - destruct (processUpdates E upds c) as [c1|] eqn:H1; [|done]. simplify_eq.
    eapply sound_kept; [..|by eapply processUpdates_sound]; done.
  - assert (emptyBlocksSound (fullScanNextSync c)) as H0.
    { unfold fullScanNextSync. destruct (fullSyncRequired c); by eapply sound_kept. }
    apply (syncIPAM_sound E) in H0.
    destruct (syncIPAM E (fullScanNextSync c)) as [c1 [r|]]; [|done]. by simplify_eq.
  - assert (emptyBlocksSound (set_syncChan false c)) as H0 by (by eapply sound_kept).
    apply (syncIPAM_sound E) in H0.
    destruct (syncIPAM E (set_syncChan false c)) as [c1 [[e|]|]]; [| |done];
      simplify_eq; by eapply sound_kept.
  - by simplify_eq.
  - by simplify_eq.
Qed.

Lemma reachable_emptyBlocksSound c : reachable c → emptyBlocksSound c.
Proof.
  induction 1 as [E grace|E w c c' Hc IH Hstep].
  - intros cidr n Hin. simpl in Hin. by rewrite lookup_empty in Hin.
  - by eapply acceptScheduleRequest_sound.
Qed.

(** X8. In every state the controller can reach, a block recorded as
    empty under a node is in the cache of blocks, has no allocated
    ordinal, is affine to that node and is counted among the node's
    blocks. *)
Theorem empty_blocks_are_empty (c : IPAMController) :
  reachable c → emptyBlocksSound c.
Proof.
  induction 1 as [E grace|E w c c' Hc IH Hstep].
  - intros cidr n Hin. simpl in Hin. by rewrite lookup_empty in Hin.
  - intros cidr n Hin.
    by apply (acceptScheduleRequest_sound E w c c' IH Hstep cidr n).
Qed.

Lemma syncIPAM_calls E c :
  ∃ gcevs evs3 hosts,
    callsDuring c (syncIPAM E c).1 = gcevs ++ evs3 ++ hosts
    ∧ (gcevs = [] ∨ gcevs = [IPAM_ReleaseIPs (gcBatch E (checkAllocations E c).1.1)])
    ∧ (evs3 = []
       ∨ ∃ c2, blocksKept c c2
               ∧ evs3 = callsDuring c2 (releaseUnusedBlocks E c2).1)
    ∧ (hosts = [] ∨ hosts = IPAM_ReleaseHostAffinities <$> (checkAllocations E c).1.2).
Proof.
  unfold syncIPAM.
  destruct (negb (datastoreReady c)).
  { exists [], [], []. rewrite callsDuring_same by done. by repeat split; left. }
  destruct (negb _).
  { exists [], [], []. rewrite callsDuring_same by done. by repeat split; left. }
  pose proof (checkAllocations_error E c) as Hnil.
  pose proof (checkAllocations_frame E c) as (Ht1&_).
  pose proof (checkAllocations_keeps E c) as [_ Hk1].
  destruct (checkAllocations E c) as [[c1 nodes] err0]. cbn [fst snd] in *.
  subst err0.
  pose proof (garbageCollectKnownLeaks_trace E c1) as Hgc.
  pose proof (garbageCollectKnownLeaks_keeps E c1) as [_ Hk2].
  set (gcevs := if bool_decide (gcBatch E c1 = []) then []
                else [IPAM_ReleaseIPs (gcBatch E c1)]) in Hgc.
  assert (gcevs = [] ∨ gcevs = [IPAM_ReleaseIPs (gcBatch E c1)]) as Hgcevs.
  { subst gcevs. case_bool_decide; [by left|by right]. }
  destruct (garbageCollectKnownLeaks E c1) as [c2 [[e|]|]]; cbn [fst] in *.
  1, 3: exists gcevs, [], []; rewrite app_nil_r;
        rewrite (callsDuring_app c c2 gcevs) by congruence;
        split; [done|]; split; [done|]; split; by left.
  pose proof (releaseUnusedBlocks_events E c2) as (evs3 & H3 & Hall3).
  assert (evs3 = callsDuring c2 (releaseUnusedBlocks E c2).1) as Hevs3.
  { symmetry. by apply callsDuring_app. }
  destruct (releaseUnusedBlocks E c2) as [c3 e3] eqn:Hrub. cbn [fst] in *.
  pose proof (releaseNodes_control E nodes c3) as (_&_&_&H4).
  assert (blocksKept c c2) as Hk by (by eapply blocksKept_trans).
  assert (∃ c0, blocksKept c c0
                ∧ evs3 = callsDuring c0 (releaseUnusedBlocks E c0).1) as Hev.
  { exists c2. by rewrite Hrub. }
  destruct e3 as [e3|].
  { exists gcevs, evs3, []. rewrite app_nil_r. cbn [fst].
    rewrite (callsDuring_app c c3 (gcevs ++ evs3))
      by (rewrite H3, Hgc, Ht1; by rewrite app_assoc).
    split; [done|]. split; [done|]. split; [by right|by left]. }
  destruct (releaseNodes E nodes c3) as [c4 e4]. cbn [fst] in *.
  assert (trace c4
          = trace c ++ (gcevs ++ evs3 ++ (IPAM_ReleaseHostAffinities <$> nodes)))
    as Ht4.
  { rewrite H4, H3, Hgc, Ht1. by rewrite <- !app_assoc. }
  exists gcevs, evs3, (IPAM_ReleaseHostAffinities <$> nodes).
  split.
  { destruct e4 as [e4|]; cbn [fst]; [by apply callsDuring_app|].
    case_bool_decide; cbn [fst]; by apply callsDuring_app. }
  split; [done|]. split; by right.
Qed.

(** X9. In a state the controller can reach, the block whose affinity a
    sync asks the IPAM client to release has no allocated ordinal and is
    affine to the node it was recorded as empty under, as a host
    affinity. *)
Theorem only_empty_blocks_lose_affinity (E : Env) (c : IPAMController)
    (cidr : string) (b : AllocationBlock) :
  reachable c →
  IPAM_ReleaseBlockAffinity cidr b ∈ callsDuring c (syncIPAM E c).1 →
  hasNoAllocation b
  ∧ ∃ n, n ≠ "" ∧ Affinity b = Some ("host:" +:+ n)
         ∧ emptyBlocks c !! cidr = Some n.
Proof.
  intros Hreach Hin. apply reachable_emptyBlocksSound in Hreach.
  destruct (syncIPAM_calls E c) as (gcevs & evs3 & hosts & Hcalls & Hg & H3 & Hh).
  rewrite Hcalls, !elem_of_app in Hin. destruct Hin as [Hin|[Hin|Hin]].
  - exfalso. destruct Hg as [->| ->]; [by apply elem_of_nil in Hin|].
    by apply list_elem_of_singleton in Hin.
  - destruct H3 as [->|(c2 & Hk & ->)]; [by apply elem_of_nil in Hin|].
    pose proof (sound_blocksKept _ _ Hk Hreach) as H2.
    unfold releaseUnusedBlocks in Hin. cbn [fst] in Hin.
    apply foldl_callsDuring in Hin; [|apply releaseUnusedBlock_extends].
    destruct Hin as (pre & x & post & Hkeys & Hin).
    set (c' := foldl (releaseUnusedBlock E) c2 pre) in *.
    assert (emptyBlocksSound c') as Hc'.
    { subst c'. apply (foldl_invariant emptyBlocksSound); [done|].
      intros c0 y H0. by apply releaseUnusedBlock_sound. }
    destruct (releaseUnusedBlocks_frame E pre c2) as (Hsub & _).
    fold c' in Hsub.
    destruct (releaseUnusedBlock_calls E c' x) as [Hs|(node & b' & Hs & He & _ & _ & _ & Hb)].
    { rewrite callsDuring_same in Hin by done. by apply elem_of_nil in Hin. }
    rewrite (callsDuring_app _ _ _ Hs) in Hin.
    apply list_elem_of_singleton in Hin. injection Hin as -> ->.
    destruct (Hc' _ _ He) as (I1 & _ & _ & b0 & I4 & I5 & I6).
    rewrite Hb in I4. injection I4 as <-.
    split; [done|]. exists node. split; [done|]. split; [done|].
    destruct Hk as (_ & Hk & _). rewrite <- Hk.
    by eapply lookup_weaken.
  - exfalso. destruct Hh as [->| ->]; [by apply elem_of_nil in Hin|].
    by apply list_elem_of_fmap in Hin as (y & [=] & _).
Qed.

End EmptyBlocks.

(** ** The consistency of the caches *)

Section CachesIndexed.

Lemma sameAllocation_id a a' : sameAllocation a a' → Alloc.id a' = Alloc.id a.
Proof. intros (H1&H2&H3&H4&H5). unfold Alloc.id. by rewrite H1, H2, H4, H5. Qed.

Lemma sameAllocation_node a a' : sameAllocation a a' → Alloc.node a' = Alloc.node a.
Proof. intros (H1&H2&H3&H4&H5). unfold Alloc.node. by rewrite H3. Qed.

Lemma stableKey_block : stableKey block.
Proof. by intros a a' (H1&H2&H3&H4&H5). Qed.

Lemma stableKey_node : stableKey Alloc.node.
Proof. intros a a'. apply sameAllocation_node. Qed.

Lemma stableKey_handle : stableKey handle.
Proof. by intros a a' (H1&H2&H3&H4&H5). Qed.

Lemma heapExtends_refl h : heapExtends h h.
Proof. intros l a Ha. exists a. split; [done|apply sameAllocation_refl]. Qed.

Lemma heapExtends_trans h1 h2 h3 :
  heapExtends h1 h2 → heapExtends h2 h3 → heapExtends h1 h3.
Proof.
  intros H12 H23 l a Ha. destruct (H12 _ _ Ha) as (a2 & Ha2 & Hs2).
  destruct (H23 _ _ Ha2) as (a3 & Ha3 & Hs3). exists a3. split; [done|].
  by eapply sameAllocation_trans.
Qed.

Lemma heapExtends_same h h' : Forall2 sameAllocation h h' → heapExtends h h'.
Proof. intros H l a Ha. by eapply Forall2_lookup_l. Qed.

Lemma heapExtends_app h a : heapExtends h (h ++ [a]).
Proof.
  intros l a0 Ha. exists a0. split; [|apply sameAllocation_refl].
  by apply lookup_app_l_Some.
Qed.

Lemma filedBy_extends key h h' m :
  stableKey key → heapExtends h h' → filedBy key h m → filedBy key h' m.
Proof.
  intros Hkey Hext Hm k entries id l Hk Hid.
  destruct (Hm _ _ _ _ Hk Hid) as (a & Ha & Hida & Hka).
  destruct (Hext _ _ Ha) as (a' & Ha' & Hs). exists a'. split; [done|].
  split; [by rewrite (sameAllocation_id _ _ Hs)|by rewrite (Hkey _ _ Hs)].
Qed.

Lemma filedBy_insert key h m l a :
  h !! l = Some a → filedBy key h m →
  filedBy key h (<[key a := <[Alloc.id a := l]> (default ∅ (m !! key a))]> m).
Proof.
  intros Ha Hm k entries id l' Hk Hid.
  destruct (decide (k = key a)) as [->|Hne].
  - rewrite lookup_insert_eq in Hk. injection Hk as <-.
    destruct (decide (id = Alloc.id a)) as [->|Hnid].
    + rewrite lookup_insert_eq in Hid. injection Hid as <-. by exists a.
    + rewrite lookup_insert_ne in Hid by done.
      destruct (m !! key a) as [old|] eqn:Hold; simpl in Hid; [|done].
      by eapply Hm.
  - rewrite lookup_insert_ne in Hk by done. by eapply Hm.
Qed.

Lemma filedBy_alter_delete key h m k0 id0 :
  filedBy key h m → filedBy key h (alter (delete id0) k0 m).
Proof.
  intros Hm k entries id l Hk Hid.
  destruct (decide (k = k0)) as [->|Hne].
  - rewrite lookup_alter_eq in Hk.
    destruct (m !! k0) as [old|] eqn:Hold; simpl in Hk; [|done].
    injection Hk as <-. apply lookup_delete_Some in Hid as [_ Hid]. by eapply Hm.
  - rewrite lookup_alter_ne in Hk by done. by eapply Hm.
Qed.

Lemma filedBy_delete key h m k0 : filedBy key h m → filedBy key h (delete k0 m).
Proof.
  intros Hm k entries id l Hk Hid.
  apply lookup_delete_Some in Hk as [_ Hk]. by eapply Hm.
Qed.

Lemma filedBy_removeAllocation h t a :
  filedBy handle h (allocationsByHandle t) →
  filedBy handle h (allocationsByHandle (handleTracker.removeAllocation a t)).
Proof.
  intros Hm. unfold handleTracker.removeAllocation.
  destruct (allocationsByHandle t !! handle a) as [m|] eqn:Hh; [|done]. simpl.
  case_bool_decide.
  - by apply filedBy_delete.
  - intros k entries id l Hk Hid.
    destruct (decide (k = handle a)) as [->|Hne].
    + rewrite lookup_insert_eq in Hk. injection Hk as <-.
      apply lookup_delete_Some in Hid as [_ Hid]. by eapply Hm.
    + rewrite lookup_insert_ne in Hk by done. by eapply Hm.
Qed.

Lemma cachesIndexed_extends c c' :
  heapExtends (heap c) (heap c') →
  allocationsByBlock c' = allocationsByBlock c →
  byNode (allocationState c') = byNode (allocationState c) →
  handleTracker c' = handleTracker c →
  confirmedLeaks c' = confirmedLeaks c →
  cachesIndexed c → cachesIndexed c'.
Proof.
  intros Hext E1 E2 E3 E4 (H1&H2&H3&H4). unfold cachesIndexed.
  rewrite E1, E2, E3, E4.
  split; [by eapply filedBy_extends; [apply stableKey_block|..]|].
  split; [by eapply filedBy_extends; [apply stableKey_node|..]|].
  split; [by eapply filedBy_extends; [apply stableKey_handle|..]|].
  intros id l Hl. destruct (H4 _ _ Hl) as (a & Ha & Hid).
  destruct (Hext _ _ Ha) as (a' & Ha' & Hs). exists a'. split; [done|].
  by rewrite (sameAllocation_id _ _ Hs).
Qed.

Lemma cachesIndexed_same c c' :
  heap c' = heap c →
  allocationsByBlock c' = allocationsByBlock c →
  byNode (allocationState c') = byNode (allocationState c) →
  handleTracker c' = handleTracker c →
  confirmedLeaks c' = confirmedLeaks c →
  cachesIndexed c → cachesIndexed c'.
Proof.
  intros E0. apply cachesIndexed_extends. rewrite E0. apply heapExtends_refl.
Qed.

Lemma scanSlot_indexed E cidr b ord idx st st' :
  cachesIndexed st.1.1 → scanSlot E cidr b ord idx st = Some st' →
  cachesIndexed st'.1.1.
Proof.
  destruct st as [[c num] cur]. cbn [fst]. intros Hinv. unfold scanSlot.
  destruct idx as [i|]; [|by intros [= <-]].
  destruct (Attributes b !! i) as [at'|]; [|done].
  destruct (AttrPrimary at') as [hdl|]; [|by intros [= <-]].
  set (alloc := {| ip := ordinalToIP E cidr ord; handle := hdl;
                   attrs := AttrSecondary at';
                   sequenceNumber := GetSequenceNumberForOrdinal b ord;
                   block := cidr; knode := ""; leak := Valid |}).
  destruct (default ∅ (allocationsByBlock c !! cidr) !! Alloc.id alloc);
    [by intros [= <-]|].
  intros [= <-]. cbn [fst].
  destruct Hinv as (H1&H2&H3&H4).
  pose proof (heapExtends_app (heap c) alloc) as Hext.
  assert ((heap c ++ [alloc]) !! length (heap c) = Some alloc) as Hnew.
  { by rewrite lookup_app_r, Nat.sub_diag. }
  assert (filedBy Alloc.node (heap c ++ [alloc])
            (byNode (allocationState
               (if negb (bool_decide (Alloc.node alloc = ""))
                then set_allocationState
                       (allocationState.allocate alloc (length (heap c))
                          (allocationState c)) c
                else c)))) as Hnode.
  { destruct (negb _); simpl.
    - apply (filedBy_insert Alloc.node); [done|].
      by eapply filedBy_extends; [apply stableKey_node|..].
    - by eapply filedBy_extends; [apply stableKey_node|..]. }
  split; [|split; [|split]].
  - destruct (negb _); simpl;
      (apply (filedBy_insert block _ _ _ alloc); [done|];
       by eapply filedBy_extends; [apply stableKey_block|..]).
  - destruct (negb _); simpl in *; exact Hnode.
  - destruct (negb _); simpl;
      (apply (filedBy_insert handle _ _ _ alloc); [done|];
       by eapply filedBy_extends; [apply stableKey_handle|..]).
  - intros id l Hl.
    assert (confirmedLeaks c !! id = Some l) as Hl' by (by destruct (negb _)).
    destruct (H4 _ _ Hl') as (a & Ha & Hid). exists a.
    split; [|done]. destruct (negb _); simpl; by apply lookup_app_l_Some.
Qed.


Lemma scanAllocations_indexed E cidr b ord slots st st' :
  cachesIndexed st.1.1 → scanAllocations E cidr b ord slots st = Some st' →
  cachesIndexed st'.1.1.
Proof.
  revert ord st. induction slots as [|idx slots IH]; intros ord st Hinv H; simpl in H.
  { by simplify_eq. }
  destruct (scanSlot E cidr b ord idx st) as [st1|] eqn:H1; [|done].
  eapply IH; [|exact H]. by eapply scanSlot_indexed.
Qed.

Lemma release_indexed h a s :
  filedBy Alloc.node h (byNode s) →
  filedBy Alloc.node h (byNode (allocationState.release a s)).
Proof. intros H. simpl. by apply filedBy_alter_delete. Qed.

Lemma releaseStale_indexed cidr cur c id :
  cachesIndexed c → cachesIndexed (releaseStale cidr cur c id).
Proof.
  intros Hinv. unfold releaseStale.
  destruct (default ∅ (allocationsByBlock c !! cidr) !! id) as [l|]; [|done].
  case_bool_decide; [done|].
  destruct (heap c !! l) as [alloc|]; [|done].
  destruct Hinv as (H1&H2&H3&H4).
  assert (∀ id' l', delete id (confirmedLeaks c) !! id' = Some l' →
            ∃ a, heap c !! l' = Some a ∧ Alloc.id a = id') as H4'.
  { intros id' l' Hl. apply lookup_delete_Some in Hl as [_ Hl]. by apply H4. }
  destruct (negb _); simpl.
  - split; [by apply filedBy_alter_delete|].
    split; [by apply filedBy_alter_delete|].
    split; [by apply filedBy_removeAllocation|done].
  - split; [by apply filedBy_alter_delete|]. split; [done|].
    split; [by apply filedBy_removeAllocation|done].
Qed.

Lemma onBlockUpdated_indexed E cidr b c c' :
  cachesIndexed c → onBlockUpdated E cidr b c = Some c' → cachesIndexed c'.
Proof.
  intros Hinv. unfold onBlockUpdated.
  destruct (updateAffinity cidr b c) as [c0 n] eqn:Ha.
  assert (cachesIndexed c0) as H0.
  { unfold updateAffinity in Ha.
    repeat case_match; simplify_eq; by eapply cachesIndexed_same. }
  destruct (scanAllocations E cidr b 0 (Allocations b) (c0, 0%Z, ∅))
    as [[[c1 num] cur]|] eqn:Hs; [|done].
  apply scanAllocations_indexed in Hs; [|done]. cbn [fst] in Hs.
  set (c2 := noteEmptiness cidr n num c1).
  assert (cachesIndexed c2) as H2.
  { subst c2. unfold noteEmptiness. repeat case_match; by eapply cachesIndexed_same. }
  assert (cachesIndexed (releaseStaleAllocations E cidr cur c2)) as H3.
  { unfold releaseStaleAllocations. apply (foldl_invariant cachesIndexed); [done|].
    intros c3 id Hc3. by apply releaseStale_indexed. }
  intros [= <-]. by eapply cachesIndexed_same.
Qed.

Lemma releaseDeleted_indexed cidr c id :
  cachesIndexed c → cachesIndexed (releaseDeleted cidr c id).
Proof.
  intros Hinv. unfold releaseDeleted.
  destruct (default ∅ (allocationsByBlock c !! cidr) !! id) as [l|]; [|done].
  destruct (heap c !! l) as [alloc|]; [|done].
  destruct (negb _); [|done].
  destruct Hinv as (H1&H2&H3&H4).
  split; [done|]. split; [|done]. by apply filedBy_alter_delete.
Qed.

Lemma onBlockDeleted_indexed E cidr c :
  cachesIndexed c → cachesIndexed (onBlockDeleted E cidr c).
Proof.
  intros Hinv. unfold onBlockDeleted.
  set (c1 := foldl _ _ _).
  assert (cachesIndexed c1) as (H1&H2&H3&H4).
  { subst c1. apply (foldl_invariant cachesIndexed); [done|].
    intros c' id Hc'. by apply releaseDeleted_indexed. }
  split; [|split; [|split]].
  - case_match; simpl; by apply filedBy_delete.
  - by case_match.
  - by case_match.
  - by case_match.
Qed.

Lemma handleUpdate_indexed E upd c c' :
  cachesIndexed c → handleUpdate E upd c = Some c' → cachesIndexed c'.
Proof.
  intros Hinv.
  destruct upd as [s|[name v|name v|name v|cidr v|]]; simpl; intros H.
  - destruct s; simplify_eq; by eapply cachesIndexed_same.
  - simplify_eq. unfold handleNodeUpdate.
    repeat case_match; by eapply cachesIndexed_same.
  - simplify_eq. destruct v; simpl; unfold onPoolUpdated, onPoolDeleted;
      repeat case_match; by eapply cachesIndexed_same.
  - simplify_eq. unfold handleClusterInformationUpdate.
    repeat case_match; by eapply cachesIndexed_same.
  - destruct v; simpl in H; [by eapply onBlockUpdated_indexed|].
    simplify_eq. by apply onBlockDeleted_indexed.
  - by simplify_eq.
Qed.

Lemma processUpdates_indexed E upds c c' :
  cachesIndexed c → processUpdates E upds c = Some c' → cachesIndexed c'.
Proof.
  unfold processUpdates. revert c.
  induction upds as [|upd upds IH]; intros c Hinv H; simpl in H.
  { by simplify_eq. }
  destruct (handleUpdate E upd c) as [c1|] eqn:H1.
  - eapply IH; [|exact H]. by eapply handleUpdate_indexed.
  - exfalso. clear -H. induction upds; simpl in H; [done|auto].
Qed.

Lemma updateAlloc_indexed l f c :
  (∀ a, sameAllocation a (f a)) → cachesIndexed c → cachesIndexed (updateAlloc l f c).
Proof.
  intros Hf. apply cachesIndexed_extends; try done.
  apply heapExtends_same. simpl. by apply sameHeap_alter.
Qed.

Lemma indexLeak_indexed l c : cachesIndexed c → cachesIndexed (indexLeak l c).
Proof.
  intros Hinv. unfold indexLeak. destruct (heap c !! l) as [a|] eqn:Ha; [|done].
  destruct Hinv as (H1&H2&H3&H4).
  destruct (Alloc.isConfirmedLeak a).
  - split; [done|]. split; [done|]. split; [done|]. intros id l' Hl. simpl in *.
    destruct (decide (id = Alloc.id a)) as [->|Hne].
    + rewrite lookup_insert_eq in Hl. injection Hl as <-. by exists a.
    + rewrite lookup_insert_ne in Hl by done. by apply H4.
  - destruct (confirmedLeaks c !! Alloc.id a); [|done].
    split; [done|]. split; [done|]. split; [done|]. intros id l' Hl. simpl in *.
    apply lookup_delete_Some in Hl as [_ Hl]. by apply H4.
Qed.

Lemma checkAllocation_indexed E knode ex allocations st id :
  cachesIndexed st.1.1 →
  cachesIndexed (checkAllocation E knode ex allocations st id).1.1.
Proof.
  destruct st as [[c ts] cd]. cbn [fst]. intros Hinv. unfold checkAllocation.
  destruct (allocations !! id) as [l|]; [|done].
  pose proof (updateAlloc_indexed l (set_knode knode) c
                (λ a, ltac:(by repeat split)) Hinv) as H1.
  set (c1 := updateAlloc l (set_knode knode) c) in *.
  destruct (heap c1 !! l) as [a|]; [|done].
  destruct (isWindowsReserved E a); [done|].
  destruct (negb (Alloc.isPodIP a) && negb (Alloc.isTunnelAddress a)); [done|].
  destruct (Alloc.isTunnelAddress a); [done|].
  destruct (allocationIsValid E a true); cbn [fst].
  { apply updateAlloc_indexed; [by repeat split|done]. }
  apply indexLeak_indexed. destruct (negb ex).
  - apply updateAlloc_indexed; [by repeat split|done].
  - destruct (LeakGracePeriod c1); [|done].
    apply updateAlloc_indexed; [apply sameAllocation_markLeak|done].
Qed.

Lemma confirmTunnel_indexed c l : cachesIndexed c → cachesIndexed (confirmTunnel c l).
Proof.
  intros Hinv. unfold confirmTunnel.
  pose proof (updateAlloc_indexed l Alloc.markConfirmedLeak c
                (λ a, ltac:(by repeat split)) Hinv) as (H1&H2&H3&H4).
  set (c1 := updateAlloc l Alloc.markConfirmedLeak c) in *.
  destruct (heap c1 !! l) as [a|] eqn:Ha; [|done].
  split; [done|]. split; [done|]. split; [done|]. intros id l' Hl. simpl in Hl.
  destruct (decide (id = Alloc.id a)) as [->|Hne].
  - rewrite lookup_insert_eq in Hl. injection Hl as <-. by exists a.
  - rewrite lookup_insert_ne in Hl by done. by apply H4.
Qed.

Lemma checkNode_indexed E nodesToCheck st cnode :
  cachesIndexed st.1 → cachesIndexed (checkNode E nodesToCheck st cnode).1.
Proof.
  destruct st as [c ns]. cbn [fst]. intros Hinv. unfold checkNode.
  destruct (nodesToCheck !! cnode) as [allocations|]; [|done].
  destruct (kubernetesNodeForCalico E c cnode) as [knode|err];
    [|by destruct (negb _)].
  set (ex := negb _ && _).
  pose proof (foldl_invariant
                (λ st : NodeScan, cachesIndexed st.1.1)
                (checkAllocation E knode ex allocations)
                (rangeKeys E allocations) (c, [], true)) as Hin.
  destruct (foldl _ _ _) as [[c1 ts] cd]. cbn [fst snd] in *.
  assert (cachesIndexed c1) as Hc1.
  { apply Hin; [done|]. intros st id Hst. by apply checkAllocation_indexed. }
  destruct (negb ex); [|done]. destruct (negb cd); [done|]. cbn [fst].
  apply (foldl_invariant cachesIndexed); [done|].
  intros c' l Hc'. by apply confirmTunnel_indexed.
Qed.

Lemma checkAllocations_indexed E c :
  cachesIndexed c → cachesIndexed (checkAllocations E c).1.1.
Proof.
  intros Hinv. unfold checkAllocations.
  set (start := if fullSyncRequired c then _ else _).
  assert (cachesIndexed start.1) as Hstart.
  { subst start. destruct (fullSyncRequired c); [|done]. by eapply cachesIndexed_same. }
  destruct start as [c0 nodesToCheck]. cbn [fst] in Hstart.
  pose proof (foldl_invariant
                (λ st : IPAMController * list string, cachesIndexed st.1)
                (checkNode E nodesToCheck) (rangeKeys E nodesToCheck) (c0, [])) as Hin.
  destruct (foldl _ _ _) as [c1 ns]. cbn [fst snd] in *. apply Hin; [done|].
  intros st cnode Hst. by apply checkNode_indexed.
Qed.

Lemma gcVisit_indexed E st id :
  cachesIndexed st.1.1 → cachesIndexed (gcVisit E st id).1.1.1.
Proof.
  destruct st as [[c opts] leaks]. cbn [fst]. intros Hinv. unfold gcVisit.
  destruct (confirmedLeaks c !! id) as [l|]; [|done].
  destruct (heap c !! l) as [a|]; [|done].
  destruct (allocationIsValid E a _); cbn [fst].
  - apply updateAlloc_indexed; [by repeat split|].
    destruct Hinv as (H1&H2&H3&H4).
    split; [done|]. split; [done|]. split; [done|]. intros id' l' Hl. simpl in Hl.
    apply lookup_delete_Some in Hl as [_ Hl]. by apply H4.
  - by destruct (negb _).
Qed.

Lemma gcCollect_indexed E ids st :
  cachesIndexed st.1.1 → cachesIndexed (gcCollect E ids st).1.1.
Proof.
  revert st. induction ids as [|id ids IH]; intros st Hinv; simpl; [done|].
  pose proof (gcVisit_indexed E st id Hinv) as Hv.
  destruct (gcVisit E st id) as [st1 []]; [done|]. by apply IH.
Qed.

Lemma gcReleased_indexed st opt :
  cachesIndexed st.1.1 → cachesIndexed (gcReleased st opt).1.1.
Proof.
  destruct st as [[c leaks] dead]. cbn [fst]. intros Hinv. unfold gcReleased.
  destruct dead; [done|].
  destruct (leaks !! Address opt) as [l|]; [|done].
  destruct (heap c !! l) as [a|]; [|done]. cbn [fst].
  destruct Hinv as (H1&H2&H3&H4).
  unfold incrementReclamationMetric.
  destruct (gcReclamationCounters _ !! _); simpl.
  - split; [done|]. split; [by apply filedBy_alter_delete|]. split; [done|].
    intros id' l' Hl. simpl in Hl.
    apply lookup_delete_Some in Hl as [_ Hl]. by apply H4.
  - split; [done|]. split; [by apply filedBy_alter_delete|]. split; [done|].
    intros id' l' Hl. simpl in Hl.
    apply lookup_delete_Some in Hl as [_ Hl]. by apply H4.
Qed.

Lemma garbageCollectKnownLeaks_indexed E c :
  cachesIndexed c → cachesIndexed (garbageCollectKnownLeaks E c).1.
Proof.
  intros Hinv. unfold garbageCollectKnownLeaks.
  pose proof (gcCollect_indexed E (rangeKeys E (confirmedLeaks c)) (c, [], ∅) Hinv)
    as H1.
  destruct (gcCollect _ _ _) as [[c1 opts] leaks]. cbn [fst] in H1.
  case_bool_decide; [done|].
  destruct (ReleaseIPs E opts) as [released err].
  pose proof (foldl_invariant
                (λ st : IPAMController * gmap string loc * bool, cachesIndexed st.1.1)
                gcReleased released
                (emit (IPAM_ReleaseIPs opts) c1, leaks, false)) as Hin.
  destruct (foldl _ _ _) as [[c2 leaks2] dead]. cbn [fst] in Hin.
  assert (cachesIndexed c2) as H2.
  { apply Hin; [by eapply cachesIndexed_same|].
    intros st opt Hst. by apply gcReleased_indexed. }
  destruct dead; [done|]. destruct err as [e|]; [|done]. by destruct (negb _).
Qed.

Lemma syncIPAM_indexed E c : cachesIndexed c → cachesIndexed (syncIPAM E c).1.
Proof.
  intros Hinv. unfold syncIPAM. destruct (negb (datastoreReady c)); [done|].
  destruct (negb _); [done|].
  pose proof (checkAllocations_error E c) as Hnil.
  pose proof (checkAllocations_indexed E c Hinv) as H1.
  destruct (checkAllocations E c) as [[c1 nodes] err0]. cbn [fst snd] in *. subst err0.
  pose proof (garbageCollectKnownLeaks_indexed E c1 H1) as H2.
  destruct (garbageCollectKnownLeaks E c1) as [c2 x2]. cbn [fst] in *.
  destruct x2 as [[e|]|]; [done| |done].
  pose proof (releaseUnusedBlocks_keeps E c2) as ((_&K1&K2&_)&K3&K4&_).
  pose proof (releaseUnusedBlocks_control E c2) as (_&_&K5&_).
  destruct (releaseUnusedBlocks E c2) as [c3 e3]. cbn [fst] in *.
  assert (cachesIndexed c3) as H3.
  { eapply cachesIndexed_same; [..|exact H2]; try done. by rewrite K4. }
  destruct e3 as [e3|]; [done|].
  pose proof (releaseNodes_keeps E nodes c3) as [(_&N1&N2&N3) _].
  pose proof (releaseNodes_control E nodes c3) as (_&_&N5&_).
  assert (allocationState (releaseNodes E nodes c3).1 = allocationState c3) as N4.
  { unfold releaseNodes. case_bool_decide; [done|].
    apply (foldl_invariant
             (λ st : IPAMController * option Error,
                allocationState st.1 = allocationState c3)); [done|].
    intros [c0 stored] cnode Hst. rewrite <- Hst.
    unfold releaseNode, cleanupNode. by destruct (ReleaseHostAffinities E cnode). }
  destruct (releaseNodes E nodes c3) as [c4 e4]. cbn [fst] in *.
  assert (cachesIndexed c4) as H4.
  { eapply cachesIndexed_extends; [..|exact H3]; try done.
    - by apply heapExtends_same.
    - by rewrite N4. }
  destruct e4 as [e4|]; [done|].
  case_bool_decide; cbn [fst]; by eapply cachesIndexed_same.
Qed.

Lemma acceptScheduleRequest_indexed E w c c' :
  cachesIndexed c → acceptScheduleRequest E w c = Some c' → cachesIndexed c'.
Proof.
  intros Hinv. destruct w as [more|pods|upds| | | |]; simpl; intros H.
  - simplify_eq. unfold fullScanNextSync.
    destruct (fullSyncRequired c); by eapply cachesIndexed_same.
  - simplify_eq. eapply cachesIndexed_same; [..|exact Hinv]; try done. simpl.
    apply (foldl_invariant
             (λ s, byNode s = byNode (allocationState c))); [done|].
    intros s p Hs. by destruct p.
  - destruct (processUpdates E upds c) as [c1|] eqn:H1; [|done]. simplify_eq.
    eapply cachesIndexed_same; [..|by eapply processUpdates_indexed]; done.
  - assert (cachesIndexed (fullScanNextSync c)) as H0.
    { unfold fullScanNextSync.
      destruct (fullSyncRequired c); by eapply cachesIndexed_same. }
    apply (syncIPAM_indexed E) in H0.
    destruct (syncIPAM E (fullScanNextSync c)) as [c1 [r|]]; [|done]. by simplify_eq.
  - assert (cachesIndexed (set_syncChan false c)) as H0
      by (by eapply cachesIndexed_same).
    apply (syncIPAM_indexed E) in H0.
    destruct (syncIPAM E (set_syncChan false c)) as [c1 [[e|]|]]; [| |done];
      simplify_eq; by eapply cachesIndexed_same.
  - by simplify_eq.
  - by simplify_eq.
Qed.

Lemma reachable_cachesIndexed c : reachable c → cachesIndexed c.
Proof.
  induction 1 as [E grace|E w c c' Hc IH Hstep].
  - split; [|split; [|split]]; try (intros k entries id l Hk; by simpl in Hk).
    intros id l Hl. by simpl in Hl.
  - by eapply acceptScheduleRequest_indexed.
Qed.

(** X10. In every state the controller can reach, the caches are indexed
    consistently: [allocationsByBlock], the allocation state, the handle
    tracker and the index of confirmed leaks file each allocation under
    the id of the object they point to, and under its block, its node and
    its handle. *)
Theorem caches_are_indexed (c : IPAMController) :
  reachable c → cachesIndexed c.
Proof.
  induction 1 as [E grace|E w c c' Hc IH Hstep].
  - split; [|split; [|split]]; try (intros k entries id l Hk; by simpl in Hk).
    intros id l Hl. by simpl in Hl.
  - destruct (acceptScheduleRequest_indexed E w c c' IH Hstep) as (H1&H2&H3&H4).
    split; [exact H1|]. split; [exact H2|]. split; [exact H3|exact H4].
Qed.

End CachesIndexed.

(** ** A block update received twice *)

Section BlockUpdateTwice.
Variable E : Env.

Lemma listed_insert (c c0 : IPAMController) cidr id0 l :
  allocationsByBlock c0
  = <[cidr := <[id0 := l]> (default ∅ (allocationsByBlock c !! cidr))]>
      (allocationsByBlock c) →
  (∀ id, listed c cidr id → listed c0 cidr id) ∧ listed c0 cidr id0.
Proof.
  unfold listed. intros ->. rewrite lookup_insert_eq. simpl. split.
  - intros id Hid. destruct (decide (id = id0)) as [->|Hne].
    + by rewrite lookup_insert_eq.
    + by rewrite lookup_insert_ne.
  - by rewrite lookup_insert_eq.
Qed.

Lemma scanSlot_cur cidr b ord idx st st' :
  scanSlot E cidr b ord idx st = Some st' →
  st.2 ⊆ st'.2
  ∧ (∀ id, listed st.1.1 cidr id → listed st'.1.1 cidr id)
  ∧ (∀ id, id ∈ st'.2 → id ∈ st.2 ∨ listed st'.1.1 cidr id).
Proof.
  destruct st as [[c num] cur]. unfold scanSlot. cbn [fst snd].
  destruct idx as [i|]; [|intros [= <-]; split; [done|]; split; [done|]; by left].
  destruct (Attributes b !! i) as [at'|]; [|done].
  destruct (AttrPrimary at') as [hdl|];
    [|intros [= <-]; split; [done|]; split; [done|]; by left].
  set (alloc := {| ip := ordinalToIP E cidr ord; handle := hdl;
                   attrs := AttrSecondary at';
                   sequenceNumber := GetSequenceNumberForOrdinal b ord;
                   block := cidr; knode := ""; leak := Valid |}).
  destruct (default ∅ (allocationsByBlock c !! cidr) !! Alloc.id alloc) eqn:Hknown.
  - intros [= <-]. cbn [fst snd]. split; [apply union_subseteq_r|]. split; [done|].
    intros id [Hid%elem_of_singleton|Hid]%elem_of_union; [|by left].
    right. subst id. unfold listed. by rewrite Hknown.
  - intros [= <-]. cbn [fst snd]. split; [apply union_subseteq_r|].
    match goal with
    | |- (∀ id, _ → listed ?c0 _ _) ∧ _ =>
        destruct (listed_insert c c0 cidr (Alloc.id alloc) (length (heap c)))
          as [Hold Hnew]; [by destruct (negb _)|]
    end.
    split; [exact Hold|].
    intros id [Hid%elem_of_singleton|Hid]%elem_of_union; [|by left].
    right. subst id. exact Hnew.
Qed.

Lemma scanAllocations_cur cidr b ord slots st st' :
  scanAllocations E cidr b ord slots st = Some st' →
  st.2 ⊆ st'.2
  ∧ (∀ id, listed st.1.1 cidr id → listed st'.1.1 cidr id)
  ∧ (∀ id, id ∈ st'.2 → id ∈ st.2 ∨ listed st'.1.1 cidr id).
Proof.
  revert ord st. induction slots as [|idx slots IH]; intros ord st H; simpl in H.
  { simplify_eq. split; [done|]. split; [done|]. by left. }
  destruct (scanSlot E cidr b ord idx st) as [st1|] eqn:H1; [|done].
  destruct (scanSlot_cur _ _ _ _ _ _ H1) as (A1 & A2 & A3).
  destruct (IH _ _ H) as (B1 & B2 & B3).
  split; [by etrans|]. split; [by auto|].
  intros id Hid. destruct (B3 _ Hid) as [Hid1|?]; [|by right].
  destruct (A3 _ Hid1) as [?|?]; [by left|right; by auto].
Qed.

(** Scanning the slots again, in a state that lists what the first scan
    found, changes nothing and finds the same. *)
Lemma scanSlot_again cidr b ord idx st st' c0 :
  scanSlot E cidr b ord idx st = Some st' →
  (∀ id, id ∈ st'.2 → listed c0 cidr id) →
  scanSlot E cidr b ord idx (c0, st.1.2, st.2) = Some (c0, st'.1.2, st'.2).
Proof.
  destruct st as [[c num] cur]. unfold scanSlot. cbn [fst snd].
  destruct idx as [i|]; [|by intros [= <-]].
  destruct (Attributes b !! i) as [at'|]; [|done].
  destruct (AttrPrimary at') as [hdl|]; [|by intros [= <-]].
  set (alloc := {| ip := ordinalToIP E cidr ord; handle := hdl;
                   attrs := AttrSecondary at';
                   sequenceNumber := GetSequenceNumberForOrdinal b ord;
                   block := cidr; knode := ""; leak := Valid |}).
  intros Hscan Hlisted.
  assert (st'.2 = {[Alloc.id alloc]} ∪ cur ∧ st'.1.2 = (num + 1)%Z) as [Hcur Hnum].
  { destruct (default ∅ (allocationsByBlock c !! cidr) !! Alloc.id alloc);
      by injection Hscan as <-. }
  assert (listed c0 cidr (Alloc.id alloc)) as [l Hl].
  { apply Hlisted. rewrite Hcur. by apply elem_of_union_l, elem_of_singleton. }
  rewrite Hl. by rewrite Hcur, Hnum.
Qed.

Lemma scanAllocations_again cidr b ord slots st st' c0 :
  scanAllocations E cidr b ord slots st = Some st' →
  (∀ id, id ∈ st'.2 → listed c0 cidr id) →
  scanAllocations E cidr b ord slots (c0, st.1.2, st.2) = Some (c0, st'.1.2, st'.2).
Proof.
  revert ord st. induction slots as [|idx slots IH]; intros ord st H Hl;
    cbn [scanAllocations] in *.
  { by simplify_eq. }
  destruct (scanSlot E cidr b ord idx st) as [st1|] eqn:H1; [|done].
  destruct (scanAllocations_cur _ _ _ _ _ _ H) as (Hsub & _).
  rewrite (scanSlot_again _ _ _ _ _ _ c0 H1) by (intros id Hid; by apply Hl, Hsub).
  by apply (IH _ _ H).
Qed.


Lemma releaseStale_listed cidr cur c id0 :
  let c' := releaseStale cidr cur c id0 in
  heap c' = heap c
  ∧ (∀ id l, default ∅ (allocationsByBlock c' !! cidr) !! id = Some l →
       default ∅ (allocationsByBlock c !! cidr) !! id = Some l)
  ∧ (∀ id, id ∈ cur → listed c cidr id → listed c' cidr id)
  ∧ (id0 ∉ cur →
     (∀ l, default ∅ (allocationsByBlock c !! cidr) !! id0 = Some l →
        is_Some (heap c !! l)) →
     default ∅ (allocationsByBlock c' !! cidr) !! id0 = None).
Proof.
  unfold releaseStale, listed.
  destruct (default ∅ (allocationsByBlock c !! cidr) !! id0) as [l|] eqn:Hl; [|done].
  case_bool_decide as Hcur; [done|].
  destruct (heap c !! l) as [alloc|] eqn:Ha.
  2: { split; [done|]. split; [done|]. split; [done|]. intros _ Hh.
       destruct (Hh l eq_refl) as [? ?]. congruence. }
  assert (∀ id, default ∅ (alter (delete id0) cidr (allocationsByBlock c) !! cidr) !! id
                = if decide (id = id0) then None
                  else default ∅ (allocationsByBlock c !! cidr) !! id) as Hlk.
  { intros id. rewrite lookup_alter_eq.
    destruct (allocationsByBlock c !! cidr) as [m|]; simpl.
    - destruct (decide (id = id0)) as [->|Hne];
        [by rewrite lookup_delete_eq|by rewrite lookup_delete_ne].
    - by destruct (decide (id = id0)). }
  destruct (negb _); simpl.
  - split; [done|]. split.
    { intros id l'. rewrite Hlk. by destruct (decide (id = id0)). }
    split.
    { intros id Hid. rewrite Hlk. destruct (decide (id = id0)) as [->|]; done. }
    intros _ _. rewrite Hlk. by rewrite decide_True.
  - split; [done|]. split.
    { intros id l'. rewrite Hlk. by destruct (decide (id = id0)). }
    split.
    { intros id Hid. rewrite Hlk. destruct (decide (id = id0)) as [->|]; done. }
    intros _ _. rewrite Hlk. by rewrite decide_True.
Qed.

Lemma releaseStale_fold cidr cur ids c :
  (∀ id l, default ∅ (allocationsByBlock c !! cidr) !! id = Some l →
     is_Some (heap c !! l)) →
  let c' := foldl (releaseStale cidr cur) c ids in
  (∀ id l, default ∅ (allocationsByBlock c' !! cidr) !! id = Some l →
     default ∅ (allocationsByBlock c !! cidr) !! id = Some l)
  ∧ (∀ id, id ∈ cur → listed c cidr id → listed c' cidr id)
  ∧ (∀ id, id ∈ ids → id ∉ cur →
       default ∅ (allocationsByBlock c' !! cidr) !! id = None).
Proof.
  intros Halive. cbv zeta.
  induction ids as [|id0 ids IH] using rev_ind.
  { split; [done|]. split; [done|]. intros id Hid. by apply elem_of_nil in Hid. }
  rewrite foldl_app. cbn [foldl].
  destruct IH as (I1 & I2 & I3).
  set (c1 := foldl (releaseStale cidr cur) c ids) in *.
  assert (heap c1 = heap c) as Hheap.
  { subst c1. apply (foldl_invariant (λ c', heap c' = heap c)); [done|].
    intros c' id Hc'. rewrite <- Hc'. apply releaseStale_listed. }
  destruct (releaseStale_listed cidr cur c1 id0) as (_ & S2 & S3 & S4).
  split; [by auto|]. split; [by auto|].
  intros id [Hid|Hid%list_elem_of_singleton]%elem_of_app Hcur.
  - specialize (I3 id Hid Hcur).
    destruct (default ∅ (allocationsByBlock (releaseStale cidr cur c1 id0) !! cidr) !! id)
      as [l|] eqn:Hl; [|done].
    apply S2 in Hl. congruence.
  - subst id. apply S4; [done|]. intros l Hl. rewrite Hheap. eapply Halive. by apply I1.
Qed.

Lemma releaseStale_noop cidr cur c id :
  (∀ id, listed c cidr id → id ∈ cur) → releaseStale cidr cur c id = c.
Proof.
  intros Hall. unfold releaseStale.
  destruct (default ∅ (allocationsByBlock c !! cidr) !! id) as [l|] eqn:Hl; [|done].
  rewrite bool_decide_eq_true_2; [done|]. apply Hall. unfold listed. by rewrite Hl.
Qed.

Lemma releaseStaleAllocations_noop cidr cur c :
  (∀ id, listed c cidr id → id ∈ cur) → releaseStaleAllocations E cidr cur c = c.
Proof.
  intros Hall. unfold releaseStaleAllocations.
  apply (foldl_invariant (λ c', c' = c)); [done|].
  intros c' id ->. by apply releaseStale_noop.
Qed.


Lemma updateAffinity_again cidr b c c' :
  nodesByBlock c' = nodesByBlock (updateAffinity cidr b c).1 →
  blocksByNode c' = blocksByNode (updateAffinity cidr b c).1 →
  updateAffinity cidr b c' = (c', (updateAffinity cidr b c).2).
Proof.
  unfold updateAffinity. destruct (Affinity b) as [aff|].
  - destruct (String.prefix "host:" aff); [|done]. cbn [fst snd]. simpl.
    intros Hn Hb. f_equal. rewrite Hn, Hb. rewrite lookup_insert_eq. simpl.
    rewrite !insert_insert_eq. rewrite <- Hn, <- Hb. by destruct c'.
  - destruct (nodesByBlock c !! cidr) as [n'|] eqn:Hn'; cbn [fst snd]; simpl.
    + intros Hn Hb. rewrite Hn, lookup_delete_eq. done.
    + intros Hn Hb. by rewrite Hn, Hn'.
Qed.

Lemma noteEmptiness_again cidr n num c c' :
  emptyBlocks c' = emptyBlocks (noteEmptiness cidr n num c) →
  blockReleaseTracker c' = blockReleaseTracker (noteEmptiness cidr n num c) →
  noteEmptiness cidr n num c' = c'.
Proof.
  unfold noteEmptiness.
  destruct (negb (bool_decide (n = "")) && bool_decide (num = 0%Z)); simpl.
  - intros He _. rewrite He, delete_insert_eq, delete_delete_eq. rewrite <- He. by destruct c'.
  - destruct (negb (bool_decide (n = ""))); simpl.
    + intros He Ht. rewrite He, Ht. unfold blockReleaseTracker.markInUse. simpl.
      rewrite !delete_delete_eq.
      replace (delete cidr (emptyBlocks c)) with (emptyBlocks c') by done.
      replace ({| gracePeriod := gracePeriod (blockReleaseTracker c);
                  emptySince := delete cidr (emptySince (blockReleaseTracker c)) |})
        with (blockReleaseTracker c') by done.
      by destruct c'.
    + intros He _. rewrite He, delete_delete_eq. rewrite <- He. by destruct c'.
Qed.

Lemma poolManager_onBlockUpdated_again cidr m :
  poolManager.onBlockUpdated E cidr (poolManager.onBlockUpdated E cidr m)
  = poolManager.onBlockUpdated E cidr m.
Proof.
  unfold poolManager.onBlockUpdated, poolManager.onBlockDeleted. simpl.
  set (pool := default (unknownPoolLabel E) (poolContaining E (allPools m) cidr)).
  f_equal.
  - rewrite fmap_insert, lookup_insert_eq, insert_insert_eq. simpl.
    assert (((λ s0 : gset string, s0 ∖ {[cidr]})
               <$> ((λ s0 : gset string, s0 ∖ {[cidr]}) <$> blocksByPool m))
            = (λ s0 : gset string, s0 ∖ {[cidr]}) <$> blocksByPool m) as ->.
    { apply map_eq. intros k. rewrite !lookup_fmap.
      destruct (blocksByPool m !! k) as [s0|]; simpl; [|done]. f_equal.
      apply leibniz_equiv. apply set_equiv. intros x.
      rewrite !elem_of_difference. tauto. }
    f_equal. apply leibniz_equiv. apply set_equiv. intros x.
    rewrite !elem_of_union, !elem_of_difference, !elem_of_union.
    destruct (decide (x ∈ ({[cidr]} : gset string))); tauto.
  - by rewrite delete_insert_eq, delete_delete_eq.
Qed.


(** X11. A block update received twice changes nothing the second time:
    in a state whose caches are indexed consistently (every state the
    controller can reach), and with a [range] that visits every entry,
    handling the update of a block again right after it has been handled
    leaves the controller as it is. *)
Theorem block_update_twice (cidr : string) (b : AllocationBlock)
    (c c1 : IPAMController) :
  visitsAll E → cachesIndexed c →
  onBlockUpdated E cidr b c = Some c1 →
  onBlockUpdated E cidr b c1 = Some c1.
Proof.
  intros Hfair Hinv H1. unfold onBlockUpdated in H1.
  pose proof (updateAffinity_again cidr b c) as Haff.
  assert (cachesIndexed (updateAffinity cidr b c).1) as H0.
  { unfold updateAffinity. repeat case_match; by eapply cachesIndexed_same. }
  destruct (updateAffinity cidr b c) as [c0 n]. cbn [fst snd] in *.
  destruct (scanAllocations E cidr b 0 (Allocations b) (c0, 0%Z, ∅))
    as [[[cs num] cur]|] eqn:Hs; [|done].
  pose proof (scanAllocations_blocksKept _ _ _ _ _ _ _ Hs) as (S1&S2&S3&S4&S5&S6).
  pose proof (scanAllocations_cur _ _ _ _ _ _ Hs) as (_ & _ & Hcur).
  pose proof (scanAllocations_again _ _ _ _ _ _ c1 Hs) as Hagain.
  pose proof (scanAllocations_indexed E cidr b 0 (Allocations b) (c0, 0%Z, ∅) _ H0 Hs)
    as (Hcs & _).
  cbn [fst snd] in *.
  pose proof (noteEmptiness_again cidr n num cs) as Hnote.
  set (c2 := noteEmptiness cidr n num cs) in *.
  assert (allocationsByBlock c2 = allocationsByBlock cs ∧ heap c2 = heap cs
          ∧ nodesByBlock c2 = nodesByBlock cs ∧ blocksByNode c2 = blocksByNode cs
          ∧ allBlocks c2 = allBlocks cs ∧ poolManager c2 = poolManager cs)
    as (N1&N2&N3&N4&N5&N6).
  { subst c2. unfold noteEmptiness. repeat case_match; by repeat split. }
  pose proof (releaseStaleAllocations_blocksKept E cidr cur c2) as (R1&R2&R3&R4&R5&R6).
  pose proof (releaseStaleAllocations_noop cidr cur c1) as Hnoop.
  destruct (releaseStale_fold cidr cur
              (rangeKeys E (default ∅ (allocationsByBlock c2 !! cidr))) c2)
    as (F1 & F2 & F3).
  { intros id l Hl. rewrite N2. rewrite N1 in Hl.
    destruct (allocationsByBlock cs !! cidr) as [m|] eqn:Hm; [|done].
    destruct (Hcs _ _ _ _ Hm Hl) as (a & Ha & _). by exists a. }
  fold (releaseStaleAllocations E cidr cur c2) in F1, F2, F3.
  set (c3 := releaseStaleAllocations E cidr cur c2) in *.
  injection H1 as <-.
  assert (∀ id, listed c3 cidr id ↔ id ∈ cur) as Hlisted.
  { intros id. split.
    - intros [l Hl]. destruct (decide (id ∈ cur)) as [|Hnot]; [done|exfalso].
      rewrite F3 in Hl; [done| |done].
      apply F1 in Hl. unfold rangeKeys. rewrite (Hfair _).
      destruct (allocationsByBlock c2 !! cidr) as [m|]; [|done]. simpl in Hl.
      apply list_elem_of_fmap. exists (id, l). split; [done|].
      by apply elem_of_map_to_list.
    - intros Hid. apply F2; [done|]. unfold listed. rewrite N1.
      destruct (Hcur _ Hid) as [Hemp|?]; [|done]. by apply elem_of_empty in Hemp. }
  unfold onBlockUpdated.
  rewrite Haff by (simpl; congruence). clear Haff.
  rewrite Hagain by (intros id Hid; unfold listed; simpl; by apply Hlisted).
  rewrite Hnote by done. clear Hnote.
  rewrite Hnoop by (intros id Hid; by apply Hlisted).
  f_equal. simpl.
  rewrite poolManager_onBlockUpdated_again, insert_insert_eq. done.
Qed.

End BlockUpdateTwice.

(** ** The deletion of a block *)

Section BlockDeleted.
Variable E : Env.

Lemma releaseDeleted_gone cidr c id0 :
  let c' := releaseDeleted cidr c id0 in
  heap c' = heap c
  ∧ allocationsByBlock c' = allocationsByBlock c
  ∧ handleTracker c' = handleTracker c
  ∧ confirmedLeaks c' = confirmedLeaks c
  ∧ (∀ node id, gone c node id → gone c' node id)
  ∧ dirtyNodes (allocationState c) ⊆ dirtyNodes (allocationState c')
  ∧ (∀ l a, default ∅ (allocationsByBlock c !! cidr) !! id0 = Some l →
       heap c !! l = Some a → Alloc.node a ≠ "" →
       gone c' (Alloc.node a) (Alloc.id a)
       ∧ Alloc.node a ∈ dirtyNodes (allocationState c')).
Proof.
  unfold releaseDeleted.
  destruct (default ∅ (allocationsByBlock c !! cidr) !! id0) as [l|]; [|done].
  destruct (heap c !! l) as [alloc|] eqn:Hal.
  2: { do 6 (split; [done|]). intros l' a0 [= <-] ?; congruence. }
  case_bool_decide as Hnode; simpl.
  { do 6 (split; [done|]). intros l' a0 [= <-] ? ?; congruence. }
  split; [done|]. split; [done|]. split; [done|]. split; [done|].
  assert (∀ node id, gone c node id →
            default ∅ (alter (delete (Alloc.id alloc)) (Alloc.node alloc)
                         (byNode (allocationState c)) !! node) !! id = None) as Hgone.
  { intros node id Hg. unfold gone in Hg.
    destruct (decide (node = Alloc.node alloc)) as [->|Hne].
    - rewrite lookup_alter_eq.
      destruct (byNode (allocationState c) !! Alloc.node alloc) as [m|]; simpl in *;
        [|done].
      destruct (decide (id = Alloc.id alloc)) as [->|Hid];
        [by rewrite lookup_delete_eq|by rewrite lookup_delete_ne].
    - by rewrite lookup_alter_ne. }
  split; [exact Hgone|]. split; [apply union_subseteq_r|].
  intros l' a [= <-] Ha' _. rewrite Hal in Ha'. injection Ha' as <-. split.
  - unfold gone. simpl. rewrite lookup_alter_eq.
    destruct (byNode (allocationState c) !! Alloc.node alloc) as [m|]; simpl; [|done].
    by rewrite lookup_delete_eq.
  - by apply elem_of_union_l, elem_of_singleton.
Qed.

(** X12. After the deletion of a block the controller knows nothing of
    the block: it is gone from the cache of blocks, from
    [allocationsByBlock], [nodesByBlock], the blocks of its node, the
    empty blocks, the release tracker and the pool manager. With a
    [range] that visits every entry, each of its allocations that has a
    node is released from the allocation state and the node marked dirty.
    The handle tracker and the index of confirmed leaks are not touched:
    the allocations of the block stay registered under their handles. *)
Theorem block_delete_forgets (cidr : string) (c : IPAMController) :
  let c' := onBlockDeleted E cidr c in
  (allBlocks c' !! cidr = None
   ∧ allocationsByBlock c' !! cidr = None
   ∧ nodesByBlock c' !! cidr = None
   ∧ emptyBlocks c' !! cidr = None
   ∧ emptySince (blockReleaseTracker c') !! cidr = None
   ∧ poolsByBlock (poolManager c') !! cidr = None
   ∧ ∀ n, nodesByBlock c !! cidr = Some n → n ≠ "" →
       default ∅ (blocksByNode c' !! n) !! cidr = None)
  ∧ (heap c' = heap c ∧ handleTracker c' = handleTracker c
     ∧ confirmedLeaks c' = confirmedLeaks c)
  ∧ (visitsAll E →
     ∀ id l a,
       default ∅ (allocationsByBlock c !! cidr) !! id = Some l →
       heap c !! l = Some a → Alloc.node a ≠ "" →
       gone c' (Alloc.node a) (Alloc.id a)
       ∧ Alloc.node a ∈ dirtyNodes (allocationState c')).
Proof.
  cbv zeta. unfold onBlockDeleted.
  set (ids := rangeKeys E (default ∅ (allocationsByBlock c !! cidr))).
  assert (∀ done_ids,
    let c1 := foldl (releaseDeleted cidr) c done_ids in
    heap c1 = heap c ∧ allocationsByBlock c1 = allocationsByBlock c
    ∧ handleTracker c1 = handleTracker c ∧ confirmedLeaks c1 = confirmedLeaks c
    ∧ nodesByBlock c1 = nodesByBlock c ∧ blocksByNode c1 = blocksByNode c
    ∧ ∀ id l a, id ∈ done_ids →
        default ∅ (allocationsByBlock c !! cidr) !! id = Some l →
        heap c !! l = Some a → Alloc.node a ≠ "" →
        gone c1 (Alloc.node a) (Alloc.id a)
        ∧ Alloc.node a ∈ dirtyNodes (allocationState c1)) as Hloop.
  { induction done_ids as [|id0 done_ids IH] using rev_ind; cbv zeta.
    { do 6 (split; [done|]). intros id l a Hin. by apply elem_of_nil in Hin. }
    rewrite foldl_app. cbn [foldl]. cbv zeta in IH.
    destruct IH as (I1 & I2 & I3 & I4 & I5 & I6 & I7).
    set (c1 := foldl (releaseDeleted cidr) c done_ids) in *.
    destruct (releaseDeleted_gone cidr c1 id0) as (S1 & S2 & S3 & S4 & S5 & S6 & S7).
    destruct (releaseDeleted_blocksKept cidr c1 id0) as (_ & _ & K3 & K4 & _).
    split; [congruence|]. split; [congruence|]. split; [congruence|].
    split; [congruence|]. split; [congruence|]. split; [congruence|].
    intros id l a [Hin|Hin%list_elem_of_singleton]%elem_of_app Hl Ha Hnode.
    - destruct (I7 _ _ _ Hin Hl Ha Hnode) as [G1 G2]. split; [by apply S5|by apply S6].
    - subst id. apply (S7 l a); [by rewrite I2|by rewrite I1|done]. }
  specialize (Hloop ids). cbv zeta in Hloop.
  set (c1 := foldl (releaseDeleted cidr) c ids) in *.
  destruct Hloop as (I1 & I2 & I3 & I4 & I5 & I6 & I7).
  split; [|split].
  - assert (attr (nodesByBlock (set_allocationsByBlock
                                  (delete cidr (allocationsByBlock c1)) c1)) cidr
            = attr (nodesByBlock c) cidr) as Hattr by (simpl; by rewrite I5).
    rewrite Hattr.
    destruct (negb (bool_decide (attr (nodesByBlock c) cidr = ""))) eqn:Hcase; simpl;
      rewrite !lookup_delete_eq; do 6 (split; [done|]); intros n Hn Hne;
      unfold attr in *; rewrite Hn in *; simpl in *.
    + rewrite lookup_alter_eq, I6.
      destruct (blocksByNode c !! n); simpl; [by rewrite lookup_delete_eq|done].
    + exfalso. apply negb_false_iff, bool_decide_eq_true_1 in Hcase. done.
  - by case_match.
  - intros Hfair id l a Hid Ha Hnode.
    assert (gone c1 (Alloc.node a) (Alloc.id a)
            ∧ Alloc.node a ∈ dirtyNodes (allocationState c1)) as Hc1.
    { apply (I7 id l a); [|done|done|done].
      subst ids. unfold rangeKeys. rewrite (Hfair _).
      apply list_elem_of_fmap. exists (id, l). split; [done|].
      by apply elem_of_map_to_list. }
    by case_match.
Qed.

End BlockDeleted.

(** ** The migration check and the release of a node *)

Section NodeRelease.
Variable E : Env.

(** X13. [nodeIsBeingMigrated] answers true exactly when the Kubernetes
    node of the Calico node is found and carries one of the labels of the
    Flannel migration with a value other than the one that marks a
    migrated node; when the Kubernetes node is not found the answer is
    false, and any other failure of the two lookups is an error. *)
Theorem migration_check (c : IPAMController) (name : string) :
  (nodeIsBeingMigrated E c name = Val true
   ↔ ∃ kname node labelName labelVal wanted,
       kubernetesNodeForCalico E c name = Val kname
       ∧ nodeLister_Get E kname = Val node
       ∧ Labels node !! labelName = Some labelVal
       ∧ NodeNetworkCalico E !! labelName = Some wanted
       ∧ labelVal ≠ wanted)
  ∧ (∀ kname err, kubernetesNodeForCalico E c name = Val kname →
       nodeLister_Get E kname = Fail err →
       (IsNotFound err = true → nodeIsBeingMigrated E c name = Val false)
       ∧ (IsNotFound err = false → ∃ e, nodeIsBeingMigrated E c name = Fail e))
  ∧ (∀ err, kubernetesNodeForCalico E c name = Fail err →
       nodeIsBeingMigrated E c name = Fail err).
Proof.
  unfold nodeIsBeingMigrated. split; [|split].
  - destruct (kubernetesNodeForCalico E c name) as [kname|err].
    2: { split; [done|]. intros (?&?&?&?&?&?&_). done. }
    destruct (nodeLister_Get E kname) as [node|err] eqn:Hget.
    2: { split; [by destruct (IsNotFound err)|].
         intros (?&?&?&?&?&[= <-]&Hg&_). congruence. }
    unfold hasMigrationLabel. split.
    + intros [= Hex]. apply existsb_exists in Hex as ([labelName labelVal] & Hin & Hx).
      apply list_elem_of_In, elem_of_map_to_list in Hin.
      destruct (NodeNetworkCalico E !! labelName) as [wanted|] eqn:Hw; [|done].
      apply negb_true_iff, bool_decide_eq_false_1 in Hx.
      by exists kname, node, labelName, labelVal, wanted.
    + intros (k & nd & labelName & labelVal & wanted & [= <-] & Hg & Hl & Hw & Hne).
      rewrite Hget in Hg. injection Hg as <-. f_equal. apply existsb_exists. exists (labelName, labelVal). split.
      * by apply list_elem_of_In, elem_of_map_to_list.
      * rewrite Hw. by apply negb_true_iff, bool_decide_eq_false_2.
  - intros kname err -> ->. split; intros ->; [done|by eexists].
  - by intros err ->.
Qed.


Lemma set_knode_same a : set_knode (knode a) a = a.
Proof. by destruct a. Qed.

Lemma checkAllocation_settles kn allocations st id0 :
  (checkAllocation E kn false allocations st id0).2 = true →
  st.2 = true
  ∧ (∀ l, settled E kn st l →
       settled E kn (checkAllocation E kn false allocations st id0) l)
  ∧ (∀ l0, allocations !! id0 = Some l0 → is_Some (heap st.1.1 !! l0) →
       settled E kn (checkAllocation E kn false allocations st id0) l0).
Proof.
  destruct st as [[c ts] cd]. unfold checkAllocation. cbn [fst snd].
  destruct (allocations !! id0) as [l0|]; [|done]. cbv zeta.
  set (c1 := updateAlloc l0 (set_knode kn) c).
  assert (∀ ts', (∀ l, l ∈ ts → l ∈ ts') →
            ∀ l, settled E kn (c, ts, cd) l → settled E kn (c1, ts', cd) l) as Hkeep.
  { intros ts' Hts l (a & Ha & Hk & Hcase). unfold settled. cbn [fst snd] in *.
    exists a. split; [|split; [done|]].
    - subst c1. simpl. destruct (decide (l = l0)) as [->|Hne].
      + rewrite list_lookup_alter_eq, Ha. simpl. rewrite <- Hk.
        by rewrite set_knode_same.
      + by rewrite list_lookup_alter_ne.
    - destruct Hcase as [?|[?|?]]; [by left|right; left; by apply Hts|by right; right]. }
  destruct (heap c1 !! l0) as [a0|] eqn:Ha0.
  2: { cbn [snd]. intros ->. split; [done|]. split; [by apply Hkeep|].
       intros l [= <-] [a Ha]. subst c1. simpl in Ha0.
       rewrite list_lookup_alter_eq, Ha in Ha0. done. }
  assert (knode a0 = kn) as Hk0.
  { subst c1. simpl in Ha0. rewrite list_lookup_alter_eq in Ha0.
    destruct (heap c !! l0); simpl in Ha0; [|done]. by injection Ha0 as <-. }
  destruct (isWindowsReserved E a0) eqn:Hw.
  { cbn [snd]. intros ->. split; [done|]. split; [by apply Hkeep|].
    intros l [= <-] _. exists a0. split; [done|]. split; [done|]. by left. }
  destruct (negb (Alloc.isPodIP a0) && negb (Alloc.isTunnelAddress a0)); [done|].
  destruct (Alloc.isTunnelAddress a0).
  { cbn [snd]. intros ->. split; [done|]. split.
    - apply Hkeep. intros l Hl. apply elem_of_app. by left.
    - intros l [= <-] _. exists a0. split; [done|]. split; [done|]. right. left.
      cbn [fst snd]. apply elem_of_app. right. by apply list_elem_of_singleton. }
  destruct (allocationIsValid E a0 true); [done|]. cbn [negb snd].
  intros ->. split; [done|].
  set (c2 := updateAlloc l0 Alloc.markConfirmedLeak c1).
  assert (heap c2 !! l0 = Some (Alloc.markConfirmedLeak a0)) as Ha2.
  { change (alter Alloc.markConfirmedLeak l0 (heap c1) !! l0
            = Some (Alloc.markConfirmedLeak a0)).
    by rewrite list_lookup_alter_eq, Ha0. }
  assert (indexLeak l0 c2
          = set_confirmedLeaks (<[Alloc.id a0 := l0]> (confirmedLeaks c2)) c2) as Hidx.
  { unfold indexLeak. by rewrite Ha2. }
  rewrite Hidx.
  assert (settled E kn
            (set_confirmedLeaks (<[Alloc.id a0 := l0]> (confirmedLeaks c2)) c2, ts, true)
            l0) as Hnew.
  { exists (Alloc.markConfirmedLeak a0). split; [done|]. split; [done|].
    right. right. split; [done|]. cbn [fst]. simpl. by rewrite lookup_insert_eq. }
  split; [|by intros l [= <-] _].
  intros l Hl. destruct (decide (l = l0)) as [->|Hne]; [done|].
  apply (Hkeep ts) in Hl; [|done]. destruct Hl as (a & Ha & Hk & Hcase).
  exists a. split; [|split; [done|]].
  - change (alter Alloc.markConfirmedLeak l0 (heap c1) !! l = Some a).
    rewrite list_lookup_alter_ne by done. exact Ha.
  - destruct Hcase as [?|[?|[Hc [x Hx]]]]; [by left|by right; left|right; right].
    split; [done|]. cbn [fst] in *. simpl in *.
    destruct (decide (Alloc.id a = Alloc.id a0)) as [->|Hid].
    + by rewrite lookup_insert_eq.
    + rewrite lookup_insert_ne by done. by exists x.
Qed.


Lemma checkAllocation_alive kn ex allocations st id l :
  is_Some (heap st.1.1 !! l) →
  is_Some (heap (checkAllocation E kn ex allocations st id).1.1 !! l).
Proof.
  intros [a Ha].
  destruct (checkAllocation_keeps E kn ex allocations st id) as [(_&_&_&Hh) _].
  destruct (Forall2_lookup_l _ _ _ _ _ Hh Ha) as (a' & Ha' & _). by exists a'.
Qed.

Lemma foldl_checkAllocation_settles kn allocations ids st :
  (foldl (checkAllocation E kn false allocations) st ids).2 = true →
  st.2 = true
  ∧ (∀ l, is_Some (heap st.1.1 !! l) →
       is_Some (heap (foldl (checkAllocation E kn false allocations) st ids).1.1 !! l))
  ∧ (∀ l, settled E kn st l →
       settled E kn (foldl (checkAllocation E kn false allocations) st ids) l)
  ∧ (∀ id l0, id ∈ ids → allocations !! id = Some l0 →
       is_Some (heap st.1.1 !! l0) →
       settled E kn (foldl (checkAllocation E kn false allocations) st ids) l0).
Proof.
  induction ids as [|id0 ids IH] using rev_ind.
  { intros Hcd. split; [done|]. split; [done|]. split; [done|].
    intros id l Hin. by apply elem_of_nil in Hin. }
  rewrite foldl_app. cbn [foldl]. intros Hcd.
  destruct (checkAllocation_settles _ _ _ _ Hcd) as (S1 & S2 & S3).
  destruct (IH S1) as (I1 & I2 & I3 & I4).
  split; [done|]. split.
  { intros l Hl. by apply checkAllocation_alive, I2. }
  split; [by auto|].
  intros id l0 [Hin|Hin%list_elem_of_singleton]%elem_of_app Hl Halive.
  - apply S2. by eapply I4.
  - subst id. apply S3; [done|]. by apply I2.
Qed.

Lemma confirmTunnel_queued c lt l :
  queuedOrReserved E c l → queuedOrReserved E (confirmTunnel c lt) l.
Proof.
  intros (a & Ha & Hcase). unfold confirmTunnel.
  set (c1 := updateAlloc lt Alloc.markConfirmedLeak c).
  destruct (decide (l = lt)) as [->|Hne].
  - assert (heap c1 !! lt = Some (Alloc.markConfirmedLeak a)) as Ha1.
    { change (alter Alloc.markConfirmedLeak lt (heap c) !! lt
              = Some (Alloc.markConfirmedLeak a)).
      by rewrite list_lookup_alter_eq, Ha. }
    rewrite Ha1. exists (Alloc.markConfirmedLeak a). split; [done|]. right.
    split; [done|]. simpl. by rewrite lookup_insert_eq.
  - assert (heap c1 !! l = Some a) as Ha1.
    { change (alter Alloc.markConfirmedLeak lt (heap c) !! l = Some a).
      by rewrite list_lookup_alter_ne. }
    destruct (heap c1 !! lt) as [at'|] eqn:Hat.
    + exists a. split; [done|]. destruct Hcase as [?|[Hc [x Hx]]]; [by left|right].
      split; [done|]. simpl.
      destruct (decide (Alloc.id a = Alloc.id at')) as [->|Hid].
      * by rewrite lookup_insert_eq.
      * rewrite lookup_insert_ne by done. by exists x.
    + exists a. split; [done|]. exact Hcase.
Qed.

Lemma confirmTunnel_confirms c lt :
  is_Some (heap c !! lt) → queuedOrReserved E (confirmTunnel c lt) lt.
Proof.
  intros [a Ha]. unfold confirmTunnel.
  set (c1 := updateAlloc lt Alloc.markConfirmedLeak c).
  assert (heap c1 !! lt = Some (Alloc.markConfirmedLeak a)) as Ha1.
  { change (alter Alloc.markConfirmedLeak lt (heap c) !! lt
            = Some (Alloc.markConfirmedLeak a)).
    by rewrite list_lookup_alter_eq, Ha. }
  rewrite Ha1. exists (Alloc.markConfirmedLeak a). split; [done|]. right.
  split; [done|]. simpl. by rewrite lookup_insert_eq.
Qed.

Lemma confirmTunnels_queued ts c l :
  queuedOrReserved E c l ∨ (l ∈ ts ∧ is_Some (heap c !! l)) →
  queuedOrReserved E (foldl confirmTunnel c ts) l.
Proof.
  revert c. induction ts as [|lt ts IH]; intros c [Hq|[Hin Halive]]; simpl.
  - done.
  - by apply elem_of_nil in Hin.
  - apply IH. left. by apply confirmTunnel_queued.
  - apply IH. apply elem_of_cons in Hin as [->|Hin].
    + left. by apply confirmTunnel_confirms.
    + right. split; [done|]. destruct Halive as [a Ha].
      destruct (confirmTunnel_keeps c lt) as [(_&_&_&Hh) _].
      destruct (Forall2_lookup_l _ _ _ _ _ Hh Ha) as (a' & Ha' & _). by exists a'.
Qed.

(** X14. When the scan decides to release a node, every allocation of
    the node needs no pod any more: it is reserved for Windows, or it has
    just been marked a confirmed leak and is in the index of confirmed
    leaks, the tunnel addresses of the node included. ([range] is taken to
    visit every allocation, and the allocations to point to objects.) *)
Theorem released_node_has_only_leaks
    (nodesToCheck : gmap string (gmap string loc)) (c : IPAMController)
    (ns : list string) (cnode : string) (allocations : gmap string loc) :
  visitsAll E →
  nodesToCheck !! cnode = Some allocations →
  (∀ id l, allocations !! id = Some l → is_Some (heap c !! l)) →
  (checkNode E nodesToCheck (c, ns) cnode).2 = ns ++ [cnode] →
  ∀ id l, allocations !! id = Some l →
    queuedOrReserved E (checkNode E nodesToCheck (c, ns) cnode).1 l.
Proof.
  intros Hfair Hn Halive. unfold checkNode. rewrite Hn.
  assert (ns ≠ ns ++ [cnode]) as Hns.
  { intros Heq. apply (f_equal length) in Heq. rewrite length_app in Heq.
    simpl in Heq. lia. }
  destruct (kubernetesNodeForCalico E c cnode) as [kn|err];
    [|by destruct (negb _)].
  destruct (negb (bool_decide (kn = "")) && nodeExists E kn) eqn:Hex; cbn [negb].
  { by destruct (foldl _ _ _) as [[c1 ts] cd]. }
  pose proof (foldl_checkAllocation_settles kn allocations
                (rangeKeys E allocations) (c, [], true)) as Hfold.
  destruct (foldl _ _ _) as [[c1 ts] cd]. cbn [fst snd] in *.
  destruct cd; cbn [negb]; [|done]. intros _ id l Hl.
  destruct (Hfold eq_refl) as (_ & _ & _ & H4). cbn [fst snd].
  assert (settled E kn (c1, ts, true) l) as (a & Ha & Hk & Hcase).
  { apply (H4 id); [|done|by eapply Halive].
    unfold rangeKeys. rewrite (Hfair _). apply list_elem_of_fmap.
    exists (id, l). split; [done|]. by apply elem_of_map_to_list. }
  cbn [fst snd] in *. apply confirmTunnels_queued.
  destruct Hcase as [Hw|[Hin|Hc]].
  - left. exists a. split; [done|]. by left.
  - right. split; [done|]. by exists a.
  - left. exists a. split; [done|]. by right.
Qed.

End NodeRelease.

(** ** The metrics refresh *)

Section Counters.

Lemma countAt_incr m k n :
  countAt (Metrics.incr m k) n
  = (countAt m n + (if bool_decide (k = n) then 1 else 0))%Z.
Proof.
  unfold countAt, Metrics.incr. case_bool_decide as Hk.
  - subst. by rewrite lookup_insert_eq.
  - rewrite lookup_insert_ne; [lia|done].
Qed.

Lemma incr_is_Some m k n :
  is_Some (Metrics.incr m k !! n) ↔ is_Some (m !! n) ∨ k = n.
Proof.
  unfold Metrics.incr. destruct (decide (k = n)) as [->|Hk].
  - rewrite lookup_insert_eq. split; [by right|by eexists].
  - rewrite lookup_insert_ne; [|done]. split; [by left|by intros [?|?]].
Qed.

Lemma numberOf_nil {X} (P : X → Prop) `{∀ x, Decision (P x)} : numberOf P [] = 0%Z.
Proof. done. Qed.

Lemma numberOf_cons {X} (P : X → Prop) `{∀ x, Decision (P x)} x l :
  numberOf P (x :: l) = ((if bool_decide (P x) then 1 else 0) + numberOf P l)%Z.
Proof.
  unfold numberOf. rewrite filter_cons. case_bool_decide as HP.
  - rewrite decide_True; [|done]. simpl. lia.
  - rewrite decide_False; [|done]. lia.
Qed.

Lemma numberOf_app {X} (P : X → Prop) `{∀ x, Decision (P x)} l1 l2 :
  numberOf P (l1 ++ l2) = (numberOf P l1 + numberOf P l2)%Z.
Proof. unfold numberOf. rewrite filter_app, length_app. lia. Qed.

Lemma numberOf_perm {X} (P : X → Prop) `{∀ x, Decision (P x)} l1 l2 :
  l1 ≡ₚ l2 → numberOf P l1 = numberOf P l2.
Proof. intros Hp. unfold numberOf. by rewrite Hp. Qed.

Lemma numberOf_ext {X} (P Q : X → Prop) `{∀ x, Decision (P x)} `{∀ x, Decision (Q x)} l :
  (∀ x, P x ↔ Q x) → numberOf P l = numberOf Q l.
Proof.
  intros HPQ. induction l as [|x l IH]; [done|].
  rewrite !numberOf_cons, IH. by rewrite (bool_decide_ext (P x) (Q x)).
Qed.

Lemma numberOf_nonneg {X} (P : X → Prop) `{∀ x, Decision (P x)} l : (0 ≤ numberOf P l)%Z.
Proof. unfold numberOf. lia. Qed.

Lemma numberOf_pos {X} (P : X → Prop) `{∀ x, Decision (P x)} l :
  (0 < numberOf P l)%Z ↔ ∃ x, x ∈ l ∧ P x.
Proof.
  induction l as [|x l IH].
  - rewrite numberOf_nil. split; [lia|]. intros (x&Hx&_). by apply elem_of_nil in Hx.
  - rewrite numberOf_cons. pose proof (numberOf_nonneg P l). split.
    + case_bool_decide as HP.
      * intros _. exists x. split; [left|done].
      * intros H1. assert (0 < numberOf P l)%Z as H2 by lia.
        apply IH in H2 as (y&Hy&HPy). exists y. split; [by right|done].
    + intros (y&Hy&HPy). apply elem_of_cons in Hy as [->|Hy].
      * rewrite bool_decide_true; [lia|done].
      * assert (0 < numberOf P l)%Z by (apply IH; eauto). case_bool_decide; lia.
Qed.

Lemma countAt_foldl_incr labels m n :
  countAt (foldl Metrics.incr m labels) n
  = (countAt m n + numberOf (λ label, label = n) labels)%Z.
Proof.
  revert m. induction labels as [|k labels IH]; intros m; simpl.
  - rewrite numberOf_nil. lia.
  - rewrite IH, countAt_incr, numberOf_cons. lia.
Qed.

Lemma foldl_incr_is_Some labels m n :
  is_Some (foldl Metrics.incr m labels !! n) ↔ is_Some (m !! n) ∨ n ∈ labels.
Proof.
  revert m. induction labels as [|k labels IH]; intros m; simpl.
  - split; [by left|]. intros [?|H]; [done|]. by apply elem_of_nil in H.
  - rewrite IH, incr_is_Some, elem_of_cons.
    split; [intros [[?|?]|?]|intros [?|[?|?]]]; auto.
Qed.

(** A [range] that visits every entry copies the whole map. *)
Lemma foldl_set_lookup {V} (value : V → Z) (m : gmap string V) ks
    (acc : gmap string Z) k :
  foldl (λ gauge node, match m !! node with
                       | Some v => <[node := value v]> gauge
                       | None => gauge
                       end) acc ks !! k
  = match (if decide (k ∈ ks) then m !! k else None) with
    | Some v => Some (value v)
    | None => acc !! k
    end.
Proof.
  revert acc. induction ks as [|k0 ks IH]; intros acc; cbn [foldl].
  - rewrite decide_False; [done|]. apply not_elem_of_nil.
  - rewrite IH. destruct (decide (k ∈ ks)) as [Hin|Hin].
    + rewrite decide_True; [|by right]. destruct (m !! k) eqn:Hk; [done|].
      destruct (m !! k0) eqn:Hk0; [|done]. rewrite lookup_insert_ne; [done|congruence].
    + destruct (decide (k = k0)) as [->|Hne].
      * rewrite decide_True; [|by left].
        destruct (m !! k0) eqn:Hk0; [by rewrite lookup_insert_eq|done].
      * rewrite decide_False; [|by intros [?|?]%elem_of_cons].
        destruct (m !! k0); [by rewrite lookup_insert_ne|done].
Qed.

Lemma rangeKeys_elem {V} E (m : gmap string V) k :
  visitsAll E → k ∈ rangeKeys E m ↔ is_Some (m !! k).
Proof.
  intros Hall. unfold rangeKeys. rewrite (Hall _).
  rewrite list_elem_of_fmap. split.
  - intros ([k' v]&->&Hin). apply elem_of_map_to_list in Hin. by eexists.
  - intros [v Hv]. exists (k, v). split; [done|]. by apply elem_of_map_to_list.
Qed.

Lemma rangeKeys_NoDup {V} E (m : gmap string V) :
  visitsAll E → NoDup (rangeKeys E m).
Proof. intros Hall. unfold rangeKeys. rewrite (Hall _). apply NoDup_fst_map_to_list. Qed.

Lemma resetAndSet_all {V} E (value : V → Z) (m : gmap string V) :
  visitsAll E → Metrics.resetAndSet E value m = value <$> m.
Proof.
  intros Hall. apply map_eq. intros k. unfold Metrics.resetAndSet.
  rewrite foldl_set_lookup, lookup_fmap, lookup_empty.
  destruct (decide (k ∈ rangeKeys E m)) as [Hin|Hin].
  - by destruct (m !! k).
  - destruct (m !! k) eqn:Hk; [|done]. exfalso. apply Hin.
    apply rangeKeys_elem; [done|by eexists].
Qed.

Lemma createZeroed_lookup E c pool n z :
  Metrics.createZeroedMapForNodeValues E c pool !! n = Some z →
  z = 0%Z ∧ pool ≠ unknownPoolLabel E.
Proof.
  unfold Metrics.createZeroedMapForNodeValues. case_bool_decide as Hp; simpl.
  { by rewrite lookup_empty. }
  intros H. split; [|done]. revert H.
  generalize (rangeKeys E (kubernetesNodesByCalicoName c)).
  intros ks. induction ks as [|k ks IH] using rev_ind; simpl.
  - by rewrite lookup_empty.
  - rewrite foldl_app. simpl. destruct (decide (k = n)) as [->|Hne].
    + rewrite lookup_insert_eq. congruence.
    + by rewrite lookup_insert_ne.
Qed.

Lemma foldl_zero_is_Some ks n :
  is_Some (foldl (λ (valuesByNode : gmap string Z) (cnode : string),
                    <[cnode := 0%Z]> valuesByNode) ∅ ks !! n) ↔ n ∈ ks.
Proof.
  induction ks as [|k ks IH] using rev_ind; simpl.
  - rewrite lookup_empty. split; [by intros [? ?]|]. intros H. by apply elem_of_nil in H.
  - rewrite foldl_app. simpl. rewrite elem_of_app, list_elem_of_singleton.
    destruct (decide (k = n)) as [->|Hne].
    + rewrite lookup_insert_eq. split; [by right|by eexists].
    + rewrite lookup_insert_ne; [|done]. rewrite IH.
      split; [by left|]. by intros [?|?].
Qed.

Lemma createZeroed_is_Some E c pool n :
  visitsAll E →
  is_Some (Metrics.createZeroedMapForNodeValues E c pool !! n)
  ↔ pool ≠ unknownPoolLabel E ∧ is_Some (kubernetesNodesByCalicoName c !! n).
Proof.
  intros Hall. unfold Metrics.createZeroedMapForNodeValues.
  case_bool_decide as Hp; simpl.
  { rewrite lookup_empty. split; [by intros [? ?]|by intros [? _]]. }
  rewrite foldl_zero_is_Some, (rangeKeys_elem E _ n Hall).
  split; [done|by intros [_ ?]].
Qed.

Lemma countAt_createZeroed E c pool n :
  countAt (Metrics.createZeroedMapForNodeValues E c pool) n = 0%Z.
Proof.
  unfold countAt.
  destruct (Metrics.createZeroedMapForNodeValues E c pool !! n) as [z|] eqn:H; [|done].
  apply createZeroed_lookup in H as [-> _]. done.
Qed.

End Counters.

Section Counting.
Variable E : Env.
Variable c : IPAMController.
Variable get : Tally → gmap string Z.
Variable blockCounts : bool.
Variable allocCounts : AllocationBlock → allocation → bool.
Hypothesis get_noteBlock : ∀ affineNode t,
  get (Metrics.noteBlock affineNode t)
  = if blockCounts then Metrics.incr (get t) affineNode else get t.
Hypothesis get_countAllocation : ∀ b t a,
  get (Metrics.countAllocation b (Metrics.affineNodeOf b) t a)
  = if allocCounts b a then Metrics.incr (get t) (nodeLabel a) else get t.

Lemma get_countEntries b cidr ids t :
  get (foldl (Metrics.countEntry c b (Metrics.affineNodeOf b) cidr) t ids)
  = foldl Metrics.incr (get t)
      (omap (λ id, l ← default ∅ (allocationsByBlock c !! cidr) !! id;
                   a ← heap c !! l;
                   if allocCounts b a then Some (nodeLabel a) else None) ids).
Proof.
  revert t. induction ids as [|id ids IH]; intros t; [done|].
  cbn [foldl omap list_omap]. rewrite IH. unfold Metrics.countEntry.
  destruct (default ∅ (allocationsByBlock c !! cidr) !! id) as [l|]; [|done].
  cbn [mbind option_bind]. destruct (heap c !! l) as [a|]; [|done].
  cbn [mbind option_bind]. rewrite get_countAllocation.
  by destruct (allocCounts b a).
Qed.

Lemma get_countBlock t cidr t' :
  Metrics.countBlock E c (Some t) cidr = Some t' →
  ∃ b, allBlocks c !! cidr = Some b
       ∧ get t' = foldl Metrics.incr (get t)
                    (blockLabels E c blockCounts allocCounts cidr b).
Proof.
  unfold Metrics.countBlock. destruct (allBlocks c !! cidr) as [b|]; [|done].
  intros [= <-]. exists b. split; [done|].
  rewrite get_countEntries, get_noteBlock. unfold blockLabels.
  rewrite foldl_app. by destruct blockCounts.
Qed.

Lemma countBlock_None cidrs : foldl (Metrics.countBlock E c) None cidrs = None.
Proof. by induction cidrs. Qed.

Lemma get_countBlocks cidrs t t' :
  foldl (Metrics.countBlock E c) (Some t) cidrs = Some t' →
  get t' = foldl Metrics.incr (get t)
             (visitedLabels E c blockCounts allocCounts cidrs).
Proof.
  revert t. induction cidrs as [|cidr cidrs IH]; intros t; cbn [foldl].
  - by intros [= <-].
  - destruct (Metrics.countBlock E c (Some t) cidr) as [t1|] eqn:H1.
    2:{ by rewrite countBlock_None. }
    intros H. apply IH in H. apply get_countBlock in H1 as (b&Hb&H1).
    unfold visitedLabels. cbn [mbind list_bind]. rewrite Hb, foldl_app.
    by rewrite <- H1.
Qed.

End Counting.

Section Labels.
Variable E : Env.
Hypothesis Hall : visitsAll E.
Variable c : IPAMController.
Variable blockCounts : bool.
Variable allocCounts : AllocationBlock → allocation → bool.

Lemma numberOf_entries (m : gmap string loc) b n (entries : list (string * loc)) :
  Forall (λ entry, m !! entry.1 = Some entry.2) entries →
  numberOf (λ label, label = n)
    (omap (λ id, l ← m !! id; a ← heap c !! l;
                 if allocCounts b a then Some (nodeLabel a) else None) entries.*1)
  = numberOf (λ a, allocCounts b a = true ∧ nodeLabel a = n)
      (omap (λ entry : string * loc, heap c !! entry.2) entries).
Proof.
  induction 1 as [|[id l] entries Hm _ IH]; [done|].
  cbn [fmap list_fmap omap list_omap fst snd] in *. rewrite Hm. cbn [mbind option_bind].
  destruct (heap c !! l) as [a|]; cbn [mbind option_bind]; [|done].
  rewrite (numberOf_cons _ a). rewrite <- IH.
  destruct (allocCounts b a) eqn:Ha.
  - rewrite numberOf_cons. f_equal.
    rewrite (bool_decide_ext (nodeLabel a = n) (true = true ∧ nodeLabel a = n)); [done|].
    split; [done|by intros [_ ?]].
  - rewrite bool_decide_false; [done|]. by intros [? _].
Qed.

Lemma numberOf_blockLabels cidr b n :
  numberOf (λ label, label = n) (blockLabels E c blockCounts allocCounts cidr b)
  = ((if blockCounts && bool_decide (Metrics.affineNodeOf b = n) then 1 else 0)
     + numberOf (λ a, allocCounts b a = true ∧ nodeLabel a = n)
         (blockAllocations c cidr))%Z.
Proof.
  unfold blockLabels, blockAllocations. rewrite numberOf_app. f_equal.
  - destruct blockCounts; [|done]. rewrite numberOf_cons, numberOf_nil. simpl.
    case_bool_decide; lia.
  - unfold rangeKeys. rewrite (numberOf_perm _ _ _ (omap_Permutation _ _ _ (Hall _))).
    apply numberOf_entries. apply Forall_forall. intros [id l] Hin.
    by apply elem_of_map_to_list in Hin.
Qed.

Lemma numberOf_labels cidrs n :
  numberOf (λ label, label = n) (visitedLabels E c blockCounts allocCounts cidrs)
  = ((if blockCounts
      then numberOf (λ entry : string * AllocationBlock,
                       Metrics.affineNodeOf entry.2 = n)
             (omap (λ cidr, (λ b, (cidr, b)) <$> allBlocks c !! cidr) cidrs)
      else 0)
     + numberOf (λ entry : AllocationBlock * allocation,
                   allocCounts entry.1 entry.2 = true ∧ nodeLabel entry.2 = n)
         (entry ← omap (λ cidr, (λ b, (cidr, b)) <$> allBlocks c !! cidr) cidrs;
          (λ a, (entry.2, a)) <$> blockAllocations c entry.1))%Z.
Proof.
  induction cidrs as [|cidr cidrs IH].
  { cbn. rewrite !numberOf_nil. by destruct blockCounts. }
  unfold visitedLabels in *. cbn [mbind list_bind omap list_omap].
  rewrite numberOf_app, IH. destruct (allBlocks c !! cidr) as [b|]; cbn [fmap option_fmap option_map].
  2:{ rewrite numberOf_nil. lia. }
  cbn [mbind list_bind fst snd]. rewrite numberOf_app, numberOf_blockLabels.
  assert (numberOf (λ entry : AllocationBlock * allocation,
                      allocCounts entry.1 entry.2 = true ∧ nodeLabel entry.2 = n)
            ((λ a, (b, a)) <$> blockAllocations c cidr)
          = numberOf (λ a, allocCounts b a = true ∧ nodeLabel a = n)
              (blockAllocations c cidr)) as ->.
  { generalize (blockAllocations c cidr). intros l.
    induction l as [|a l IHl]; [done|].
    cbn [fmap list_fmap]. rewrite !numberOf_cons, IHl. done. }
  destruct blockCounts; cbn [andb].
  - rewrite numberOf_cons. cbn [snd]. lia.
  - lia.
Qed.

Lemma numberOf_poolLabels blocks n :
  numberOf (λ label, label = n)
    (visitedLabels E c blockCounts allocCounts (rangeOrder E (elements blocks)))
  = ((if blockCounts
      then numberOf (λ entry : string * AllocationBlock,
                       Metrics.affineNodeOf entry.2 = n) (cachedBlocks c blocks)
      else 0)
     + numberOf (λ entry : AllocationBlock * allocation,
                   allocCounts entry.1 entry.2 = true ∧ nodeLabel entry.2 = n)
         (poolEntries c blocks))%Z.
Proof.
  unfold poolEntries, cachedBlocks. rewrite <- numberOf_labels.
  apply numberOf_perm. unfold visitedLabels. by rewrite (Hall _).
Qed.

End Labels.

Section PoolGauge.
Variable E : Env.
Variable c : IPAMController.
Variable get : Tally → gmap string Z.
Variable gauge : Gauges → gmap string (gmap string Z).
Hypothesis gauge_updatePoolGauges : ∀ g pool t,
  gauge (Metrics.updatePoolGauges E g pool t)
  = Metrics.updatePoolGaugeWithNodeValues E (gauge g) pool (get t).
Hypothesis gauge_updateLegacyGauges : ∀ legacyBlocks legacyBorrowed g,
  gauge (Metrics.updateLegacyGauges E c legacyBlocks legacyBorrowed g) = gauge g.

Lemma updatePoolGauge_eq G pool nodeValues :
  Metrics.updatePoolGaugeWithNodeValues E G pool nodeValues !! pool
  = (λ _, Metrics.resetAndSet E (λ value, value) nodeValues) <$> G !! pool.
Proof.
  unfold Metrics.updatePoolGaugeWithNodeValues.
  destruct (G !! pool) as [old|] eqn:HG; cbn.
  - by rewrite lookup_insert_eq.
  - by rewrite HG.
Qed.

Lemma updatePoolGauge_ne G pool nodeValues other :
  other ≠ pool →
  Metrics.updatePoolGaugeWithNodeValues E G pool nodeValues !! other = G !! other.
Proof.
  intros Hne. unfold Metrics.updatePoolGaugeWithNodeValues.
  destruct (G !! pool); [|done]. by rewrite lookup_insert_ne.
Qed.

Lemma updatePool_None pools : foldl (Metrics.updatePool E c) None pools = None.
Proof. by induction pools. Qed.

(** The loop over the pools writes the vector of a pool in the
    iteration of that pool only. *)
Lemma updatePool_fold pools st st' pool :
  NoDup pools →
  foldl (Metrics.updatePool E c) (Some st) pools = Some st' →
  match (if decide (pool ∈ pools)
         then blocksByPool (poolManager c) !! pool else None) with
  | Some blocks =>
      ∃ legacyBlocks legacyBorrowed t,
        Metrics.countPool E c pool blocks legacyBlocks legacyBorrowed = Some t
        ∧ gauge st'.2 !! pool
          = (λ _, Metrics.resetAndSet E (λ value, value) (get t))
              <$> gauge st.2 !! pool
  | None => gauge st'.2 !! pool = gauge st.2 !! pool
  end.
Proof.
  intros Hnd. revert st. induction Hnd as [|p pools Hp Hnd IH]; intros st; cbn [foldl].
  { intros [= <-]. rewrite decide_False; [done|apply not_elem_of_nil]. }
  destruct (Metrics.updatePool E c (Some st) p) as [st1|] eqn:H1.
  2:{ by rewrite updatePool_None. }
  intros H. specialize (IH _ H). destruct st as [[lb lb2] g].
  unfold Metrics.updatePool in H1. destruct (decide (pool = p)) as [->|Hne].
  - rewrite decide_True; [|by left]. rewrite decide_False in IH; [|done].
    destruct (blocksByPool (poolManager c) !! p) as [blocks|].
    2:{ simplify_eq. done. }
    destruct (Metrics.countPool E c p blocks lb lb2) as [t|] eqn:Ht; [|done].
    simplify_eq. exists lb, lb2, t. split; [done|]. rewrite IH. cbn [snd].
    by rewrite gauge_updatePoolGauges, updatePoolGauge_eq.
  - assert (gauge st1.2 !! pool = gauge g !! pool) as Hsame.
    { destruct (blocksByPool (poolManager c) !! p) as [blocks|]; [|by simplify_eq].
      destruct (Metrics.countPool E c p blocks lb lb2) as [t|]; [|done].
      simplify_eq. cbn [snd].
      by rewrite gauge_updatePoolGauges, updatePoolGauge_ne. }
    cbn [snd]. rewrite <- Hsame. destruct (decide (pool ∈ pools)) as [Hin|Hin].
    + rewrite decide_True; [done|by right].
    + rewrite decide_False; [done|]. by intros [?|?]%elem_of_cons.
Qed.

(** After a refresh that took place, the vector of a pool with blocks
    holds the counts of that pool if it existed, and is still missing if
    not. *)
Lemma updateMetrics_pool g g' pool blocks :
  visitsAll E → datastoreReady c = true → syncStatus c = InSync →
  Metrics.updateMetrics E c g = Some g' →
  blocksByPool (poolManager c) !! pool = Some blocks →
  ∃ legacyBlocks legacyBorrowed t,
    Metrics.countPool E c pool blocks legacyBlocks legacyBorrowed = Some t
    ∧ gauge g' !! pool = (λ _, get t) <$> gauge g !! pool.
Proof.
  intros Hall Hready Hsync Hupd Hpool. unfold Metrics.updateMetrics in Hupd.
  rewrite Hready, Hsync, bool_decide_true in Hupd; [|done]. cbn [negb] in Hupd.
  destruct (foldl _ _ _) as [[[lb lb2] g1]|] eqn:Hfold; [|done]. simplify_eq.
  apply (updatePool_fold _ _ _ pool) in Hfold; [|by apply rangeKeys_NoDup].
  rewrite decide_True in Hfold; [|apply rangeKeys_elem; [done|by eexists]].
  rewrite Hpool in Hfold. destruct Hfold as (lb0&lb1&t&Ht&Hg).
  exists lb0, lb1, t. split; [done|]. rewrite gauge_updateLegacyGauges.
  cbn [snd] in Hg. rewrite Hg. rewrite resetAndSet_all; [|done].
  by rewrite map_fmap_id.
Qed.

End PoolGauge.

Section PoolCounter.
Variable E : Env.
Hypothesis Hall : visitsAll E.
Variable c : IPAMController.
Variable get : Tally → gmap string Z.
Variable allocCounts : AllocationBlock → allocation → bool.
Hypothesis get_noteBlock : ∀ affineNode t, get (Metrics.noteBlock affineNode t) = get t.
Hypothesis get_countAllocation : ∀ b t a,
  get (Metrics.countAllocation b (Metrics.affineNodeOf b) t a)
  = if allocCounts b a then Metrics.incr (get t) (nodeLabel a) else get t.
Hypothesis get_startTally : ∀ pool legacyBlocks legacyBorrowed,
  get (Metrics.startTally E c pool legacyBlocks legacyBorrowed)
  = Metrics.createZeroedMapForNodeValues E c pool.

(** A counter of allocations at the end of the counting of a pool. *)
Lemma pool_counter pool blocks legacyBlocks legacyBorrowed t n :
  Metrics.countPool E c pool blocks legacyBlocks legacyBorrowed = Some t →
  countAt (get t) n
  = numberOf (λ entry : AllocationBlock * allocation,
                allocCounts entry.1 entry.2 = true ∧ nodeLabel entry.2 = n)
      (poolEntries c blocks)
  ∧ (is_Some (get t !! n)
     ↔ (pool ≠ unknownPoolLabel E ∧ is_Some (kubernetesNodesByCalicoName c !! n))
       ∨ (0 < countAt (get t) n)%Z).
Proof.
  intros Ht. unfold Metrics.countPool in Ht.
  apply (get_countBlocks E c get false allocCounts) in Ht; [|done..].
  rewrite get_startTally in Ht.
  pose proof (numberOf_poolLabels E Hall c false allocCounts blocks n) as Hlab.
  rewrite Z.add_0_l in Hlab. rewrite <- Hlab. rewrite Ht.
  rewrite countAt_foldl_incr, countAt_createZeroed, foldl_incr_is_Some.
  split; [done|]. rewrite createZeroed_is_Some; [|done]. rewrite Z.add_0_l.
  rewrite numberOf_pos.
  split; (intros [?|H]; [by left|right]).
  - by exists n.
  - by destruct H as (x&Hx&->).
Qed.

End PoolCounter.

(** X15: after a refresh of the metrics that took place, the in-use
    gauge of a pool with blocks whose vector exists gives, under each node
    label, the number of allocations in the blocks of the pool with that
    label; a label has a value when an allocation has it and, for a pool
    other than the unknown one, when it is the name of a known Calico
    node, and only then. *)
Theorem in_use_gauge_counts (E : Env) (c : IPAMController) (g g' : Gauges)
    (pool : string) (blocks : gset string) (old : gmap string Z) :
  visitsAll E → datastoreReady c = true → syncStatus c = InSync →
  blocksByPool (poolManager c) !! pool = Some blocks →
  inUseAllocationGauges g !! pool = Some old →
  Metrics.updateMetrics E c g = Some g' →
  ∃ v, inUseAllocationGauges g' !! pool = Some v
       ∧ ∀ n,
           countAt v n
           = numberOf (λ entry : AllocationBlock * allocation, nodeLabel entry.2 = n)
               (poolEntries c blocks)
           ∧ (is_Some (v !! n)
              ↔ (pool ≠ unknownPoolLabel E
                 ∧ is_Some (kubernetesNodesByCalicoName c !! n))
                ∨ (0 < countAt v n)%Z).
Proof.
  intros Hall Hready Hsync Hpool Hold Hupd.
  destruct (updateMetrics_pool E c inUseAllocationsByNode inUseAllocationGauges
              (λ _ _ _, eq_refl) (λ _ _ _, eq_refl) g g' pool blocks
              Hall Hready Hsync Hupd Hpool) as (lb&lb2&t&Ht&Hg).
  rewrite Hold in Hg. exists (inUseAllocationsByNode t). split; [done|]. intros n.
  destruct (pool_counter E Hall c inUseAllocationsByNode (λ _ _, true)
              (λ _ _, eq_refl) (λ _ _ _, eq_refl) (λ _ _ _, eq_refl)
              pool blocks lb lb2 t n Ht) as [H1 H2].
  split; [|done]. rewrite H1. apply numberOf_ext. intros [b a]. cbn [fst snd].
  split; [by intros [_ ?]|done].
Qed.

(** X16: after a refresh of the metrics that took place, the borrowed
    gauge of a pool with blocks whose vector exists gives, under each node
    label, the number of allocations in the blocks of the pool that have
    that label and are borrowed: the allocation names a node, and its
    block has no affinity or is affine to another node. *)
Theorem borrowed_gauge_counts (E : Env) (c : IPAMController) (g g' : Gauges)
    (pool : string) (blocks : gset string) (old : gmap string Z) :
  visitsAll E → datastoreReady c = true → syncStatus c = InSync →
  blocksByPool (poolManager c) !! pool = Some blocks →
  borrowedAllocationGauges g !! pool = Some old →
  Metrics.updateMetrics E c g = Some g' →
  ∃ v, borrowedAllocationGauges g' !! pool = Some v
       ∧ ∀ n,
           countAt v n
           = numberOf (λ entry : AllocationBlock * allocation,
                         isBorrowed entry.1 entry.2 = true ∧ nodeLabel entry.2 = n)
               (poolEntries c blocks)
           ∧ (is_Some (v !! n)
              ↔ (pool ≠ unknownPoolLabel E
                 ∧ is_Some (kubernetesNodesByCalicoName c !! n))
                ∨ (0 < countAt v n)%Z).
Proof.
  intros Hall Hready Hsync Hpool Hold Hupd.
  destruct (updateMetrics_pool E c borrowedAllocationsByNode borrowedAllocationGauges
              (λ _ _ _, eq_refl) (λ _ _ _, eq_refl) g g' pool blocks
              Hall Hready Hsync Hupd Hpool) as (lb&lb2&t&Ht&Hg).
  rewrite Hold in Hg. exists (borrowedAllocationsByNode t). split; [done|]. intros n.
  exact (pool_counter E Hall c borrowedAllocationsByNode isBorrowed
           (λ _ _, eq_refl) (λ _ _ _, eq_refl) (λ _ _ _, eq_refl)
           pool blocks lb lb2 t n Ht).
Qed.

(** X17: after a refresh of the metrics that took place, the gauge of
    garbage-collection candidates of a pool with blocks whose vector
    exists gives, under each node label, the number of allocations in the
    blocks of the pool that have that label and are candidate or confirmed
    leaks. *)
Theorem gc_candidate_gauge_counts (E : Env) (c : IPAMController) (g g' : Gauges)
    (pool : string) (blocks : gset string) (old : gmap string Z) :
  visitsAll E → datastoreReady c = true → syncStatus c = InSync →
  blocksByPool (poolManager c) !! pool = Some blocks →
  gcCandidateGauges g !! pool = Some old →
  Metrics.updateMetrics E c g = Some g' →
  ∃ v, gcCandidateGauges g' !! pool = Some v
       ∧ ∀ n,
           countAt v n
           = numberOf (λ entry : AllocationBlock * allocation,
                         isGCCandidate entry.2 = true ∧ nodeLabel entry.2 = n)
               (poolEntries c blocks)
           ∧ (is_Some (v !! n)
              ↔ (pool ≠ unknownPoolLabel E
                 ∧ is_Some (kubernetesNodesByCalicoName c !! n))
                ∨ (0 < countAt v n)%Z).
Proof.
  intros Hall Hready Hsync Hpool Hold Hupd.
  destruct (updateMetrics_pool E c gcCandidatesByNode gcCandidateGauges
              (λ _ _ _, eq_refl) (λ _ _ _, eq_refl) g g' pool blocks
              Hall Hready Hsync Hupd Hpool) as (lb&lb2&t&Ht&Hg).
  rewrite Hold in Hg. exists (gcCandidatesByNode t). split; [done|]. intros n.
  exact (pool_counter E Hall c gcCandidatesByNode (λ _ a, isGCCandidate a)
           (λ _ _, eq_refl) (λ _ _ _, eq_refl) (λ _ _ _, eq_refl)
           pool blocks lb lb2 t n Ht).
Qed.

Section BlocksGauge.
Variable E : Env.
Variable c : IPAMController.

Lemma countBlocks_cached cidrs t t' :
  foldl (Metrics.countBlock E c) (Some t) cidrs = Some t' →
  ∀ cidr, cidr ∈ cidrs → is_Some (allBlocks c !! cidr).
Proof.
  revert t. induction cidrs as [|cidr0 cidrs IH]; intros t; cbn [foldl].
  - intros _ cidr Hin. by apply elem_of_nil in Hin.
  - destruct (Metrics.countBlock E c (Some t) cidr0) as [t1|] eqn:H1.
    2:{ by rewrite countBlock_None. }
    intros H cidr [->|Hin]%elem_of_cons; [|by eapply IH].
    unfold Metrics.countBlock in H1. by destruct (allBlocks c !! cidr0).
Qed.

Lemma countBlocks_total cidrs t :
  (∀ cidr, cidr ∈ cidrs → is_Some (allBlocks c !! cidr)) →
  is_Some (foldl (Metrics.countBlock E c) (Some t) cidrs).
Proof.
  revert t. induction cidrs as [|cidr0 cidrs IH]; intros t Hc; cbn [foldl]; [done|].
  destruct (Hc cidr0) as [b Hb]; [by left|]. unfold Metrics.countBlock at 2.
  rewrite Hb. apply IH. intros cidr Hin. apply Hc. by right.
Qed.

End BlocksGauge.

(** X18: after a refresh of the metrics that took place, every block of
    a pool is cached, and the blocks gauge of a pool whose vector exists
    gives, under each label, the number of blocks of the pool whose affine
    node it is; the label is that of no affinity for a block without
    affinity or affine to something other than a host. Labels without a
    block have no value: this gauge is not seeded with zeroes. *)
Theorem blocks_gauge_counts (E : Env) (c : IPAMController) (g g' : Gauges)
    (pool : string) (blocks : gset string) (old : gmap string Z) :
  visitsAll E → datastoreReady c = true → syncStatus c = InSync →
  blocksByPool (poolManager c) !! pool = Some blocks →
  blocksGauges g !! pool = Some old →
  Metrics.updateMetrics E c g = Some g' →
  (∀ blockCIDR, blockCIDR ∈ blocks → is_Some (allBlocks c !! blockCIDR))
  ∧ ∃ v, blocksGauges g' !! pool = Some v
         ∧ ∀ n,
             countAt v n
             = numberOf (λ entry : string * AllocationBlock,
                           Metrics.affineNodeOf entry.2 = n)
                 (cachedBlocks c blocks)
             ∧ (is_Some (v !! n) ↔ (0 < countAt v n)%Z).
Proof.
  intros Hall Hready Hsync Hpool Hold Hupd.
  destruct (updateMetrics_pool E c blocksByNodeOfPool blocksGauges
              (λ _ _ _, eq_refl) (λ _ _ _, eq_refl) g g' pool blocks
              Hall Hready Hsync Hupd Hpool) as (lb&lb2&t&Ht&Hg).
  rewrite Hold in Hg. unfold Metrics.countPool in Ht. split.
  { intros cidr Hin. apply (countBlocks_cached E c _ _ _ Ht).
    rewrite (Hall _). by apply elem_of_elements. }
  exists (blocksByNodeOfPool t). split; [done|]. intros n.
  apply (get_countBlocks E c blocksByNodeOfPool true (λ _ _, false)) in Ht; [|done..].
  pose proof (numberOf_poolLabels E Hall c true (λ _ _, false) blocks n) as Hlab.
  assert (numberOf (λ entry : AllocationBlock * allocation,
                      false = true ∧ nodeLabel entry.2 = n) (poolEntries c blocks)
          = 0%Z) as H0.
  { generalize (poolEntries c blocks). intros l. induction l as [|x l IH]; [done|].
    rewrite numberOf_cons, IH, bool_decide_false; [done|]. by intros [? _]. }
  cbn [fst snd] in Hlab. rewrite H0, Z.add_0_r in Hlab. rewrite <- Hlab, Ht.
  cbn [Metrics.startTally blocksByNodeOfPool].
  rewrite countAt_foldl_incr, foldl_incr_is_Some.
  assert (countAt ∅ n = 0%Z) as -> by done. rewrite Z.add_0_l. split; [done|].
  rewrite numberOf_pos. split.
  - intros [[? ?]|H]; [done|]. by exists n.
  - intros (x&Hx&->). by right.
Qed.

Section Legacy.
Variable E : Env.
Variable c : IPAMController.
Variable get : Tally → gmap string Z.
Variable carried : gmap string Z → gmap string Z → gmap string Z.
Variable blockCounts : bool.
Variable allocCounts : AllocationBlock → allocation → bool.
Hypothesis get_noteBlock : ∀ affineNode t,
  get (Metrics.noteBlock affineNode t)
  = if blockCounts then Metrics.incr (get t) affineNode else get t.
Hypothesis get_countAllocation : ∀ b t a,
  get (Metrics.countAllocation b (Metrics.affineNodeOf b) t a)
  = if allocCounts b a then Metrics.incr (get t) (nodeLabel a) else get t.
Hypothesis get_startTally : ∀ pool legacyBlocks legacyBorrowed,
  get (Metrics.startTally E c pool legacyBlocks legacyBorrowed)
  = carried legacyBlocks legacyBorrowed.
Hypothesis carried_get : ∀ t,
  carried (legacyBlocksByNode t) (legacyBorrowedIPsByNode t) = get t.

(** A counter that lives across the pools, at the end of the loop. *)
Lemma legacy_fold pools st st' :
  foldl (Metrics.updatePool E c) (Some st) pools = Some st' →
  carried st'.1.1 st'.1.2
  = foldl Metrics.incr (carried st.1.1 st.1.2)
      (loopLabels E c blockCounts allocCounts pools).
Proof.
  revert st. induction pools as [|p pools IH]; intros st; cbn [foldl].
  { by intros [= <-]. }
  destruct (Metrics.updatePool E c (Some st) p) as [st1|] eqn:H1.
  2:{ by rewrite updatePool_None. }
  intros H. rewrite (IH _ H). unfold loopLabels. cbn [mbind list_bind].
  rewrite foldl_app. f_equal. destruct st as [[lb lb2] g].
  unfold Metrics.updatePool in H1.
  destruct (blocksByPool (poolManager c) !! p) as [blocks|]; [|by simplify_eq].
  destruct (Metrics.countPool E c p blocks lb lb2) as [t|] eqn:Ht; [|done].
  simplify_eq. cbn [fst snd]. rewrite carried_get. unfold Metrics.countPool in Ht.
  apply (get_countBlocks E c get blockCounts allocCounts) in Ht; [|done..].
  by rewrite get_startTally in Ht.
Qed.

Lemma numberOf_loopLabels_entries n (m : gmap string (gset string))
    (pools : list (string * gset string)) :
  visitsAll E → m = blocksByPool (poolManager c) →
  Forall (λ pool, m !! pool.1 = Some pool.2) pools →
  numberOf (λ label, label = n) (loopLabels E c blockCounts allocCounts pools.*1)
  = ((if blockCounts
      then numberOf (λ entry : string * AllocationBlock,
                       Metrics.affineNodeOf entry.2 = n)
             (pool ← pools; cachedBlocks c pool.2)
      else 0)
     + numberOf (λ entry : AllocationBlock * allocation,
                   allocCounts entry.1 entry.2 = true ∧ nodeLabel entry.2 = n)
         (pool ← pools; poolEntries c pool.2))%Z.
Proof.
  intros Hall ->. induction 1 as [|[p blocks] pools Hp _ IH].
  { cbn. rewrite !numberOf_nil. by destruct blockCounts. }
  unfold loopLabels in *. cbn [fmap list_fmap mbind list_bind fst snd] in *.
  rewrite Hp, !numberOf_app, IH.
  rewrite (numberOf_poolLabels E Hall c blockCounts allocCounts).
  destruct blockCounts; lia.
Qed.

Lemma numberOf_loopLabels n :
  visitsAll E →
  numberOf (λ label, label = n)
    (loopLabels E c blockCounts allocCounts
       (rangeKeys E (blocksByPool (poolManager c))))
  = ((if blockCounts
      then numberOf (λ entry : string * AllocationBlock,
                       Metrics.affineNodeOf entry.2 = n) (allCachedBlocks c)
      else 0)
     + numberOf (λ entry : AllocationBlock * allocation,
                   allocCounts entry.1 entry.2 = true ∧ nodeLabel entry.2 = n)
         (allPoolEntries c))%Z.
Proof.
  intros Hall. unfold allCachedBlocks, allPoolEntries.
  rewrite <- (numberOf_loopLabels_entries n (blocksByPool (poolManager c))); [|done..|].
  - apply numberOf_perm. unfold loopLabels, rangeKeys. by rewrite (Hall _).
  - apply Forall_forall. intros [p blocks] Hin. by apply elem_of_map_to_list in Hin.
Qed.

(** The value of such a counter when the loop is over. *)
Lemma legacy_counter g lb lb2 g1 n :
  visitsAll E →
  foldl (Metrics.updatePool E c) (Some (∅, ∅, g))
    (rangeKeys E (blocksByPool (poolManager c))) = Some (lb, lb2, g1) →
  carried ∅ ∅ = ∅ →
  countAt (carried lb lb2) n
  = ((if blockCounts
      then numberOf (λ entry : string * AllocationBlock,
                       Metrics.affineNodeOf entry.2 = n) (allCachedBlocks c)
      else 0)
     + numberOf (λ entry : AllocationBlock * allocation,
                   allocCounts entry.1 entry.2 = true ∧ nodeLabel entry.2 = n)
         (allPoolEntries c))%Z.
Proof.
  intros Hall Hfold H0. apply legacy_fold in Hfold. cbn [fst snd] in Hfold.
  rewrite Hfold, H0, countAt_foldl_incr, numberOf_loopLabels; [|done].
  assert (countAt ∅ n = 0%Z) as -> by done. lia.
Qed.

End Legacy.

(** X19: after a refresh of the metrics that took place, the legacy
    gauges hold: for each node of the allocation state, the number of its
    allocations; under each label, the number of blocks, over all pools,
    whose affine node it is; and under each label, the number of borrowed
    allocations with that label, over all pools. *)
Theorem legacy_gauges_count (E : Env) (c : IPAMController) (g g' : Gauges) :
  visitsAll E → datastoreReady c = true → syncStatus c = InSync →
  Metrics.updateMetrics E c g = Some g' →
  legacyAllocationsGauge g'
  = (λ allocations : gmap string loc, Z.of_nat (size allocations))
      <$> allocationState.iter (allocationState c)
  ∧ ∀ n,
      countAt (legacyBlocksGauge g') n
      = numberOf (λ entry : string * AllocationBlock,
                    Metrics.affineNodeOf entry.2 = n) (allCachedBlocks c)
      ∧ countAt (legacyBorrowedGauge g') n
        = numberOf (λ entry : AllocationBlock * allocation,
                      isBorrowed entry.1 entry.2 = true ∧ nodeLabel entry.2 = n)
            (allPoolEntries c).
Proof.
  intros Hall Hready Hsync Hupd. unfold Metrics.updateMetrics in Hupd.
  rewrite Hready, Hsync, bool_decide_true in Hupd; [|done]. cbn [negb] in Hupd.
  destruct (foldl _ _ _) as [[[lb lb2] g1]|] eqn:Hfold; [|done]. simplify_eq.
  cbn [Metrics.updateLegacyGauges legacyAllocationsGauge legacyBlocksGauge
       legacyBorrowedGauge].
  rewrite !resetAndSet_all; [|done..]. rewrite !map_fmap_id. split; [done|].
  intros n. split.
  - rewrite (legacy_counter E c legacyBlocksByNode (λ lb _, lb) true (λ _ _, false)
               (λ _ _, eq_refl) (λ _ _ _, eq_refl) (λ _ _ _, eq_refl) (λ _, eq_refl)
               g lb lb2 g1 n Hall Hfold eq_refl).
    assert (numberOf (λ entry : AllocationBlock * allocation,
                        false = true ∧ nodeLabel entry.2 = n) (allPoolEntries c)
            = 0%Z) as ->; [|lia].
    generalize (allPoolEntries c). intros l. induction l as [|x l IH]; [done|].
    rewrite numberOf_cons, IH, bool_decide_false; [done|]. by intros [? _].
  - rewrite (legacy_counter E c legacyBorrowedIPsByNode (λ _ lb2, lb2) false isBorrowed
               (λ _ _, eq_refl) (λ _ _ _, eq_refl) (λ _ _ _, eq_refl) (λ _, eq_refl)
               g lb lb2 g1 n Hall Hfold eq_refl).
    lia.
Qed.

Section PoolBlocksCached.

Lemma cached_kept c c' :
  allBlocks c' = allBlocks c → poolManager c' = poolManager c →
  poolBlocksCached c → poolBlocksCached c'.
Proof. intros H1 H2 Hinv pool blocks cidr. rewrite H1, H2. apply Hinv. Qed.

Lemma cached_blocksKept c c' :
  blocksKept c c' → poolBlocksCached c → poolBlocksCached c'.
Proof. intros (H1&_&_&_&_&H2). by apply cached_kept. Qed.

Lemma cached_forget cidr c c' :
  poolBlocksCached c →
  allBlocks c' = delete cidr (allBlocks c) →
  poolManager c' = poolManager.onBlockDeleted cidr (poolManager c) →
  poolBlocksCached c'.
Proof.
  intros Hinv Ha Hp pool blocks x. rewrite Ha, Hp. cbn [poolManager.onBlockDeleted blocksByPool].
  rewrite lookup_fmap. destruct (blocksByPool (poolManager c) !! pool) as [s|] eqn:Hs; [|done].
  intros [= <-] [Hx Hne]%elem_of_difference.
  rewrite lookup_delete_ne; [by eapply Hinv|].
  intros ->. apply Hne. by apply elem_of_singleton.
Qed.

Lemma cached_update E cidr b c c' :
  poolBlocksCached c →
  allBlocks c' = <[cidr := b]> (allBlocks c) →
  poolManager c' = poolManager.onBlockUpdated E cidr (poolManager c) →
  poolBlocksCached c'.
Proof.
  intros Hinv Ha Hp pool blocks x. rewrite Ha, Hp.
  cbn [poolManager.onBlockUpdated poolManager.onBlockDeleted blocksByPool allPools].
  set (target := default (unknownPoolLabel E) _).
  assert (∀ p s, ((λ s : gset string, s ∖ {[cidr]}) <$> blocksByPool (poolManager c)) !! p
                 = Some s → x ∈ s → is_Some (<[cidr := b]> (allBlocks c) !! x)) as Hold.
  { intros p s. rewrite lookup_fmap.
    destruct (blocksByPool (poolManager c) !! p) as [s0|] eqn:Hs; [|done].
    intros [= <-] [Hx Hne]%elem_of_difference.
    rewrite lookup_insert_ne; [by eapply Hinv|].
    intros ->. apply Hne. by apply elem_of_singleton. }
  destruct (decide (pool = target)) as [->|Hne].
  - rewrite lookup_insert_eq. intros [= <-] [Hx|Hx]%elem_of_union.
    + apply elem_of_singleton in Hx as ->. by rewrite lookup_insert_eq.
    + destruct (_ !! target) as [s|] eqn:Hs; [|by apply elem_of_empty in Hx].
      by eapply Hold.
  - rewrite lookup_insert_ne; [|done]. apply Hold.
Qed.

Lemma updateAffinity_blocks cidr b c :
  allBlocks (updateAffinity cidr b c).1 = allBlocks c
  ∧ poolManager (updateAffinity cidr b c).1 = poolManager c.
Proof. unfold updateAffinity. by repeat case_match. Qed.

Lemma noteEmptiness_blocks cidr n num c :
  allBlocks (noteEmptiness cidr n num c) = allBlocks c
  ∧ poolManager (noteEmptiness cidr n num c) = poolManager c.
Proof. unfold noteEmptiness. by repeat case_match. Qed.

Lemma onBlockUpdated_cached E cidr b c c' :
  poolBlocksCached c → onBlockUpdated E cidr b c = Some c' → poolBlocksCached c'.
Proof.
  intros Hinv. unfold onBlockUpdated.
  pose proof (updateAffinity_blocks cidr b c) as [A1 A2].
  destruct (updateAffinity cidr b c) as [c0 n]. cbn [fst] in A1, A2.
  destruct (scanAllocations E cidr b 0 (Allocations b) (c0, 0%Z, ∅))
    as [[[c1 num] cur]|] eqn:Hs; [|done].
  pose proof (scanAllocations_blocksKept _ _ _ _ _ _ _ Hs) as (S1&_&_&_&_&S2).
  cbn [fst snd] in S1, S2.
  pose proof (noteEmptiness_blocks cidr n num c1) as [N1 N2].
  pose proof (releaseStaleAllocations_blocksKept E cidr cur (noteEmptiness cidr n num c1))
    as (R1&_&_&_&_&R2).
  intros [= <-]. apply (cached_update E cidr b c); [done|simpl..].
  - by rewrite R1, N1, S1, A1.
  - by rewrite R2, N2, S2, A2.
Qed.

Lemma onBlockDeleted_cached E cidr c :
  poolBlocksCached c → poolBlocksCached (onBlockDeleted E cidr c).
Proof.
  intros Hinv. unfold onBlockDeleted.
  set (c1 := foldl _ _ _).
  assert (blocksKept c c1) as (K1&_&_&_&_&K2).
  { subst c1. apply (foldl_invariant (λ c', blocksKept c c'));
      [apply blocksKept_refl|].
    intros c' id Hc'. eapply blocksKept_trans; [exact Hc'|].
    apply releaseDeleted_blocksKept. }
  apply (cached_forget cidr c); [done| |].
  - case_match; simpl; by rewrite K1.
  - case_match; simpl; by rewrite K2.
Qed.

Lemma handleUpdate_cached E upd c c' :
  poolBlocksCached c → handleUpdate E upd c = Some c' → poolBlocksCached c'.
Proof.
  intros Hinv.
  destruct upd as [s|[name v|name v|name v|cidr v|]]; simpl; intros H.
  - destruct s; simplify_eq; by eapply cached_kept.
  - simplify_eq. unfold handleNodeUpdate. repeat case_match; by eapply cached_kept.
  - simplify_eq. intros pool blocks x. destruct v as [p|]; simpl.
    + unfold onPoolUpdated. case_match; simpl; apply Hinv.
    + unfold onPoolDeleted. simpl. intros [_ Hp]%lookup_delete_Some. by eapply Hinv.
  - simplify_eq. unfold handleClusterInformationUpdate.
    repeat case_match; by eapply cached_kept.
  - destruct v; simpl in H; [by eapply onBlockUpdated_cached|].
    simplify_eq. by apply onBlockDeleted_cached.
  - by simplify_eq.
Qed.

Lemma processUpdates_cached E upds c c' :
  poolBlocksCached c → processUpdates E upds c = Some c' → poolBlocksCached c'.
Proof.
  unfold processUpdates. revert c.
  induction upds as [|upd upds IH]; intros c Hinv H; simpl in H.
  { by simplify_eq. }
  destruct (handleUpdate E upd c) as [c1|] eqn:H1.
  - eapply IH; [|exact H]. by eapply handleUpdate_cached.
  - exfalso. clear -H. induction upds; simpl in H; [done|auto].
Qed.

Lemma releaseUnusedBlock_cached E c cidr :
  poolBlocksCached c → poolBlocksCached (releaseUnusedBlock E c cidr).
Proof.
  intros Hinv. unfold releaseUnusedBlock.
  destruct (emptyBlocks c !! cidr) as [node|]; [|done].
  case_bool_decide; [done|].
  destruct (nodeIsBeingMigrated E c node) as [[|]|];
    [by eapply cached_kept| |by eapply cached_kept].
  destruct (blockReleaseTracker.markEmpty _ _ _) as [t elapsed].
  destruct (negb elapsed); [by eapply cached_kept|].
  destruct (allBlocks _ !! cidr) as [b|] eqn:Hb; [|by eapply cached_kept].
  destruct (ReleaseBlockAffinity E b); [by eapply cached_kept|].
  by apply (cached_forget cidr c).
Qed.

Lemma syncIPAM_cached E c :
  poolBlocksCached c → poolBlocksCached (syncIPAM E c).1.
Proof.
  intros Hinv. unfold syncIPAM. destruct (negb (datastoreReady c)); [done|].
  destruct (negb _); [done|].
  pose proof (checkAllocations_error E c) as Hnil.
  pose proof (checkAllocations_keeps E c) as [_ H1].
  destruct (checkAllocations E c) as [[c1 nodes] err0]. cbn [fst snd] in *. subst err0.
  apply cached_blocksKept in H1; [|done].
  pose proof (garbageCollectKnownLeaks_keeps E c1) as [_ H2].
  destruct (garbageCollectKnownLeaks E c1) as [c2 x2]. cbn [fst] in *.
  apply cached_blocksKept in H2; [|done].
  destruct x2 as [[e|]|]; [done| |done].
  assert (poolBlocksCached (releaseUnusedBlocks E c2).1) as H3.
  { unfold releaseUnusedBlocks. cbn [fst].
    apply (foldl_invariant poolBlocksCached); [done|].
    intros c' cidr Hc'. by apply releaseUnusedBlock_cached. }
  destruct (releaseUnusedBlocks E c2) as [c3 [e3|]]; cbn [fst] in *; [done|].
  pose proof (releaseNodes_keeps E nodes c3) as [_ H4].
  destruct (releaseNodes E nodes c3) as [c4 [e4|]]; cbn [fst] in *.
  { by apply (cached_blocksKept c3). }
  apply (cached_blocksKept c3) in H4; [|done].
  case_bool_decide; cbn [fst]; by eapply cached_kept.
Qed.

Lemma acceptScheduleRequest_cached E w c c' :
  poolBlocksCached c → acceptScheduleRequest E w c = Some c' → poolBlocksCached c'.
Proof.
  intros Hinv. destruct w as [more|pods|upds| | | |]; simpl; intros H.
  - simplify_eq. unfold fullScanNextSync. case_match; by eapply cached_kept.
  - simplify_eq. by eapply cached_kept.
  - destruct (processUpdates E upds c) as [c1|] eqn:H1; [|done]. simplify_eq.
    eapply cached_kept; [..|by eapply processUpdates_cached]; done.
  - assert (poolBlocksCached (fullScanNextSync c)) as H0.
    { unfold fullScanNextSync. destruct (fullSyncRequired c); by eapply cached_kept. }
    apply (syncIPAM_cached E) in H0.
    destruct (syncIPAM E (fullScanNextSync c)) as [c1 [r|]]; [|done]. by simplify_eq.
  - assert (poolBlocksCached (set_syncChan false c)) as H0 by (by eapply cached_kept).
    apply (syncIPAM_cached E) in H0.
    destruct (syncIPAM E (set_syncChan false c)) as [c1 [[e|]|]]; [| |done];
      simplify_eq; by eapply cached_kept.
  - by simplify_eq.
  - by simplify_eq.
Qed.

Lemma reachable_poolBlocksCached c : reachable c → poolBlocksCached c.
Proof.
  induction 1 as [E grace|E w c c' Hc IH Hstep].
  - intros pool blocks cidr Hp. simpl in Hp. by rewrite lookup_empty in Hp.
  - by eapply acceptScheduleRequest_cached.
Qed.

Lemma countPool_total E c pool blocks legacyBlocks legacyBorrowed :
  visitsAll E → poolBlocksCached c →
  blocksByPool (poolManager c) !! pool = Some blocks →
  is_Some (Metrics.countPool E c pool blocks legacyBlocks legacyBorrowed).
Proof.
  intros Hall Hinv Hpool. apply countBlocks_total. intros cidr Hin.
  rewrite (Hall _) in Hin. apply elem_of_elements in Hin. by eapply Hinv.
Qed.

Lemma updatePools_total E c pools st :
  visitsAll E → poolBlocksCached c →
  is_Some (foldl (Metrics.updatePool E c) (Some st) pools).
Proof.
  intros Hall Hinv. revert st.
  induction pools as [|p pools IH]; intros st; cbn [foldl]; [done|].
  destruct st as [[lb lb2] g]. unfold Metrics.updatePool at 2.
  destruct (blocksByPool (poolManager c) !! p) as [blocks|] eqn:Hp; [|apply IH].
  destruct (countPool_total E c p blocks lb lb2 Hall Hinv Hp) as [t ->]. apply IH.
Qed.

End PoolBlocksCached.

(** X20: the refresh of the metrics does not panic in a state the
    controller can be in: every block filed under a pool is then in the
    cache of blocks, so the type assertion on the cached block holds. *)
Theorem metrics_refresh_returns (E : Env) (c : IPAMController) (g : Gauges) :
  visitsAll E → reachable c → is_Some (Metrics.updateMetrics E c g).
Proof.
  intros Hall Hc. apply reachable_poolBlocksCached in Hc.
  unfold Metrics.updateMetrics.
  destruct (datastoreReady c); cbn [negb]; [|done].
  destruct (bool_decide (syncStatus c = InSync)); cbn [negb]; [|done].
  destruct (foldl _ _ _) as [[[lb lb2] g1]|] eqn:Hfold; [done|].
  pose proof (updatePools_total E c (rangeKeys E (blocksByPool (poolManager c)))
                (∅, ∅, g) Hall Hc) as Htotal.
  destruct Htotal as [st Hst]. unfold Metrics.PoolLoop in Hst, Hfold. congruence.
Qed.

Section VectorsKept.
Variable E : Env.
Variable c : IPAMController.
Variable gauge : Gauges → gmap string (gmap string Z).
Hypothesis gauge_updatePoolGauges : ∀ g pool t, ∃ nodeValues,
  gauge (Metrics.updatePoolGauges E g pool t)
  = Metrics.updatePoolGaugeWithNodeValues E (gauge g) pool nodeValues.
Hypothesis gauge_updateLegacyGauges : ∀ legacyBlocks legacyBorrowed g,
  gauge (Metrics.updateLegacyGauges E c legacyBlocks legacyBorrowed g) = gauge g.

Lemma updatePoolGauge_is_Some G pool nodeValues other :
  is_Some (Metrics.updatePoolGaugeWithNodeValues E G pool nodeValues !! other)
  ↔ is_Some (G !! other).
Proof.
  destruct (decide (other = pool)) as [->|Hne].
  - rewrite updatePoolGauge_eq. by rewrite fmap_is_Some.
  - by rewrite updatePoolGauge_ne.
Qed.

Lemma updatePools_keeps pools st st' pool :
  foldl (Metrics.updatePool E c) (Some st) pools = Some st' →
  (is_Some (gauge st'.2 !! pool) ↔ is_Some (gauge st.2 !! pool))
  ∧ (blocksByPool (poolManager c) !! pool = None →
     gauge st'.2 !! pool = gauge st.2 !! pool).
Proof.
  revert st. induction pools as [|p pools IH]; intros st; cbn [foldl].
  { by intros [= <-]. }
  destruct (Metrics.updatePool E c (Some st) p) as [st1|] eqn:H1.
  2:{ by rewrite updatePool_None. }
  intros H. destruct (IH _ H) as [IH1 IH2]. destruct st as [[lb lb2] g].
  unfold Metrics.updatePool in H1.
  destruct (blocksByPool (poolManager c) !! p) as [blocks|] eqn:Hp; [|by simplify_eq].
  destruct (Metrics.countPool E c p blocks lb lb2) as [t|]; [|done].
  simplify_eq. cbn [snd] in *. destruct (gauge_updatePoolGauges g p t) as [nv Hnv].
  rewrite Hnv in IH1, IH2. split.
  - by rewrite IH1, updatePoolGauge_is_Some.
  - intros Hnone. rewrite (IH2 Hnone). apply updatePoolGauge_ne. congruence.
Qed.

Lemma updateMetrics_keeps g g' pool :
  Metrics.updateMetrics E c g = Some g' →
  (is_Some (gauge g !! pool) ↔ is_Some (gauge g' !! pool))
  ∧ (blocksByPool (poolManager c) !! pool = None → gauge g' !! pool = gauge g !! pool).
Proof.
  unfold Metrics.updateMetrics.
  destruct (negb (datastoreReady c)); [by intros [= <-]|].
  destruct (negb (bool_decide _)); [by intros [= <-]|].
  destruct (foldl _ _ _) as [[[lb lb2] g1]|] eqn:Hfold; [|done]. intros [= <-].
  apply (updatePools_keeps _ _ _ pool) in Hfold as [H1 H2]. cbn [snd] in *.
  rewrite gauge_updateLegacyGauges. split; [by rewrite H1|done].
Qed.

End VectorsKept.

(** X21: a refresh of the metrics creates and removes no vector: each of
    the four vectors of a pool exists after it if and only if it existed
    before, so nothing is published for a pool whose vectors were not
    created. The vectors of a pool that has no set of blocks keep their
    values. With the datastore locked, or before the in-sync status, the
    refresh changes nothing at all. *)
Theorem metrics_refresh_keeps_vectors (E : Env) (c : IPAMController)
    (g g' : Gauges) (pool : string) :
  Metrics.updateMetrics E c g = Some g' →
  Forall2 (λ before after, is_Some before ↔ is_Some after)
    (poolVectors g pool) (poolVectors g' pool)
  ∧ (blocksByPool (poolManager c) !! pool = None →
     poolVectors g' pool = poolVectors g pool)
  ∧ (datastoreReady c = false ∨ syncStatus c ≠ InSync → g' = g).
Proof.
  intros Hupd.
  destruct (updateMetrics_keeps E c inUseAllocationGauges
              (λ _ _ _, ex_intro _ _ eq_refl) (λ _ _ _, eq_refl) g g' pool Hupd)
    as [A1 A2].
  destruct (updateMetrics_keeps E c borrowedAllocationGauges
              (λ _ _ _, ex_intro _ _ eq_refl) (λ _ _ _, eq_refl) g g' pool Hupd)
    as [B1 B2].
  destruct (updateMetrics_keeps E c blocksGauges
              (λ _ _ _, ex_intro _ _ eq_refl) (λ _ _ _, eq_refl) g g' pool Hupd)
    as [C1 C2].
  destruct (updateMetrics_keeps E c gcCandidateGauges
              (λ _ _ _, ex_intro _ _ eq_refl) (λ _ _ _, eq_refl) g g' pool Hupd)
    as [D1 D2].
  split.
  { unfold poolVectors. do 4 (constructor; [done|]). constructor. }
  split.
  - intros Hnone. unfold poolVectors. by rewrite A2, B2, C2, D2.
  - unfold Metrics.updateMetrics in Hupd. intros [Hready|Hsync].
    + rewrite Hready in Hupd. cbn [negb] in Hupd. by simplify_eq.
    + rewrite (bool_decide_false _ Hsync) in Hupd. cbn [negb] in Hupd.
      destruct (negb (datastoreReady c)); by simplify_eq.
Qed.

(** ** The conntrack timeouts *)

Section Timeouts.
Import timeouts.

Lemma FieldByName_Name f : FieldByName (Name f) = Some f.
Proof. by destruct f. Qed.

Lemma FieldByName_Some key f : FieldByName key = Some f → Name f = key.
Proof.
  unfold FieldByName. intros Hh. apply head_Some_elem_of in Hh.
  by apply list_elem_of_filter in Hh as [? _].
Qed.

Lemma Name_inj f f' : Name f = Name f' → f = f'.
Proof.
  intros Hn. pose proof (FieldByName_Name f) as H1. rewrite Hn in H1.
  rewrite FieldByName_Name in H1. congruence.
Qed.

Lemma Int_SetInt_eq f d t : Int f (SetInt f d t) = d.
Proof. by destruct f. Qed.

Lemma Int_SetInt_ne f f' d t : f ≠ f' → Int f (SetInt f' d t) = Int f t.
Proof. by destruct f, f'. Qed.

Lemma Timeouts_eq t t' : (∀ f, Int f t = Int f t') → t = t'.
Proof.
  intros Hf. destruct t, t'.
  pose proof (Hf FieldCreationGracePeriod). pose proof (Hf FieldTCPSynSent).
  pose proof (Hf FieldTCPEstablished). pose proof (Hf FieldTCPFinsSeen).
  pose proof (Hf FieldTCPResetSeen). pose proof (Hf FieldUDPTimeout).
  pose proof (Hf FieldGenericTimeout). pose proof (Hf FieldICMPTimeout).
  simpl in *. congruence.
Qed.

Lemma sysctl_nonempty key sysctl : linuxSysctls !! key = Some sysctl → sysctl ≠ "".
Proof.
  intros Hl.
  assert (map_Forall (λ _ value, value ≠ "") linuxSysctls) as Hall.
  { apply (bool_decide_unpack _). vm_compute. exact I. }
  by apply Hall in Hl.
Qed.

Variable H : Host.

Lemma setTimeout_other config t key f :
  Name f ≠ key → Int f (setTimeout H config t key) = Int f t.
Proof.
  intros Hne. unfold setTimeout.
  destruct (config !! key) as [value|]; [|done].
  destruct (FieldByName key) as [f'|] eqn:Hf'; [|done].
  apply FieldByName_Some in Hf'.
  assert (f ≠ f') as Hff by congruence.
  repeat case_match; try done; by rewrite Int_SetInt_ne.
Qed.

Lemma setTimeout_same config t f value :
  config !! Name f = Some value → Int f t = Int f DefaultTimeouts →
  Int f (setTimeout H config t (Name f)) = timeoutFor H f value.
Proof.
  intros Hv Ht. unfold setTimeout, timeoutFor. rewrite Hv, FieldByName_Name.
  destruct (ParseDuration H value) as [d|]; [by rewrite Int_SetInt_eq|].
  case_bool_decide; [|done].
  destruct (linuxSysctls !! Name f) as [sysctl|] eqn:Hs; cbn [default from_option id].
  - rewrite bool_decide_false; [|by eapply sysctl_nonempty]. cbn [negb].
    destruct (readSecondsFromFile H sysctl); [by rewrite Int_SetInt_eq|done].
  - by rewrite bool_decide_true.
Qed.

Lemma setTimeout_others config keys t f :
  Name f ∉ keys → Int f (foldl (setTimeout H config) t keys) = Int f t.
Proof.
  revert t. induction keys as [|k keys IH]; intros t Hkey; [done|]. cbn [foldl].
  rewrite IH.
  - apply setTimeout_other. intros Heq. apply Hkey. rewrite Heq. by left.
  - intros Hin. apply Hkey. by right.
Qed.

Lemma GetTimeouts_fold config keys t f :
  NoDup keys → Int f t = Int f DefaultTimeouts →
  Int f (foldl (setTimeout H config) t keys)
  = match (if decide (Name f ∈ keys) then config !! Name f else None) with
    | Some value => timeoutFor H f value
    | None => Int f DefaultTimeouts
    end.
Proof.
  intros Hnd. revert t. induction Hnd as [|key keys Hkey Hnd IH]; intros t Ht; cbn [foldl].
  { rewrite decide_False; [done|apply not_elem_of_nil]. }
  destruct (decide (Name f = key)) as [<-|Hne].
  - rewrite decide_True; [|by left].
    rewrite setTimeout_others; [|done]. destruct (config !! Name f) as [value|] eqn:Hv.
    + by apply setTimeout_same.
    + unfold setTimeout. by rewrite Hv.
  - rewrite IH; [|by rewrite setTimeout_other].
    destruct (decide (Name f ∈ keys)) as [Hin|Hin].
    + rewrite decide_True; [done|by right].
    + rewrite decide_False; [done|]. by intros [?|?]%elem_of_cons.
Qed.

Lemma GetTimeouts_Int E config f :
  visitsAll E →
  Int f (GetTimeouts E H config)
  = match config !! Name f with
    | Some value => timeoutFor H f value
    | None => Int f DefaultTimeouts
    end.
Proof.
  intros Hall. unfold GetTimeouts.
  rewrite GetTimeouts_fold; [|by apply rangeKeys_NoDup|done].
  destruct (decide (Name f ∈ rangeKeys E config)) as [Hin|Hin]; [done|].
  destruct (config !! Name f) eqn:Hv; [|done].
  exfalso. apply Hin. apply rangeKeys_elem; [done|by eexists].
Qed.

End Timeouts.

(** X22: [GetTimeouts] gives each field of the result the value that
    the entry of the configuration under the name of the field asks for,
    and the default when there is no such entry: the duration the value
    parses to; else, for the value [Auto] and a field with a sysctl whose
    file gives a number of seconds, that number as an [int64] times a
    second; else the default. The order in which the configuration is
    ranged over makes no difference. *)
Theorem timeouts_by_field (E : Env) (H : timeouts.Host)
    (config : gmap string string) :
  visitsAll E →
  (∀ f, timeouts.Int f (timeouts.GetTimeouts E H config)
        = match config !! timeouts.Name f with
          | Some value => timeoutFor H f value
          | None => timeouts.Int f timeouts.DefaultTimeouts
          end)
  ∧ ∀ E', visitsAll E' →
          timeouts.GetTimeouts E' H config = timeouts.GetTimeouts E H config.
Proof.
  intros Hall. split.
  - intros f. by apply GetTimeouts_Int.
  - intros E' Hall'. apply Timeouts_eq. intros f.
    by rewrite !GetTimeouts_Int.
Qed.

(** X23: [GetTimeouts] ignores the entries of the configuration whose
    key is not the name of a field: with or without such an entry the
    result is the same, and a configuration of such entries only gives the
    defaults. *)
Theorem timeouts_ignore_unknown_keys (E : Env) (H : timeouts.Host)
    (config : gmap string string) (key value : string) :
  visitsAll E → timeouts.FieldByName key = None →
  timeouts.GetTimeouts E H (<[key := value]> config)
  = timeouts.GetTimeouts E H config
  ∧ ((∀ k, is_Some (config !! k) → timeouts.FieldByName k = None) →
     timeouts.GetTimeouts E H config = timeouts.DefaultTimeouts).
Proof.
  intros Hall Hkey. split.
  - apply Timeouts_eq. intros f. rewrite !GetTimeouts_Int; [|done..].
    rewrite lookup_insert_ne; [done|]. intros Heq. rewrite Heq in Hkey.
    by rewrite FieldByName_Name in Hkey.
  - intros Hnone. apply Timeouts_eq. intros f. rewrite GetTimeouts_Int; [|done].
    destruct (config !! timeouts.Name f) as [v|] eqn:Hv; [|done].
    specialize (Hnone (timeouts.Name f)). rewrite FieldByName_Name in Hnone.
    by discriminate Hnone.
Qed.

(** X24: when [Auto] does not parse as a duration, a field configured
    as [Auto] keeps its default if it has no sysctl (the creation grace
    period, the TCP reset-seen and the UDP timeouts) or if the file of its
    sysctl gives no number; if the file gives a number of seconds that
    fits an [int64] of nanoseconds, the field is that many seconds. *)
Theorem timeouts_auto (E : Env) (H : timeouts.Host)
    (config : gmap string string) (f : timeouts.Field) :
  visitsAll E → config !! timeouts.Name f = Some "Auto" →
  timeouts.ParseDuration H "Auto" = None →
  (timeouts.linuxSysctls !! timeouts.Name f = None →
   f ∈ [timeouts.FieldCreationGracePeriod; timeouts.FieldTCPResetSeen;
        timeouts.FieldUDPTimeout]
   ∧ timeouts.Int f (timeouts.GetTimeouts E H config)
     = timeouts.Int f timeouts.DefaultTimeouts)
  ∧ (∀ sysctl, timeouts.linuxSysctls !! timeouts.Name f = Some sysctl →
       timeouts.readSecondsFromFile H sysctl = None →
       timeouts.Int f (timeouts.GetTimeouts E H config)
       = timeouts.Int f timeouts.DefaultTimeouts)
  ∧ (∀ sysctl seconds, timeouts.linuxSysctls !! timeouts.Name f = Some sysctl →
       timeouts.readSecondsFromFile H sysctl = Some seconds →
       (- 2 ^ 63 ≤ seconds * timeouts.Second < 2 ^ 63)%Z →
       timeouts.Int f (timeouts.GetTimeouts E H config)
       = (seconds * timeouts.Second)%Z).
Proof.
  intros Hall Hauto Hparse. rewrite GetTimeouts_Int; [|done]. rewrite Hauto.
  unfold timeoutFor. rewrite Hparse, bool_decide_true; [|done].
  split; [|split].
  - intros Hs. rewrite Hs. split; [|done].
    destruct f; try (by vm_compute in Hs); repeat (first [by left | right]).
  - intros sysctl Hs Hread. by rewrite Hs, Hread.
  - intros sysctl seconds Hs Hread Hfit. rewrite Hs, Hread.
    unfold timeouts.wrap64. rewrite Z.mod_small; lia.
Qed.

(** ** The affinities a pass of [releaseUnusedBlocks] leaves *)

Section LastAffinity.
Variable E : Env.







End LastAffinity.

(** ** The index of confirmed leaks in the states of a run *)

(** The garbage collection runs in states whose confirmed leaks are
    indexed under their own ids: the states of a run, and those after the
    scan of a sync started in one. *)
Lemma reachable_leaksIndexed (E : Env) (c : IPAMController) :
  reachable c → leaksIndexed c ∧ leaksIndexed (checkAllocations E c).1.1.
Proof.
  intros Hc. apply reachable_cachesIndexed in Hc.
  pose proof (checkAllocations_indexed E c Hc) as (_ & _ & _ & H1).
  destruct Hc as (_ & _ & _ & H0). by split.
Qed.

(** ** The further properties at work *)

Lemma visitsAll_E0 : visitsAll E0.
Proof. by intros keys. Qed.

Lemma reachable_synced : reachable synced.
Proof.
  apply (reachable_turn E0
           (SyncerUpdates [KVUpdate (KVBlock cidrA (Some blockA)); StatusUpdate InSync])
           (NewIPAMController E0 None)); [apply reachable_new|].
  vm_compute. reflexivity.
Qed.

Lemma reachable_twoBlocks : reachable twoBlocks.
Proof.
  apply (reachable_turn E0
           (SyncerUpdates [KVUpdate (KVBlock cidrA (Some blockA));
                           KVUpdate (KVBlock cidrE (Some blockE));
                           StatusUpdate InSync])
           (NewIPAMController E0 None)); [apply reachable_new|].
  vm_compute. reflexivity.
Qed.

(** X1 at work: node [n1] is cached under its Kubernetes name [k1]. *)
Lemma node_update_then_lookup_witness :
  kubernetesNodeForCalico E0
    (handleNodeUpdate E0 "n1" (Some nodeK1) (NewIPAMController E0 None)) "n1"
  = Val "k1".
Proof.
  apply (proj1 (node_update_then_lookup E0 "n1" nodeK1 (NewIPAMController E0 None))).
  - reflexivity.
  - discriminate.
Defined.

(** X2 at work: the deletion of a Kubernetes node. *)
Lemma notifications_only_kick_witness :
  let c := NewIPAMController E0 None in
  let c' := kick (fullScanNextSync c) in
  callsDuring c c' = []
  ∧ syncChan c' = true
  ∧ retryController c' = retryController c
  ∧ fullSyncRequired c' = true.
Proof.
  intros c c'. exact (notifications_only_kick E0 (NodeDeletion 0) c c' I eq_refl).
Defined.

(** X3 at work: the cluster information is deleted while [synced] has two
    leaks to collect. *)
Lemma datastore_lock_witness :
  let c := handleClusterInformationUpdate None synced in
  datastoreReady c = false ∧ syncIPAM E0 c = (c, Return None).
Proof.
  intros c.
  destruct (datastore_lock E0 None synced) as [H1 _].
  destruct (datastore_lock E0 None c) as [_ H2].
  split; [exact H1|]. exact (proj1 (H2 H1)).
Defined.

(** X6 at work: a full scan is requested and the garbage collection of
    the sync times out; the request is used up all the same. *)
Lemma full_scan_request_used_up_witness :
  let c := fullScanNextSync synced in
  fullSyncRequired c = true
  ∧ (syncIPAM E_timeout c).2 = Return (Some (ErrOther "timeout"))
  ∧ fullSyncRequired (syncIPAM E_timeout c).1 = false.
Proof.
  intros c. split; [vm_compute; reflexivity|]. split; [vm_compute; reflexivity|].
  apply (full_scan_request_used_up E_timeout c); vm_compute; reflexivity.
Defined.

(** X7 at work: node [n1] of [synced] has no Kubernetes node. *)
Lemma released_nodes_are_gone_witness :
  IPAM_ReleaseHostAffinities "n1" ∈ callsDuring synced (syncIPAM E0 synced).1
  ∧ ∃ knode, kubernetesNodeForCalico E0 synced "n1" = Val knode
             ∧ (knode = ""
                ∨ ∃ err, nodeLister_Get E0 knode = Fail err ∧ IsNotFound err = true).
Proof.
  assert (IPAM_ReleaseHostAffinities "n1"
            ∈ callsDuring synced (syncIPAM E0 synced).1) as Hcall.
  { vm_compute. repeat constructor. }
  split; [exact Hcall|]. exact (released_nodes_are_gone E0 synced "n1" Hcall).
Defined.

(** X8 at work: the empty block of [twoBlocks]. *)
Lemma empty_blocks_are_empty_witness :
  reachable twoBlocks
  ∧ emptyBlocks twoBlocks !! cidrE = Some "n1"
  ∧ emptyBlocksSound twoBlocks.
Proof.
  split; [exact reachable_twoBlocks|]. split; [vm_compute; reflexivity|].
  exact (empty_blocks_are_empty twoBlocks reachable_twoBlocks).
Defined.

(** X9 at work: the sync of [twoBlocks] releases the affinity of its
    empty block. *)
Lemma only_empty_blocks_lose_affinity_witness :
  IPAM_ReleaseBlockAffinity cidrE blockE
    ∈ callsDuring twoBlocks (syncIPAM E0 twoBlocks).1
  ∧ hasNoAllocation blockE.
Proof.
  assert (IPAM_ReleaseBlockAffinity cidrE blockE
            ∈ callsDuring twoBlocks (syncIPAM E0 twoBlocks).1) as Hcall.
  { vm_compute. repeat constructor. }
  split; [exact Hcall|].
  exact (proj1 (only_empty_blocks_lose_affinity E0 twoBlocks cidrE blockE
                  reachable_twoBlocks Hcall)).
Defined.

(** X10 at work. *)
Lemma caches_are_indexed_witness : reachable synced ∧ cachesIndexed synced.
Proof.
  split; [exact reachable_synced|].
  exact (caches_are_indexed synced reachable_synced).
Defined.

(** X11 at work: block [blockA] received twice by a new controller. *)
Lemma block_update_twice_witness :
  ∃ c1, onBlockUpdated E0 cidrA blockA (NewIPAMController E0 None) = Some c1
        ∧ onBlockUpdated E0 cidrA blockA c1 = Some c1.
Proof.
  destruct (onBlockUpdated E0 cidrA blockA (NewIPAMController E0 None))
    as [c1|] eqn:H1; [|vm_compute in H1; discriminate].
  exists c1. split; [reflexivity|].
  exact (block_update_twice E0 cidrA blockA _ c1 visitsAll_E0
           (reachable_cachesIndexed _ (reachable_new E0 None)) H1).
Defined.

(** X12 at work: block [blockA] of [synced] is deleted. *)
Lemma block_delete_forgets_witness :
  let c' := onBlockDeleted E0 cidrA synced in
  let a := {| ip := "10.0.0.1"; handle := "h1"; attrs := attrsOf "p1";
              sequenceNumber := 0; block := cidrA; knode := ""; leak := Valid |} in
  heap synced !! 0 = Some a
  ∧ gone c' (Alloc.node a) (Alloc.id a)
  ∧ Alloc.node a ∈ dirtyNodes (allocationState c')
  ∧ handleTracker c' = handleTracker synced.
Proof.
  intros c' a.
  destruct (block_delete_forgets E0 cidrA synced) as (_ & (_ & H2 & _) & H3).
  assert (heap synced !! 0 = Some a) as Ha by (vm_compute; reflexivity).
  assert (default ∅ (allocationsByBlock synced !! cidrA) !! Alloc.id a = Some 0)
    as Hid by (vm_compute; reflexivity).
  assert (Alloc.node a ≠ "") as Hnode by (vm_compute; discriminate).
  destruct (H3 visitsAll_E0 (Alloc.id a) 0 a Hid Ha Hnode) as [G1 G2].
  exact (conj Ha (conj G1 (conj G2 H2))).
Defined.

(** X14 at work: the scan of node [n1] of [synced], whose two pods are
    gone. *)
Lemma released_node_has_only_leaks_witness :
  let nodesToCheck := allocationState.iterDirty (allocationState synced) in
  let allocations := default ∅ (byNode (allocationState synced) !! "n1") in
  nodesToCheck !! "n1" = Some allocations
  ∧ size allocations = 2
  ∧ (checkNode E0 nodesToCheck (synced, []) "n1").2 = ["n1"]
  ∧ ∀ id l, allocations !! id = Some l →
      queuedOrReserved E0 (checkNode E0 nodesToCheck (synced, []) "n1").1 l.
Proof.
  intros nodesToCheck allocations.
  assert (nodesToCheck !! "n1" = Some allocations) as Hn by (vm_compute; reflexivity).
  assert ((checkNode E0 nodesToCheck (synced, []) "n1").2 = ["n1"]) as Hrel
    by (vm_compute; reflexivity).
  assert (∀ id l, allocations !! id = Some l → is_Some (heap synced !! l)) as Halive.
  { apply (bool_decide_unpack (map_Forall (λ _ l, is_Some (heap synced !! l)) _)).
    vm_compute. exact I. }
  split; [exact Hn|]. split; [vm_compute; reflexivity|]. split; [exact Hrel|].
  exact (released_node_has_only_leaks E0 nodesToCheck synced [] "n1" allocations
           visitsAll_E0 Hn Halive Hrel).
Defined.

(** X15 at work: the in-use gauge of the unknown pool after a refresh in
    [twoBlocks]. *)
Lemma in_use_gauge_counts_witness :
  ∃ v, inUseAllocationGauges gaugesRefreshed !! unknownPoolLabel E0 = Some v
       ∧ ∀ n,
           countAt v n
           = numberOf (λ entry : AllocationBlock * allocation, nodeLabel entry.2 = n)
               (poolEntries twoBlocks {[cidrA; cidrE]})
           ∧ (is_Some (v !! n)
              ↔ (unknownPoolLabel E0 ≠ unknownPoolLabel E0
                 ∧ is_Some (kubernetesNodesByCalicoName twoBlocks !! n))
                ∨ (0 < countAt v n)%Z).
Proof.
  apply (in_use_gauge_counts E0 twoBlocks gaugesAtStart gaugesRefreshed
           (unknownPoolLabel E0) {[cidrA; cidrE]} ∅).
  - apply visitsAll_E0.
  - vm_compute; reflexivity.
  - vm_compute; reflexivity.
  - vm_compute; reflexivity.
  - vm_compute; reflexivity.
  - vm_compute; reflexivity.
Defined.

(** X16 at work: the borrowed gauge of the unknown pool after a refresh
    in [twoBlocks]. *)
Lemma borrowed_gauge_counts_witness :
  ∃ v, borrowedAllocationGauges gaugesRefreshed !! unknownPoolLabel E0 = Some v
       ∧ ∀ n,
           countAt v n
           = numberOf (λ entry : AllocationBlock * allocation,
                         isBorrowed entry.1 entry.2 = true ∧ nodeLabel entry.2 = n)
               (poolEntries twoBlocks {[cidrA; cidrE]})
           ∧ (is_Some (v !! n)
              ↔ (unknownPoolLabel E0 ≠ unknownPoolLabel E0
                 ∧ is_Some (kubernetesNodesByCalicoName twoBlocks !! n))
                ∨ (0 < countAt v n)%Z).
Proof.
  apply (borrowed_gauge_counts E0 twoBlocks gaugesAtStart gaugesRefreshed
           (unknownPoolLabel E0) {[cidrA; cidrE]} ∅).
  - apply visitsAll_E0.
  - vm_compute; reflexivity.
  - vm_compute; reflexivity.
  - vm_compute; reflexivity.
  - vm_compute; reflexivity.
  - vm_compute; reflexivity.
Defined.

(** X17 at work: the gauge of candidates of the unknown pool after a
    refresh in [twoBlocks]. *)
Lemma gc_candidate_gauge_counts_witness :
  ∃ v, gcCandidateGauges gaugesRefreshed !! unknownPoolLabel E0 = Some v
       ∧ ∀ n,
           countAt v n
           = numberOf (λ entry : AllocationBlock * allocation,
                         isGCCandidate entry.2 = true ∧ nodeLabel entry.2 = n)
               (poolEntries twoBlocks {[cidrA; cidrE]})
           ∧ (is_Some (v !! n)
              ↔ (unknownPoolLabel E0 ≠ unknownPoolLabel E0
                 ∧ is_Some (kubernetesNodesByCalicoName twoBlocks !! n))
                ∨ (0 < countAt v n)%Z).
Proof.
  apply (gc_candidate_gauge_counts E0 twoBlocks gaugesAtStart gaugesRefreshed
           (unknownPoolLabel E0) {[cidrA; cidrE]} ∅).
  - apply visitsAll_E0.
  - vm_compute; reflexivity.
  - vm_compute; reflexivity.
  - vm_compute; reflexivity.
  - vm_compute; reflexivity.
  - vm_compute; reflexivity.
Defined.

(** X18 at work: the blocks gauge of the unknown pool after a refresh in
    [twoBlocks]. *)
Lemma blocks_gauge_counts_witness :
  (∀ blockCIDR, blockCIDR ∈ ({[cidrA; cidrE]} : gset string) →
     is_Some (allBlocks twoBlocks !! blockCIDR))
  ∧ ∃ v, blocksGauges gaugesRefreshed !! unknownPoolLabel E0 = Some v
         ∧ ∀ n,
             countAt v n
             = numberOf (λ entry : string * AllocationBlock,
                           Metrics.affineNodeOf entry.2 = n)
                 (cachedBlocks twoBlocks {[cidrA; cidrE]})
             ∧ (is_Some (v !! n) ↔ (0 < countAt v n)%Z).
Proof.
  apply (blocks_gauge_counts E0 twoBlocks gaugesAtStart gaugesRefreshed
           (unknownPoolLabel E0) {[cidrA; cidrE]} ∅).
  - apply visitsAll_E0.
  - vm_compute; reflexivity.
  - vm_compute; reflexivity.
  - vm_compute; reflexivity.
  - vm_compute; reflexivity.
  - vm_compute; reflexivity.
Defined.

(** X19 at work: the legacy gauges after a refresh in [twoBlocks]. *)
Lemma legacy_gauges_count_witness :
  legacyAllocationsGauge gaugesRefreshed
  = (λ allocations : gmap string loc, Z.of_nat (size allocations))
      <$> allocationState.iter (allocationState twoBlocks)
  ∧ ∀ n,
      countAt (legacyBlocksGauge gaugesRefreshed) n
      = numberOf (λ entry : string * AllocationBlock,
                    Metrics.affineNodeOf entry.2 = n) (allCachedBlocks twoBlocks)
      ∧ countAt (legacyBorrowedGauge gaugesRefreshed) n
        = numberOf (λ entry : AllocationBlock * allocation,
                      isBorrowed entry.1 entry.2 = true ∧ nodeLabel entry.2 = n)
            (allPoolEntries twoBlocks).
Proof.
  apply (legacy_gauges_count E0 twoBlocks gaugesAtStart gaugesRefreshed).
  - apply visitsAll_E0.
  - vm_compute; reflexivity.
  - vm_compute; reflexivity.
  - vm_compute; reflexivity.
Defined.

(** X20 at work: a refresh in [twoBlocks]. *)
Lemma metrics_refresh_returns_witness :
  is_Some (Metrics.updateMetrics E0 twoBlocks gaugesAtStart).
Proof.
  apply (metrics_refresh_returns E0 twoBlocks gaugesAtStart).
  - apply visitsAll_E0.
  - apply reachable_twoBlocks.
Defined.

(** X21 at work: a pool [pool1] that has no vector and no blocks, at a
    refresh in [twoBlocks]. *)
Lemma metrics_refresh_keeps_vectors_witness :
  Forall2 (λ before after : option (gmap string Z), is_Some before ↔ is_Some after)
    (poolVectors gaugesAtStart "pool1") (poolVectors gaugesRefreshed "pool1")
  ∧ (blocksByPool (poolManager twoBlocks) !! "pool1" = None →
     poolVectors gaugesRefreshed "pool1" = poolVectors gaugesAtStart "pool1")
  ∧ (datastoreReady twoBlocks = false ∨ syncStatus twoBlocks ≠ InSync →
     gaugesRefreshed = gaugesAtStart).
Proof.
  apply (metrics_refresh_keeps_vectors E0 twoBlocks gaugesAtStart gaugesRefreshed "pool1").
  vm_compute; reflexivity.
Defined.

(** X22 at work: the configuration [configAuto] on [hostLinux]. *)
Lemma timeouts_by_field_witness :
  (∀ f, timeouts.Int f (timeouts.GetTimeouts E0 hostLinux configAuto)
        = match configAuto !! timeouts.Name f with
          | Some value => timeoutFor hostLinux f value
          | None => timeouts.Int f timeouts.DefaultTimeouts
          end)
  ∧ ∀ E', visitsAll E' →
          timeouts.GetTimeouts E' hostLinux configAuto
          = timeouts.GetTimeouts E0 hostLinux configAuto.
Proof. exact (timeouts_by_field E0 hostLinux configAuto visitsAll_E0). Defined.

(** X23 at work: the entry [Bogus] of [configAuto]. *)
Lemma timeouts_ignore_unknown_keys_witness :
  timeouts.GetTimeouts E0 hostLinux (<["Bogus" := "5s"]> (delete "Bogus" configAuto))
  = timeouts.GetTimeouts E0 hostLinux (delete "Bogus" configAuto)
  ∧ ((∀ k, is_Some (delete "Bogus" configAuto !! k) → timeouts.FieldByName k = None) →
     timeouts.GetTimeouts E0 hostLinux (delete "Bogus" configAuto)
     = timeouts.DefaultTimeouts).
Proof.
  exact (timeouts_ignore_unknown_keys E0 hostLinux (delete "Bogus" configAuto)
           "Bogus" "5s" visitsAll_E0 eq_refl).
Defined.

(** X24 at work: the established-connection timeout of [configAuto] is
    the 432000 seconds of the kernel. *)
Lemma timeouts_auto_witness :
  timeouts.Int timeouts.FieldTCPEstablished
    (timeouts.GetTimeouts E0 hostLinux configAuto)
  = (432000 * timeouts.Second)%Z.
Proof.
  apply (proj2 (proj2 (timeouts_auto E0 hostLinux configAuto
                         timeouts.FieldTCPEstablished visitsAll_E0 eq_refl eq_refl))
           "nf_conntrack_tcp_timeout_established" 432000%Z).
  - vm_compute; reflexivity.
  - vm_compute; reflexivity.
  - unfold timeouts.Second. lia.
Defined.

(** The states of the counterexamples are states of runs of the
    controller. *)
Lemma reachable_stale : reachable stale.
Proof.
  apply (reachable_turn E0 (SyncerUpdates [KVUpdate (KVBlock cidrA None)])
           (turn E_timeout SyncKick synced)); [|vm_compute; reflexivity].
  apply (reachable_turn E_timeout SyncKick synced);
    [apply reachable_synced|vm_compute; reflexivity].
Qed.

Lemma reachable_staleH : reachable staleH.
Proof.
  apply (reachable_turn E0 (SyncerUpdates [KVUpdate (KVBlock cidrA (Some blockH))])
           stale); [apply reachable_stale|vm_compute; reflexivity].
Qed.

Lemma reachable_reused : reachable reused.
Proof.
  apply (reachable_turn E_idle SyncKick
           (turn E0 (SyncerUpdates [KVUpdate (KVBlock cidrA (Some blockB))]) stale));
    [|vm_compute; reflexivity].
  apply (reachable_turn E0 (SyncerUpdates [KVUpdate (KVBlock cidrA (Some blockB))])
           stale); [apply reachable_stale|vm_compute; reflexivity].
Qed.

Lemma reachable_movedAffinity : reachable movedAffinity.
Proof.
  apply (reachable_turn E0
           (SyncerUpdates [KVUpdate (KVBlock cidrA (Some blockA));
                           KVUpdate (KVBlock cidrE (Some blockE));
                           KVUpdate (KVBlock cidrA (Some blockA2));
                           StatusUpdate InSync])
           (NewIPAMController E0 None)); [apply reachable_new|].
  vm_compute. reflexivity.
Qed.


